(** * A shallow embedding of the dungeon-crawler simulation engine

    The engine is JavaScript: the dungeon generator (engine/dungeon.js), the
    enemy state machine and its manager (engine/enemies.js), the combat
    resolver (engine/combat.js) and the per-frame controller (the [animate]
    closure of components/SimpleRaycaster.jsx).

    Conventions of the embedding.
    - A JavaScript number is an exact rational ([Q]); integers that the code
      only ever uses as integers (grid coordinates, tile codes, timestamps,
      identifiers) are [Z].  Over [Q] the rounding of IEEE doubles is not
      modelled, and the statements made of these definitions are those that
      do not depend on it.
    - Whether two positions see one another does depend on it: the
      line-of-sight test is also embedded over binary64 doubles (module
      [Double], on the primitive floats of the kernel), and the statements
      about its outcome are made of that embedding.
    - [Math.sqrt], [Math.cos] and [Math.sin] are "implementation-approximated"
      in ECMAScript; here they are rational approximations, [Math.sqrt] being
      exact whenever the root is rational.
    - [Date.now()] and [Math.random()] read an oracle that is threaded through
      the code by a small state monad.
    - A typed array is a [list Z]; reading outside of it gives [None]
      ([undefined]), writing outside of it does nothing. *)

From Stdlib Require Import ZArith QArith Qround Qabs Qminmax Lia Lqa List Bool String Sorted.
From Stdlib Require Floats.PrimFloat Floats.SpecFloat Floats.FloatOps Numbers.Cyclic.Int63.Uint63.
From stdpp Require Import base list gmap.

Set Default Proof Using "Type".

(* ===================================================================== *)
(** * Numbers and the [Math] object *)
(* ===================================================================== *)

Module JS.
Local Open Scope Q_scope.

(** [a < b], [a <= b], [a === b] on numbers. *)
Definition ltb (a b : Q) : bool := negb (Qle_bool b a).
Definition leb (a b : Q) : bool := Qle_bool a b.
Definition eqb (a b : Q) : bool := Qeq_bool a b.

(** [v || d] on numbers: [0] is the only falsy rational. *)
Definition or_else (v d : Q) : Q := if Qeq_bool v 0 then d else v.

(** [v || d] on a property that is a number or absent ([undefined]). *)
Definition or_else_opt (v : option Q) (d : Q) : Q :=
  match v with
  | Some q => or_else q d
  | None => d
  end.

Definition floor (q : Q) : Z := Qfloor q.
Definition ceil (q : Q) : Z := Qceiling q.
Definition abs (q : Q) : Q := Qabs q.

(** [Math.sqrt]: the root truncated to [sqrt_bits] binary digits below the
    denominator; exact on squares of rationals. *)
Definition sqrt_bits : Z := 64.
Definition sqrt (q : Q) : Q :=
  let r := Qred q in
  Qmake (Z.sqrt (Qnum r * Z.pos (Qden r) * 4 ^ sqrt_bits))
        (Qden r * Z.to_pos (2 ^ sqrt_bits)).

Definition PI : Q := 3141592653589793 # 1000000000000000.

(** Partial sums of the power series of cosine and sine. *)
Fixpoint series (n : nat) (k : Z) (term x2 acc : Q) : Q :=
  match n with
  | O => acc
  | S n' =>
      let term' := Qred (- term * x2 / inject_Z ((k + 1) * (k + 2))) in
      series n' (k + 2) term' x2 (Qred (acc + term'))
  end.
Definition cos (x : Q) : Q := series 24 0 1 (x * x) 1.
Definition sin (x : Q) : Q := series 24 1 x (x * x) x.

(** Numbers extended with the [Infinity] and [NaN] that [1 / 0] and
    [Infinity - Infinity] produce. *)
Inductive ext : Type := Fin (q : Q) | PInf | NaN.

(** [Math.abs(1 / d)]. *)
Definition abs_inv (d : Q) : ext :=
  if Qeq_bool d 0 then PInf else Fin (Qabs (1 / d)).
(** [q * e] for a non-negative factor [q]. *)
Definition ext_scale (q : Q) (e : ext) : ext :=
  match e with
  | Fin v => Fin (q * v)
  | PInf => if Qeq_bool q 0 then NaN else PInf
  | NaN => NaN
  end.
Definition ext_add (a b : ext) : ext :=
  match a, b with
  | Fin u, Fin v => Fin (u + v)
  | NaN, _ | _, NaN => NaN
  | _, _ => PInf
  end.
Definition ext_sub (a b : ext) : ext :=
  match a, b with
  | Fin u, Fin v => Fin (u - v)
  | PInf, Fin _ => PInf
  | _, _ => NaN
  end.
Definition ext_ltb (a b : ext) : bool :=
  match a, b with
  | Fin u, Fin v => ltb u v
  | Fin _, PInf => true
  | _, _ => false
  end.
(** [e >= d] for a finite [d]. *)
Definition ext_geb (e : ext) (d : Q) : bool :=
  match e with
  | Fin u => leb d u
  | PInf => true
  | NaN => false
  end.
End JS.

(** A typed array read: [mapData[i]]. *)
Definition mapAt (mapData : list Z) (i : Z) : option Z :=
  if (i <? 0)%Z then None else mapData !! Z.to_nat i.

(** [mapData[i] === v]. *)
Definition tileIs (mapData : list Z) (i : Z) (v : Z) : bool :=
  match mapAt mapData i with
  | Some t => (t =? v)%Z
  | None => false
  end.

(* ===================================================================== *)
(** * Doubles *)
(* ===================================================================== *)

(** The line-of-sight test of the enemies on binary64 doubles: every
    operation rounds to nearest, ties to even, as in JavaScript. *)
Module Double.
Import PrimFloat.

(** [Math.floor] of a double, as an integer; [None] for [NaN] and the
    infinities.  A finite double is [(-1)^s * m * 2^e]. *)
Definition floor (f : float) : option Z :=
  match FloatOps.Prim2SF f with
  | SpecFloat.S754_zero _ => Some 0%Z
  | SpecFloat.S754_finite s m e => Some (Z.shiftl (if s then Z.neg m else Z.pos m) e)
  | _ => None
  end.

(** [Math.ceil]. *)
Definition ceil (f : float) : option Z := Z.opp <$> floor (- f)%float.

(** The body of the [for] loop of [hasLineOfSight], from the counter [i],
    for [n] more rounds.  A sample with a coordinate that is [NaN] or
    infinite passes the test of the bounds only to read [undefined] from the
    grid, or fails it: the loop returns [false] either way. *)
Fixpoint sightLoop (n : nat) (i : float) (ex ey dirX dirY : float)
    (mapData : list Z) (mapSize : Z) : bool :=
  match n with
  | O => true
  | S n' =>
      let checkX := (ex + dirX * (i * 0.5))%float in
      let checkY := (ey + dirY * (i * 0.5))%float in
      match floor checkX, floor checkY with
      | Some mapX, Some mapY =>
          if ((mapX <? 0) || (mapX >=? mapSize) || (mapY <? 0) || (mapY >=? mapSize))%Z
          then false
          else if negb (tileIs mapData (mapY * mapSize + mapX) 0) then false
          else sightLoop n' (i + 1)%float ex ey dirX dirY mapData mapSize
      | _, _ => false
      end
  end.

(** [hasLineOfSight(targetX, targetY, mapData, mapSize)] of an enemy at
    [(x, y)].  For [steps = NaN] the test [i < steps] fails at once.  The
    counter [i] counts exactly up to [2^53] and stays there: for more steps
    than that, and for [steps = Infinity], the loop has no bound that its
    counter reaches, and the call answers [false] at the first sample off the
    floor or does not return; [None] stands for both. *)
Definition hasLineOfSight (x y targetX targetY : float)
    (mapData : list Z) (mapSize : Z) : option bool :=
  let dx := (targetX - x)%float in
  let dy := (targetY - y)%float in
  let distance := sqrt (dx * dx + dy * dy)%float in
  let dirX := (dx / distance)%float in
  let dirY := (dy / distance)%float in
  let steps := (distance * 2)%float in
  if is_nan steps then Some true
  else match ceil steps with
       | Some steps =>
           if (steps <=? 2 ^ 53)%Z
           then Some (sightLoop (Z.to_nat steps) 0%float x y dirX dirY mapData mapSize)
           else None
       | None => None
       end.

End Double.

(** An array read [l[i]] at an integer: [None] is [undefined]. *)
Definition elemAt {A : Type} (l : list A) (i : Z) : option A :=
  if (i <? 0)%Z then None else l !! Z.to_nat i.

(** A typed array write: [mapData[i] = v]. *)
Definition mapSet (mapData : list Z) (i : Z) (v : Z) : list Z :=
  if (i <? 0)%Z then mapData else <[Z.to_nat i := v]> mapData.

(* ===================================================================== *)
(** * The environment: clock and random source *)
(* ===================================================================== *)

(** [clock k] is the value of the [k]-th call of [Date.now()], [dice k] the
    value of the [k]-th call of [Math.random()]. *)
Record World : Type := mkWorld {
  clock : nat -> Z;
  ticks : nat;
  dice : nat -> Q;
  rolls : nat
}.

Definition M (A : Type) : Type := World -> A * World.
Definition ret {A} (a : A) : M A := fun w => (a, w).
Definition bind {A B} (c : M A) (k : A -> M B) : M B :=
  fun w => let '(a, w') := c w in k a w'.

Notation "x <- c ;; k" := (bind c (fun x => k))
  (at level 100, c at next level, right associativity).

(** [for (const a of l) s = f(s, a)] with effects. *)
Fixpoint forEachM {A S : Type} (f : S -> A -> M S) (s : S) (l : list A) : M S :=
  match l with
  | [] => ret s
  | a :: l' => s' <- f s a ;; forEachM f s' l'
  end.

(** [for (let v = a; v < b; v++) s = body(v, s)]. *)
Fixpoint forRange {S : Type} (n : nat) (v : Z) (body : Z -> S -> S) (s : S) : S :=
  match n with
  | O => s
  | S n' => forRange n' (v + 1)%Z body (body v s)
  end.
Definition forFromTo {S : Type} (a b : Z) (body : Z -> S -> S) (s : S) : S :=
  forRange (Z.to_nat (b - a)) a body s.

Definition Date_now : M Z :=
  fun w => (clock w (ticks w), mkWorld (clock w) (S (ticks w)) (dice w) (rolls w)).
Definition Math_random : M Q :=
  fun w => (dice w (rolls w), mkWorld (clock w) (ticks w) (dice w) (S (rolls w))).

(* ===================================================================== *)
(** * engine/enemies.js: the enemy state machine *)
(* ===================================================================== *)

(** [EnemyState]: the four string tags. *)
Inductive EnemyState : Type := IDLE | CHASE | ATTACK | DEAD.

#[global] Instance EnemyState_eq_dec : EqDecision EnemyState.
Proof. solve_decision. Defined.

(** A waypoint or a position [{x, y}]. *)
Record Point : Type := mkPoint { px : Q; py : Q }.

(** The [stats] object handed to the constructor of [Enemy]. *)
Record Stats : Type := mkStats {
  st_health : Q;
  st_damage : Q;
  st_speed : Q;
  st_detectionRange : Q;
  st_attackRange : Q;
  st_attackCooldown : Q
}.

(** An entry of [enemyTypes]: its [id], and those of its numbers that are
    present. *)
Record EnemyType : Type := mkEnemyType {
  et_id : string;
  et_health : option Q;
  et_damage : option Q;
  et_speed : option Q;
  et_detectionRange : option Q;
  et_attackRange : option Q;
  et_attackCooldown : option Q
}.

(** A node of the A* search: [{x, y, g, h, f, parent}]. *)
#[local] Unset Elimination Schemes.
Inductive PathNode : Type :=
  mkNode (nx ny g h f : Z) (parent : option PathNode).
#[local] Set Elimination Schemes.

Module PNode.
Definition x (n : PathNode) : Z := let 'mkNode a _ _ _ _ _ := n in a.
Definition y (n : PathNode) : Z := let 'mkNode _ a _ _ _ _ := n in a.
Definition g (n : PathNode) : Z := let 'mkNode _ _ a _ _ _ := n in a.
Definition h (n : PathNode) : Z := let 'mkNode _ _ _ a _ _ := n in a.
Definition f (n : PathNode) : Z := let 'mkNode _ _ _ _ a _ := n in a.
Definition parent (n : PathNode) : option PathNode :=
  let 'mkNode _ _ _ _ _ a := n in a.
Definition cell (n : PathNode) : Z * Z := (x n, y n).
End PNode.

Module Enemy.
Local Open Scope Q_scope.

Record t : Type := mk {
  id : Z;
  x : Q;
  y : Q;
  type : string;
  maxHealth : Q;
  health : Q;
  damage : Q;
  speed : Q;
  detectionRange : Q;
  attackRange : Q;
  attackCooldown : Q;
  state : EnemyState;
  lastAttackTime : Z;
  targetX : Q;
  targetY : Q;
  patrolTimer : Q;
  patrolDirection : Q;
  patrolChangeInterval : Q;
  path : list Point;
  pathUpdateTimer : Q;
  pathUpdateInterval : Q;
  direction : Z;
  animationFrame : Z
}.

(** Field assignments. *)
Definition set_pos (e : t) (nx ny : Q) : t :=
  mk (id e) nx ny (type e) (maxHealth e) (health e) (damage e) (speed e)
     (detectionRange e) (attackRange e) (attackCooldown e) (state e)
     (lastAttackTime e) (targetX e) (targetY e) (patrolTimer e)
     (patrolDirection e) (patrolChangeInterval e) (path e)
     (pathUpdateTimer e) (pathUpdateInterval e) (direction e)
     (animationFrame e).
Definition set_health (e : t) (v : Q) : t :=
  mk (id e) (x e) (y e) (type e) (maxHealth e) v (damage e) (speed e)
     (detectionRange e) (attackRange e) (attackCooldown e) (state e)
     (lastAttackTime e) (targetX e) (targetY e) (patrolTimer e)
     (patrolDirection e) (patrolChangeInterval e) (path e)
     (pathUpdateTimer e) (pathUpdateInterval e) (direction e)
     (animationFrame e).
Definition set_state (e : t) (s : EnemyState) : t :=
  mk (id e) (x e) (y e) (type e) (maxHealth e) (health e) (damage e) (speed e)
     (detectionRange e) (attackRange e) (attackCooldown e) s
     (lastAttackTime e) (targetX e) (targetY e) (patrolTimer e)
     (patrolDirection e) (patrolChangeInterval e) (path e)
     (pathUpdateTimer e) (pathUpdateInterval e) (direction e)
     (animationFrame e).
Definition set_lastAttackTime (e : t) (v : Z) : t :=
  mk (id e) (x e) (y e) (type e) (maxHealth e) (health e) (damage e) (speed e)
     (detectionRange e) (attackRange e) (attackCooldown e) (state e)
     v (targetX e) (targetY e) (patrolTimer e)
     (patrolDirection e) (patrolChangeInterval e) (path e)
     (pathUpdateTimer e) (pathUpdateInterval e) (direction e)
     (animationFrame e).
Definition set_patrol (e : t) (timer dir interval : Q) : t :=
  mk (id e) (x e) (y e) (type e) (maxHealth e) (health e) (damage e) (speed e)
     (detectionRange e) (attackRange e) (attackCooldown e) (state e)
     (lastAttackTime e) (targetX e) (targetY e) timer
     dir interval (path e)
     (pathUpdateTimer e) (pathUpdateInterval e) (direction e)
     (animationFrame e).
Definition set_path (e : t) (p : list Point) (timer : Q) : t :=
  mk (id e) (x e) (y e) (type e) (maxHealth e) (health e) (damage e) (speed e)
     (detectionRange e) (attackRange e) (attackCooldown e) (state e)
     (lastAttackTime e) (targetX e) (targetY e) (patrolTimer e)
     (patrolDirection e) (patrolChangeInterval e) p
     timer (pathUpdateInterval e) (direction e)
     (animationFrame e).
Definition set_direction (e : t) (d : Z) : t :=
  mk (id e) (x e) (y e) (type e) (maxHealth e) (health e) (damage e) (speed e)
     (detectionRange e) (attackRange e) (attackCooldown e) (state e)
     (lastAttackTime e) (targetX e) (targetY e) (patrolTimer e)
     (patrolDirection e) (patrolChangeInterval e) (path e)
     (pathUpdateTimer e) (pathUpdateInterval e) d
     (animationFrame e).

(** [constructor(id, x, y, type, stats)]. *)
Definition create (i : Z) (ex ey : Q) (ty : string) (stats : Stats) : M t :=
  r1 <- Math_random ;;
  r2 <- Math_random ;;
  let mh := JS.or_else (st_health stats) 50 in
  ret (mk i ex ey ty
          mh mh
          (JS.or_else (st_damage stats) 10)
          (JS.or_else (st_speed stats) (3 # 10))
          (JS.or_else (st_detectionRange stats) 8)
          (JS.or_else (st_attackRange stats) (3 # 2))
          (JS.or_else (st_attackCooldown stats) 1000)
          IDLE 0%Z ex ey
          0 (r1 * JS.PI * 2) (2000 + r2 * 2000)
          [] 0 500
          0%Z 0%Z).

(** [isAlive()]. *)
Definition isAlive (e : t) : bool := negb (bool_decide (state e = DEAD)).

(** [getDistance(x, y)]. *)
Definition getDistance (e : t) (tx ty : Q) : Q :=
  let dx := tx - x e in
  let dy := ty - y e in
  JS.sqrt (dx * dx + dy * dy).

(** [isValidPosition(x, y, mapData, mapSize)]. *)
Definition isValidPosition (vx vy : Q) (mapData : list Z) (mapSize : Z) : bool :=
  let mapX := JS.floor vx in
  let mapY := JS.floor vy in
  if ((mapX <? 0) || (mapX >=? mapSize) || (mapY <? 0) || (mapY >=? mapSize))%Z
  then false
  else tileIs mapData (mapY * mapSize + mapX) 0.

(** The body of the [for] loop of [hasLineOfSight], from index [i], for [n]
    more rounds. *)
Fixpoint sightLoop (n : nat) (i : Z) (ex ey dirX dirY : Q)
    (mapData : list Z) (mapSize : Z) : bool :=
  match n with
  | O => true
  | S n' =>
      let checkX := ex + dirX * (inject_Z i * (1 # 2)) in
      let checkY := ey + dirY * (inject_Z i * (1 # 2)) in
      let mapX := JS.floor checkX in
      let mapY := JS.floor checkY in
      if ((mapX <? 0) || (mapX >=? mapSize) || (mapY <? 0) || (mapY >=? mapSize))%Z
      then false
      else if negb (tileIs mapData (mapY * mapSize + mapX) 0) then false
      else sightLoop n' (i + 1) ex ey dirX dirY mapData mapSize
  end.

(** [hasLineOfSight(targetX, targetY, mapData, mapSize)], in exact
    arithmetic: the branch that [update] takes on it is all that is used of
    it.  What the test answers for two given positions is a matter of
    [Double.hasLineOfSight]. *)
Definition hasLineOfSight (e : t) (tx ty : Q) (mapData : list Z) (mapSize : Z) : bool :=
  let dx := tx - x e in
  let dy := ty - y e in
  let distance := JS.sqrt (dx * dx + dy * dy) in
  let dirX := dx / distance in
  let dirY := dy / distance in
  let steps := JS.ceil (distance * 2) in
  sightLoop (Z.to_nat steps) 0 (x e) (y e) dirX dirY mapData mapSize.

(** [updateDirection(dx, dy)]: 0 = front, 1 = back, 2 = left, 3 = right. *)
Definition updateDirection (e : t) (dx dy : Q) : t :=
  if JS.ltb (JS.abs dy) (JS.abs dx)
  then set_direction e (if JS.ltb 0 dx then 3 else 2)%Z
  else set_direction e (if JS.ltb 0 dy then 0 else 1)%Z.

(** [facePlayer(playerX, playerY)]. *)
Definition facePlayer (e : t) (playerX playerY : Q) : t :=
  updateDirection e (playerX - x e) (playerY - y e).

(** [tryAttack()]: the damage dealt and the enemy afterwards. *)
Definition tryAttack (e : t) : M (Q * t) :=
  now <- Date_now ;;
  if JS.leb (attackCooldown e) (inject_Z (now - lastAttackTime e))
  then ret (damage e, set_lastAttackTime e now)
  else ret (0, e).

(** [patrol(mapData, mapSize, deltaTime)]. *)
Definition patrol (e : t) (mapData : list Z) (mapSize : Z) (deltaTime : Q) : M t :=
  let timer := patrolTimer e + JS.or_else (deltaTime * 1000) 16 in
  e1 <- (if JS.leb (patrolChangeInterval e) timer
         then r1 <- Math_random ;;
              r2 <- Math_random ;;
              ret (set_patrol e 0 (r1 * JS.PI * 2) (2000 + r2 * 2000))
         else ret (set_patrol e timer (patrolDirection e) (patrolChangeInterval e))) ;;
  let patrolSpeed := speed e1 * (3 # 10) in
  let moveSpeed := patrolSpeed * deltaTime in
  let dirX := JS.cos (patrolDirection e1) in
  let dirY := JS.sin (patrolDirection e1) in
  let newX := x e1 + dirX * moveSpeed in
  let newY := y e1 + dirY * moveSpeed in
  if isValidPosition newX newY mapData mapSize
  then ret (updateDirection (set_pos e1 newX newY) dirX dirY)
  else r <- Math_random ;;
       ret (set_patrol e1 0 (r * JS.PI * 2) (patrolChangeInterval e1)).

(** [openSet.sort((a, b) => a.f - b.f)]: the sort of an array is stable. *)
Fixpoint insertByF (n : PathNode) (l : list PathNode) : list PathNode :=
  match l with
  | [] => [n]
  | m :: l' =>
      if (PNode.f n <=? PNode.f m)%Z then n :: m :: l'
      else m :: insertByF n l'
  end.
Definition sortByF (l : list PathNode) : list PathNode :=
  foldr insertByF [] l.

(** The reconstruction loop: [while (node.parent) { path.unshift(..) }]. *)
Fixpoint reconstruct (node : PathNode) (acc : list Point) : list Point :=
  match node with
  | mkNode cx cy _ _ _ (Some p) =>
      reconstruct p (mkPoint (inject_Z cx + (1 # 2)) (inject_Z cy + (1 # 2)) :: acc)
  | mkNode _ _ _ _ _ None => acc
  end.

(** The four neighbours, in the order of the source. *)
Definition neighbors (current : PathNode) : list (Z * Z) :=
  [ (PNode.x current + 1, PNode.y current);
    (PNode.x current - 1, PNode.y current);
    (PNode.x current, PNode.y current + 1);
    (PNode.x current, PNode.y current - 1) ]%Z.

(** The body of [for (const neighbor of neighbors)]: the open set after one
    neighbour has been looked at. *)
Definition visit (mapData : list Z) (mapSize endX endY : Z)
    (closedSet : gset (Z * Z)) (current : PathNode)
    (openSet : list PathNode) (nb : Z * Z) : list PathNode :=
  let '(qx, qy) := nb in
  if ((qx <? 0) || (qx >=? mapSize) || (qy <? 0) || (qy >=? mapSize))%Z
  then openSet
  else if bool_decide ((qx, qy) ∈ closedSet) then openSet
  else if negb (tileIs mapData (qy * mapSize + qx) 0) then openSet
  else
    let g := (PNode.g current + 1)%Z in
    let h := (Z.abs (qx - endX) + Z.abs (qy - endY))%Z in
    let f := (g + h)%Z in
    match List.find (fun n => (PNode.x n =? qx)%Z && (PNode.y n =? qy)%Z) openSet with
    | Some existing =>
        if (PNode.g existing <=? g)%Z then openSet
        else openSet ++ [mkNode qx qy g h f (Some current)]
    | None => openSet ++ [mkNode qx qy g h f (Some current)]
    end.

(** How the [while (openSet.length > 0)] loop of [findPath] ends: at the
    goal, with the open set empty, or at [if (closedSet.size > 200) break];
    [Unfinished] when [fuel] rounds were not enough. *)
Inductive Verdict : Type :=
| Reached (path : list Point)
| Exhausted
| OverBudget
| Unfinished.

Fixpoint search (fuel : nat) (mapData : list Z) (mapSize endX endY : Z)
    (openSet : list PathNode) (closedSet : gset (Z * Z)) : Verdict :=
  match fuel with
  | O => Unfinished
  | S fuel' =>
      match sortByF openSet with
      | [] => Exhausted
      | current :: rest =>
          if ((PNode.x current =? endX) && (PNode.y current =? endY))%Z
          then Reached (reconstruct current [])
          else
            let closedSet' := {[ PNode.cell current ]} ∪ closedSet in
            let openSet' :=
              foldl (visit mapData mapSize endX endY closedSet' current)
                    rest (neighbors current) in
            if (200 <? size closedSet')%nat then OverBudget
            else search fuel' mapData mapSize endX endY openSet' closedSet'
      end
  end.

(** Every run of the loop ends within this many rounds (see
    [search_verdict]). *)
Definition searchRounds : nat := 806.

(** The loop of [findPath(targetX, targetY, mapData, mapSize)]. *)
Definition findPathVerdict (e : t) (tx ty : Q) (mapData : list Z) (mapSize : Z) : Verdict :=
  let startX := JS.floor (x e) in
  let startY := JS.floor (y e) in
  let endX := JS.floor tx in
  let endY := JS.floor ty in
  search searchRounds mapData mapSize endX endY
         [mkNode startX startY 0 0 0 None] ∅.

(** [findPath(targetX, targetY, mapData, mapSize)]: the path when the goal
    was reached, [[]] ("No path found") after the loop. *)
Definition findPath (e : t) (tx ty : Q) (mapData : list Z) (mapSize : Z) : list Point :=
  match findPathVerdict e tx ty mapData mapSize with
  | Reached p => p
  | _ => []
  end.

(** [chasePlayer(playerX, playerY, mapData, mapSize, deltaTime)]; [fuel]
    bounds the depth of the tail call made after a waypoint is dropped.  The
    length of the path held at the call is always enough (see
    [chaseLoop_fuel]). *)
Fixpoint chaseLoop (fuel : nat) (e : t) (playerX playerY : Q)
    (mapData : list Z) (mapSize : Z) (deltaTime : Q) : M t :=
  let timer := pathUpdateTimer e + JS.or_else (deltaTime * 1000) 16 in
  let e1 :=
    if JS.leb (pathUpdateInterval e) timer || (length (path e) =? 0)%nat
    then set_path e (findPath e playerX playerY mapData mapSize) 0
    else set_path e (path e) timer in
  match path e1 with
  | [] => ret e1
  | target :: rest =>
      let dx := px target - x e1 in
      let dy := py target - y e1 in
      let distance := JS.sqrt (dx * dx + dy * dy) in
      if JS.ltb distance (3 # 10) then
        let e2 := set_path e1 rest (pathUpdateTimer e1) in
        match rest, fuel with
        | [], _ => ret e2
        | _ :: _, S fuel' =>
            chaseLoop fuel' e2 playerX playerY mapData mapSize deltaTime
        | _ :: _, O => ret e2
        end
      else
        let dirX := dx / distance in
        let dirY := dy / distance in
        let moveSpeed := speed e1 * deltaTime in
        (* [if (Math.random() < 0.01) console.log(..)] *)
        _ <- Math_random ;;
        let newX := x e1 + dirX * moveSpeed in
        let newY := y e1 + dirY * moveSpeed in
        if isValidPosition newX newY mapData mapSize
        then ret (updateDirection (set_pos e1 newX newY) dirX dirY)
        else ret e1
  end.

Definition chasePlayer (e : t) (playerX playerY : Q)
    (mapData : list Z) (mapSize : Z) (deltaTime : Q) : M t :=
  chaseLoop (length (path e)) e playerX playerY mapData mapSize deltaTime.

(** [update(playerX, playerY, mapData, mapSize, deltaTime)]. *)
Definition update (e : t) (playerX playerY : Q)
    (mapData : list Z) (mapSize : Z) (deltaTime : Q) : M t :=
  if bool_decide (state e = DEAD) then ret e
  else
    let distanceToPlayer := getDistance e playerX playerY in
    match state e with
    | IDLE =>
        if JS.ltb distanceToPlayer (detectionRange e)
           && hasLineOfSight e playerX playerY mapData mapSize
        then ret (set_state e CHASE)
        else patrol e mapData mapSize deltaTime
    | CHASE =>
        if JS.ltb (detectionRange e * (3 # 2)) distanceToPlayer
        then ret (set_state e IDLE)
        else if JS.ltb distanceToPlayer (attackRange e)
        then ret (set_state e ATTACK)
        else if hasLineOfSight e playerX playerY mapData mapSize
        then chasePlayer e playerX playerY mapData mapSize deltaTime
        else ret e
    | ATTACK =>
        if JS.ltb (attackRange e * (6 # 5)) distanceToPlayer
        then ret (set_state e CHASE)
        else
          r <- tryAttack (facePlayer e playerX playerY) ;;
          ret (snd r)
    | DEAD => ret e
    end.

(** [takeDamage(amount)]: whether the enemy died, and the enemy afterwards. *)
Definition takeDamage (e : t) (amount : Q) : bool * t :=
  if bool_decide (state e = DEAD) then (false, e)
  else
    let e1 := set_health e (health e - amount) in
    if JS.leb (health e1) 0
    then (true, set_state (set_health e1 0) DEAD)
    else if bool_decide (state e1 = IDLE)
    then (false, set_state e1 CHASE)
    else (false, e1).

End Enemy.

Module EnemyManager.
Local Open Scope Q_scope.

Record t : Type := mk {
  enemies : list Enemy.t;
  nextId : Z
}.

(** [constructor()]. *)
Definition create : t := mk [] 0.

(** [clear()]. *)
Definition clear (m : t) : t := mk [] (nextId m).

(** How a call that can throw ends; the manager is the one it leaves behind
    in both cases. *)
Inductive Outcome : Type :=
| Returned (m : t)
| Threw (m : t).

(** The callback of [spawnPositions.forEach] in [spawnEnemies], from [index]
    on.  [index % enemyTypes.length] is [NaN] for an empty array, the entry
    read there is [undefined], and reading its [id] throws a TypeError; the
    argument [this.nextId++] has been evaluated by then. *)
Fixpoint spawnEach (enemyTypes : list EnemyType) (index : nat)
    (spawnPositions : list (Z * Z)) (m : t) : M Outcome :=
  match spawnPositions with
  | [] => ret (Returned m)
  | pos :: rest =>
      let entry := if (length enemyTypes =? 0)%nat then None
                   else enemyTypes !! (index mod length enemyTypes)%nat in
      match entry with
      | None => ret (Threw (mk (enemies m) (nextId m + 1)))
      | Some enemyType =>
          enemy <- Enemy.create (nextId m)
                     (inject_Z (fst pos) + (1 # 2))
                     (inject_Z (snd pos) + (1 # 2))
                     (et_id enemyType)
                     (mkStats
                        (JS.or_else_opt (et_health enemyType) 50)
                        (JS.or_else_opt (et_damage enemyType) 10)
                        (JS.or_else_opt
                           (match et_speed enemyType with
                            | Some v => Some (v * 10)
                            | None => None
                            end) (3 # 10))
                        (JS.or_else_opt (et_detectionRange enemyType) 8)
                        (JS.or_else_opt (et_attackRange enemyType) (3 # 2))
                        (JS.or_else_opt (et_attackCooldown enemyType) 1000)) ;;
          spawnEach enemyTypes (S index) rest
                    (mk (enemies m ++ [enemy]) (nextId m + 1))
      end
  end.

(** [spawnEnemies(spawnPositions, enemyTypes)]. *)
Definition spawnEnemies (m : t) (spawnPositions : list (Z * Z))
    (enemyTypes : list EnemyType) : M Outcome :=
  spawnEach enemyTypes 0 spawnPositions (mk [] (nextId m)).

(** The callback of [this.enemies.forEach] in [update]: the running total
    and the enemies already visited. *)
Definition updateOne (playerX playerY : Q) (mapData : list Z) (mapSize : Z)
    (deltaTime : Q) (acc : Q * list Enemy.t) (enemy : Enemy.t) : M (Q * list Enemy.t) :=
  let '(totalDamage, seen) := acc in
  if Enemy.isAlive enemy then
    e1 <- Enemy.update enemy playerX playerY mapData mapSize deltaTime ;;
    if bool_decide (Enemy.state e1 = ATTACK) then
      r <- Enemy.tryAttack e1 ;;
      ret (totalDamage + fst r, seen ++ [snd r])
    else ret (totalDamage, seen ++ [e1])
  else ret (totalDamage, seen ++ [enemy]).

(** [update(playerX, playerY, mapData, mapSize, deltaTime)]: the total damage
    and the manager afterwards. *)
Definition update (m : t) (playerX playerY : Q) (mapData : list Z) (mapSize : Z)
    (deltaTime : Q) : M (Q * t) :=
  r <- forEachM (updateOne playerX playerY mapData mapSize deltaTime)
                (0, []) (enemies m) ;;
  ret (fst r, mk (snd r) (nextId m)).

(** [getAliveEnemies()]. *)
Definition getAliveEnemies (m : t) : list Enemy.t :=
  List.filter Enemy.isAlive (enemies m).

(** [removeDeadEnemies()]. *)
Definition removeDeadEnemies (m : t) : t :=
  mk (List.filter Enemy.isAlive (enemies m)) (nextId m).

(** [getAllEnemies()]. *)
Definition getAllEnemies (m : t) : list Enemy.t := enemies m.

(** [allEnemiesDead()]. *)
Definition allEnemiesDead (m : t) : bool :=
  forallb (fun e => negb (Enemy.isAlive e)) (enemies m).

End EnemyManager.

(* ===================================================================== *)
(** * engine/combat.js: the combat resolver *)
(* ===================================================================== *)

(** [mapData[i] > 0]. *)
Definition tilePositive (mapData : list Z) (i : Z) : bool :=
  match mapAt mapData i with
  | Some t => (0 <? t)%Z
  | None => false
  end.

Module Combat.
Local Open Scope Q_scope.

(** The DDA loop of [hasWallBetween], for [n] more rounds. *)
Fixpoint ddaLoop (n : nat) (mapX mapY stepX stepY : Z)
    (sideDistX sideDistY deltaDistX deltaDistY : JS.ext) (distance : Q)
    (mapData : list Z) (mapSize : Z) : bool :=
  match n with
  | O => false
  | S n' =>
      let '(sideDistX', sideDistY', mapX', mapY', currentDist) :=
        if JS.ext_ltb sideDistX sideDistY
        then let sx := JS.ext_add sideDistX deltaDistX in
             (sx, sideDistY, (mapX + stepX)%Z, mapY, JS.ext_sub sx deltaDistX)
        else let sy := JS.ext_add sideDistY deltaDistY in
             (sideDistX, sy, mapX, (mapY + stepY)%Z, JS.ext_sub sy deltaDistY) in
      if JS.ext_geb currentDist distance then false
      else if ((mapX' <? 0) || (mapX' >=? mapSize) || (mapY' <? 0) || (mapY' >=? mapSize))%Z
      then true
      else if tilePositive mapData (mapY' * mapSize + mapX') then true
      else ddaLoop n' mapX' mapY' stepX stepY sideDistX' sideDistY'
                   deltaDistX deltaDistY distance mapData mapSize
  end.

(** [hasWallBetween(x1, y1, x2, y2, mapData, mapSize)], in exact arithmetic
    (with the [Infinity] and [NaN] of a division by 0).  In doubles the
    distances along the ray are rounded and the test can answer otherwise;
    what is stated of a shot holds whatever this test answers. *)
Definition hasWallBetween (x1 y1 x2 y2 : Q) (mapData : list Z) (mapSize : Z) : bool :=
  let dx := x2 - x1 in
  let dy := y2 - y1 in
  let distance := JS.sqrt (dx * dx + dy * dy) in
  if JS.ltb distance (1 # 100) then false
  else
    let rayDirX := dx / distance in
    let rayDirY := dy / distance in
    let mapX := JS.floor x1 in
    let mapY := JS.floor y1 in
    let deltaDistX := JS.abs_inv rayDirX in
    let deltaDistY := JS.abs_inv rayDirY in
    let '(stepX, sideDistX) :=
      if JS.ltb rayDirX 0
      then ((-1)%Z, JS.ext_scale (x1 - inject_Z mapX) deltaDistX)
      else (1%Z, JS.ext_scale (inject_Z mapX + 1 - x1) deltaDistX) in
    let '(stepY, sideDistY) :=
      if JS.ltb rayDirY 0
      then ((-1)%Z, JS.ext_scale (y1 - inject_Z mapY) deltaDistY)
      else (1%Z, JS.ext_scale (inject_Z mapY + 1 - y1) deltaDistY) in
    ddaLoop 64 mapX mapY stepX stepY sideDistX sideDistY deltaDistX deltaDistY
            distance mapData mapSize.

(** The result object of [raycastShoot]; the enemy is named by its index in
    the array that was passed in. *)
Record Shot : Type := mkShot {
  hit : bool;
  enemy : option nat;
  distance : Q
}.

(** [if (mapData && mapSize > 0) { if (hasWallBetween(..)) .. }]. *)
Definition wallBlocks (playerX playerY : Q) (target : Enemy.t)
    (mapData : option (list Z)) (mapSize : Z) : bool :=
  match mapData with
  | Some grid =>
      (0 <? mapSize)%Z
      && hasWallBetween playerX playerY (Enemy.x target) (Enemy.y target) grid mapSize
  | None => false
  end.

(** The body of [for (const enemy of enemies)]: [closestEnemy] and
    [closestDistance] after the enemy at index [i] has been looked at. *)
Definition aimAt (playerX playerY dirX dirY maxDistance : Q)
    (mapData : option (list Z)) (mapSize : Z)
    (acc : option nat * Q) (item : nat * Enemy.t) : option nat * Q :=
  let '(closestEnemy, closestDistance) := acc in
  let '(i, target) := item in
  if negb (Enemy.isAlive target) then acc
  else
    let dx := Enemy.x target - playerX in
    let dy := Enemy.y target - playerY in
    let dist := JS.sqrt (dx * dx + dy * dy) in
    if JS.ltb maxDistance dist then acc
    else if wallBlocks playerX playerY target mapData mapSize then acc
    else
      let ndx := dx / dist in
      let ndy := dy / dist in
      let dot := dirX * ndx + dirY * ndy in
      if JS.ltb (9 # 10) dot then
        let perpDist := JS.abs (dx * dirY - dy * dirX) in
        if JS.ltb perpDist (1 # 2) && JS.ltb dist closestDistance
        then (Some i, dist)
        else acc
      else acc.

(** The enemies of an array together with their indices. *)
Definition indexed {A} (l : list A) : list (nat * A) :=
  combine (seq 0 (length l)) l.

(** [raycastShoot(playerX, playerY, dirX, dirY, enemies, maxDistance,
    mapData, mapSize)]. *)
Definition raycastShoot (playerX playerY dirX dirY : Q) (enemies : list Enemy.t)
    (maxDistance : Q) (mapData : option (list Z)) (mapSize : Z) : Shot :=
  let '(closestEnemy, closestDistance) :=
    foldl (aimAt playerX playerY dirX dirY maxDistance mapData mapSize)
          (None, maxDistance) (indexed enemies) in
  mkShot (bool_decide (closestEnemy <> None)) closestEnemy closestDistance.

(** [damageEnemy(enemy, damage)] on an enemy that is not [null]. *)
Definition damageEnemy (target : Enemy.t) (dmg : Q) : bool * Enemy.t :=
  if negb (Enemy.isAlive target) then (false, target)
  else Enemy.takeDamage target dmg.

(** [calculatePlayerDamage(currentHealth, damage, maxHealth)], the fields that
    are numbers or booleans. *)
Definition calculatePlayerDamage (currentHealth dmg maxHealth : Q) : Q * Q * bool :=
  let newHealth := Qmax 0 (currentHealth - dmg) in
  (newHealth, newHealth / maxHealth * 100, JS.leb newHealth 0).

(** [getCrosshairState(..)]: whether the player aims at an enemy. *)
Definition getCrosshairState (playerX playerY dirX dirY : Q) (enemies : list Enemy.t)
    (mapData : option (list Z)) (mapSize : Z) : Shot :=
  raycastShoot playerX playerY dirX dirY enemies 15 mapData mapSize.

(** The keys and the entries of [WEAPONS]. *)
Inductive WeaponName : Type := pistol | shotgun | rifle.

Record Weapon : Type := mkWeapon {
  name : string;
  damage : Q;
  fireRate : Z;
  range : Q
}.

Definition WEAPONS (w : WeaponName) : Weapon :=
  match w with
  | pistol => mkWeapon "Pistol" 25 500 20
  | shotgun => mkWeapon "Shotgun" 50 1000 10
  | rifle => mkWeapon "Rifle" 35 300 25
  end.

End Combat.

Module CombatManager.
Local Open Scope Q_scope.

Record t : Type := mk {
  weapon : Combat.WeaponName;
  lastShotTime : Z;
  kills : Z
}.

(** [constructor(weapon = 'pistol')]. *)
Definition create (w : Combat.WeaponName) : t := mk w 0 0.

(** What [shoot] returns. *)
Inductive Outcome : Type :=
| OnCooldown                                   (* {fired: false, reason: 'cooldown'} *)
| Hit (target : nat) (died : bool) (dmg dist : Q)   (* {fired: true, hit: true, ..} *)
| Miss.                                        (* {fired: true, hit: false} *)

Definition fired (o : Outcome) : bool :=
  match o with
  | OnCooldown => false
  | _ => true
  end.

(** [shoot(playerX, playerY, dirX, dirY, enemies, mapData, mapSize)]: the
    result, the manager and the enemies afterwards. *)
Definition shoot (m : t) (playerX playerY dirX dirY : Q) (enemies : list Enemy.t)
    (mapData : option (list Z)) (mapSize : Z) : M (Outcome * t * list Enemy.t) :=
  now <- Date_now ;;
  let weaponStats := Combat.WEAPONS (weapon m) in
  if (now - lastShotTime m <? Combat.fireRate weaponStats)%Z
  then ret (OnCooldown, m, enemies)
  else
    let result :=
      Combat.raycastShoot playerX playerY dirX dirY enemies
                          (Combat.range weaponStats) mapData mapSize in
    match Combat.enemy result with
    | Some i =>
        match enemies !! i with
        | Some target =>
            let '(died, target') := Combat.damageEnemy target (Combat.damage weaponStats) in
            let kills' := if died then (kills m + 1)%Z else kills m in
            ret (Hit i died (Combat.damage weaponStats) (Combat.distance result),
                 mk (weapon m) now kills',
                 <[i := target']> enemies)
        | None => ret (Miss, mk (weapon m) now (kills m), enemies)
        end
    | None => ret (Miss, mk (weapon m) now (kills m), enemies)
    end.

(** [setWeapon(weaponName)] for a name of the table. *)
Definition setWeapon (m : t) (w : Combat.WeaponName) : bool * t :=
  (true, mk w (lastShotTime m) (kills m)).

(** [canShoot()]. *)
Definition canShoot (m : t) : M bool :=
  now <- Date_now ;;
  ret (Combat.fireRate (Combat.WEAPONS (weapon m)) <=? now - lastShotTime m)%Z.

(** [getCooldownProgress()]. *)
Definition getCooldownProgress (m : t) : M Q :=
  now <- Date_now ;;
  let weaponStats := Combat.WEAPONS (weapon m) in
  let elapsed := (now - lastShotTime m)%Z in
  ret (Qmin 1 (inject_Z elapsed / inject_Z (Combat.fireRate weaponStats))).

End CombatManager.

(* ===================================================================== *)
(** * engine/dungeon.js: the dungeon generator *)
(* ===================================================================== *)

Module Room.
Record t : Type := mk {
  x : Z;
  y : Z;
  width : Z;
  height : Z;
  centerX : Z;
  centerY : Z
}.

(** [constructor(x, y, width, height)]. *)
Definition create (rx ry w h : Z) : t :=
  mk rx ry w h
     (JS.floor (inject_Z rx + inject_Z w / 2))
     (JS.floor (inject_Z ry + inject_Z h / 2)).
End Room.

(** A node of the partition tree.  [split] gives a node both children at
    once, so a node has either none ([Leaf]) or both ([Branch]). *)
Inductive BSPNode : Type :=
| Leaf (x y width height : Z) (room : option Room.t)
| Branch (x y width height : Z) (room : option Room.t)
         (leftChild rightChild : BSPNode).

Module BSP.

(** [split(minRoomSize)]: whether the node was split, and the node
    afterwards. *)
Definition split (n : BSPNode) (minRoomSize : Z) : M (bool * BSPNode) :=
  match n with
  | Branch _ _ _ _ _ _ _ => ret (false, n)
  | Leaf x y width height room =>
      r1 <- Math_random ;;
      let splitHorizontally := JS.ltb (1 # 2) r1 in
      let max := ((if splitHorizontally then height else width) - minRoomSize)%Z in
      if (max <=? minRoomSize)%Z then ret (false, n)
      else
        r2 <- Math_random ;;
        let split := (JS.floor (r2 * inject_Z (max - minRoomSize)) + minRoomSize)%Z in
        if splitHorizontally
        then ret (true, Branch x y width height room
                          (Leaf x y width split None)
                          (Leaf x (y + split) width (height - split) None))
        else ret (true, Branch x y width height room
                          (Leaf x y split height None)
                          (Leaf (x + split) y (width - split) height None))
  end.

(** [createRoom(minRoomSize, maxRoomSize)]. *)
Fixpoint createRoom (n : BSPNode) (minRoomSize maxRoomSize : Z) : M BSPNode :=
  match n with
  | Branch x y width height room leftChild rightChild =>
      l <- createRoom leftChild minRoomSize maxRoomSize ;;
      r <- createRoom rightChild minRoomSize maxRoomSize ;;
      ret (Branch x y width height room l r)
  | Leaf x y width height _ =>
      r1 <- Math_random ;;
      let roomWidth :=
        Z.min (JS.floor (r1 * inject_Z (maxRoomSize - minRoomSize)) + minRoomSize)
              (width - 2) in
      r2 <- Math_random ;;
      let roomHeight :=
        Z.min (JS.floor (r2 * inject_Z (maxRoomSize - minRoomSize)) + minRoomSize)
              (height - 2) in
      r3 <- Math_random ;;
      let roomX := (x + JS.floor (r3 * inject_Z (width - roomWidth - 1)) + 1)%Z in
      r4 <- Math_random ;;
      let roomY := (y + JS.floor (r4 * inject_Z (height - roomHeight - 1)) + 1)%Z in
      ret (Leaf x y width height (Some (Room.create roomX roomY roomWidth roomHeight)))
  end.

(** [getRoom()]. *)
Fixpoint getRoom (n : BSPNode) : M (option Room.t) :=
  match n with
  | Leaf _ _ _ _ room => ret room
  | Branch _ _ _ _ (Some room) _ _ => ret (Some room)
  | Branch _ _ _ _ None leftChild rightChild =>
      leftRoom <- getRoom leftChild ;;
      rightRoom <- getRoom rightChild ;;
      match leftRoom, rightRoom with
      | None, _ => ret rightRoom
      | _, None => ret leftRoom
      | Some _, Some _ =>
          c <- Math_random ;;
          ret (if JS.ltb (1 # 2) c then leftRoom else rightRoom)
      end
  end.

(** [getAllRooms()]. *)
Fixpoint getAllRooms (n : BSPNode) : list Room.t :=
  match n with
  | Leaf _ _ _ _ room => option_list room
  | Branch _ _ _ _ room leftChild rightChild =>
      option_list room ++ getAllRooms leftChild ++ getAllRooms rightChild
  end.

(** A reference to a node of the tree is the way down to it from the root:
    [false] for [leftChild], [true] for [rightChild]. *)
Definition Ref : Type := list bool.

Fixpoint nodeAt (n : BSPNode) (p : Ref) {struct p} : option BSPNode :=
  match p, n with
  | [], _ => Some n
  | b :: p', Branch _ _ _ _ _ l r => nodeAt (if b then r else l) p'
  | _ :: _, Leaf _ _ _ _ _ => None
  end.

(** The tree after the node at [p] has been mutated into [n']. *)
Fixpoint replaceAt (n : BSPNode) (p : Ref) (n' : BSPNode) {struct p} : BSPNode :=
  match p, n with
  | [], _ => n'
  | b :: p', Branch x y w h room l r =>
      if b then Branch x y w h room l (replaceAt r p' n')
      else Branch x y w h room (replaceAt l p' n') r
  | _ :: _, Leaf _ _ _ _ _ => n
  end.

(** [index = containers.indexOf(c); if (index > -1) containers.splice(index, 1)]. *)
Fixpoint removeFirst (c : Ref) (containers : list Ref) : list Ref :=
  match containers with
  | [] => []
  | d :: rest => if bool_decide (c = d) then rest else d :: removeFirst c rest
  end.

End BSP.

Module Dungeon.

Record t : Type := mk {
  mapData : list Z;
  size : Z;
  rooms : list Room.t;
  playerStart : Z * Z;
  exit : Z * Z
}.

(** [if (x >= 0 && x < size && y >= 0 && y < size) mapData[y * size + x] = v]. *)
Definition put (size x y v : Z) (mapData : list Z) : list Z :=
  if ((0 <=? x) && (x <? size) && (0 <=? y) && (y <? size))%Z
  then mapSet mapData (y * size + x) v
  else mapData.

(** [createHorizontalTunnel(x1, x2, y, mapData, size)]. *)
Definition createHorizontalTunnel (x1 x2 y : Z) (mapData : list Z) (size : Z) : list Z :=
  let minX := Z.min x1 x2 in
  let maxX := Z.max x1 x2 in
  forFromTo minX (maxX + 1) (fun x m => put size x y 0 m) mapData.

(** [createVerticalTunnel(y1, y2, x, mapData, size)]. *)
Definition createVerticalTunnel (y1 y2 x : Z) (mapData : list Z) (size : Z) : list Z :=
  let minY := Z.min y1 y2 in
  let maxY := Z.max y1 y2 in
  forFromTo minY (maxY + 1) (fun y m => put size x y 0 m) mapData.

(** [createCorridor(room1, room2, mapData, size)]. *)
Definition createCorridor (room1 room2 : Room.t) (mapData : list Z) (size : Z) : M (list Z) :=
  let x1 := Room.centerX room1 in
  let y1 := Room.centerY room1 in
  let x2 := Room.centerX room2 in
  let y2 := Room.centerY room2 in
  c <- Math_random ;;
  if JS.ltb (1 # 2) c
  then ret (createVerticalTunnel y1 y2 x2
              (createHorizontalTunnel x1 x2 y1 mapData size) size)
  else ret (createHorizontalTunnel x1 x2 y2
              (createVerticalTunnel y1 y2 x1 mapData size) size).

(** [connectRooms(node, mapData, size)]. *)
Fixpoint connectRooms (node : BSPNode) (mapData : list Z) (size : Z) : M (list Z) :=
  match node with
  | Leaf _ _ _ _ _ => ret mapData
  | Branch _ _ _ _ _ leftChild rightChild =>
      m1 <- connectRooms leftChild mapData size ;;
      m2 <- connectRooms rightChild m1 size ;;
      leftRoom <- BSP.getRoom leftChild ;;
      rightRoom <- BSP.getRoom rightChild ;;
      match leftRoom, rightRoom with
      | Some a, Some b => createCorridor a b m2 size
      | _, _ => ret m2
      end
  end.

(** The body of [for (const container of currentContainers)]: the tree and
    the array [containers] after one container has been looked at. *)
Definition splitContainer (minRoomSize : Z) (st : BSPNode * list BSP.Ref)
    (container : BSP.Ref) : M (BSPNode * list BSP.Ref) :=
  let '(root, containers) := st in
  match BSP.nodeAt root container with
  | None => ret st
  | Some node =>
      r <- BSP.split node minRoomSize ;;
      if fst r
      then ret (BSP.replaceAt root container (snd r),
                BSP.removeFirst container
                  (containers ++ [container ++ [false]; container ++ [true]]))
      else ret st
  end.

(** The [for (let i = 0; i < recursionDepth; i++)] loop. *)
Fixpoint splitRounds (n : nat) (minRoomSize : Z) (st : BSPNode * list BSP.Ref)
    : M (BSPNode * list BSP.Ref) :=
  match n with
  | O => ret st
  | S n' =>
      st' <- forEachM (splitContainer minRoomSize) st (snd st) ;;
      splitRounds n' minRoomSize st'
  end.

(** The carving of one room. *)
Definition carveRoom (size : Z) (mapData : list Z) (room : Room.t) : list Z :=
  forFromTo (Room.x room) (Room.x room + Room.width room)
    (fun x m =>
       forFromTo (Room.y room) (Room.y room + Room.height room)
         (fun y m' => put size x y 0 m') m)
    mapData.

(** [generateDungeon(size, minRoomSize, maxRoomSize, recursionDepth)]; [None]
    stands for the [TypeError] of reading [rooms[0].centerX] in an empty
    array.  The parameter [seed] is not read by the source. *)
Definition generateDungeon (size minRoomSize maxRoomSize recursionDepth : Z)
    : M (option t) :=
  let mapData := repeat 1%Z (Z.to_nat (size * size)) in
  let root := Leaf 0 0 size size None in
  st <- splitRounds (Z.to_nat recursionDepth) minRoomSize (root, [[]]) ;;
  root1 <- BSP.createRoom (fst st) minRoomSize maxRoomSize ;;
  let rooms := BSP.getAllRooms root1 in
  let mapData1 := foldl (carveRoom size) mapData rooms in
  mapData2 <- connectRooms root1 mapData1 size ;;
  match rooms !! 0%nat, rooms !! (length rooms - 1)%nat with
  | Some startRoom, Some exitRoom =>
      let playerStart := (Room.centerX startRoom, Room.centerY startRoom) in
      let exit := (Room.centerX exitRoom, Room.centerY exitRoom) in
      ret (Some (mk (put size (fst exit) (snd exit) 9 mapData2)
                    size rooms playerStart exit))
  | _, _ => ret None
  end.

(** The body of the [for] loop of [getEnemySpawnPositions]: one position;
    [None] stands for the [TypeError] of reading [room.x] when
    [availableRooms[..]] is [undefined]. *)
Definition spawnPosition (availableRooms : list Room.t) : M (option (Z * Z)) :=
  r1 <- Math_random ;;
  let index := JS.floor (r1 * inject_Z (Z.of_nat (length availableRooms))) in
  match elemAt availableRooms index with
  | None => ret None
  | Some room =>
      r2 <- Math_random ;;
      let x := (Room.x room + JS.floor (r2 * inject_Z (Room.width room)))%Z in
      r3 <- Math_random ;;
      let y := (Room.y room + JS.floor (r3 * inject_Z (Room.height room)))%Z in
      ret (Some (x, y))
  end.

(** [for (let i = 0; i < count; i++) { .. spawnPositions.push({x, y}) }], for
    [n] more rounds. *)
Fixpoint spawnLoop (n : nat) (availableRooms : list Room.t)
    (spawnPositions : list (Z * Z)) : M (option (list (Z * Z))) :=
  match n with
  | O => ret (Some spawnPositions)
  | S n' =>
      p <- spawnPosition availableRooms ;;
      match p with
      | None => ret None
      | Some q => spawnLoop n' availableRooms (spawnPositions ++ [q])
      end
  end.

(** [getEnemySpawnPositions(rooms, playerStart, exit, count)]; the source
    reads neither [playerStart] nor [exit].  [rooms.slice(1, -1)] is the list
    without its first and its last element. *)
Definition getEnemySpawnPositions (rooms : list Room.t) (playerStart exit : Z * Z)
    (count : Z) : M (option (list (Z * Z))) :=
  let availableRooms := take (length rooms - 2) (drop 1 rooms) in
  if (length availableRooms =? 0)%nat then ret (Some [])
  else spawnLoop (Z.to_nat count) availableRooms [].

(** [getNPCSpawnPosition(rooms)]; [rooms[Math.floor(rooms.length / 2)]] is
    always an element of a list that is not empty. *)
Definition getNPCSpawnPosition (rooms : list Room.t) : Z * Z :=
  if (length rooms =? 0)%nat then (12, 12)%Z
  else
    match rooms !! (length rooms / 2)%nat with
    | Some middleRoom => (Room.centerX middleRoom, Room.centerY middleRoom)
    | None => (12, 12)%Z
    end.

End Dungeon.

(* ===================================================================== *)
(** * components/SimpleRaycaster.jsx: the frame controller *)
(* ===================================================================== *)

Module Frame.
Local Open Scope Q_scope.

(** [playerRef.current]. *)
Record Player : Type := mkPlayer {
  x : Q;
  y : Q;
  dirX : Q;
  dirY : Q;
  planeX : Q;
  planeY : Q;
  health : Q;
  maxHealth : Q
}.

(** [keysRef.current]. *)
Record Keys : Type := mkKeys {
  forward : bool;
  backward : bool;
  strafeLeft : bool;
  strafeRight : bool;
  turnLeft : bool;
  turnRight : bool
}.

(** [shakeRef.current]. *)
Record Shake : Type := mkShake {
  shakeX : Q;
  shakeY : Q;
  shakeAngle : Q;
  intensity : Q
}.

(** The [stats] object of a terminal signal; [healthRemaining] is absent from
    the game-over signal. *)
Record LevelStats : Type := mkLevelStats {
  kills : Z;
  gold : Q;
  timeElapsed : Q;
  healthRemaining : option Q;
  itemsPurchased : Z
}.

(** What the closure [animate] captured when its effect ran: the grid, and
    the values that the React state had in that render. *)
Record Scene : Type := mkScene {
  mapData : list Z;
  mapSize : Z;
  levelComplete : bool;
  gameOver : bool;
  playerGold : Q;
  inventoryLength : Z;
  onPlayerMove : bool;     (* whether the host passed the callback *)
  minimap : bool           (* whether the minimap canvas is mounted *)
}.

(** The mutable state that [animate] reads and writes: the refs, the local
    [lastTime], the latest values given to the React setters, the calls of
    [saveGameToDatabase], and whether a call of [animate] is pending. *)
Record State : Type := mkState {
  player : Player;
  angle : Q;
  shake : Shake;
  gamePaused : bool;
  enemyManager : EnemyManager.t;
  combatManager : CombatManager.t;
  startTime : Z;
  lastTime : Q;
  levelCompleteSet : bool;
  completionStats : option LevelStats;
  gameOverSet : bool;
  gameOverStats : option LevelStats;
  saved : list (LevelStats * bool);
  scheduled : bool
}.

(** The collision test of a translation to [(tx, ty)]: the position
    afterwards. *)
Definition stepTo (sc : Scene) (px py tx ty : Q) : Q * Q :=
  let mapIdx := (JS.floor ty * mapSize sc + JS.floor tx)%Z in
  if tileIs (mapData sc) mapIdx 0 || tileIs (mapData sc) mapIdx 9
  then (tx, ty)
  else (px, py).

(** The block "Forward/backward" of [animate]. *)
Definition moveForward (sc : Scene) (keys : Keys) (dt ddx ddy : Q) (pos : Q * Q) : Q * Q :=
  let '(px, py) := pos in
  let inputMove := (if forward keys then 1 else 0) + (if backward keys then -1 else 0) in
  if negb (Qeq_bool inputMove 0) then
    let step := inputMove * 3 * dt in
    let tx := px + ddx * step in
    let ty := py + ddy * step in
    stepTo sc px py tx ty
  else pos.

(** The block "Strafing" of [animate]. *)
Definition moveStrafe (sc : Scene) (keys : Keys) (dt ddx ddy : Q) (pos : Q * Q) : Q * Q :=
  let '(px, py) := pos in
  let inputStrafe := (if strafeLeft keys then 1 else 0) + (if strafeRight keys then -1 else 0) in
  if negb (Qeq_bool inputStrafe 0) then
    let step := inputStrafe * 3 * dt in
    let rx := ddy in
    let ry := - ddx in
    let tx := px + rx * step in
    let ty := py + ry * step in
    stepTo sc px py tx ty
  else pos.

(** The camera shake at the end of a frame. *)
Definition applyShake (sh : Shake) : M Shake :=
  if JS.ltb 0 (intensity sh) then
    r1 <- Math_random ;;
    r2 <- Math_random ;;
    r3 <- Math_random ;;
    let sh1 := mkShake ((r1 - (1 # 2)) * intensity sh * (15 # 100))
                       ((r2 - (1 # 2)) * intensity sh * (3 # 10))
                       ((r3 - (1 # 2)) * intensity sh * (5 # 100))
                       (intensity sh * (88 # 100)) in
    if JS.ltb (intensity sh1) (1 # 100)
    then ret (mkShake 0 0 0 0)
    else ret sh1
  else ret sh.

(** [animate(now)] under the keys held during the frame.  The drawing of the
    frame (crosshair, minimap, z-buffer, sprites, walls) writes none of the
    state; of it only the reads of the clock and of the random source are
    kept. *)
Definition animate (sc : Scene) (keys : Keys) (now : Q) (st : State) : M State :=
  let dt := Qmin (5 # 100) (Qmax (1 # 1000) ((now - lastTime st) / 1000)) in
  if gamePaused st then
    ret (mkState (player st) (angle st) (shake st) (gamePaused st)
                 (enemyManager st) (combatManager st) (startTime st) now
                 (levelCompleteSet st) (completionStats st) (gameOverSet st)
                 (gameOverStats st) (saved st) true)
  else
    let p := player st in
    let inputTurn := (if turnRight keys then 1 else 0) + (if turnLeft keys then -1 else 0) in
    let angle1 := angle st + inputTurn * 3 * dt in
    let shakenAngle := angle1 + shakeAngle (shake st) in
    let c := JS.cos shakenAngle in
    let s := JS.sin shakenAngle in
    let '(px, py) :=
      moveStrafe sc keys dt c s (moveForward sc keys dt c s (x p, y p)) in
    let p1 := mkPlayer px py c s (- s * (66 # 100)) (c * (66 # 100))
                       (health p) (maxHealth p) in
    let playerTileIdx := (JS.floor py * mapSize sc + JS.floor px)%Z in
    if tileIs (mapData sc) playerTileIdx 9 && negb (levelComplete sc) then
      t <- Date_now ;;
      let stats := mkLevelStats (CombatManager.kills (combatManager st))
                                (playerGold sc)
                                (inject_Z (t - startTime st) / 1000)
                                (Some (health p1))
                                (inventoryLength sc) in
      ret (mkState p1 angle1 (shake st) true (enemyManager st)
                   (combatManager st) (startTime st) now
                   true (Some stats) (gameOverSet st) (gameOverStats st)
                   (saved st ++ [(stats, true)]) false)
    else
      r <- EnemyManager.update (enemyManager st) px py (mapData sc) (mapSize sc) dt ;;
      let '(dmg, em1) := r in
      let p2 := if JS.ltb 0 dmg
                then mkPlayer px py c s (planeX p1) (planeY p1)
                              (Qmax 0 (health p1 - dmg)) (maxHealth p1)
                else p1 in
      if JS.ltb 0 dmg && JS.leb (health p2) 0 && negb (gameOver sc) then
        t <- Date_now ;;
        let stats := mkLevelStats (CombatManager.kills (combatManager st))
                                  (playerGold sc)
                                  (inject_Z (t - startTime st) / 1000)
                                  None
                                  (inventoryLength sc) in
        ret (mkState p2 angle1 (shake st) true em1
                     (combatManager st) (startTime st) now
                     (levelCompleteSet st) (completionStats st) true (Some stats)
                     (saved st) false)
      else
        let sh1 := if JS.ltb 0 dmg
                   then mkShake (shakeX (shake st)) (shakeY (shake st))
                                (shakeAngle (shake st)) (dmg / 10)
                   else shake st in
        _ <- (if minimap sc then t <- Date_now ;; ret tt else ret tt) ;;
        _ <- (if onPlayerMove sc then r <- Math_random ;; ret tt else ret tt) ;;
        sh2 <- applyShake sh1 ;;
        ret (mkState p2 angle1 sh2 false em1
                     (combatManager st) (startTime st) now
                     (levelCompleteSet st) (completionStats st)
                     (gameOverSet st) (gameOverStats st) (saved st) true).

(** What happens to the page between two frames, as far as [animate] can see
    it: the browser runs a pending [animate], or a handler of the shop sets
    [gamePausedRef.current]. *)
Inductive Event : Type :=
| AnimationFrame (keys : Keys) (now : Q)
| ShopOpened
| ShopClosed.

Definition setPaused (st : State) (b : bool) : State :=
  mkState (player st) (angle st) (shake st) b (enemyManager st)
          (combatManager st) (startTime st) (lastTime st) (levelCompleteSet st)
          (completionStats st) (gameOverSet st) (gameOverStats st) (saved st)
          (scheduled st).

Definition handle (sc : Scene) (st : State) (ev : Event) : M State :=
  match ev with
  | AnimationFrame keys now =>
      if scheduled st then animate sc keys now st else ret st
  | ShopOpened => ret (setPaused st true)
  | ShopClosed => ret (setPaused st false)
  end.

Definition run (sc : Scene) (st : State) (evs : list Event) : M State :=
  forEachM (handle sc) st evs.

(** The array of [getAliveEnemies()] holds the objects of the array of the
    manager themselves: the places, from [i] on, of the enemies that it
    holds, in its order. *)
Fixpoint aliveRefs (i : nat) (enemies : list Enemy.t) : list nat :=
  match enemies with
  | [] => []
  | e :: rest =>
      if Enemy.isAlive e then i :: aliveRefs (S i) rest
      else aliveRefs (S i) rest
  end.

(** What the array of the manager holds once the objects at the places
    [refs] have become [objs]. *)
Definition writeBack (refs : list nat) (objs : list Enemy.t)
    (enemies : list Enemy.t) : list Enemy.t :=
  foldl (fun acc ro => <[fst ro := snd ro]> acc) enemies (combine refs objs).

(** The shot of [onClick] and of [onKeyPress] (space bar) while the pointer
    is locked, on the state and on the gold of the player, which
    [setPlayerGold] updates from its latest value. *)
Definition onShoot (sc : Scene) (st : State) (gold : Q) : M (State * Q) :=
  let p := player st in
  let refs := aliveRefs 0 (EnemyManager.enemies (enemyManager st)) in
  let enemies := EnemyManager.getAliveEnemies (enemyManager st) in
  r <- CombatManager.shoot (combatManager st) (x p) (y p) (dirX p) (dirY p)
                           enemies (Some (mapData sc)) (mapSize sc) ;;
  let '(result, cm1, enemies1) := r in
  let em1 := EnemyManager.mk
               (writeBack refs enemies1 (EnemyManager.enemies (enemyManager st)))
               (EnemyManager.nextId (enemyManager st)) in
  let st1 := mkState (player st) (angle st) (shake st) (gamePaused st) em1 cm1
                     (startTime st) (lastTime st) (levelCompleteSet st)
                     (completionStats st) (gameOverSet st) (gameOverStats st)
                     (saved st) (scheduled st) in
  match result with
  | CombatManager.Hit _ true _ _ =>
      rnd <- Math_random ;;
      let goldDrop := (JS.floor (rnd * 20) + 10)%Z in
      ret (st1, gold + inject_Z goldDrop)
  | _ => ret (st1, gold)
  end.

End Frame.

(* ===================================================================== *)
(** * Definitions used to state the properties *)
(* ===================================================================== *)

(** A world whose clock starts at 10000 ms and advances by 100 ms at every
    reading, and whose random source always answers 0. *)
Definition world0 : World := mkWorld (fun k => 10000 + 100 * Z.of_nat k)%Z 0 (fun _ => 0%Q) 0.

(** The distance from the player to an enemy, as [raycastShoot] computes it. *)
Definition distTo (playerX playerY : Q) (e : Enemy.t) : Q :=
  JS.sqrt ((Enemy.x e - playerX) * (Enemy.x e - playerX)
           + (Enemy.y e - playerY) * (Enemy.y e - playerY)).

(** The filters of the combat resolver in the words of the specification: a
    live enemy at most [maxDistance] away, with no wall in between, whose
    direction has a dot product above 0.9 with the facing direction, and whose
    distance to the aim ray is below half a tile. *)
Definition inSights (playerX playerY dirX dirY maxDistance : Q)
    (grid : option (list Z)) (mapSize : Z) (e : Enemy.t) : bool :=
  let dx := (Enemy.x e - playerX)%Q in
  let dy := (Enemy.y e - playerY)%Q in
  let d := distTo playerX playerY e in
  Enemy.isAlive e
  && JS.leb d maxDistance
  && negb (Combat.wallBlocks playerX playerY e grid mapSize)
  && JS.ltb (9 # 10) (dirX * (dx / d) + dirY * (dy / d))
  && JS.ltb (Qabs (dx * dirY - dy * dirX)) (1 # 2).

(** An enemy of the default kind at a position, in a state. *)
Definition enemyAt (ex ey : Q) (s : EnemyState) : Enemy.t :=
  Enemy.mk 0 ex ey "grunt" 50 50 10 (3 # 10) 8 (3 # 2) 1000 s 0 ex ey
           0 0 2000 [] 0 500 0 0.

(** What is known of [closestEnemy] and [closestDistance] of [raycastShoot]
    once the enemies of [seen] have been looked at. *)
Definition aimInvariant (playerX playerY dirX dirY maxDistance : Q)
    (grid : option (list Z)) (mapSize : Z)
    (seen : list Enemy.t) (acc : option nat * Q) : Prop :=
  match acc.1 with
  | None =>
      acc.2 = maxDistance /\
      forall j e, seen !! j = Some e ->
                  inSights playerX playerY dirX dirY maxDistance grid mapSize e = true ->
                  (maxDistance <= distTo playerX playerY e)%Q
  | Some i =>
      exists e, seen !! i = Some e /\
                inSights playerX playerY dirX dirY maxDistance grid mapSize e = true /\
                acc.2 = distTo playerX playerY e /\
                (distTo playerX playerY e < maxDistance)%Q /\
                forall j e', seen !! j = Some e' ->
                             inSights playerX playerY dirX dirY maxDistance grid mapSize e' = true ->
                             (distTo playerX playerY e <= distTo playerX playerY e')%Q
  end.

(** A 5 x 5 room: walls all around, nine floor tiles inside. *)
Definition arena : list Z :=
  [ 1; 1; 1; 1; 1;
    1; 0; 0; 0; 1;
    1; 0; 0; 0; 1;
    1; 0; 0; 0; 1;
    1; 1; 1; 1; 1 ]%Z.

(** The world after one reading of the clock, and after one draw. *)
Definition afterClock (w : World) : World :=
  mkWorld (clock w) (S (ticks w)) (dice w) (rolls w).
Definition afterDraw (w : World) : World :=
  mkWorld (clock w) (ticks w) (dice w) (S (rolls w)).

(** The invariant of an enemy: [0 <= health <= maxHealth], and
    [state = DEAD] exactly when [health = 0]. *)
Definition healthy (e : Enemy.t) : Prop :=
  (0 <= Enemy.health e)%Q /\ (Enemy.health e <= Enemy.maxHealth e)%Q /\
  (Enemy.state e = DEAD <-> Enemy.health e == 0).

(** A call of one of the two methods that the game makes on an enemy after
    it was constructed. *)
Inductive EnemyCall : Type :=
| CallUpdate (playerX playerY : Q) (mapData : list Z) (mapSize : Z) (deltaTime : Q)
| CallTakeDamage (amount : Q).

Definition enemyCall (e : Enemy.t) (c : EnemyCall) : M Enemy.t :=
  match c with
  | CallUpdate playerX playerY mapData mapSize deltaTime =>
      Enemy.update e playerX playerY mapData mapSize deltaTime
  | CallTakeDamage amount => ret (Enemy.takeDamage e amount).2
  end.

Definition enemyCalls (e : Enemy.t) (cs : list EnemyCall) : M Enemy.t :=
  forEachM enemyCall e cs.

(** Damage is not negative. *)
Definition damaging (c : EnemyCall) : Prop :=
  match c with
  | CallUpdate _ _ _ _ _ => True
  | CallTakeDamage amount => (0 <= amount)%Q
  end.

(** The parts of an enemy that [update] never writes, and its liveness. *)
Definition sameVitals (e e' : Enemy.t) : Prop :=
  Enemy.health e' = Enemy.health e /\
  Enemy.maxHealth e' = Enemy.maxHealth e /\
  (Enemy.state e' = DEAD <-> Enemy.state e = DEAD).


(** A 4 x 4 grid with a corridor two tiles long, running north-south. *)
Definition alley : list Z :=
  [ 1; 1; 1; 1;
    1; 0; 1; 1;
    1; 0; 1; 1;
    1; 1; 1; 1 ]%Z.

Definition alleyScene : Frame.Scene :=
  Frame.mkScene alley 4 false false 100 0 false false.

Definition onlyForward : Frame.Keys :=
  Frame.mkKeys true false false false false false.
Definition noKeys : Frame.Keys :=
  Frame.mkKeys false false false false false false.

(** Whether the player may stand on the tile of a point: the tile read at
    [floor(y) * mapSize + floor(x)] is floor or portal. *)
Definition walkable (sc : Frame.Scene) (px py : Q) : bool :=
  let idx := (JS.floor py * Frame.mapSize sc + JS.floor px)%Z in
  tileIs (Frame.mapData sc) idx 0 || tileIs (Frame.mapData sc) idx 9.

(** The collision rule in the words of the specification: each axis is
    tested on its own, and a blocked axis loses its component while the
    other axis keeps its own. *)
Definition slideTo (sc : Frame.Scene) (px py tx ty : Q) : Q * Q :=
  (if walkable sc tx py then tx else px,
   if walkable sc px ty then ty else py).

(** Whether the player of a state stands on the exit portal: the test of
    [animate] on [mapData[playerTileIdx]]. *)
Definition onPortal (sc : Frame.Scene) (st : Frame.State) : bool :=
  tileIs (Frame.mapData sc)
         (JS.floor (Frame.y (Frame.player st)) * Frame.mapSize sc
          + JS.floor (Frame.x (Frame.player st)))%Z
         9.

(** A state of the frame controller with the player at a position, no
    enemies, and the loop running. *)
Definition frameState (px py : Q) : Frame.State :=
  Frame.mkState (Frame.mkPlayer px py (-1) 0 0 (66 # 100) 100 100)
                0 (Frame.mkShake 0 0 0 0) false
                EnemyManager.create (CombatManager.create Combat.pistol)
                4000 0 false None false None [] true.

(** The alley with the exit portal at its southern end. *)
Definition portalScene : Frame.Scene :=
  Frame.mkScene [ 1; 1; 1; 1;
                  1; 0; 1; 1;
                  1; 9; 1; 1;
                  1; 1; 1; 1 ]%Z 4 false false 100 0 false false.

(** ** Path finding *)

(** An in-bounds tile of code 0. *)
Definition isFloor (mapData : list Z) (mapSize : Z) (c : Z * Z) : bool :=
  negb ((c.1 <? 0) || (c.1 >=? mapSize) || (c.2 <? 0) || (c.2 >=? mapSize))%Z
  && tileIs mapData (c.2 * mapSize + c.1) 0.

(** Two grid cells that share an edge. *)
Definition adjacent4 (a b : Z * Z) : Prop :=
  (Z.abs (a.1 - b.1) + Z.abs (a.2 - b.2) = 1)%Z.

(** A walk by 4-adjacent steps that only ever steps onto floor. *)
Inductive floorPath (mapData : list Z) (mapSize : Z) : Z * Z -> Z * Z -> Prop :=
| floorPath_here (c : Z * Z) : floorPath mapData mapSize c c
| floorPath_step (a b c : Z * Z) :
    floorPath mapData mapSize a b -> adjacent4 b c ->
    isFloor mapData mapSize c = true -> floorPath mapData mapSize a c.

(** The cells of [cells] lead from [from] onwards by 4-adjacent steps, on
    floor. *)
Fixpoint route (mapData : list Z) (mapSize : Z) (from : Z * Z)
    (cells : list (Z * Z)) : Prop :=
  match cells with
  | [] => True
  | c :: rest =>
      adjacent4 from c /\ isFloor mapData mapSize c = true /\
      route mapData mapSize c rest
  end.

(** The grid cell of a waypoint. *)
Definition cellOf (p : Point) : Z * Z := (JS.floor (px p), JS.floor (py p)).

(** The centre of a grid cell. *)
Definition centreOf (c : Z * Z) : Point :=
  mkPoint (inject_Z c.1 + (1 # 2)) (inject_Z c.2 + (1 # 2)).

(** The cells on the parent chain of a node, the root left out. *)
Fixpoint chainCells (n : PathNode) : list (Z * Z) :=
  match n with
  | mkNode cx cy _ _ _ (Some p) => chainCells p ++ [(cx, cy)]
  | mkNode _ _ _ _ _ None => []
  end.

(** The parent chain of a node starts at [start] and walks on floor. *)
Fixpoint chainOk (mapData : list Z) (mapSize : Z) (start : Z * Z)
    (n : PathNode) : Prop :=
  match n with
  | mkNode cx cy _ _ _ (Some p) =>
      adjacent4 (PNode.cell p) (cx, cy) /\
      isFloor mapData mapSize (cx, cy) = true /\
      chainOk mapData mapSize start p
  | mkNode cx cy _ _ _ None => (cx, cy) = start
  end.

(** The [h] of the nodes of a cell: the Manhattan distance to the goal,
    except for the start node, which is created with [h: 0]. *)
Definition heuristic (start goal c : Z * Z) : Z :=
  if bool_decide (c = start) then 0%Z
  else (Z.abs (c.1 - goal.1) + Z.abs (c.2 - goal.2))%Z.

(** The invariant of the loop of [findPath]; [cg c] is the [g] with which
    the cell [c] was closed. *)
Record searchInv (mapData : list Z) (mapSize : Z) (start goal : Z * Z)
    (cg : Z * Z -> Z) (openSet : list PathNode) (closedSet : gset (Z * Z))
    : Prop := mkSearchInv {
  inv_f : forall n, n ∈ openSet ->
            PNode.f n = (PNode.g n + heuristic start goal (PNode.cell n))%Z;
  inv_chain : forall n, n ∈ openSet -> chainOk mapData mapSize start n;
  inv_late : forall n, n ∈ openSet -> PNode.cell n ∈ closedSet ->
               (cg (PNode.cell n) <= PNode.g n)%Z;
  inv_front : forall c m, c ∈ closedSet -> adjacent4 c m ->
                isFloor mapData mapSize m = true ->
                m ∈ closedSet \/
                exists n, n ∈ openSet /\ PNode.cell n = m /\
                          (PNode.g n <= cg c + 1)%Z;
  inv_start : start ∈ closedSet \/
              (openSet = [mkNode start.1 start.2 0 0 0 None] /\ closedSet = ∅);
  inv_goal : goal ∉ closedSet;
  inv_budget : (size closedSet <= 200)%nat
}.

(** The node that [visit] pushes for a cell. *)
Definition childNode (goal : Z * Z) (current : PathNode) (m : Z * Z) : PathNode :=
  let g := (PNode.g current + 1)%Z in
  let h := (Z.abs (m.1 - goal.1) + Z.abs (m.2 - goal.2))%Z in
  mkNode m.1 m.2 g h (g + h) (Some current).

(** The test of [openSet.find] in [visit]. *)
Definition atCell (m : Z * Z) (n : PathNode) : bool :=
  ((PNode.x n =? m.1) && (PNode.y n =? m.2))%Z.

(** The order of the sorted open set. *)
Definition byF (a b : PathNode) : Prop := (PNode.f a <= PNode.f b)%Z.


(** ** Dungeons *)

(** The random source answers in [[0, 1)], as [Math.random()] does. *)
Definition fair (w : World) : Prop :=
  forall k, (0 <= dice w k)%Q /\ (dice w k < 1)%Q.

(** A computation that leaves the oracles themselves alone (it only moves on
    in them). *)
Definition keeps {A : Type} (c : M A) : Prop :=
  forall w, dice (c w).2 = dice w /\ clock (c w).2 = clock w.

(** The rectangle [(x, y, width, height)] of a node, and its tiles. *)
Definition rectOf (n : BSPNode) : Z * Z * Z * Z :=
  match n with
  | Leaf x y w h _ => (x, y, w, h)
  | Branch x y w h _ _ _ => (x, y, w, h)
  end.

Definition inRect (r : Z * Z * Z * Z) (p : Z * Z) : Prop :=
  let '(x, y, w, h) := r in
  (x <= p.1 < x + w)%Z /\ (y <= p.2 < y + h)%Z.

(** The rectangle of a room. *)
Definition roomRect (rm : Room.t) : Z * Z * Z * Z :=
  (Room.x rm, Room.y rm, Room.width rm, Room.height rm).

(** A room made by [createRoom] in a rectangle: its tiles are inside the
    rectangle, so is its centre, and the centre is a tile of the room when
    the room has any. *)
Definition roomIn (r : Z * Z * Z * Z) (rm : Room.t) : Prop :=
  inRect r (Room.centerX rm, Room.centerY rm) /\
  (forall p, inRect (roomRect rm) p -> inRect r p) /\
  ((1 <= Room.width rm)%Z -> (1 <= Room.height rm)%Z ->
   inRect (roomRect rm) (Room.centerX rm, Room.centerY rm)).

(** The shape of a partition tree.  Every leaf is at least [lo] wide and
    high; the children of a node cut its rectangle in two along a line; no
    node with children owns a room; [withRooms] tells whether the leaves
    have their rooms already. *)
Fixpoint treeOk (lo : Z) (withRooms : bool) (n : BSPNode) : Prop :=
  match n with
  | Leaf x y w h room =>
      (lo <= w)%Z /\ (lo <= h)%Z /\
      (if withRooms
       then exists rm, room = Some rm /\ roomIn (x, y, w, h) rm /\
                       (3 <= lo -> 1 <= Room.width rm /\ 1 <= Room.height rm)%Z
       else room = None)
  | Branch x y w h room l r =>
      room = None /\ treeOk lo withRooms l /\ treeOk lo withRooms r /\
      exists s, (1 <= s)%Z /\
        ((rectOf l = (x, y, w, s) /\ rectOf r = (x, (y + s)%Z, w, (h - s)%Z) /\ (s < h)%Z) \/
         (rectOf l = (x, y, s, h) /\ rectOf r = ((x + s)%Z, y, (w - s)%Z, h) /\ (s < w)%Z))
  end.

(** Tiles of the grid, by coordinates. *)
Definition inGrid (size : Z) (p : Z * Z) : bool :=
  ((0 <=? p.1) && (p.1 <? size) && (0 <=? p.2) && (p.2 <? size))%Z.

Definition codeAt (g : list Z) (size : Z) (p : Z * Z) : option Z :=
  if inGrid size p then mapAt g (p.2 * size + p.1) else None.

(** A tile that the player can stand on: floor or portal. *)
Definition passable (g : list Z) (size : Z) (p : Z * Z) : bool :=
  match codeAt g size p with
  | Some t => (t =? 0)%Z || (t =? 9)%Z
  | None => false
  end.

(** A grid of [size] x [size] tiles. *)
Definition gridOk (size : Z) (g : list Z) : Prop :=
  length g = Z.to_nat (size * size).

(** [g'] is [g] with the tiles of [P] that are in the grid set to [v]. *)
Definition painted (size v : Z) (P : Z * Z -> Prop) (g g' : list Z) : Prop :=
  length g' = length g /\
  forall p, inGrid size p = true ->
    (P p -> codeAt g' size p = Some v) /\
    (~ P p -> codeAt g' size p = codeAt g size p) /\
    (codeAt g' size p = Some v \/ codeAt g' size p = codeAt g size p).

(** Reachability by 4-connected moves through floor and portal tiles. *)
Inductive linked (g : list Z) (size : Z) : Z * Z -> Z * Z -> Prop :=
| linked_here (p : Z * Z) : passable g size p = true -> linked g size p p
| linked_step (p q r : Z * Z) :
    linked g size p q -> adjacent4 q r -> passable g size r = true ->
    linked g size p r.

Definition between (a b v : Z) : Prop := (Z.min a b <= v <= Z.max a b)%Z.

(** The tiles of the corridor from [(x1, y1)] to [(x2, y2)]: horizontal
    first, or vertical first. *)
Definition corridorTiles (horizontalFirst : bool) (x1 y1 x2 y2 : Z) (p : Z * Z) : Prop :=
  if horizontalFirst
  then (p.2 = y1 /\ between x1 x2 p.1) \/ (p.1 = x2 /\ between y1 y2 p.2)
  else (p.1 = x1 /\ between y1 y2 p.2) \/ (p.2 = y2 /\ between x1 x2 p.1).

Definition isBranch (n : BSPNode) : bool :=
  match n with
  | Leaf _ _ _ _ _ => false
  | Branch _ _ _ _ _ _ _ => true
  end.

Definition centreTile (rm : Room.t) : Z * Z := (Room.centerX rm, Room.centerY rm).

(** Inside the rectangle of a node, the passable tiles of the grid are the
    tiles of the rooms of the node: the state before [connectRooms]. *)
Definition roomsOnly (size : Z) (n : BSPNode) (g : list Z) : Prop :=
  forall p, inRect (rectOf n) p ->
    (passable g size p = true <->
     exists rm, rm ∈ BSP.getAllRooms n /\ inRect (roomRect rm) p).

(** What [connectRooms] achieves on a node, from grid [g] to grid [g']. *)
Record connected (size : Z) (n : BSPNode) (g g' : list Z) : Prop := mkConnected {
  con_grid : gridOk size g';
  con_more : forall t, passable g size t = true -> passable g' size t = true;
  con_frame : forall t, ~ inRect (rectOf n) t ->
                passable g' size t = passable g size t;
  con_linked : forall p q, inRect (rectOf n) p -> inRect (rectOf n) q ->
                 passable g' size p = true -> passable g' size q = true ->
                 linked g' size p q;
  con_some : forall p, inRect (rectOf n) p -> passable g' size p = true ->
               forall rm, rm ∈ BSP.getAllRooms n ->
                          passable g' size (centreTile rm) = true;
  con_branch : isBranch n = true ->
               forall rm, rm ∈ BSP.getAllRooms n ->
                          passable g' size (centreTile rm) = true
}.

(** A random source that answers 99/100 at its second reading and 0 at
    every other one. *)
Definition lopsided : World :=
  mkWorld (fun k => 10000 + 100 * Z.of_nat k)%Z 0
          (fun k => if (k =? 1)%nat then (99 # 100)%Q else 0%Q) 0.

(** The tile of the array element [i], in a grid of [size] columns. *)
Definition tileOf (size : Z) (i : nat) : Z * Z :=
  (Z.of_nat i mod size, Z.of_nat i / size)%Z.

(* ===================================================================== *)
(** * Definitions used to state further properties *)
(* ===================================================================== *)

(** The number of leaves and the height of a partition tree. *)
Fixpoint leafCount (n : BSPNode) : nat :=
  match n with
  | Leaf _ _ _ _ _ => 1
  | Branch _ _ _ _ _ l r => leafCount l + leafCount r
  end.

Fixpoint treeHeight (n : BSPNode) : nat :=
  match n with
  | Leaf _ _ _ _ _ => 0
  | Branch _ _ _ _ _ l r => S (Nat.max (treeHeight l) (treeHeight r))
  end.

(** [t] is [t0] in which some leaves were split, each one once. *)
Fixpoint grown (t0 t : BSPNode) : Prop :=
  match t0, t with
  | Leaf _ _ _ _ _, Leaf _ _ _ _ _ => True
  | Leaf _ _ _ _ _, Branch _ _ _ _ _ (Leaf _ _ _ _ _) (Leaf _ _ _ _ _) => True
  | Branch _ _ _ _ _ l0 r0, Branch _ _ _ _ _ l r => grown l0 l /\ grown r0 r
  | _, _ => False
  end.

(** A reference that leads to a node of the tree. *)
Definition validRef (t : BSPNode) (c : BSP.Ref) : Prop := is_Some (BSP.nodeAt t c).

(** A rectangle without its outermost ring of tiles. *)
Definition inset (r : Z * Z * Z * Z) : Z * Z * Z * Z :=
  let '(x, y, w, h) := r in (x + 1, y + 1, w - 2, h - 2)%Z.

(** Every room keeps a margin of one tile to the sides of its leaf. *)
Fixpoint insetRooms (n : BSPNode) : Prop :=
  match n with
  | Leaf x y w h room => forall rm, room = Some rm -> roomIn (inset (x, y, w, h)) rm
  | Branch _ _ _ _ _ l r => insetRooms l /\ insetRooms r
  end.

(** The tiles of the rooms of a list. *)
Definition roomTiles (rooms : list Room.t) (p : Z * Z) : Prop :=
  exists rm, rm ∈ rooms /\ inRect (roomRect rm) p.

(** What [getEnemySpawnPositions] makes of a room of the middle of the list:
    a tile of the room, when the room has tiles. *)
Definition spawnedIn (rooms : list Room.t) (p : Z * Z) : Prop :=
  exists i rm, (1 <= i < length rooms - 1)%nat /\ rooms !! i = Some rm /\
    ((1 <= Room.width rm)%Z -> (1 <= Room.height rm)%Z -> inRect (roomRect rm) p).

(** How the loop of [raycastShoot] with the range [lo] and the same loop
    with a range [hi] that is not smaller stand to one another. *)
Definition aimsAlike (lo hi : Q) (accLo accHi : option nat * Q) : Prop :=
  match accLo.1 with
  | None =>
      accLo.2 = lo /\
      match accHi.1 with
      | None => accHi.2 = hi
      | Some _ => (lo <= accHi.2)%Q
      end
  | Some _ => accHi = accLo /\ (accLo.2 < lo)%Q
  end.

(** What moving about never writes: the identity of an enemy, its numbers,
    its state and the time of its last attack. *)
Definition sameSelf (e e' : Enemy.t) : Prop :=
  Enemy.id e' = Enemy.id e /\ Enemy.type e' = Enemy.type e /\
  Enemy.maxHealth e' = Enemy.maxHealth e /\ Enemy.health e' = Enemy.health e /\
  Enemy.damage e' = Enemy.damage e /\ Enemy.speed e' = Enemy.speed e /\
  Enemy.detectionRange e' = Enemy.detectionRange e /\
  Enemy.attackRange e' = Enemy.attackRange e /\
  Enemy.attackCooldown e' = Enemy.attackCooldown e /\
  Enemy.state e' = Enemy.state e /\
  Enemy.lastAttackTime e' = Enemy.lastAttackTime e.

(** An enemy is where it was, or on a position that [isValidPosition]
    accepts. *)
Definition stayedOrValid (mapData : list Z) (mapSize : Z) (e e' : Enemy.t) : Prop :=
  (Enemy.x e' = Enemy.x e /\ Enemy.y e' = Enemy.y e) \/
  Enemy.isValidPosition (Enemy.x e') (Enemy.y e') mapData mapSize = true.

(** The arrows of the state machine of [update]. *)
Definition mayFollow (s s' : EnemyState) : bool :=
  match s, s' with
  | IDLE, IDLE | IDLE, CHASE
  | CHASE, IDLE | CHASE, CHASE | CHASE, ATTACK
  | ATTACK, ATTACK | ATTACK, CHASE
  | DEAD, DEAD => true
  | _, _ => false
  end.

(** What [EnemyManager.update] does to an enemy of its array: the identity
    and the numbers of the enemy stay, a dead enemy is not touched, and no
    enemy dies. *)
Definition sameEnemy (e e' : Enemy.t) : Prop :=
  Enemy.id e' = Enemy.id e /\ Enemy.type e' = Enemy.type e /\
  Enemy.maxHealth e' = Enemy.maxHealth e /\ Enemy.health e' = Enemy.health e /\
  Enemy.damage e' = Enemy.damage e /\ Enemy.speed e' = Enemy.speed e /\
  Enemy.detectionRange e' = Enemy.detectionRange e /\
  Enemy.attackRange e' = Enemy.attackRange e /\
  Enemy.attackCooldown e' = Enemy.attackCooldown e /\
  (Enemy.state e = DEAD -> e' = e) /\
  (Enemy.state e' = DEAD -> Enemy.state e = DEAD).

(** The arena as the scene of a frame, and a state of the frame controller
    in it: the player, at 10 points of health, stands one tile west of an
    enemy that chases it. *)
Definition duelScene : Frame.Scene :=
  Frame.mkScene arena 5 false false 100 0 false false.

Definition duelState : Frame.State :=
  Frame.mkState (Frame.mkPlayer (3 # 2) (3 # 2) 1 0 0 (66 # 100) 10 100)
                0 (Frame.mkShake 0 0 0 0) false
                (EnemyManager.mk [enemyAt (5 # 2) (3 # 2) CHASE] 1)
                (CombatManager.create Combat.pistol)
                4000 0 false None false None [] true.

(** The enemy that [spawnEnemies] makes with the id [i] at the position
    [pos] from the entry [ty] of [enemyTypes]: it stands at the centre of the
    tile, idle and at full health, with the numbers of the entry where they
    are present and not 0, and the speed of the entry times ten. *)
Definition spawnedAs (i : Z) (pos : Z * Z) (ty : EnemyType) (e : Enemy.t) : Prop :=
  Enemy.id e = i /\
  Enemy.x e = (inject_Z pos.1 + (1 # 2))%Q /\
  Enemy.y e = (inject_Z pos.2 + (1 # 2))%Q /\
  Enemy.type e = et_id ty /\
  Enemy.state e = IDLE /\
  Enemy.health e = Enemy.maxHealth e /\
  Enemy.maxHealth e = JS.or_else_opt (et_health ty) 50 /\
  Enemy.damage e = JS.or_else_opt (et_damage ty) 10 /\
  Enemy.speed e = match et_speed ty with
                  | Some v => JS.or_else (v * 10) (3 # 10)
                  | None => (3 # 10)%Q
                  end.

(** The arena with the exit portal in its north-west corner, as the scene of
    a loop that was started when the player had 100 gold and had bought
    nothing. *)
Definition exitArena : list Z :=
  [ 1; 1; 1; 1; 1;
    1; 9; 0; 0; 1;
    1; 0; 0; 0; 1;
    1; 0; 0; 0; 1;
    1; 1; 1; 1; 1 ]%Z.

Definition exitScene : Frame.Scene :=
  Frame.mkScene exitArena 5 false false 100 0 false false.

(** The player stands just south of the portal and looks east, at an enemy
    of 20 points of health one tile away. *)
Definition exitState : Frame.State :=
  Frame.mkState (Frame.mkPlayer (3 # 2) (41 # 20) 1 0 0 (66 # 100) 100 100)
                0 (Frame.mkShake 0 0 0 0) false
                (EnemyManager.mk [Enemy.set_health (enemyAt (5 # 2) (41 # 20) IDLE) 20] 1)
                (CombatManager.create Combat.pistol)
                4000 0 false None false None [] true.

Definition onlyStrafeLeft : Frame.Keys :=
  Frame.mkKeys false false true false false false.

(** The tiles of a grid of [mapSize] columns and rows, row by row, and those
    of them that are floor. *)
Definition gridCells (mapSize : Z) : list (Z * Z) :=
  (fun i => (i mod mapSize, i / mapSize)%Z) <$> seqZ 0 (mapSize * mapSize).

Definition floorTiles (mapData : list Z) (mapSize : Z) : list (Z * Z) :=
  List.filter (isFloor mapData mapSize) (gridCells mapSize).

(** ** Line of sight, over doubles *)

(** A test that holds of all triples of numbers below [n]. *)
Definition allTriples (n : Z) (P : Z -> Z -> Z -> bool) : bool :=
  forallb (fun c => forallb (fun a => forallb (fun b => P c a b) (seqZ 0 n)) (seqZ 0 n))
          (seqZ 0 n).

Module Sight.
Import PrimFloat.

(** The tile of a point; [None] when a coordinate is [NaN] or infinite. *)
Definition tileAt (x y : float) : option (Z * Z) :=
  match Double.floor x, Double.floor y with
  | Some mapX, Some mapY => Some (mapX, mapY)
  | _, _ => None
  end.

(** The tiles of the points that the loop of [hasLineOfSight] samples, from
    the counter [i], in [n] rounds. *)
Fixpoint tilesFrom (n : nat) (i : float) (ex ey dirX dirY : float)
    : list (option (Z * Z)) :=
  match n with
  | O => []
  | S n' =>
      tileAt (ex + dirX * (i * 0.5))%float (ey + dirY * (i * 0.5))%float
      :: tilesFrom n' (i + 1)%float ex ey dirX dirY
  end.

(** The tiles that [hasLineOfSight] samples from [(x, y)] towards
    [(targetX, targetY)], when its loop has a bound. *)
Definition sampledTiles (x y targetX targetY : float)
    : option (list (option (Z * Z))) :=
  let dx := (targetX - x)%float in
  let dy := (targetY - y)%float in
  let distance := sqrt (dx * dx + dy * dy)%float in
  let dirX := (dx / distance)%float in
  let dirY := (dy / distance)%float in
  let steps := (distance * 2)%float in
  if is_nan steps then Some []
  else match Double.ceil steps with
       | Some steps =>
           if (steps <=? 2 ^ 53)%Z
           then Some (tilesFrom (Z.to_nat steps) 0%float x y dirX dirY)
           else None
       | None => None
       end.

(** A sample on a floor tile inside the grid. *)
Definition onFloor (mapData : list Z) (mapSize : Z) (t : option (Z * Z)) : bool :=
  match t with
  | Some c => isFloor mapData mapSize c
  | None => false
  end.

(** The check from A to B and the check from B to A sample the same tiles,
    the tile of the position each one starts from apart.  This is a matter of
    the two positions alone, not of the grid. *)
Definition sameTiles (ax ay bx by' : float) : bool :=
  match sampledTiles ax ay bx by', sampledTiles bx by' ax ay with
  | Some fromA, Some fromB =>
      forallb (fun t => bool_decide (t ∈ fromB \/ t = tileAt ax ay)) fromA
      && forallb (fun t => bool_decide (t ∈ fromA \/ t = tileAt bx by')) fromB
  | _, _ => false
  end.

(** The centre of the tile [a] of a row or of a column: [a + 0.5]. *)
Definition centre (a : Z) : float := (of_uint63 (Uint63.of_Z a) + 0.5)%float.

(** For the tiles [a <= b] of the row [c], and of the column [c]: the
    checks between their centres sample the same tiles both ways. *)
Definition centresAgree (c a b : Z) : bool :=
  if (b <? a)%Z then true
  else sameTiles (centre a) (centre c) (centre b) (centre c)
       && sameTiles (centre c) (centre a) (centre c) (centre b).

(** A grid of three by three tiles, all floor but the tile (0, 1). *)
Definition cornerGrid : list Z :=
  [ 0; 0; 0;
    1; 0; 0;
    0; 0; 0 ]%Z.

(** The doubles next to 0.4 (below it) and to 1.9:
    0.39999999999999991 and 1.8999999999999999. *)
Definition below04 : float := 0x1.9999999999998p-2%float.
Definition near19 : float := 0x1.e666666666666p+0%float.
Definition half : float := 0.5%float.
Definition fiveHalves : float := 2.5%float.

(** The number of rounds of the loop of [hasLineOfSight]:
    [Math.ceil(distance * 2)]. *)
Definition stepsTo (x y targetX targetY : float) : option Z :=
  let dx := (targetX - x)%float in
  let dy := (targetY - y)%float in
  Double.ceil (sqrt (dx * dx + dy * dy) * 2)%float.

End Sight.
(* ===================================================================== *)
(** * Facts about numbers, arrays and the environment *)
(* ===================================================================== *)

Lemma ltb_lt (a b : Q) : JS.ltb a b = true <-> (a < b)%Q.
Proof.
  unfold JS.ltb. rewrite negb_true_iff. split.
  - intros H. apply Qnot_le_lt. intros Hle.
    apply Qle_bool_iff in Hle. congruence.
  - intros H. destruct (Qle_bool b a) eqn:E; [|reflexivity].
    apply Qle_bool_iff in E. exfalso. apply (Qlt_not_le _ _ H E).
Qed.

Lemma ltb_ge (a b : Q) : JS.ltb a b = false <-> (b <= a)%Q.
Proof.
  unfold JS.ltb. rewrite negb_false_iff. apply Qle_bool_iff.
Qed.

Lemma leb_le (a b : Q) : JS.leb a b = true <-> (a <= b)%Q.
Proof. apply Qle_bool_iff. Qed.

Lemma leb_gt (a b : Q) : JS.leb a b = false <-> (b < a)%Q.
Proof.
  unfold JS.leb. split.
  - intros H. apply Qnot_le_lt. intros Hle. apply Qle_bool_iff in Hle. congruence.
  - intros H. destruct (Qle_bool a b) eqn:E; [|reflexivity].
    apply Qle_bool_iff in E. exfalso. apply (Qlt_not_le _ _ H E).
Qed.

(** The enemies of an array with their indices, from a first index on. *)
Lemma indexed_from_lookup {A} (l : list A) (k : nat) (i : nat) (a : A) :
  (i, a) ∈ combine (seq k (length l)) l <-> (k <= i)%nat /\ l !! (i - k)%nat = Some a.
Proof.
  revert k. induction l as [|b l IH]; intros k; simpl.
  - split; [intros H; inversion H | intros [_ H]; discriminate].
  - rewrite elem_of_cons, IH. split.
    + intros [H | [Hle H]].
      * injection H as -> ->. split; [lia|]. rewrite Nat.sub_diag. reflexivity.
      * split; [lia|]. replace (i - k)%nat with (S (i - S k)) by lia. exact H.
    + intros [Hle H]. destruct (decide (i = k)) as [->|Hne].
      * left. rewrite Nat.sub_diag in H. simpl in H. congruence.
      * right. split; [lia|].
        replace (i - k)%nat with (S (i - S k)) in H by lia. exact H.
Qed.

(* ===================================================================== *)
(** * Combat: the cooldown of [CombatManager.shoot] *)
(* ===================================================================== *)

Section ShootCooldown.
Import CombatManager.

(** One call of [shoot]: on cooldown nothing changes; otherwise the shot is
    fired and [lastShotTime] becomes the time of the call, hit or miss. *)
Lemma shoot_once (m : t) (px py dx dy : Q) (enemies : list Enemy.t)
    (grid : option (list Z)) (mapSize : Z) (w : World) :
  let now := clock w (ticks w) in
  let fr := Combat.fireRate (Combat.WEAPONS (weapon m)) in
  let r := shoot m px py dx dy enemies grid mapSize w in
  ((now - lastShotTime m < fr)%Z ->
     r.1 = (OnCooldown, m, enemies)) /\
  ((fr <= now - lastShotTime m)%Z ->
     fired r.1.1.1 = true /\ lastShotTime r.1.1.2 = now /\
     weapon r.1.1.2 = weapon m) /\
  clock r.2 = clock w /\ ticks r.2 = S (ticks w).
Proof.
  intros now fr r. subst r. unfold shoot, bind, Date_now, ret. simpl.
  fold now. fold fr.
  destruct (now - lastShotTime m <? fr)%Z eqn:E.
  - apply Z.ltb_lt in E. simpl. repeat split; try reflexivity; intros; lia.
  - apply Z.ltb_ge in E.
    split; [intros; lia|].
    destruct (Combat.enemy _) as [i|]; [destruct (enemies !! i) as [target|]|];
      try destruct (Combat.damageEnemy _ _) as [died target'];
      simpl; repeat split; reflexivity.
Qed.

(** C7.  Two calls of [shoot] in a row with the same weapon, the first made
    when the weapon is ready (so that it is a fired shot): the first fires and
    records its time, hit or miss; a second call less than [fireRate] ms later
    answers [{fired: false, reason: 'cooldown'}] and leaves the manager
    ([lastShotTime], [kills]) and every enemy as they were; a second call at
    least [fireRate] ms later fires too and records its own time. *)
Theorem shoot_cooldown_pair (m : t) (px py dx dy px' py' dx' dy' : Q)
    (enemies : list Enemy.t) (grid : option (list Z)) (mapSize : Z) (w : World) :
  let t1 := clock w (ticks w) in
  let t2 := clock w (S (ticks w)) in
  let fr := Combat.fireRate (Combat.WEAPONS (weapon m)) in
  let r1 := shoot m px py dx dy enemies grid mapSize w in
  let r2 := shoot r1.1.1.2 px' py' dx' dy' r1.1.2 grid mapSize r1.2 in
  (fr <= t1 - lastShotTime m)%Z ->
  fired r1.1.1.1 = true /\ lastShotTime r1.1.1.2 = t1 /\
  ((t2 - t1 < fr)%Z ->
     r2.1.1.1 = OnCooldown /\ r2.1.1.2 = r1.1.1.2 /\ r2.1.2 = r1.1.2) /\
  ((fr <= t2 - t1)%Z ->
     fired r2.1.1.1 = true /\ lastShotTime r2.1.1.2 = t2).
Proof.
  intros t1 t2 fr r1 r2 Hready.
  destruct (shoot_once m px py dx dy enemies grid mapSize w)
    as (_ & Hfire & Hclock & Hticks).
  destruct (Hfire Hready) as (Hf1 & Hl1 & Hw1).
  fold r1 in Hf1, Hl1, Hw1, Hclock, Hticks.
  destruct (shoot_once r1.1.1.2 px' py' dx' dy' r1.1.2 grid mapSize r1.2)
    as (Hcool2 & Hfire2 & _).
  fold r2 in Hcool2, Hfire2.
  rewrite Hclock, Hticks, Hl1, Hw1 in Hcool2, Hfire2.
  fold t1 t2 fr in Hcool2, Hfire2, Hl1.
  split; [exact Hf1|]. split; [exact Hl1|]. split.
  - intros Hlt. specialize (Hcool2 Hlt).
    destruct r2 as [[[o2 m2] es2] w2]. simpl in *.
    inversion Hcool2; subst. auto.
  - intros Hge. destruct (Hfire2 Hge) as (? & ? & _). auto.
Qed.

End ShootCooldown.


Lemma shoot_cooldown_pair_witness :
  let m := CombatManager.create Combat.pistol in
  let r1 := CombatManager.shoot m 0 0 1 0 [] None 0 world0 in
  let r2 := CombatManager.shoot r1.1.1.2 0 0 1 0 r1.1.2 None 0 r1.2 in
  CombatManager.fired r1.1.1.1 = true /\ CombatManager.lastShotTime r1.1.1.2 = 10000%Z /\
  ((10100 - 10000 < 500)%Z ->
     r2.1.1.1 = CombatManager.OnCooldown /\ r2.1.1.2 = r1.1.1.2 /\ r2.1.2 = r1.1.2) /\
  ((500 <= 10100 - 10000)%Z ->
     CombatManager.fired r2.1.1.1 = true /\ CombatManager.lastShotTime r2.1.1.2 = 10100%Z).
Proof.
  exact (shoot_cooldown_pair (CombatManager.create Combat.pistol) 0 0 1 0 0 0 1 0 [] None 0 world0
           ltac:(vm_compute; discriminate)).
Defined.

(* ===================================================================== *)
(** * Combat: the filters of [raycastShoot] *)
(* ===================================================================== *)

Section Raycast.
Variables (playerX playerY dirX dirY maxDistance : Q).
Variables (grid : option (list Z)) (mapSize : Z).

Local Abbreviation dist := (distTo playerX playerY).
Local Abbreviation sights :=
  (inSights playerX playerY dirX dirY maxDistance grid mapSize).
Local Abbreviation aim :=
  (Combat.aimAt playerX playerY dirX dirY maxDistance grid mapSize).

Local Abbreviation aimInv :=
  (aimInvariant playerX playerY dirX dirY maxDistance grid mapSize).

(** One round of the loop either keeps the accumulator, when the enemy fails
    a filter or is not nearer, or takes the enemy. *)
Lemma aimAt_cases (acc : option nat * Q) (i : nat) (e : Enemy.t) :
  (aim acc (i, e) = acc /\ (sights e = false \/ (acc.2 <= dist e)%Q)) \/
  (aim acc (i, e) = (Some i, dist e) /\ sights e = true /\ (dist e < acc.2)%Q).
Proof.
  destruct acc as [ce cd]. unfold Combat.aimAt, inSights, distTo, JS.abs. cbv zeta.
  set (d := JS.sqrt _).
  set (alive := Enemy.isAlive e).
  set (wall := Combat.wallBlocks _ _ _ _ _).
  set (cone := JS.ltb (9 # 10) _).
  set (near := JS.ltb (Qabs _) _).
  unfold JS.leb. change (JS.ltb maxDistance d) with (negb (Qle_bool d maxDistance)).
  set (inRange := Qle_bool d maxDistance).
  cbn [fst snd].
  destruct (JS.ltb d cd) eqn:E.
  - apply ltb_lt in E.
    destruct alive, inRange, wall, cone, near; cbn; auto.
  - apply ltb_ge in E.
    destruct alive, inRange, wall, cone, near; cbn; auto.
Qed.

Lemma aimInv_step (seen : list Enemy.t) (acc : option nat * Q) (e : Enemy.t) :
  (acc.2 <= maxDistance)%Q ->
  aimInv seen acc ->
  aimInv (seen ++ [e]) (aim acc (length seen, e)) /\
  ((aim acc (length seen, e)).2 <= maxDistance)%Q.
Proof.
  intros Hle Hinv.
  assert (Hsnoc : forall j e', (seen ++ [e]) !! j = Some e' ->
            seen !! j = Some e' \/ (j = length seen /\ e' = e)).
  { intros j e' H. apply lookup_app_Some in H as [H | [Hj H]]; [auto|].
    right. destruct (j - length seen)%nat eqn:Ej; simpl in H; [|discriminate].
    split; [lia | congruence]. }
  destruct (aimAt_cases acc (length seen) e) as [[-> Hno] | (-> & Hs & Hlt)].
  - split; [|exact Hle]. unfold aimInvariant in *. destruct acc as [[i|] cd]; simpl in *.
    + destruct Hinv as (e0 & Hi & Hs0 & -> & Hlt0 & Hmin).
      exists e0. repeat split; auto.
      * apply lookup_app_l_Some. exact Hi.
      * intros j e' Hj Hs'. destruct (Hsnoc _ _ Hj) as [H | [_ ->]]; [eauto|].
        destruct Hno as [Hno | Hno]; [congruence | exact Hno].
    + destruct Hinv as (-> & Hall). split; [reflexivity|].
      intros j e' Hj Hs'. destruct (Hsnoc _ _ Hj) as [H | [_ ->]]; [eauto|].
      destruct Hno as [Hno | Hno]; [congruence | exact Hno].
  - simpl. split; [|apply Qlt_le_weak; eapply Qlt_le_trans; eauto].
    unfold aimInvariant. simpl. exists e. repeat split; auto.
    + rewrite lookup_app_r by lia. rewrite Nat.sub_diag. reflexivity.
    + eapply Qlt_le_trans; eauto.
    + intros j e' Hj Hs'. destruct (Hsnoc _ _ Hj) as [H | [_ ->]]; [|apply Qle_refl].
      unfold aimInvariant in Hinv. destruct acc as [[i|] cd]; simpl in *.
      * destruct Hinv as (e0 & _ & _ & -> & _ & Hmin).
        apply Qlt_le_weak. eapply Qlt_le_trans; [exact Hlt|]. eauto.
      * destruct Hinv as (-> & Hall).
        apply Qlt_le_weak. eapply Qlt_le_trans; [exact Hlt|]. eauto.
Qed.

Lemma aimInv_fold (rest seen : list Enemy.t) (acc : option nat * Q) :
  (acc.2 <= maxDistance)%Q ->
  aimInv seen acc ->
  aimInv (seen ++ rest)
         (foldl aim acc (combine (seq (length seen) (length rest)) rest)).
Proof.
  revert seen acc. induction rest as [|e rest IH]; intros seen acc Hle Hinv; simpl.
  - rewrite app_nil_r. exact Hinv.
  - destruct (aimInv_step seen acc e Hle Hinv) as [Hinv' Hle'].
    specialize (IH (seen ++ [e]) _ Hle' Hinv').
    rewrite length_app in IH. simpl in IH.
    rewrite Nat.add_1_r in IH. rewrite <- app_assoc in IH. exact IH.
Qed.

(** C8, as the code has it.  [raycastShoot] reports a hit exactly when some
    enemy passes every filter and is strictly nearer than [maxDistance]; the
    enemy it returns passes every filter, [distance] is its distance, and no
    enemy that passes every filter is nearer. *)
Theorem raycastShoot_closest (enemies : list Enemy.t) :
  let r := Combat.raycastShoot playerX playerY dirX dirY enemies maxDistance
                               grid mapSize in
  (Combat.hit r = true <->
     exists i e, enemies !! i = Some e /\ sights e = true /\
                 (dist e < maxDistance)%Q) /\
  (forall i, Combat.enemy r = Some i ->
     exists e, enemies !! i = Some e /\ sights e = true /\
               Combat.distance r = dist e /\
               forall j e', enemies !! j = Some e' -> sights e' = true ->
                            (dist e <= dist e')%Q).
Proof.
  intros r. subst r. unfold Combat.raycastShoot, Combat.indexed.
  pose proof (aimInv_fold enemies [] (None, maxDistance)) as H.
  simpl in H. specialize (H (Qle_refl _)).
  destruct (foldl _ _ _) as [ce cd]. simpl.
  assert (Hinv : aimInv enemies (ce, cd)).
  { apply H. split; [reflexivity|]. intros j e Hj. rewrite lookup_nil in Hj. discriminate. }
  clear H. unfold aimInvariant in Hinv. simpl in Hinv. split.
  - rewrite bool_decide_eq_true. split.
    + intros Hne. destruct ce as [i|]; [|congruence].
      destruct Hinv as (e & Hi & Hs & _ & Hlt & _). eauto.
    + intros (i & e & Hi & Hs & Hlt). destruct ce as [i'|]; [congruence|].
      destruct Hinv as (_ & Hall). exfalso.
      apply (Qlt_not_le _ _ Hlt). eauto.
  - intros i ->. destruct Hinv as (e & Hi & Hs & -> & _ & Hmin). eauto.
Qed.

End Raycast.

(** C8, as the specification has it, fails at the edge of the range: an enemy
    straight ahead at exactly [maxDistance] passes every filter of the
    specification, and is not hit. *)
Lemma raycastShoot_range_edge :
  let target := enemyAt (43 # 2) (3 # 2) IDLE in
  inSights (3 # 2) (3 # 2) 1 0 20 None 0 target = true /\
  Combat.hit (Combat.raycastShoot (3 # 2) (3 # 2) 1 0 [target] 20 None 0) = false.
Proof. vm_compute. split; reflexivity. Qed.

(* ===================================================================== *)
(** * Enemy manager: the damage of attacking enemies *)
(* ===================================================================== *)

(** Turning the sprite changes nothing but [direction]. *)
Lemma updateDirection_keeps (e : Enemy.t) (dx dy : Q) :
  Enemy.attackCooldown (Enemy.updateDirection e dx dy) = Enemy.attackCooldown e /\
  Enemy.lastAttackTime (Enemy.updateDirection e dx dy) = Enemy.lastAttackTime e /\
  Enemy.damage (Enemy.updateDirection e dx dy) = Enemy.damage e /\
  Enemy.state (Enemy.updateDirection e dx dy) = Enemy.state e /\
  Enemy.health (Enemy.updateDirection e dx dy) = Enemy.health e /\
  Enemy.maxHealth (Enemy.updateDirection e dx dy) = Enemy.maxHealth e /\
  Enemy.x (Enemy.updateDirection e dx dy) = Enemy.x e /\
  Enemy.y (Enemy.updateDirection e dx dy) = Enemy.y e.
Proof.
  unfold Enemy.updateDirection.
  destruct (JS.ltb (JS.abs dy) (JS.abs dx)); repeat split; reflexivity.
Qed.

Lemma facePlayer_keeps (e : Enemy.t) (a b : Q) :
  Enemy.attackCooldown (Enemy.facePlayer e a b) = Enemy.attackCooldown e /\
  Enemy.lastAttackTime (Enemy.facePlayer e a b) = Enemy.lastAttackTime e /\
  Enemy.damage (Enemy.facePlayer e a b) = Enemy.damage e /\
  Enemy.state (Enemy.facePlayer e a b) = Enemy.state e /\
  Enemy.health (Enemy.facePlayer e a b) = Enemy.health e /\
  Enemy.maxHealth (Enemy.facePlayer e a b) = Enemy.maxHealth e /\
  Enemy.x (Enemy.facePlayer e a b) = Enemy.x e /\
  Enemy.y (Enemy.facePlayer e a b) = Enemy.y e.
Proof. apply updateDirection_keeps. Qed.

Lemma tryAttack_run (e : Enemy.t) (w : World) :
  Enemy.tryAttack e w =
  (if JS.leb (Enemy.attackCooldown e)
             (inject_Z (clock w (ticks w) - Enemy.lastAttackTime e))
   then (Enemy.damage e, Enemy.set_lastAttackTime e (clock w (ticks w)))
   else (0%Q, e),
   afterClock w).
Proof.
  unfold Enemy.tryAttack, bind, Date_now, ret, afterClock.
  destruct (JS.leb _ _); reflexivity.
Qed.

(** An enemy that starts the tick in [ATTACK], stays in reach, and whose
    cooldown has elapsed spends its attack inside [Enemy.update], which drops
    the damage; the second [tryAttack], the one whose result the manager adds
    up, comes before the new cooldown is over and deals nothing. *)
Lemma updateOne_attack_swallowed (e : Enemy.t) (playerX playerY : Q)
    (grid : list Z) (mapSize : Z) (dt : Q) (total : Q) (seen : list Enemy.t)
    (w : World) :
  let now1 := clock w (ticks w) in
  let now2 := clock w (S (ticks w)) in
  Enemy.state e = ATTACK ->
  JS.ltb (Enemy.attackRange e * (6 # 5)) (Enemy.getDistance e playerX playerY) = false ->
  (Enemy.attackCooldown e <= inject_Z (now1 - Enemy.lastAttackTime e))%Q ->
  (inject_Z (now2 - now1) < Enemy.attackCooldown e)%Q ->
  let r := EnemyManager.updateOne playerX playerY grid mapSize dt (total, seen) e w in
  r.1.1 = (total + 0)%Q /\
  r.1.2 = seen ++ [Enemy.set_lastAttackTime (Enemy.facePlayer e playerX playerY) now1].
Proof.
  intros now1 now2 Hst Hreach Hcool Hsoon r. subst r.
  destruct (facePlayer_keeps e playerX playerY) as (Hc & Hl & Hd & Hs & _).
  unfold EnemyManager.updateOne, Enemy.isAlive, Enemy.update.
  rewrite Hst. rewrite !bool_decide_eq_false_2 by discriminate. cbn [negb].
  rewrite Hreach. unfold bind, ret.
  rewrite tryAttack_run. rewrite Hc, Hl. fold now1.
  apply leb_le in Hcool. rewrite Hcool. cbn [fst snd].
  change (Enemy.state (Enemy.set_lastAttackTime ?x _)) with (Enemy.state x).
  rewrite Hs, Hst. rewrite bool_decide_eq_true_2 by reflexivity.
  rewrite tryAttack_run. cbn [afterClock clock ticks]. fold now2.
  change (Enemy.attackCooldown (Enemy.set_lastAttackTime ?x _))
    with (Enemy.attackCooldown x).
  change (Enemy.lastAttackTime (Enemy.set_lastAttackTime _ ?v)) with v.
  rewrite Hc. apply leb_gt in Hsoon. rewrite Hsoon. cbn [fst snd]. auto.
Qed.

(** C1 at a failing input.  One enemy in [ATTACK], one tile from the player
    (attack range 1.5), damage 10, cooldown 1000 ms, last attack at time 0;
    the clock reads 10000 and then 10100.  The cooldown has elapsed, and yet
    [EnemyManager.update] reports a total damage of 0: the enemy's attack was
    spent (its [lastAttackTime] is now 10000) without being counted. *)
Theorem update_drops_attack_damage :
  let attacker := enemyAt (5 # 2) (3 # 2) ATTACK in
  let m := EnemyManager.mk [attacker] 1 in
  let r := EnemyManager.update m (3 # 2) (3 # 2) arena 5 (16 # 1000) world0 in
  Enemy.getDistance attacker (3 # 2) (3 # 2) == 1 /\
  Enemy.attackRange attacker == 3 # 2 /\
  (Enemy.attackCooldown attacker <= inject_Z (10000 - Enemy.lastAttackTime attacker))%Q /\
  Enemy.damage attacker == 10 /\
  r.1.1 == 0 /\
  (Enemy.state <$> EnemyManager.enemies r.1.2) = [ATTACK] /\
  (Enemy.lastAttackTime <$> EnemyManager.enemies r.1.2) = [10000%Z].
Proof. vm_compute. repeat split; congruence. Qed.

(* ===================================================================== *)
(** * Enemy: health, death, and the terminal state *)
(* ===================================================================== *)

Lemma sameVitals_refl (e : Enemy.t) : sameVitals e e.
Proof. unfold sameVitals. tauto. Qed.

Lemma sameVitals_trans (a b c : Enemy.t) :
  sameVitals a b -> sameVitals b c -> sameVitals a c.
Proof.
  unfold sameVitals. intros (H1 & H2 & H3) (H4 & H5 & H6).
  repeat split; try congruence; tauto.
Qed.

Lemma updateDirection_vitals (e : Enemy.t) (dx dy : Q) :
  sameVitals e (Enemy.updateDirection e dx dy).
Proof.
  destruct (updateDirection_keeps e dx dy) as (_ & _ & _ & Hs & Hh & Hm & _).
  unfold sameVitals. rewrite Hs, Hh, Hm. tauto.
Qed.

Lemma patrol_vitals (e : Enemy.t) (grid : list Z) (mapSize : Z) (dt : Q) (w : World) :
  sameVitals e (Enemy.patrol e grid mapSize dt w).1.
Proof.
  unfold Enemy.patrol, bind, ret, Math_random.
  destruct (JS.leb _ _); cbn [fst snd];
    destruct (Enemy.isValidPosition _ _ _ _); cbn [fst snd];
    try (eapply sameVitals_trans; [|apply updateDirection_vitals]);
    unfold sameVitals; cbn; tauto.
Qed.

Lemma chaseLoop_vitals (fuel : nat) (e : Enemy.t) (playerX playerY : Q)
    (grid : list Z) (mapSize : Z) (dt : Q) (w : World) :
  sameVitals e (Enemy.chaseLoop fuel e playerX playerY grid mapSize dt w).1.
Proof.
  revert e w. induction fuel as [|fuel IH]; intros e w; cbn [Enemy.chaseLoop];
    set (e1 := if _ : bool then _ else _);
    (assert (H1 : sameVitals e e1)
      by (subst e1; destruct (_ || _); unfold sameVitals; cbn; tauto));
    destruct (Enemy.path e1) as [|target rest]; try exact H1;
    destruct (JS.ltb _ _).
  - destruct rest; apply (sameVitals_trans _ _ _ H1); unfold sameVitals; cbn; tauto.
  - unfold bind, ret, Math_random. cbn [fst snd].
    destruct (Enemy.isValidPosition _ _ _ _); cbn [fst snd]; [|exact H1].
    apply (sameVitals_trans _ _ _ H1).
    eapply sameVitals_trans; [|apply updateDirection_vitals].
    unfold sameVitals; cbn; tauto.
  - destruct rest.
    + apply (sameVitals_trans _ _ _ H1); unfold sameVitals; cbn; tauto.
    + apply (sameVitals_trans _ _ _ H1).
      eapply sameVitals_trans; [|apply IH]. unfold sameVitals; cbn; tauto.
  - unfold bind, ret, Math_random. cbn [fst snd].
    destruct (Enemy.isValidPosition _ _ _ _); cbn [fst snd]; [|exact H1].
    apply (sameVitals_trans _ _ _ H1).
    eapply sameVitals_trans; [|apply updateDirection_vitals].
    unfold sameVitals; cbn; tauto.
Qed.

(** [update] leaves a dead enemy as it is, never writes [health] or
    [maxHealth], and never moves an enemy into or out of [DEAD]. *)
Lemma update_vitals (e : Enemy.t) (playerX playerY : Q) (grid : list Z)
    (mapSize : Z) (dt : Q) (w : World) :
  sameVitals e (Enemy.update e playerX playerY grid mapSize dt w).1 /\
  (Enemy.state e = DEAD ->
   (Enemy.update e playerX playerY grid mapSize dt w).1 = e).
Proof.
  unfold Enemy.update. destruct (Enemy.state e) eqn:Hst.
  - rewrite bool_decide_eq_false_2 by discriminate. split; [|discriminate].
    destruct (_ && _).
    + unfold ret, sameVitals; cbn. rewrite Hst. intuition discriminate.
    + apply patrol_vitals.
  - rewrite bool_decide_eq_false_2 by discriminate. split; [|discriminate].
    destruct (JS.ltb _ _); [unfold ret, sameVitals; cbn; rewrite Hst; intuition discriminate|].
    destruct (JS.ltb _ _); [unfold ret, sameVitals; cbn; rewrite Hst; intuition discriminate|].
    destruct (Enemy.hasLineOfSight _ _ _ _ _); [apply chaseLoop_vitals|].
    apply sameVitals_refl.
  - rewrite bool_decide_eq_false_2 by discriminate. split; [|discriminate].
    destruct (JS.ltb _ _); [unfold ret, sameVitals; cbn; rewrite Hst; intuition discriminate|].
    unfold bind, ret. rewrite tryAttack_run. cbn [fst snd].
    destruct (facePlayer_keeps e playerX playerY) as (_ & _ & _ & Hs & Hh & Hm & _).
    destruct (JS.leb _ _); cbn [fst snd]; unfold sameVitals; cbn;
      rewrite Hs, Hh, Hm; tauto.
  - rewrite bool_decide_eq_true_2 by reflexivity. split; [apply sameVitals_refl|].
    reflexivity.
Qed.

Lemma healthy_vitals (e e' : Enemy.t) : sameVitals e e' -> healthy e -> healthy e'.
Proof.
  unfold sameVitals, healthy. intros (-> & -> & ->). tauto.
Qed.

(** [takeDamage] with an amount that is not negative keeps the invariant. *)
Lemma takeDamage_healthy (e : Enemy.t) (amount : Q) :
  (0 <= amount)%Q -> healthy e -> healthy (Enemy.takeDamage e amount).2.
Proof.
  intros Ha (H0 & Hmax & Hdead). unfold Enemy.takeDamage.
  destruct (bool_decide (Enemy.state e = DEAD)) eqn:Hd; cbn [snd].
  { unfold healthy. tauto. }
  apply bool_decide_eq_false in Hd.
  change (Enemy.health (Enemy.set_health e ?v)) with v.
  destruct (JS.leb (Enemy.health e - amount) 0) eqn:Hle; cbn [snd].
  - unfold healthy; cbn. repeat split; try reflexivity.
    + apply Qle_refl.
    + eapply Qle_trans; eauto.
  - apply leb_gt in Hle.
    change (Enemy.state (Enemy.set_health e ?v)) with (Enemy.state e).
    assert (Hpos : ~ Enemy.health e - amount == 0) by lra.
    assert (Hup : (Enemy.health e - amount <= Enemy.maxHealth e)%Q) by lra.
    destruct (bool_decide (Enemy.state e = IDLE)) eqn:Hi; cbn [snd];
      unfold healthy; cbn; repeat split; try lra; try tauto; try discriminate.
Qed.

(** [takeDamage] on a dead enemy answers [false] and changes nothing. *)
Lemma takeDamage_dead (e : Enemy.t) (amount : Q) :
  Enemy.state e = DEAD -> Enemy.takeDamage e amount = (false, e).
Proof.
  intros H. unfold Enemy.takeDamage. rewrite bool_decide_eq_true_2 by exact H.
  reflexivity.
Qed.

Lemma enemyCall_healthy (e : Enemy.t) (c : EnemyCall) (w : World) :
  damaging c -> healthy e -> healthy (enemyCall e c w).1.
Proof.
  destruct c as [px py grid size dt | amount]; cbn [enemyCall damaging].
  - intros _. apply healthy_vitals. apply update_vitals.
  - intros Ha. unfold ret. cbn [fst]. apply takeDamage_healthy. exact Ha.
Qed.

Lemma enemyCall_dead (e : Enemy.t) (c : EnemyCall) (w : World) :
  Enemy.state e = DEAD -> (enemyCall e c w).1 = e.
Proof.
  intros Hd. destruct c as [px py grid size dt | amount]; cbn [enemyCall].
  - apply update_vitals. exact Hd.
  - unfold ret. cbn [fst]. rewrite takeDamage_dead by exact Hd. reflexivity.
Qed.

Lemma enemyCalls_healthy (cs : list EnemyCall) (e : Enemy.t) (w : World) :
  Forall damaging cs -> healthy e -> healthy (enemyCalls e cs w).1.
Proof.
  revert e w. induction cs as [|c cs IH]; intros e w Hcs He; cbn.
  - exact He.
  - inversion Hcs as [|? ? Hc Hcs']; subst. unfold bind.
    destruct (enemyCall e c w) as [e1 w1] eqn:E.
    apply IH; [exact Hcs'|].
    pose proof (enemyCall_healthy e c w Hc He) as H. rewrite E in H. exact H.
Qed.

Lemma enemyCalls_dead (cs : list EnemyCall) (e : Enemy.t) (w : World) :
  Enemy.state e = DEAD -> (enemyCalls e cs w).1 = e.
Proof.
  revert w. induction cs as [|c cs IH]; intros w Hd; cbn; [reflexivity|].
  unfold bind. destruct (enemyCall e c w) as [e1 w1] eqn:E.
  pose proof (enemyCall_dead e c w Hd) as H. rewrite E in H. cbn in H. subst e1.
  apply IH. exact Hd.
Qed.

(** A freshly constructed enemy is healthy when its configured health is not
    negative. *)
Lemma create_healthy (i : Z) (ex ey : Q) (ty : string) (stats : Stats) (w : World) :
  (0 <= st_health stats)%Q -> healthy (Enemy.create i ex ey ty stats w).1.
Proof.
  intros H. unfold Enemy.create, bind, ret, Math_random. cbn [fst snd].
  unfold healthy; cbn. unfold JS.or_else.
  destruct (Qeq_bool (st_health stats) 0) eqn:E.
  - repeat split; try discriminate; try lra.
  - apply Qeq_bool_neq in E. repeat split; try lra; try discriminate.

Qed.

(** C5.  An enemy constructed from a health that is not negative, after any
    sequence of [update] and [takeDamage] calls whose amounts are not
    negative: [0 <= health <= maxHealth]; [state = DEAD] exactly when
    [health = 0]; once it is [DEAD] no further call changes it in any field,
    [takeDamage] answers [false]; and it is not among [getAliveEnemies()]. *)
Theorem enemy_health_invariant (i : Z) (ex ey : Q) (ty : string) (stats : Stats)
    (cs : list EnemyCall) (w : World) :
  (0 <= st_health stats)%Q ->
  Forall damaging cs ->
  let born := Enemy.create i ex ey ty stats w in
  let e := (enemyCalls born.1 cs born.2).1 in
  healthy e /\
  (Enemy.state e = DEAD ->
     (forall more w', (enemyCalls e more w').1 = e) /\
     (forall amount, Enemy.takeDamage e amount = (false, e)) /\
     (forall m, e ∉ EnemyManager.getAliveEnemies m)).
Proof.
  intros Hstats Hcs born e. split.
  - apply enemyCalls_healthy; [exact Hcs|]. apply create_healthy. exact Hstats.
  - intros Hd. repeat split.
    + intros more w'. apply enemyCalls_dead. exact Hd.
    + intros amount. apply takeDamage_dead. exact Hd.
    + intros m Hin. unfold EnemyManager.getAliveEnemies in Hin.
      apply list_elem_of_In, filter_In in Hin. destruct Hin as [_ Halive].
      unfold Enemy.isAlive in Halive. rewrite bool_decide_eq_true_2 in Halive by exact Hd.
      discriminate.
Qed.

Lemma enemy_health_invariant_witness :
  let born := Enemy.create 0 (5 # 2) (3 # 2) "grunt"
                (mkStats 50 10 0 8 (3 # 2) 1000) world0 in
  let e := (enemyCalls born.1
              [CallUpdate (3 # 2) (3 # 2) arena 5 (16 # 1000);
               CallTakeDamage 25; CallTakeDamage 25;
               CallUpdate (3 # 2) (3 # 2) arena 5 (16 # 1000)] born.2).1 in
  healthy e /\
  (Enemy.state e = DEAD ->
     (forall more w', (enemyCalls e more w').1 = e) /\
     (forall amount, Enemy.takeDamage e amount = (false, e)) /\
     (forall m, e ∉ EnemyManager.getAliveEnemies m)).
Proof.
  apply (enemy_health_invariant 0 (5 # 2) (3 # 2) "grunt"
           (mkStats 50 10 0 8 (3 # 2) 1000)).
  - vm_compute. discriminate.
  - repeat constructor; vm_compute; discriminate.
Defined.

(** The scenario of the witness ends with the enemy dead at health 0. *)
Example enemy_killed_by_two_hits :
  let born := Enemy.create 0 (5 # 2) (3 # 2) "grunt"
                (mkStats 50 10 0 8 (3 # 2) 1000) world0 in
  let e := (enemyCalls born.1
              [CallUpdate (3 # 2) (3 # 2) arena 5 (16 # 1000);
               CallTakeDamage 25; CallTakeDamage 25;
               CallUpdate (3 # 2) (3 # 2) arena 5 (16 # 1000)] born.2).1 in
  Enemy.state e = DEAD /\ Enemy.health e = 0%Q /\ Enemy.maxHealth e = 50%Q.
Proof. vm_compute. auto. Qed.

(** Outside of the domain of damage: a negative amount heals past
    [maxHealth]. *)
Example takeDamage_negative_amount :
  let e := (Enemy.takeDamage (enemyAt (5 # 2) (3 # 2) IDLE) (-10)).2 in
  Enemy.health e == 60 /\ Enemy.maxHealth e == 50.
Proof. vm_compute. auto. Qed.

(* ===================================================================== *)
(** * Frame controller: collision of the player's translation *)
(* ===================================================================== *)

(** C2, as the specification has it, fails.  The player stands at
    (1.95, 1.5) in a north-south corridor and walks along (0.6, 0.8) for one
    frame of 50 ms: the destination (2.04, 1.62) is in the wall east of the
    corridor.  The tile of the x component alone is wall and the tile of the
    y component alone is floor, so sliding would lead to (1.95, 1.62); the
    code leaves the player at (1.95, 1.5). *)
Lemma translation_does_not_slide :
  let px := 39 # 20 in
  let py := 3 # 2 in
  let tx := (px + (3 # 5) * (1 * 3 * (5 # 100)))%Q in
  let ty := (py + (4 # 5) * (1 * 3 * (5 # 100)))%Q in
  walkable alleyScene tx py = false /\
  walkable alleyScene px ty = true /\
  Frame.moveForward alleyScene onlyForward (5 # 100) (3 # 5) (4 # 5) (px, py)
    = (px, py) /\
  slideTo alleyScene px py tx ty = (px, ty) /\
  Frame.moveForward alleyScene onlyForward (5 # 100) (3 # 5) (4 # 5) (px, py)
    <> slideTo alleyScene px py tx ty.
Proof. vm_compute. repeat split; congruence. Qed.

Section Translation.
Variable sc : Frame.Scene.

Lemma stepTo_walkable (px py tx ty : Q) :
  Frame.stepTo sc px py tx ty = if walkable sc tx ty then (tx, ty) else (px, py).
Proof. reflexivity. Qed.

(** The two blocks of [animate] that move the player, each on its own: the
    translation of an input is tested as a whole, on the one tile of its
    destination. *)
Lemma translation_steps (keys : Frame.Keys) (dt dx dy px py : Q) :
  let move := ((if Frame.forward keys then 1 else 0)
               + (if Frame.backward keys then -1 else 0))%Q in
  let strafe := ((if Frame.strafeLeft keys then 1 else 0)
                 + (if Frame.strafeRight keys then -1 else 0))%Q in
  let tx := (px + dx * (move * 3 * dt))%Q in
  let ty := (py + dy * (move * 3 * dt))%Q in
  let sx := (px + dy * (strafe * 3 * dt))%Q in
  let sy := (py + - dx * (strafe * 3 * dt))%Q in
  Frame.moveForward sc keys dt dx dy (px, py)
    = (if negb (Qeq_bool move 0) && walkable sc tx ty then (tx, ty) else (px, py)) /\
  Frame.moveStrafe sc keys dt dx dy (px, py)
    = (if negb (Qeq_bool strafe 0) && walkable sc sx sy then (sx, sy) else (px, py)).
Proof.
  intros move strafe tx ty sx sy. split.
  - unfold Frame.moveForward. fold move. destruct (negb (Qeq_bool move 0)); [|reflexivity].
    cbn [andb]. apply stepTo_walkable.
  - unfold Frame.moveStrafe. fold strafe. destruct (negb (Qeq_bool strafe 0)); [|reflexivity].
    cbn [andb]. apply stepTo_walkable.
Qed.

(** Where a frame that is not paused leaves the player, and which way it
    leaves the player looking. *)
Lemma animate_moves (keys : Frame.Keys) (now : Q) (st : Frame.State) (w : World) :
  Frame.gamePaused st = false ->
  let st' := (Frame.animate sc keys now st w).1 in
  let dt := Qmin (5 # 100) (Qmax (1 # 1000) ((now - Frame.lastTime st) / 1000)) in
  let dx := Frame.dirX (Frame.player st') in
  let dy := Frame.dirY (Frame.player st') in
  (Frame.x (Frame.player st'), Frame.y (Frame.player st'))
  = Frame.moveStrafe sc keys dt dx dy
      (Frame.moveForward sc keys dt dx dy
         (Frame.x (Frame.player st), Frame.y (Frame.player st))).
Proof.
  intros Hpaused. unfold Frame.animate. rewrite Hpaused.
  destruct (Frame.moveStrafe _ _ _ _ _ _) as [px py] eqn:Epos.
  destruct (_ && negb (Frame.levelComplete sc)).
  - unfold bind, Date_now, ret.
    cbn [fst Frame.player Frame.x Frame.y Frame.dirX Frame.dirY].
    symmetry. exact Epos.
  - unfold bind. destruct (EnemyManager.update _ _ _ _ _ _ _) as [[dmg em1] w1].
    destruct (_ && negb (Frame.gameOver sc)).
    + unfold Date_now, ret. cbn [fst Frame.player].
      destruct (JS.ltb 0 dmg); cbn [Frame.x Frame.y Frame.dirX Frame.dirY];
        symmetry; exact Epos.
    + destruct (Frame.minimap sc), (Frame.onPlayerMove sc);
        unfold Date_now, Math_random, ret; cbn [fst snd];
        destruct (Frame.applyShake _ _) as [sh2 w2]; cbn [fst Frame.player];
        destruct (JS.ltb 0 dmg); cbn [Frame.x Frame.y Frame.dirX Frame.dirY];
        symmetry; exact Epos.
Qed.

(** C2, as the code has it.  In a frame of [animate] that is not paused the
    player is moved in two steps along the direction [(dx, dy)] that the frame
    ends with.  The forward/backward input leads to [(tx, ty)]: that
    translation is applied as a whole when the one tile of [(tx, ty)] is floor
    or portal, and dropped as a whole otherwise.  The strafe input is resolved
    after it, from wherever the first step led, blocked or not, in the same
    all-or-nothing way.  No axis is ever tested on its own, and an input whose
    two keys cancel moves nothing. *)
Theorem translation_all_or_nothing (keys : Frame.Keys) (now : Q)
    (st : Frame.State) (w : World) :
  Frame.gamePaused st = false ->
  let st' := (Frame.animate sc keys now st w).1 in
  let dt := Qmin (5 # 100) (Qmax (1 # 1000) ((now - Frame.lastTime st) / 1000)) in
  let dx := Frame.dirX (Frame.player st') in
  let dy := Frame.dirY (Frame.player st') in
  let move := ((if Frame.forward keys then 1 else 0)
               + (if Frame.backward keys then -1 else 0))%Q in
  let strafe := ((if Frame.strafeLeft keys then 1 else 0)
                 + (if Frame.strafeRight keys then -1 else 0))%Q in
  let px := Frame.x (Frame.player st) in
  let py := Frame.y (Frame.player st) in
  let tx := (px + dx * (move * 3 * dt))%Q in
  let ty := (py + dy * (move * 3 * dt))%Q in
  let moved := negb (Qeq_bool move 0) && walkable sc tx ty in
  let mx := if moved then tx else px in
  let my := if moved then ty else py in
  let sx := (mx + dy * (strafe * 3 * dt))%Q in
  let sy := (my + - dx * (strafe * 3 * dt))%Q in
  let strafed := negb (Qeq_bool strafe 0) && walkable sc sx sy in
  Frame.x (Frame.player st') = (if strafed then sx else mx) /\
  Frame.y (Frame.player st') = (if strafed then sy else my).
Proof.
  intros Hpaused st' dt dx dy move strafe px py tx ty moved mx my sx sy strafed.
  pose proof (animate_moves keys now st w Hpaused) as H. cbv zeta in H.
  fold st' in H. fold dt dx dy px py in H.
  destruct (translation_steps keys dt dx dy px py) as [Hf _].
  cbv zeta in Hf. fold move tx ty moved in Hf. rewrite Hf in H.
  assert (Hm : (if moved then (tx, ty) else (px, py)) = (mx, my))
    by (unfold mx, my; destruct moved; reflexivity).
  rewrite Hm in H.
  destruct (translation_steps keys dt dx dy mx my) as [_ Hs].
  cbv zeta in Hs. fold strafe sx sy strafed in Hs. rewrite Hs in H.
  destruct strafed; injection H as -> ->; split; reflexivity.
Qed.

End Translation.

Lemma translation_all_or_nothing_witness :
  let st' := (Frame.animate alleyScene onlyForward 50
                (Frame.mkState (Frame.mkPlayer (39 # 20) (3 # 2) 1 0 0 (66 # 100) 100 100)
                               0 (Frame.mkShake 0 0 0 0) false
                               EnemyManager.create (CombatManager.create Combat.pistol)
                               4000 0 false None false None [] true) world0).1 in
  Frame.x (Frame.player st') = 39 # 20 /\ Frame.y (Frame.player st') = 3 # 2.
Proof.
  pose proof (translation_all_or_nothing alleyScene onlyForward 50
                (Frame.mkState (Frame.mkPlayer (39 # 20) (3 # 2) 1 0 0 (66 # 100) 100 100)
                               0 (Frame.mkShake 0 0 0 0) false
                               EnemyManager.create (CombatManager.create Combat.pistol)
                               4000 0 false None false None [] true) world0
                ltac:(reflexivity)) as H.
  vm_compute in H. vm_compute. exact H.
Defined.

(* ===================================================================== *)
(** * Frame controller: the level-complete signal *)
(* ===================================================================== *)

Section LevelComplete.
Variable sc : Frame.Scene.

(** Once no call of [animate] is pending, nothing but the pause flag of the
    shop handlers changes any more, and neither oracle is read. *)
Lemma run_unscheduled (evs : list Frame.Event) (st : Frame.State) (w : World) :
  Frame.scheduled st = false ->
  exists b, Frame.run sc st evs w = (Frame.setPaused st b, w).
Proof.
  revert st. induction evs as [|ev evs IH]; intros st Hs.
  - exists (Frame.gamePaused st). destruct st; reflexivity.
  - unfold Frame.run in *. cbn [forEachM]. unfold bind.
    destruct ev as [keys now | |]; cbn [Frame.handle].
    + rewrite Hs. unfold ret. apply IH. exact Hs.
    + unfold ret. destruct (IH (Frame.setPaused st true) Hs) as [b Hb].
      exists b. rewrite Hb. reflexivity.
    + unfold ret. destruct (IH (Frame.setPaused st false) Hs) as [b Hb].
      exists b. rewrite Hb. reflexivity.
Qed.

(** A frame either leaves the record of completions as it is, or adds one
    completion and stops the loop. *)
Lemma animate_saved (keys : Frame.Keys) (now : Q) (st : Frame.State) (w : World) :
  let st' := (Frame.animate sc keys now st w).1 in
  Frame.saved st' = Frame.saved st \/
  (exists stats, Frame.saved st' = Frame.saved st ++ [(stats, true)]) /\
  Frame.scheduled st' = false.
Proof.
  unfold Frame.animate. destruct (Frame.gamePaused st); [left; reflexivity|].
  destruct (Frame.moveStrafe _ _ _ _ _ _) as [px py].
  destruct (_ && negb (Frame.levelComplete sc)).
  - right. unfold bind, Date_now, ret. cbn. eauto.
  - left. unfold bind. destruct (EnemyManager.update _ _ _ _ _ _ _) as [[dmg em1] w1].
    destruct (_ && negb (Frame.gameOver sc)).
    + unfold Date_now, ret. reflexivity.
    + destruct (Frame.minimap sc), (Frame.onPlayerMove sc);
        unfold Date_now, Math_random, ret; cbn [fst snd];
        destruct (Frame.applyShake _ _) as [sh2 w2]; reflexivity.
Qed.

(** Over any run of events the level-complete signal is sent at most once. *)
Lemma run_completes_at_most_once (evs : list Frame.Event) (st : Frame.State) (w : World) :
  (length (Frame.saved (Frame.run sc st evs w).1) <= S (length (Frame.saved st)))%nat.
Proof.
  revert st w. induction evs as [|ev evs IH]; intros st w.
  - cbn. lia.
  - unfold Frame.run in *. cbn [forEachM]. unfold bind.
    destruct ev as [keys now | |]; cbn [Frame.handle].
    + destruct (Frame.scheduled st) eqn:Hs.
      * pose proof (animate_saved keys now st w) as H. cbn zeta in H.
        destruct (Frame.animate sc keys now st w) as [st' w']. cbn [fst] in H.
        destruct H as [H | [[stats H] Hstop]].
        -- rewrite <- H. apply IH.
        -- destruct (run_unscheduled evs st' w' Hstop) as [b Hb].
           unfold Frame.run in Hb. rewrite Hb. cbn. rewrite H, length_app. cbn. lia.
      * unfold ret. apply IH.
    + unfold ret. apply (IH (Frame.setPaused st true)).
    + unfold ret. apply (IH (Frame.setPaused st false)).
Qed.

(** X23.  The loop is running and not paused, and the closure holds
    [levelComplete = false].  A frame that ends with the player on a tile of
    code 9 sends the level-complete signal, without updating the enemies,
    with the kills, the time and the health of that moment, and with the gold
    and the number of purchases that the closure of [animate] holds, those of
    the render in which the loop was started.  Whatever frames and shop
    events follow, no call of [animate] runs again: the signal is not
    repeated, neither the player nor the enemies change, and only the pause
    flag can still be written. *)
Theorem level_complete_fires_once (keys : Frame.Keys) (now : Q)
    (st : Frame.State) (w : World) :
  Frame.levelComplete sc = false ->
  Frame.scheduled st = true ->
  Frame.gamePaused st = false ->
  let r := Frame.handle sc st (Frame.AnimationFrame keys now) w in
  onPortal sc r.1 = true ->
  let stats :=
    Frame.mkLevelStats (CombatManager.kills (Frame.combatManager st))
                       (Frame.playerGold sc)
                       (inject_Z (clock w (ticks w) - Frame.startTime st) / 1000)
                       (Some (Frame.health (Frame.player st)))
                       (Frame.inventoryLength sc) in
  Frame.saved r.1 = Frame.saved st ++ [(stats, true)] /\
  Frame.completionStats r.1 = Some stats /\
  Frame.levelCompleteSet r.1 = true /\
  Frame.enemyManager r.1 = Frame.enemyManager st /\
  forall evs w', exists b, Frame.run sc r.1 evs w' = (Frame.setPaused r.1 b, w').
Proof.
  intros Hlc Hsched Hpaused r. subst r. cbn [Frame.handle]. rewrite Hsched.
  unfold Frame.animate, onPortal. rewrite Hpaused, Hlc.
  destruct (Frame.moveStrafe _ _ _ _ _ _) as [px py].
  cbn [negb]. rewrite andb_true_r.
  destruct (tileIs (Frame.mapData sc) (JS.floor py * Frame.mapSize sc + JS.floor px) 9) eqn:Htile.
  - intros _. unfold bind, Date_now, ret. cbn [fst snd].
    repeat split. intros evs w'. apply run_unscheduled. reflexivity.
  - intros Hon. exfalso. revert Hon. unfold bind.
    destruct (EnemyManager.update _ _ _ _ _ _ _) as [[dmg em1] w1].
    destruct (_ && negb (Frame.gameOver sc)).
    + unfold Date_now, ret. cbn [fst Frame.player].
      destruct (JS.ltb 0 dmg); cbn [Frame.x Frame.y]; rewrite Htile; discriminate.
    + destruct (Frame.minimap sc), (Frame.onPlayerMove sc);
        unfold Date_now, Math_random, ret; cbn [fst snd];
        destruct (Frame.applyShake _ _) as [sh2 w2]; cbn [fst Frame.player];
        destruct (JS.ltb 0 dmg); cbn [Frame.x Frame.y]; rewrite Htile; discriminate.
Qed.

End LevelComplete.

Lemma level_complete_fires_once_witness :
  let st := frameState (3 # 2) (5 # 2) in
  let r := Frame.handle portalScene st (Frame.AnimationFrame noKeys 16%Q) world0 in
  let stats := Frame.mkLevelStats 0 100 (inject_Z (10000 - 4000) / 1000) (Some 100%Q) 0 in
  Frame.saved r.1 = Frame.saved st ++ [(stats, true)] /\
  Frame.completionStats r.1 = Some stats /\
  Frame.levelCompleteSet r.1 = true /\
  Frame.enemyManager r.1 = Frame.enemyManager st /\
  forall evs w', exists b, Frame.run portalScene r.1 evs w' = (Frame.setPaused r.1 b, w').
Proof.
  apply (level_complete_fires_once portalScene noKeys 16%Q (frameState (3 # 2) (5 # 2)) world0);
    vm_compute; reflexivity.
Defined.

(** C10 at a failing input.  The loop was started when the player had 100
    gold.  The player shoots the enemy next to it, which dies and drops 10
    gold: the gold is 110 and [kills] is 1.  The player then steps onto the
    portal.  The level-complete signal is sent, once, with the kills of that
    moment (1), and with 100 gold: [animate] reads the [playerGold] of the
    render in which its effect ran, not the gold the player has. *)
Theorem level_complete_reports_stale_gold :
  let shot := Frame.onShoot exitScene exitState 100 world0 in
  let gold := shot.1.2 in
  let r := Frame.handle exitScene shot.1.1
                        (Frame.AnimationFrame onlyStrafeLeft 1000) shot.2 in
  gold == 110 /\
  CombatManager.kills (Frame.combatManager shot.1.1) = 1%Z /\
  onPortal exitScene r.1 = true /\
  Frame.levelCompleteSet r.1 = true /\
  (exists stats, Frame.completionStats r.1 = Some stats /\
                 Frame.saved r.1 = [(stats, true)] /\
                 Frame.kills stats = 1%Z /\
                 Frame.gold stats == 100 /\
                 ~ Frame.gold stats == gold).
Proof.
  vm_compute. split; [reflexivity|]. split; [reflexivity|]. split; [reflexivity|].
  split; [reflexivity|]. eexists. split; [reflexivity|]. split; [reflexivity|].
  split; [reflexivity|]. split; [reflexivity | discriminate].
Qed.

(* ===================================================================== *)
(** * Enemy: line of sight *)
(* ===================================================================== *)

(** C9 fails, also where the two checks step by the same half tile over a
    distance that is a whole number of steps.  In the grid with one wall at
    tile (0, 1), A = (0.39999999999999991, 0.5) and B = (1.8999999999999999,
    2.5) both stand on floor, and the distance that either check computes is
    exactly 2.5, five steps.  From A the third sample is
    (0.99999999999999989, 1.3), in the wall; from B the fourth sample is
    (1.0, 1.2999999999999998), on floor, and so are the others. *)
Lemma sight_is_not_symmetric :
  let ax := Sight.below04 in
  let ay := Sight.half in
  let bx := Sight.near19 in
  let by' := Sight.fiveHalves in
  Sight.onFloor Sight.cornerGrid 3 (Sight.tileAt ax ay) = true /\
  Sight.onFloor Sight.cornerGrid 3 (Sight.tileAt bx by') = true /\
  Sight.stepsTo ax ay bx by' = Some 5%Z /\
  Sight.stepsTo bx by' ax ay = Some 5%Z /\
  Double.hasLineOfSight ax ay bx by' Sight.cornerGrid 3 = Some false /\
  Double.hasLineOfSight bx by' ax ay Sight.cornerGrid 3 = Some true.
Proof. vm_compute. repeat split; reflexivity. Qed.

Lemma sameTiles_sym (ax ay bx by' : PrimFloat.float) :
  Sight.sameTiles ax ay bx by' = Sight.sameTiles bx by' ax ay.
Proof.
  unfold Sight.sameTiles.
  destruct (Sight.sampledTiles ax ay bx by'), (Sight.sampledTiles bx by' ax ay);
    try reflexivity.
  apply andb_comm.
Qed.

Lemma allTriples_spec (n : Z) (P : Z -> Z -> Z -> bool) :
  allTriples n P = true ->
  forall c a b, (0 <= c < n)%Z -> (0 <= a < n)%Z -> (0 <= b < n)%Z -> P c a b = true.
Proof.
  unfold allTriples. intros H c a b Hc Ha Hb.
  rewrite forallb_forall in H.
  specialize (H c ltac:(first [apply list_elem_of_In | apply elem_of_list_In];
                        apply elem_of_seqZ; lia)).
  rewrite forallb_forall in H.
  specialize (H a ltac:(first [apply list_elem_of_In | apply elem_of_list_In];
                        apply elem_of_seqZ; lia)).
  rewrite forallb_forall in H.
  exact (H b ltac:(first [apply list_elem_of_In | apply elem_of_list_In];
                   apply elem_of_seqZ; lia)).
Qed.

(** The centres of the tiles of a row, and of a column, of a grid of 24 by 24
    tiles sample the same tiles both ways: by evaluation, in doubles, of all
    pairs of them. *)
Lemma centres_agree : allTriples 24 Sight.centresAgree = true.
Proof. vm_compute. reflexivity. Qed.

Lemma centres_sameTiles (a b c : Z) :
  (0 <= a < 24)%Z -> (0 <= b < 24)%Z -> (0 <= c < 24)%Z ->
  Sight.sameTiles (Sight.centre a) (Sight.centre c) (Sight.centre b) (Sight.centre c) = true /\
  Sight.sameTiles (Sight.centre c) (Sight.centre a) (Sight.centre c) (Sight.centre b) = true.
Proof.
  assert (Hle : forall a b c, (0 <= a < 24)%Z -> (0 <= b < 24)%Z -> (0 <= c < 24)%Z ->
            (a <= b)%Z ->
            Sight.sameTiles (Sight.centre a) (Sight.centre c)
                            (Sight.centre b) (Sight.centre c) = true /\
            Sight.sameTiles (Sight.centre c) (Sight.centre a)
                            (Sight.centre c) (Sight.centre b) = true).
  { clear a b c. intros a b c Ha Hb Hc Hab.
    pose proof (allTriples_spec 24 Sight.centresAgree centres_agree c a b Hc Ha Hb) as H.
    unfold Sight.centresAgree in H.
    replace (b <? a)%Z with false in H by (symmetry; apply Z.ltb_ge; lia).
    apply andb_true_iff in H. exact H. }
  intros Ha Hb Hc. destruct (Z_le_gt_dec a b) as [Hab | Hab].
  - apply Hle; assumption.
  - rewrite (sameTiles_sym (Sight.centre a)), (sameTiles_sym (Sight.centre c) (Sight.centre a)).
    apply Hle; [assumption | assumption | assumption | lia].
Qed.

Section Sight.
Variables (grid : list Z) (mapSize : Z).

Lemma sightLoop_tiles (n : nat) (i ex ey dirX dirY : PrimFloat.float) :
  Double.sightLoop n i ex ey dirX dirY grid mapSize
  = forallb (Sight.onFloor grid mapSize) (Sight.tilesFrom n i ex ey dirX dirY).
Proof.
  revert i. induction n as [|n IH]; intros i; [reflexivity|].
  cbn [Double.sightLoop Sight.tilesFrom forallb]. rewrite <- IH.
  unfold Sight.tileAt.
  destruct (Double.floor _) as [mapX|]; [|reflexivity].
  destruct (Double.floor _) as [mapY|]; [|reflexivity].
  cbn [Sight.onFloor]. unfold isFloor. cbn [fst snd].
  destruct (_ || _)%bool; [reflexivity|]. cbn [negb andb].
  destruct (tileIs _ _ _); reflexivity.
Qed.

(** The check succeeds exactly when every tile it samples is floor inside the
    grid. *)
Lemma sight_samples (x y targetX targetY : PrimFloat.float) :
  Double.hasLineOfSight x y targetX targetY grid mapSize
  = forallb (Sight.onFloor grid mapSize) <$> Sight.sampledTiles x y targetX targetY.
Proof.
  unfold Double.hasLineOfSight, Sight.sampledTiles.
  destruct (PrimFloat.is_nan _); [reflexivity|].
  destruct (Double.ceil _) as [steps|]; [|reflexivity].
  destruct (steps <=? 2 ^ 53)%Z; [|reflexivity].
  cbn [fmap option_fmap option_map]. rewrite sightLoop_tiles. reflexivity.
Qed.

Lemma forallb_covered (fromA fromB : list (option (Z * Z))) (own : option (Z * Z)) :
  forallb (fun t => bool_decide (t ∈ fromB \/ t = own)) fromA = true ->
  Sight.onFloor grid mapSize own = true ->
  forallb (Sight.onFloor grid mapSize) fromB = true ->
  forallb (Sight.onFloor grid mapSize) fromA = true.
Proof.
  intros Hcov Hown HB. rewrite forallb_forall in *.
  intros t Ht. specialize (Hcov t Ht). apply bool_decide_eq_true in Hcov.
  destruct Hcov as [Hin | ->]; [|exact Hown].
  apply HB. first [apply list_elem_of_In | apply elem_of_list_In]. exact Hin.
Qed.

(** C9, as far as it holds.  [hasLineOfSight] from A to B succeeds exactly
    when every point that it samples, from A on in steps of half a tile, lies
    on a floor tile inside the grid.  The check from A to B and the check
    from B to A therefore return, and agree, whenever A and B both stand on
    floor and the two checks sample the same tiles in between; that is a
    condition on the two positions, whatever the grid holds.  It holds of the
    centres of any two tiles of one row, or of one column, of a grid of up to
    24 by 24 tiles. *)
Theorem sight_symmetric_on_same_tiles (ax ay bx by' : PrimFloat.float) :
  Double.hasLineOfSight ax ay bx by' grid mapSize
    = forallb (Sight.onFloor grid mapSize) <$> Sight.sampledTiles ax ay bx by' /\
  (Sight.sameTiles ax ay bx by' = true ->
   Sight.onFloor grid mapSize (Sight.tileAt ax ay) = true ->
   Sight.onFloor grid mapSize (Sight.tileAt bx by') = true ->
   exists seen : bool,
     Double.hasLineOfSight ax ay bx by' grid mapSize = Some seen /\
     Double.hasLineOfSight bx by' ax ay grid mapSize = Some seen) /\
  (forall a b c : Z,
     (0 <= a < 24)%Z -> (0 <= b < 24)%Z -> (0 <= c < 24)%Z ->
     Sight.sameTiles (Sight.centre a) (Sight.centre c)
                     (Sight.centre b) (Sight.centre c) = true /\
     Sight.sameTiles (Sight.centre c) (Sight.centre a)
                     (Sight.centre c) (Sight.centre b) = true).
Proof.
  split; [apply sight_samples|]. split; [|apply centres_sameTiles].
  intros Hsame Ha Hb. rewrite !sight_samples. unfold Sight.sameTiles in Hsame.
  destruct (Sight.sampledTiles ax ay bx by') as [fromA|]; [|discriminate].
  destruct (Sight.sampledTiles bx by' ax ay) as [fromB|]; [|discriminate].
  apply andb_true_iff in Hsame as [HA HB].
  exists (forallb (Sight.onFloor grid mapSize) fromA).
  split; [reflexivity|]. cbn [fmap option_fmap option_map]. f_equal.
  apply eq_true_iff_eq. split.
  - intros H. apply (forallb_covered fromA fromB _ HA Ha H).
  - intros H. apply (forallb_covered fromB fromA _ HB Hb H).
Qed.

End Sight.

(** Along a row of the grid, from the centre of the tile (0, 0) to the centre
    of the tile (2, 0): the two checks sample the tiles 0, 1, 1, 2 and
    2, 2, 1, 1 of the row, and agree. *)
Lemma sight_symmetric_on_same_tiles_witness :
  Sight.sameTiles Sight.half Sight.half Sight.fiveHalves Sight.half = true /\
  exists seen : bool,
    Double.hasLineOfSight Sight.half Sight.half Sight.fiveHalves Sight.half
                          Sight.cornerGrid 3 = Some seen /\
    Double.hasLineOfSight Sight.fiveHalves Sight.half Sight.half Sight.half
                          Sight.cornerGrid 3 = Some seen.
Proof.
  assert (Hsame : Sight.sameTiles Sight.half Sight.half Sight.fiveHalves Sight.half = true)
    by (vm_compute; reflexivity).
  split; [exact Hsame|].
  destruct (sight_symmetric_on_same_tiles Sight.cornerGrid 3
              Sight.half Sight.half Sight.fiveHalves Sight.half) as (_ & H & _).
  apply H; [exact Hsame | vm_compute; reflexivity | vm_compute; reflexivity].
Defined.

(* ===================================================================== *)
(** * Enemy: path finding *)
(* ===================================================================== *)

(** ** The sort of the open set *)

Lemma insertByF_perm (n : PathNode) (l : list PathNode) :
  Enemy.insertByF n l ≡ₚ n :: l.
Proof.
  induction l as [|m l IH]; cbn; [reflexivity|].
  destruct (PNode.f n <=? PNode.f m)%Z; [reflexivity|].
  rewrite IH. apply perm_swap.
Qed.

Lemma sortByF_perm (l : list PathNode) : Enemy.sortByF l ≡ₚ l.
Proof.
  induction l as [|n l IH]; cbn; [reflexivity|].
  rewrite insertByF_perm. rewrite IH. reflexivity.
Qed.

Lemma insertByF_sorted (n : PathNode) (l : list PathNode) :
  StronglySorted byF l -> StronglySorted byF (Enemy.insertByF n l).
Proof.
  induction 1 as [|m l Hl IH Hm]; cbn.
  - repeat constructor.
  - destruct (PNode.f n <=? PNode.f m)%Z eqn:E.
    + apply Z.leb_le in E. constructor; [constructor; assumption|].
      constructor; [exact E|].
      eapply Forall_impl; [exact Hm|]. unfold byF. intros; lia.
    + apply Z.leb_gt in E. constructor; [exact IH|].
      rewrite insertByF_perm.
      constructor; [unfold byF; lia | exact Hm].
Qed.

Lemma sortByF_sorted (l : list PathNode) : StronglySorted byF (Enemy.sortByF l).
Proof.
  induction l as [|n l IH]; cbn; [constructor|].
  apply insertByF_sorted. exact IH.
Qed.

(** In a sorted array, [find] returns an entry whose [f] is least among the
    entries that pass the test. *)
Lemma find_sorted_least (p : PathNode -> bool) (l : list PathNode) (e : PathNode) :
  StronglySorted byF l -> List.find p l = Some e ->
  forall n, n ∈ l -> p n = true -> (PNode.f e <= PNode.f n)%Z.
Proof.
  induction 1 as [|m l Hl IH Hm]; cbn; [discriminate|].
  destruct (p m) eqn:Hp.
  - intros [= <-] n Hn _. apply elem_of_cons in Hn as [-> | Hn]; [lia|].
    rewrite Forall_forall in Hm. apply Hm. exact Hn.
  - intros Hf n Hn Hpn. apply elem_of_cons in Hn as [-> | Hn]; [congruence|].
    apply IH; assumption.
Qed.

Lemma find_elem (p : PathNode -> bool) (l : list PathNode) (e : PathNode) :
  List.find p l = Some e -> e ∈ l /\ p e = true.
Proof.
  intros H. apply find_some in H. rewrite list_elem_of_In. exact H.
Qed.

Lemma find_none_elem (p : PathNode -> bool) (l : list PathNode) (n : PathNode) :
  List.find p l = None -> n ∈ l -> p n = false.
Proof.
  intros H Hn. apply (find_none _ _ H). apply list_elem_of_In. exact Hn.
Qed.

Lemma atCell_true (m : Z * Z) (n : PathNode) :
  atCell m n = true <-> PNode.cell n = m.
Proof.
  unfold atCell, PNode.cell. destruct m as [mx my]. cbn.
  rewrite andb_true_iff, !Z.eqb_eq. split; [intros [-> ->]; reflexivity|].
  intros [= -> ->]. auto.
Qed.

(** ** One round of the loop *)

Lemma PathNode_induction (P : PathNode -> Prop) :
  (forall cx cy g h f, P (mkNode cx cy g h f None)) ->
  (forall cx cy g h f p, P p -> P (mkNode cx cy g h f (Some p))) ->
  forall n, P n.
Proof.
  intros Hroot Hchild. fix IH 1. intros [cx cy g h f [p|]].
  - apply Hchild. apply IH.
  - apply Hroot.
Qed.

Lemma adjacent4_neighbors (current : PathNode) (m : Z * Z) :
  adjacent4 (PNode.cell current) m <-> m ∈ Enemy.neighbors current.
Proof.
  unfold adjacent4, Enemy.neighbors, PNode.cell. destruct m as [mx my]. cbn.
  rewrite !elem_of_cons, elem_of_nil. split.
  - intros H.
    assert (Hc : ((mx = PNode.x current + 1 /\ my = PNode.y current)
              \/ (mx = PNode.x current - 1 /\ my = PNode.y current)
              \/ (mx = PNode.x current /\ my = PNode.y current + 1)
              \/ (mx = PNode.x current /\ my = PNode.y current - 1))%Z) by lia.
    destruct Hc as [[-> ->] | [[-> ->] | [[-> ->] | [-> ->]]]]; auto.
  - intros H.
    repeat (destruct H as [H | H]; [injection H as Hx Hy; subst mx my; lia|]).
    destruct H.
Qed.

Lemma adjacent4_irrefl (c : Z * Z) : ~ adjacent4 c c.
Proof. unfold adjacent4. lia. Qed.

Section Search.
Variables (mapData : list Z) (mapSize : Z) (start goal : Z * Z).

Local Abbreviation floor := (isFloor mapData mapSize).
Local Abbreviation visit := (Enemy.visit mapData mapSize goal.1 goal.2).
Local Abbreviation Inv := (searchInv mapData mapSize start goal).
Local Abbreviation child := (childNode goal).

Lemma visit_spec (closed : gset (Z * Z)) (current : PathNode)
    (openSet : list PathNode) (m : Z * Z) :
  visit closed current openSet m =
  if floor m && negb (bool_decide (m ∈ closed)) then
    match List.find (atCell m) openSet with
    | Some existing =>
        if (PNode.g existing <=? PNode.g current + 1)%Z then openSet
        else openSet ++ [child current m]
    | None => openSet ++ [child current m]
    end
  else openSet.
Proof.
  unfold Enemy.visit, isFloor, childNode, atCell. destruct m as [mx my]. cbn [fst snd].
  destruct (_ || _)%bool; cbn [negb andb]; [reflexivity|].
  destruct (bool_decide ((mx, my) ∈ closed)); cbn [negb];
    [rewrite andb_false_r; reflexivity|].
  rewrite andb_true_r. destruct (tileIs _ _ _); reflexivity.
Qed.

(** The neighbours of a node that was popped when its cell was already
    closed are all known well enough: nothing is pushed. *)
Lemma visits_unchanged (closed : gset (Z * Z)) (current : PathNode)
    (ms : list (Z * Z)) (openSet : list PathNode) :
  (forall m, m ∈ ms -> floor m = true -> m ∉ closed ->
     exists e, List.find (atCell m) openSet = Some e /\
               (PNode.g e <= PNode.g current + 1)%Z) ->
  foldl (visit closed current) openSet ms = openSet.
Proof.
  induction ms as [|m ms IH]; intros H; cbn [foldl]; [reflexivity|].
  assert (Hm : visit closed current openSet m = openSet).
  { rewrite visit_spec. destruct (floor m) eqn:Hf; [|reflexivity].
    destruct (bool_decide (m ∈ closed)) eqn:Hc; [reflexivity|].
    apply bool_decide_eq_false in Hc. cbn [negb andb].
    destruct (H m) as (e & -> & Hg); [left | exact Hf | exact Hc |].
    apply Z.leb_le in Hg. rewrite Hg. reflexivity. }
  rewrite Hm. apply IH. intros m' Hm'. apply H. right. exact Hm'.
Qed.

(** What the loop over the neighbours adds to the open set. *)
Lemma visits_spec (closed : gset (Z * Z)) (current : PathNode)
    (ms : list (Z * Z)) (openSet : list PathNode) :
  exists pushed,
    foldl (visit closed current) openSet ms = openSet ++ pushed /\
    (length pushed <= length ms)%nat /\
    (forall n, n ∈ pushed ->
       exists m, m ∈ ms /\ n = child current m /\ floor m = true /\ m ∉ closed) /\
    (forall m, m ∈ ms -> floor m = true ->
       m ∈ closed \/
       exists n, n ∈ openSet ++ pushed /\ PNode.cell n = m /\
                 (PNode.g n <= PNode.g current + 1)%Z).
Proof.
  revert openSet. induction ms as [|m ms IH]; intros openSet; cbn [foldl].
  - exists []. rewrite app_nil_r. repeat split; auto.
    + intros n Hn. inversion Hn.
    + intros m Hm. inversion Hm.
  - destruct (IH (visit closed current openSet m)) as (pushed & Heq & Hlen & Hnew & Hall).
    rewrite Heq. clear Heq. rewrite visit_spec in *.
    destruct (floor m) eqn:Hf; cbn [andb] in *.
    2:{ exists pushed. split; [reflexivity|]. split; [cbn; lia|]. split.
        - intros n Hn. destruct (Hnew n Hn) as (m' & ? & ?). exists m'. split; [right|]; auto.
        - intros m' Hm' Hf'. apply elem_of_cons in Hm' as [-> | Hm']; [congruence|].
          apply Hall; assumption. }
    destruct (bool_decide (m ∈ closed)) eqn:Hc; cbn [negb] in *.
    { apply bool_decide_eq_true in Hc.
      exists pushed. split; [reflexivity|]. split; [cbn; lia|]. split.
      - intros n Hn. destruct (Hnew n Hn) as (m' & ? & ?). exists m'. split; [right|]; auto.
      - intros m' Hm' Hf'. apply elem_of_cons in Hm' as [-> | Hm']; [left; exact Hc|].
        apply Hall; assumption. }
    apply bool_decide_eq_false in Hc.
    assert (Hkeep : forall extra,
              (forall m', m' ∈ ms -> floor m' = true ->
                 m' ∈ closed \/
                 exists n, n ∈ (openSet ++ extra) ++ pushed /\ PNode.cell n = m' /\
                           (PNode.g n <= PNode.g current + 1)%Z) ->
              (exists n, n ∈ openSet ++ extra /\ PNode.cell n = m /\
                         (PNode.g n <= PNode.g current + 1)%Z) ->
              forall m', m' ∈ m :: ms -> floor m' = true ->
                 m' ∈ closed \/
                 exists n, n ∈ openSet ++ (extra ++ pushed) /\ PNode.cell n = m' /\
                           (PNode.g n <= PNode.g current + 1)%Z).
    { intros extra Hrest (n & Hn & Hcell & Hg) m' Hm' Hf'.
      rewrite app_assoc.
      apply elem_of_cons in Hm' as [-> | Hm']; [|apply Hrest; assumption].
      right. exists n. split; [apply elem_of_app; left; exact Hn | auto]. }
    destruct (List.find (atCell m) openSet) as [e|] eqn:Hfind.
    + destruct (PNode.g e <=? PNode.g current + 1)%Z eqn:Hg.
      * apply Z.leb_le in Hg. apply find_elem in Hfind as [He Hat].
        apply atCell_true in Hat.
        exists pushed. split; [reflexivity|]. split; [cbn; lia|]. split.
        -- intros n Hn. destruct (Hnew n Hn) as (m' & ? & ?). exists m'. split; [right|]; auto.
        -- apply (Hkeep []).
           ++ rewrite app_nil_r. exact Hall.
           ++ exists e. rewrite app_nil_r. auto.
      * exists (child current m :: pushed).
        split; [rewrite <- app_assoc; reflexivity|]. split; [cbn; lia|]. split.
        -- intros n Hn. apply elem_of_cons in Hn as [-> | Hn].
           ++ exists m. split; [left|]; auto.
           ++ destruct (Hnew n Hn) as (m' & ? & ?). exists m'. split; [right|]; auto.
        -- apply (Hkeep [child current m]); [exact Hall|].
           exists (child current m). split; [apply elem_of_app; right; left|].
           split; [destruct m; reflexivity | cbn; lia].
    + exists (child current m :: pushed).
      split; [rewrite <- app_assoc; reflexivity|]. split; [cbn; lia|]. split.
      * intros n Hn. apply elem_of_cons in Hn as [-> | Hn].
        -- exists m. split; [left|]; auto.
        -- destruct (Hnew n Hn) as (m' & ? & ?). exists m'. split; [right|]; auto.
      * apply (Hkeep [child current m]); [exact Hall|].
        exists (child current m). split; [apply elem_of_app; right; left|].
        split; [destruct m; reflexivity | cbn; lia].
Qed.


Lemma size_close (c : Z * Z) (closed : gset (Z * Z)) :
  size ({[ c ]} ∪ closed) = if decide (c ∈ closed) then size closed else S (size closed).
Proof.
  destruct (decide (c ∈ closed)) as [Hin | Hout].
  - f_equal. set_solver.
  - rewrite size_union by set_solver. rewrite size_singleton. reflexivity.
Qed.

Lemma heuristic_off_start (m : Z * Z) :
  m <> start ->
  heuristic start goal m = (Z.abs (m.1 - goal.1) + Z.abs (m.2 - goal.2))%Z.
Proof.
  intros H. unfold heuristic. rewrite bool_decide_eq_false_2 by exact H. reflexivity.
Qed.

(** One round of the loop that neither returns nor breaks keeps the
    invariant and brings the loop nearer to its end. *)
Lemma search_round (cg : Z * Z -> Z) (openSet : list PathNode)
    (closed : gset (Z * Z)) (current : PathNode) (rest : list PathNode) :
  Inv cg openSet closed ->
  Enemy.sortByF openSet = current :: rest ->
  PNode.cell current <> goal ->
  let closed' := {[ PNode.cell current ]} ∪ closed in
  let openSet' := foldl (visit closed' current) rest (Enemy.neighbors current) in
  (size closed' <= 200)%nat ->
  (exists cg', Inv cg' openSet' closed') /\
  (4 * (201 - size closed') + length openSet'
   < 4 * (201 - size closed) + length openSet)%nat.
Proof.
  intros HI Hsort Hgoal closed' openSet' Hbudget.
  pose proof (sortByF_perm openSet) as Hperm. rewrite Hsort in Hperm.
  pose proof (sortByF_sorted openSet) as Hsorted. rewrite Hsort in Hsorted.
  apply StronglySorted_inv in Hsorted as [Hsrest Hhead].
  rewrite Forall_forall in Hhead.
  assert (Hmem : forall n, n ∈ openSet <-> n = current \/ n ∈ rest).
  { intros n. rewrite <- Hperm. apply elem_of_cons. }
  assert (Hlen : length openSet = S (length rest)).
  { rewrite <- Hperm. reflexivity. }
  assert (Hcur : current ∈ openSet) by (apply Hmem; auto).
  assert (Hstart' : start ∈ closed').
  { unfold closed'.
    destruct (inv_start _ _ _ _ _ _ _ HI) as [Hs | [Ho Hc]];
      [apply elem_of_union_r, Hs|].
    rewrite Ho in Hsort. cbn in Hsort. injection Hsort as <- _.
    apply elem_of_union_l, elem_of_singleton.
    unfold PNode.cell. cbn. destruct start. reflexivity. }
  assert (Hsame : forall a b, a ∈ openSet -> b ∈ openSet ->
            PNode.cell a = PNode.cell b -> (PNode.f a <= PNode.f b)%Z ->
            (PNode.g a <= PNode.g b)%Z).
  { intros a b Ha Hb Hcell Hf.
    rewrite (inv_f _ _ _ _ _ _ _ HI a Ha), (inv_f _ _ _ _ _ _ _ HI b Hb), Hcell in Hf. lia. }
  destruct (decide (PNode.cell current ∈ closed)) as [Hstale | Hfresh].
  - (* the cell was closed before: nothing is pushed *)
    assert (Hcl : closed' = closed)
      by (unfold closed'; apply subseteq_union_1_L, singleton_subseteq_l, Hstale).
    assert (Hsame_open : openSet' = rest).
    { unfold openSet'. apply visits_unchanged. intros m Hm Hf Hout.
      rewrite Hcl in Hout. apply adjacent4_neighbors in Hm.
      destruct (inv_front _ _ _ _ _ _ _ HI _ m Hstale Hm Hf) as [Hin | (n & Hn & Hcell & Hg)];
        [contradiction|].
      apply Hmem in Hn as [-> | Hn].
      { exfalso. rewrite Hcell in Hm. exact (adjacent4_irrefl _ Hm). }
      destruct (List.find (atCell m) rest) as [e|] eqn:Hfind.
      - exists e. split; [reflexivity|].
        pose proof (find_sorted_least _ _ _ Hsrest Hfind n Hn
                      (proj2 (atCell_true m n) Hcell)) as Hle.
        apply find_elem in Hfind as [He Hat]. apply atCell_true in Hat.
        assert (PNode.g e <= PNode.g n)%Z.
        { apply Hsame; [apply Hmem; auto | apply Hmem; auto | congruence | exact Hle]. }
        pose proof (inv_late _ _ _ _ _ _ _ HI current Hcur Hstale). lia.
      - pose proof (find_none_elem _ _ n Hfind Hn) as Hno.
        apply atCell_true in Hcell. congruence. }
    rewrite Hsame_open, Hcl. split; [|lia].
    exists cg. destruct HI as [Hf Hchain Hlate Hfront Hst Hg Hb]. constructor.
    + intros n Hn. apply Hf, Hmem. auto.
    + intros n Hn. apply Hchain, Hmem. auto.
    + intros n Hn. apply Hlate, Hmem. auto.
    + intros c m Hc Hadj Hfl.
      destruct (Hfront c m Hc Hadj Hfl) as [Hin | (n & Hn & Hcell & Hle)]; [auto|].
      apply Hmem in Hn as [-> | Hn]; [left; congruence|].
      right. exists n. auto.
    + left. rewrite <- Hcl. exact Hstart'.
    + exact Hg.
    + exact Hb.
  - (* the cell is closed now *)
    assert (Hsize : size closed' = S (size closed)).
    { unfold closed'. rewrite size_close. destruct (decide _); [contradiction | reflexivity]. }
    destruct (visits_spec closed' current (Enemy.neighbors current) rest)
      as (pushed & Heq & Hplen & Hnew & Hall).
    fold openSet' in Heq. cbn [length Enemy.neighbors] in Hplen.
    split.
    2:{ rewrite Heq, length_app, Hsize, Hlen. rewrite Hsize in Hbudget. lia. }
    exists (fun c => if decide (c = PNode.cell current) then PNode.g current else cg c).
    destruct HI as [Hf Hchain Hlate Hfront Hst Hg Hb]. rewrite Heq. constructor.
    + intros n Hn. apply elem_of_app in Hn as [Hn | Hn]; [apply Hf, Hmem; auto|].
      destruct (Hnew n Hn) as (m & Hm & -> & Hfl & Hout).
      unfold childNode, PNode.f, PNode.g, PNode.cell, PNode.x, PNode.y.
      replace (m.1, m.2) with m by (destruct m; reflexivity).
      rewrite heuristic_off_start; [reflexivity|].
      intros ->. contradiction.
    + intros n Hn. apply elem_of_app in Hn as [Hn | Hn]; [apply Hchain, Hmem; auto|].
      destruct (Hnew n Hn) as (m & Hm & -> & Hfl & Hout).
      cbn. replace (m.1, m.2) with m by (destruct m; reflexivity).
      split; [apply adjacent4_neighbors; exact Hm|]. split; [exact Hfl|].
      apply Hchain. exact Hcur.
    + intros n Hn Hcl. apply elem_of_app in Hn as [Hn | Hn].
      * destruct (decide (PNode.cell n = PNode.cell current)) as [Heqc | Hne].
        -- apply Hsame; [exact Hcur | apply Hmem; auto | congruence | apply Hhead; exact Hn].
        -- apply Hlate; [apply Hmem; auto|].
           apply elem_of_union in Hcl as [Hcl | Hcl]; [|exact Hcl].
           apply elem_of_singleton in Hcl. contradiction.
      * exfalso. destruct (Hnew n Hn) as (m & Hm & -> & Hfl & Hout).
        apply Hout. revert Hcl. unfold childNode, PNode.cell, PNode.x, PNode.y.
        destruct m; exact id.
    + intros c m Hc Hadj Hfl.
      destruct (decide (c = PNode.cell current)) as [-> | Hne].
      * apply Hall; [apply adjacent4_neighbors; exact Hadj | exact Hfl].
      * assert (Hc' : c ∈ closed).
        { apply elem_of_union in Hc as [Hc | Hc]; [|exact Hc].
          apply elem_of_singleton in Hc. contradiction. }
        destruct (Hfront c m Hc' Hadj Hfl) as [Hin | (n & Hn & Hcell & Hle)];
          [left; apply elem_of_union_r, Hin|].
        apply Hmem in Hn as [-> | Hn];
          [left; apply elem_of_union_l, elem_of_singleton; congruence|].
        right. exists n. split; [apply elem_of_app; auto | auto].
    + left. exact Hstart'.
    + intros Hin. apply elem_of_union in Hin as [Hin | Hin]; [|exact (Hg Hin)].
      apply elem_of_singleton in Hin. congruence.
    + exact Hbudget.
Qed.


(** ** The whole loop *)

Lemma closed_reaches (cg : Z * Z -> Z) (closed : gset (Z * Z)) (c : Z * Z) :
  Inv cg [] closed -> floorPath mapData mapSize start c -> c ∈ closed.
Proof.
  intros HI. induction 1 as [c | a b c Hab IH Hadj Hfl].
  - destruct (inv_start _ _ _ _ _ _ _ HI) as [Hs | [Ho _]]; [exact Hs | discriminate].
  - destruct (inv_front _ _ _ _ _ _ _ HI b c (IH HI) Hadj Hfl) as [Hin | (n & Hn & _)];
      [exact Hin|]. inversion Hn.
Qed.

(** With enough fuel the loop ends; at the goal it ends with a node whose
    parent chain walks from the start to the goal, and it runs out of open
    nodes only when no floor path leads to the goal. *)
Lemma search_verdict (fuel : nat) (cg : Z * Z -> Z) (openSet : list PathNode)
    (closed : gset (Z * Z)) :
  Inv cg openSet closed ->
  (4 * (201 - size closed) + length openSet < fuel)%nat ->
  match Enemy.search fuel mapData mapSize goal.1 goal.2 openSet closed with
  | Enemy.Reached p =>
      exists n, chainOk mapData mapSize start n /\ PNode.cell n = goal /\
                p = Enemy.reconstruct n []
  | Enemy.Exhausted => ~ floorPath mapData mapSize start goal
  | Enemy.OverBudget => True
  | Enemy.Unfinished => False
  end.
Proof.
  revert cg openSet closed.
  induction fuel as [|fuel IH]; intros cg openSet closed HI Hfuel; [lia|].
  cbn [Enemy.search].
  destruct (Enemy.sortByF openSet) as [|current rest] eqn:Hsort.
  - assert (Hnil : openSet = []).
    { apply Permutation_nil_r. rewrite <- Hsort. symmetry. apply sortByF_perm. }
    subst openSet. intros Hpath.
    apply (inv_goal _ _ _ _ _ _ _ HI). eapply closed_reaches; eauto.
  - assert (Hcur : current ∈ openSet).
    { rewrite <- (sortByF_perm openSet), Hsort. left. }
    destruct ((PNode.x current =? goal.1) && (PNode.y current =? goal.2))%Z eqn:Hat.
    + exists current. split; [exact (inv_chain _ _ _ _ _ _ _ HI current Hcur)|].
      split; [|reflexivity]. apply (atCell_true goal current). exact Hat.
    + assert (Hne : PNode.cell current <> goal).
      { intros H. apply (atCell_true goal current) in H. unfold atCell in H. congruence. }
      destruct (200 <? size ({[PNode.cell current]} ∪ closed))%nat eqn:Hb; [exact I|].
      apply Nat.ltb_ge in Hb.
      destruct (search_round cg openSet closed current rest HI Hsort Hne Hb)
        as [[cg' HI'] Hless].
      apply (IH cg'); [exact HI' | lia].
Qed.

(** The loop never closes a cell outside a set [region] that holds the
    floor and the cells of the open set; when that set has at most 200 cells
    the loop never breaks on its budget. *)
Lemma search_within_budget (region : gset (Z * Z)) (fuel : nat)
    (openSet : list PathNode) (closed : gset (Z * Z)) :
  (forall c, floor c = true -> c ∈ region) ->
  (size region <= 200)%nat ->
  closed ⊆ region ->
  (forall n, n ∈ openSet -> PNode.cell n ∈ region) ->
  Enemy.search fuel mapData mapSize goal.1 goal.2 openSet closed <> Enemy.OverBudget.
Proof.
  intros Hfloor Hsize. revert openSet closed.
  induction fuel as [|fuel IH]; intros openSet closed Hclosed Hopen; [discriminate|].
  cbn [Enemy.search].
  destruct (Enemy.sortByF openSet) as [|current rest] eqn:Hsort; [discriminate|].
  destruct ((PNode.x current =? goal.1) && (PNode.y current =? goal.2))%Z;
    [discriminate|].
  pose proof (sortByF_perm openSet) as Hperm. rewrite Hsort in Hperm.
  assert (Hcur : PNode.cell current ∈ region).
  { apply Hopen. rewrite <- Hperm. left. }
  assert (Hclosed' : {[PNode.cell current]} ∪ closed ⊆ region).
  { apply union_subseteq. split; [apply singleton_subseteq_l; exact Hcur | exact Hclosed]. }
  pose proof (subseteq_size _ _ Hclosed') as Hle.
  replace (200 <? size ({[PNode.cell current]} ∪ closed))%nat with false
    by (symmetry; apply Nat.ltb_ge; lia).
  apply IH; [exact Hclosed'|].
  destruct (visits_spec ({[PNode.cell current]} ∪ closed) current
              (Enemy.neighbors current) rest) as (pushed & -> & _ & Hnew & _).
  intros n Hn. apply elem_of_app in Hn as [Hn | Hn].
  - apply Hopen. rewrite <- Hperm. right. exact Hn.
  - destruct (Hnew n Hn) as (m & _ & -> & Hm & _).
    destruct m as [mx my]. apply Hfloor. exact Hm.
Qed.

End Search.

(** Every floor tile is one of [floorTiles]. *)
Lemma floorTiles_all (mapData : list Z) (mapSize : Z) (c : Z * Z) :
  isFloor mapData mapSize c = true -> c ∈ floorTiles mapData mapSize.
Proof.
  intros Hc. unfold floorTiles.
  first [apply list_elem_of_In | apply elem_of_list_In]. apply filter_In. split; [|exact Hc].
  first [apply list_elem_of_In | apply elem_of_list_In].
  unfold isFloor in Hc. apply andb_true_iff in Hc as [Hb _].
  apply negb_true_iff in Hb.
  destruct c as [cx cy]. cbn [fst snd] in Hb.
  repeat (apply orb_false_elim in Hb as [Hb ?]).
  assert (Hx : (0 <= cx < mapSize)%Z) by lia.
  assert (Hy : (0 <= cy < mapSize)%Z) by lia.
  unfold gridCells. apply list_elem_of_fmap.
  exists (cy * mapSize + cx)%Z. split.
  - f_equal.
    + apply (Z.mod_unique_pos _ _ cy); lia.
    + apply (Z.div_unique_pos _ _ _ cx); lia.
  - apply elem_of_seqZ. nia.
Qed.

Lemma size_list_to_set_le (l : list (Z * Z)) :
  (size (list_to_set l : gset (Z * Z)) <= length l)%nat.
Proof.
  induction l as [|c l IH]; cbn [list_to_set length].
  - rewrite size_empty. lia.
  - pose proof (size_union_alt ({[c]} : gset (Z * Z)) (list_to_set l)) as H.
    pose proof (subseteq_size (list_to_set l ∖ {[c]}) (list_to_set l : gset (Z * Z))
                  ltac:(set_solver)) as H'.
    rewrite H, size_singleton. lia.
Qed.

(** ** Paths *)

Lemma reconstruct_chain (n : PathNode) (acc : list Point) :
  Enemy.reconstruct n acc = (centreOf <$> chainCells n) ++ acc.
Proof.
  revert acc. induction n as [cx cy g h f | cx cy g h f p IH] using PathNode_induction;
    intros acc; cbn [Enemy.reconstruct chainCells]; [reflexivity|].
  rewrite IH, fmap_app, <- app_assoc. reflexivity.
Qed.

Lemma floor_unique (q : Q) (z : Z) :
  (inject_Z z <= q)%Q -> (q < inject_Z (z + 1))%Q -> JS.floor q = z.
Proof.
  intros Hlo Hhi. unfold JS.floor.
  pose proof (Qfloor_le q) as H1. pose proof (Qlt_floor q) as H2.
  assert (Ha : (Qfloor q < z + 1)%Z).
  { rewrite Zlt_Qlt. eapply Qle_lt_trans; eauto. }
  assert (Hb : (z < Qfloor q + 1)%Z).
  { rewrite Zlt_Qlt. eapply Qle_lt_trans; eauto. }
  lia.
Qed.

Lemma cellOf_centreOf (c : Z * Z) : cellOf (centreOf c) = c.
Proof.
  assert (H : forall z, JS.floor (inject_Z z + (1 # 2))%Q = z).
  { intros z. apply floor_unique.
    - rewrite <- (Qplus_0_r (inject_Z z)) at 1. apply Qplus_le_r. discriminate.
    - rewrite inject_Z_plus. apply Qplus_lt_r. reflexivity. }
  destruct c as [cx cy]. unfold cellOf, centreOf. cbn [px py fst snd].
  rewrite !H. reflexivity.
Qed.

Lemma route_snoc (mapData : list Z) (mapSize : Z) (from c : Z * Z) (cells : list (Z * Z)) :
  route mapData mapSize from (cells ++ [c]) <->
  route mapData mapSize from cells /\
  adjacent4 (default from (last cells)) c /\ isFloor mapData mapSize c = true.
Proof.
  revert from. induction cells as [|d cells IH]; intros from; cbn.
  - tauto.
  - rewrite IH.
    assert (Hd : default from (last (d :: cells)) = default d (last cells)).
    { rewrite last_cons. destruct (last cells); reflexivity. }
    rewrite Hd. tauto.
Qed.

(** The parent chain of a node is a route from the start to its cell. *)
Lemma chain_route (mapData : list Z) (mapSize : Z) (start : Z * Z) (n : PathNode) :
  chainOk mapData mapSize start n ->
  route mapData mapSize start (chainCells n) /\
  default start (last (chainCells n)) = PNode.cell n.
Proof.
  induction n as [cx cy g h f | cx cy g h f p IH] using PathNode_induction;
    cbn [chainOk chainCells].
  - intros <-. cbn. auto.
  - intros (Hadj & Hfl & Hp). destruct (IH Hp) as [Hr Hl].
    rewrite route_snoc, last_snoc, Hl. cbn. auto.
Qed.

(** A route is a floor path. *)
Lemma route_floorPath (mapData : list Z) (mapSize : Z) (a from : Z * Z)
    (cells : list (Z * Z)) :
  floorPath mapData mapSize a from -> route mapData mapSize from cells ->
  floorPath mapData mapSize a (default from (last cells)).
Proof.
  revert from. induction cells as [|c cells IH]; intros from Ha; cbn; [auto|].
  intros (Hadj & Hfl & Hr).
  pose proof (IH c (floorPath_step _ _ _ _ _ Ha Hadj Hfl) Hr) as H.
  rewrite last_cons. destruct (last cells); exact H.
Qed.

Lemma cells_of_centres (cells : list (Z * Z)) : cellOf <$> (centreOf <$> cells) = cells.
Proof.
  induction cells as [|c cells IH]; cbn; [reflexivity|].
  rewrite cellOf_centreOf. f_equal. exact IH.
Qed.

Lemma searchInv_initial (mapData : list Z) (mapSize : Z) (start goal : Z * Z) :
  searchInv mapData mapSize start goal (fun _ => 0%Z)
            [mkNode start.1 start.2 0 0 0 None] ∅.
Proof.
  constructor.
  - intros n Hn. apply list_elem_of_singleton in Hn as ->.
    unfold heuristic, PNode.cell, PNode.x, PNode.y, PNode.f, PNode.g.
    rewrite bool_decide_eq_true_2 by (destruct start; reflexivity). reflexivity.
  - intros n Hn. apply list_elem_of_singleton in Hn as ->. cbn. destruct start; reflexivity.
  - intros n _ Hc. set_solver.
  - intros c m Hc. set_solver.
  - right. auto.
  - set_solver.
  - rewrite size_empty. lia.
Qed.

(** C6.  [findPath] always returns: its loop ends within [searchRounds]
    rounds.  The waypoints it returns are centres of grid cells that lead
    from the enemy's cell by 4-adjacent steps on floor tiles, and a path that
    is not empty ends in the target's cell.  When a floor-only path joins two
    different floor tiles of a grid that has at most 200 floor tiles, the
    search cannot run over its budget of 200 closed nodes and the path
    returned is not empty; in a larger grid it is not empty unless the search
    ran over that budget.  When no floor-only path exists, and when the
    budget is exceeded, the result is the empty sequence. *)
Theorem findPath_routes (e : Enemy.t) (tx ty : Q) (mapData : list Z) (mapSize : Z) :
  let start := (JS.floor (Enemy.x e), JS.floor (Enemy.y e)) in
  let goal := (JS.floor tx, JS.floor ty) in
  let verdict := Enemy.findPathVerdict e tx ty mapData mapSize in
  let path := Enemy.findPath e tx ty mapData mapSize in
  verdict <> Enemy.Unfinished /\
  route mapData mapSize start (cellOf <$> path) /\
  Forall (fun p => p = centreOf (cellOf p)) path /\
  (path <> [] -> last (cellOf <$> path) = Some goal) /\
  (floorPath mapData mapSize start goal -> start <> goal ->
   isFloor mapData mapSize start = true ->
   (length (floorTiles mapData mapSize) <= 200)%nat -> path <> []) /\
  (floorPath mapData mapSize start goal -> start <> goal ->
   verdict <> Enemy.OverBudget -> path <> []) /\
  (~ floorPath mapData mapSize start goal -> path = []) /\
  (verdict = Enemy.OverBudget -> path = []).
Proof.
  intros start goal verdict path.
  pose proof (search_verdict mapData mapSize start goal Enemy.searchRounds
                (fun _ => 0%Z) [mkNode start.1 start.2 0 0 0 None] ∅
                (searchInv_initial mapData mapSize start goal)) as H.
  rewrite size_empty in H.
  specialize (H ltac:(unfold Enemy.searchRounds; cbn [length]; lia)).
  assert (Hbudget : isFloor mapData mapSize start = true ->
                    (length (floorTiles mapData mapSize) <= 200)%nat ->
                    verdict <> Enemy.OverBudget).
  { intros Hstart Hcount.
    apply (search_within_budget mapData mapSize goal
             (list_to_set (floorTiles mapData mapSize))).
    - intros c Hc. apply elem_of_list_to_set, floorTiles_all, Hc.
    - pose proof (size_list_to_set_le (floorTiles mapData mapSize)). lia.
    - apply empty_subseteq.
    - intros n Hn. apply list_elem_of_singleton in Hn as ->.
      apply elem_of_list_to_set, floorTiles_all.
      exact Hstart. }
  unfold path, Enemy.findPath. fold verdict.
  change (Enemy.search Enemy.searchRounds mapData mapSize goal.1 goal.2
            [mkNode start.1 start.2 0 0 0 None] ∅) with verdict in H.
  destruct verdict as [p | | |].
  - destruct H as (n & Hchain & Hcell & ->).
    rewrite reconstruct_chain, app_nil_r, cells_of_centres.
    destruct (chain_route _ _ _ _ Hchain) as [Hroute Hlast]. rewrite Hcell in Hlast.
    assert (Hpath : floorPath mapData mapSize start goal).
    { rewrite <- Hlast. apply route_floorPath; [constructor | exact Hroute]. }
    assert (Hfound : start <> goal -> centreOf <$> chainCells n <> []).
    { intros Hdiff Hnil. apply fmap_nil_inv in Hnil. rewrite Hnil in Hlast.
      cbn in Hlast. contradiction. }
    split; [discriminate|]. split; [exact Hroute|]. split.
    { apply Forall_forall. intros p Hp. apply list_elem_of_fmap in Hp as (c & -> & _).
      rewrite cellOf_centreOf. reflexivity. }
    split.
    { intros Hne. destruct (last (chainCells n)) eqn:El; [cbn in Hlast; congruence|].
      apply last_None in El. rewrite El in Hne. contradiction. }
    split; [intros _ Hdiff _ _; exact (Hfound Hdiff)|].
    split; [intros _ Hdiff _; exact (Hfound Hdiff)|].
    split; [intros Hno; contradiction | discriminate].
  - split; [discriminate|]. cbn.
    split; [exact I|]. split; [constructor|]. split; [contradiction|].
    split; [intros Hp; contradiction|]. split; [intros Hp; contradiction|]. auto.
  - split; [discriminate|]. cbn.
    split; [exact I|]. split; [constructor|]. split; [contradiction|].
    split; [intros _ _ Hs Hc; exfalso; exact (Hbudget Hs Hc eq_refl)|].
    split; [intros _ _ Hv; contradiction|]. auto.
  - contradiction.
Qed.

(** The search in the arena, from its north-west floor tile to its south-east
    one: the arena has nine floor tiles, and the path found is not empty. *)
Lemma findPath_routes_witness :
  let e := enemyAt (3 # 2) (3 # 2) CHASE in
  floorPath arena 5 (1, 1)%Z (3, 3)%Z /\
  isFloor arena 5 (1, 1)%Z = true /\
  (length (floorTiles arena 5) <= 200)%nat /\
  Enemy.findPath e (7 # 2) (7 # 2) arena 5 <> [].
Proof.
  assert (Hpath : floorPath arena 5 (1, 1)%Z (3, 3)%Z).
  { apply (floorPath_step _ _ _ (3, 2)%Z); [|reflexivity|reflexivity].
    apply (floorPath_step _ _ _ (3, 1)%Z); [|reflexivity|reflexivity].
    apply (floorPath_step _ _ _ (2, 1)%Z); [|reflexivity|reflexivity].
    apply (floorPath_step _ _ _ (1, 1)%Z); [|reflexivity|reflexivity].
    apply floorPath_here. }
  assert (Hcount : (length (floorTiles arena 5) <= 200)%nat) by (vm_compute; lia).
  split; [exact Hpath|]. split; [reflexivity|]. split; [exact Hcount|].
  destruct (findPath_routes (enemyAt (3 # 2) (3 # 2) CHASE) (7 # 2) (7 # 2) arena 5)
    as (_ & _ & _ & _ & Hfound & _).
  apply Hfound; [exact Hpath | discriminate | reflexivity | exact Hcount].
Defined.

(** Two runs of [findPath] in the arena: from the north-west floor tile to
    the south-east one, and from a tile to itself. *)
Example findPath_across_arena :
  (cellOf <$> Enemy.findPath (enemyAt (3 # 2) (3 # 2) CHASE) (7 # 2) (7 # 2) arena 5)
    = [(2, 1); (3, 1); (3, 2); (3, 3)]%Z /\
  Enemy.findPath (enemyAt (3 # 2) (3 # 2) CHASE) (7 # 4) (5 # 4) arena 5 = [].
Proof. vm_compute. split; reflexivity. Qed.

(** ** The tail call of [chasePlayer] *)

(** The waypoints of [findPath] are the centres of cells that lead from the
    enemy's cell by 4-adjacent steps on floor. *)
Lemma findPath_cells (e : Enemy.t) (tx ty : Q) (mapData : list Z) (mapSize : Z) :
  exists cells,
    Enemy.findPath e tx ty mapData mapSize = centreOf <$> cells /\
    route mapData mapSize (JS.floor (Enemy.x e), JS.floor (Enemy.y e)) cells.
Proof.
  set (start := (JS.floor (Enemy.x e), JS.floor (Enemy.y e))).
  set (goal := (JS.floor tx, JS.floor ty)).
  pose proof (search_verdict mapData mapSize start goal Enemy.searchRounds
                (fun _ => 0%Z) [mkNode start.1 start.2 0 0 0 None] ∅
                (searchInv_initial mapData mapSize start goal)) as H.
  rewrite size_empty in H.
  specialize (H ltac:(unfold Enemy.searchRounds; cbn [length]; lia)).
  unfold Enemy.findPath.
  set (verdict := Enemy.findPathVerdict e tx ty mapData mapSize).
  change (Enemy.search Enemy.searchRounds mapData mapSize goal.1 goal.2
            [mkNode start.1 start.2 0 0 0 None] ∅) with verdict in H.
  destruct verdict as [p | | |].
  - destruct H as (n & Hchain & _ & ->). exists (chainCells n).
    rewrite reconstruct_chain, app_nil_r. split; [reflexivity|].
    apply chain_route, Hchain.
  - exists []. split; [reflexivity | exact I].
  - exists []. split; [reflexivity | exact I].
  - contradiction.
Qed.

(** [Math.sqrt] of a number that is at least 1/4 is at least 1/2. *)
Lemma sqrt_half (q : Q) : (1 # 4 <= q)%Q -> (1 # 2 <= JS.sqrt q)%Q.
Proof.
  intros Hq. unfold JS.sqrt, JS.sqrt_bits.
  assert (Hr : (1 # 4 <= Qred q)%Q) by (rewrite Qred_correct; exact Hq).
  destruct (Qred q) as [n d]. cbn [Qnum Qden]. unfold Qle in *. cbn [Qnum Qden] in *.
  rewrite Pos2Z.inj_mul, Z2Pos.id by reflexivity.
  remember (2 ^ 63)%Z as B eqn:EB.
  assert (HB : (0 < B)%Z) by (subst B; reflexivity).
  replace (2 ^ 64)%Z with (2 * B)%Z by (subst B; reflexivity).
  replace (4 ^ 64)%Z with ((2 * B) * (2 * B))%Z by (subst B; reflexivity).
  clear EB.
  assert (Hs : (Z.pos d * B <= Z.sqrt (n * Z.pos d * (2 * B * (2 * B))))%Z).
  { assert (Hn : (0 < n)%Z) by lia.
    assert (Hd : (0 < Z.pos d)%Z) by lia.
    assert (Hk : (0 <= Z.pos d * (B * B))%Z) by nia.
    pose proof (Z.mul_le_mono_nonneg_l (Z.pos d) (4 * n) (Z.pos d * (B * B)) Hk
                  ltac:(lia)) as Hm.
    apply Z.sqrt_le_square; [nia | nia | lia]. }
  lia.
Qed.

(** The first waypoint of a path just found is at least half a tile away:
    it is the centre of a cell next to the enemy's. *)
Lemma fresh_waypoint_far (e : Enemy.t) (tx ty : Q) (mapData : list Z) (mapSize : Z)
    (target : Point) (rest : list Point) :
  Enemy.findPath e tx ty mapData mapSize = target :: rest ->
  JS.ltb (JS.sqrt ((px target - Enemy.x e) * (px target - Enemy.x e)
                   + (py target - Enemy.y e) * (py target - Enemy.y e)))
         (3 # 10) = false.
Proof.
  intros Hpath. destruct (findPath_cells e tx ty mapData mapSize) as (cells & E & Hroute).
  rewrite Hpath in E. destruct cells as [|[cx cy] cells]; [discriminate|].
  cbn in E. injection E as -> _. destruct Hroute as (Hadj & _).
  unfold adjacent4 in Hadj. cbn [fst snd] in Hadj. cbn [px py centreOf fst snd].
  pose proof (Qfloor_le (Enemy.x e)) as Hx1. pose proof (Qlt_floor (Enemy.x e)) as Hx2.
  pose proof (Qfloor_le (Enemy.y e)) as Hy1. pose proof (Qlt_floor (Enemy.y e)) as Hy2.
  rewrite inject_Z_plus in Hx2, Hy2. unfold JS.floor in Hadj.
  set (dx := (inject_Z cx + (1 # 2) - Enemy.x e)%Q).
  set (dy := (inject_Z cy + (1 # 2) - Enemy.y e)%Q).
  assert (Hfar : (1 # 4 <= dx * dx + dy * dy)%Q).
  { assert (Hc : (cx = Qfloor (Enemy.x e) + 1 \/ cx = Qfloor (Enemy.x e) - 1 \/
                  cy = Qfloor (Enemy.y e) + 1 \/ cy = Qfloor (Enemy.y e) - 1)%Z) by lia.
    assert (Hb : (1 # 2 <= dx \/ dx <= - (1 # 2) \/ 1 # 2 <= dy \/ dy <= - (1 # 2))%Q).
    { subst dx dy.
      destruct Hc as [-> | [-> | [-> | ->]]];
        unfold Z.sub; rewrite ?inject_Z_plus;
        change (inject_Z (- (1))) with (- (1))%Q; change (inject_Z 1) with 1%Q in *;
        [left | right; left | right; right; left | right; right; right]; lra. }
    clearbody dx dy.
    assert (Hdx : (0 <= dx * dx)%Q) by nra. assert (Hdy : (0 <= dy * dy)%Q) by nra.
    destruct Hb as [Hb | [Hb | [Hb | Hb]]]; nra. }
  apply sqrt_half in Hfar. unfold JS.ltb.
  destruct (Qle_bool (3 # 10) (JS.sqrt (dx * dx + dy * dy))) eqn:Hle; [reflexivity|].
  exfalso. assert (Hle' : Qle_bool (3 # 10) (JS.sqrt (dx * dx + dy * dy)) = true).
  { apply Qle_bool_iff. lra. }
  congruence.
Qed.

(** A call that recomputes the path makes no tail call. *)
Lemma chaseLoop_fresh (fuel : nat) (e : Enemy.t) (playerX playerY : Q)
    (mapData : list Z) (mapSize : Z) (deltaTime : Q) :
  JS.leb (Enemy.pathUpdateInterval e)
         (Enemy.pathUpdateTimer e + JS.or_else (deltaTime * 1000) 16)
    || (length (Enemy.path e) =? 0)%nat = true ->
  Enemy.chaseLoop fuel e playerX playerY mapData mapSize deltaTime =
  Enemy.chaseLoop 0 e playerX playerY mapData mapSize deltaTime.
Proof.
  intros Hb. destruct fuel as [|fuel]; [reflexivity|].
  cbn [Enemy.chaseLoop]. rewrite Hb.
  cbn [Enemy.path Enemy.x Enemy.y Enemy.set_path].
  destruct (Enemy.findPath e playerX playerY mapData mapSize) as [|target rest] eqn:Hpath;
    [reflexivity|].
  rewrite (fresh_waypoint_far e playerX playerY mapData mapSize target rest Hpath).
  reflexivity.
Qed.

(** The depth of the tail call of [chasePlayer] is at most the length of the
    path the enemy holds: more fuel than that changes nothing. *)
Lemma chaseLoop_fuel (fuel : nat) (e : Enemy.t) (playerX playerY : Q)
    (mapData : list Z) (mapSize : Z) (deltaTime : Q) :
  (length (Enemy.path e) <= fuel)%nat ->
  Enemy.chaseLoop fuel e playerX playerY mapData mapSize deltaTime =
  Enemy.chasePlayer e playerX playerY mapData mapSize deltaTime.
Proof.
  unfold Enemy.chasePlayer.
  assert (H : forall f1 f2 e',
            (length (Enemy.path e') <= f1)%nat -> (length (Enemy.path e') <= f2)%nat ->
            Enemy.chaseLoop f1 e' playerX playerY mapData mapSize deltaTime =
            Enemy.chaseLoop f2 e' playerX playerY mapData mapSize deltaTime).
  { induction f1 as [|f1 IH]; intros f2 e' H1 H2.
    - symmetry. apply chaseLoop_fresh.
      destruct (Enemy.path e'); [apply orb_true_r | cbn in H1; lia].
    - destruct (JS.leb (Enemy.pathUpdateInterval e')
                  (Enemy.pathUpdateTimer e' + JS.or_else (deltaTime * 1000) 16)
                || (length (Enemy.path e') =? 0)%nat) eqn:Hb.
      { rewrite (chaseLoop_fresh (S f1)), (chaseLoop_fresh f2) by exact Hb. reflexivity. }
      destruct f2 as [|f2].
      { destruct (Enemy.path e'); [|cbn in H2; lia].
        rewrite orb_true_r in Hb. discriminate. }
      cbn [Enemy.chaseLoop]. rewrite Hb.
      cbn [Enemy.path Enemy.x Enemy.y Enemy.set_path Enemy.pathUpdateTimer].
      destruct (Enemy.path e') as [|target rest] eqn:Hpath; [reflexivity|].
      destruct (JS.ltb _ _); [|reflexivity].
      destruct rest as [|next rest]; [reflexivity|].
      apply IH; cbn [Enemy.path Enemy.set_path length] in *; lia. }
  intros Hfuel. apply H; [exact Hfuel | lia].
Qed.

(* ===================================================================== *)
(** * Dungeon generator *)
(* ===================================================================== *)

(** ** The random source *)

Lemma keeps_ret {A : Type} (a : A) : keeps (ret a).
Proof. intros w. split; reflexivity. Qed.

Lemma keeps_bind {A B : Type} (c : M A) (k : A -> M B) :
  keeps c -> (forall a, keeps (k a)) -> keeps (bind c k).
Proof.
  intros Hc Hk w. unfold bind. destruct (c w) as [a w'] eqn:E.
  destruct (Hc w) as [H1 H2]. rewrite E in H1, H2. cbn in H1, H2.
  destruct (Hk a w') as [H3 H4]. split; congruence.
Qed.

Lemma keeps_random : keeps Math_random.
Proof. intros w. split; reflexivity. Qed.

Lemma keeps_forEachM {A S : Type} (f : S -> A -> M S) (l : list A) (s : S) :
  (forall s a, keeps (f s a)) -> keeps (forEachM f s l).
Proof.
  intros Hf. revert s. induction l as [|a l IH]; intros s; cbn [forEachM].
  - apply keeps_ret.
  - apply keeps_bind; [apply Hf | intros s'; apply IH].
Qed.

Lemma keeps_fair {A : Type} (c : M A) (w : World) :
  keeps c -> fair w -> fair (c w).2.
Proof. intros Hc Hw k. destruct (Hc w) as [-> _]. apply Hw. Qed.

Ltac keeps_tac :=
  repeat first
    [ apply keeps_ret
    | apply keeps_random
    | apply keeps_bind; [|intros ?]
    | match goal with
      | |- keeps (if ?b then _ else _) => destruct b
      | |- keeps (match ?o with Some _ => _ | None => _ end) => destruct o
      end ].

(** [floor(Math.random() * n)] is one of [0 .. n - 1] for a positive [n], and
    lies between [n] and [0] otherwise. *)
Lemma floor_random (r : Q) (n : Z) :
  (0 <= r)%Q -> (r < 1)%Q ->
  (Z.min 0 n <= JS.floor (r * inject_Z n) <= Z.max 0 (n - 1))%Z.
Proof.
  intros H0 H1. unfold JS.floor.
  pose proof (Qfloor_le (r * inject_Z n)) as Hlo.
  pose proof (Qlt_floor (r * inject_Z n)) as Hhi.
  destruct (Z_le_gt_dec n 0) as [Hn | Hn].
  - assert (Hq : (inject_Z n <= 0)%Q) by (rewrite Zle_Qle in Hn; exact Hn).
    assert (Hup : (r * inject_Z n <= 0)%Q) by nra.
    assert (Hdn : (inject_Z n <= r * inject_Z n)%Q) by nra.
    assert (Ha : (Qfloor (r * inject_Z n) <= 0)%Z).
    { rewrite Zle_Qle. eapply Qle_trans; eauto. }
    assert (Hb : (n < Qfloor (r * inject_Z n) + 1)%Z).
    { rewrite Zlt_Qlt. eapply Qle_lt_trans; eauto. }
    lia.
  - assert (Hq : (0 < inject_Z n)%Q) by (change 0%Q with (inject_Z 0); rewrite <- Zlt_Qlt; lia).
    assert (Hup : (r * inject_Z n < inject_Z n)%Q) by nra.
    assert (Hdn : (0 <= r * inject_Z n)%Q) by nra.
    assert (Ha : (Qfloor (r * inject_Z n) < n)%Z).
    { rewrite Zlt_Qlt. eapply Qle_lt_trans; eauto. }
    assert (Hb : (0 < Qfloor (r * inject_Z n) + 1)%Z).
    { rewrite Zlt_Qlt. eapply Qle_lt_trans; eauto. }
    lia.
Qed.

(** [Math.floor(a + b / 2)] on integers. *)
Lemma floor_half (a b : Z) :
  JS.floor (inject_Z a + inject_Z b / 2)%Q = (a + b / 2)%Z.
Proof.
  unfold JS.floor.
  rewrite (Qfloor_comp _ (inject_Z (2 * a + b) / inject_Z 2)).
  - rewrite <- Zdiv_Qdiv. rewrite Z.add_comm, Z.mul_comm, Z.div_add by lia. lia.
  - rewrite inject_Z_plus, inject_Z_mult. field.
Qed.

(** ** The partition tree *)

Lemma keeps_split (n : BSPNode) (minRoomSize : Z) : keeps (BSP.split n minRoomSize).
Proof.
  destruct n as [x y w h room | x y w h room l r]; cbn [BSP.split]; [|apply keeps_ret].
  apply keeps_bind; [apply keeps_random|]. intros r1.
  destruct (_ <=? minRoomSize)%Z; [apply keeps_ret|].
  apply keeps_bind; [apply keeps_random|]. intros r2.
  destruct (JS.ltb (1 # 2) r1); apply keeps_ret.
Qed.

(** [split] keeps the rectangle of the node, and a leaf that it splits gets
    two leaves that cut it in two, each at least [minRoomSize] wide and
    high. *)
Lemma split_treeOk (lo minRoomSize : Z) (n : BSPNode) (w : World) :
  fair w -> (1 <= lo <= minRoomSize)%Z -> treeOk lo false n ->
  treeOk lo false (BSP.split n minRoomSize w).1.2 /\
  rectOf (BSP.split n minRoomSize w).1.2 = rectOf n.
Proof.
  intros Hw Hlo Hn.
  destruct n as [x y wd h room | x y wd h room l r]; cbn [BSP.split]; [|auto].
  destruct Hn as (Hwd & Hh & ->).
  unfold bind, Math_random, ret. cbn [fst snd dice rolls].
  set (r1 := dice w (rolls w)). set (r2 := dice w (S (rolls w))).
  destruct (Hw (S (rolls w))) as [H0 H1]. fold r2 in H0, H1.
  destruct (JS.ltb (1 # 2) r1).
  - destruct (h - minRoomSize <=? minRoomSize)%Z eqn:E; cbn [fst snd treeOk rectOf]; [auto|].
    apply Z.leb_gt in E.
    pose proof (floor_random r2 (h - minRoomSize - minRoomSize) H0 H1) as Hf.
    cbn [dice rolls]. fold r2.
    split; [|reflexivity]. split; [reflexivity|].
    split; [repeat split; first [lia | reflexivity]|].
    split; [repeat split; first [lia | reflexivity]|].
    eexists. split; [|left; split; [reflexivity|split; [reflexivity|]]]; lia.
  - destruct (wd - minRoomSize <=? minRoomSize)%Z eqn:E; cbn [fst snd treeOk rectOf]; [auto|].
    apply Z.leb_gt in E.
    pose proof (floor_random r2 (wd - minRoomSize - minRoomSize) H0 H1) as Hf.
    cbn [dice rolls]. fold r2.
    split; [|reflexivity]. split; [reflexivity|].
    split; [repeat split; first [lia | reflexivity]|].
    split; [repeat split; first [lia | reflexivity]|].
    eexists. split; [|right; split; [reflexivity|split; [reflexivity|]]]; lia.
Qed.

Lemma nodeAt_treeOk (lo : Z) (b : bool) (p : BSP.Ref) (root node : BSPNode) :
  treeOk lo b root -> BSP.nodeAt root p = Some node -> treeOk lo b node.
Proof.
  revert root. induction p as [|d p IH]; intros root Hroot; cbn [BSP.nodeAt].
  - intros [= <-]. exact Hroot.
  - destruct root as [x y w h room | x y w h room l r]; [discriminate|].
    destruct Hroot as (_ & Hl & Hr & _). destruct d; apply IH; assumption.
Qed.

Lemma replaceAt_treeOk (lo : Z) (b : bool) (p : BSP.Ref) (root node node' : BSPNode) :
  treeOk lo b root -> BSP.nodeAt root p = Some node ->
  treeOk lo b node' -> rectOf node' = rectOf node ->
  treeOk lo b (BSP.replaceAt root p node') /\
  rectOf (BSP.replaceAt root p node') = rectOf root.
Proof.
  revert root. induction p as [|d p IH]; intros root Hroot; cbn [BSP.nodeAt BSP.replaceAt].
  - intros [= <-] Hn' Hr. auto.
  - destruct root as [x y w h room | x y w h room l r]; [discriminate|].
    destruct Hroot as (Hroom & Hl & Hr & s & Hs & Hcut). intros Hat Hn' Hrect.
    destruct d.
    + destruct (IH r Hr Hat Hn' Hrect) as [Hok Hsame].
      split; [|reflexivity]. cbn [treeOk]. rewrite Hsame. eauto 10.
    + destruct (IH l Hl Hat Hn' Hrect) as [Hok Hsame].
      split; [|reflexivity]. cbn [treeOk]. rewrite Hsame. eauto 10.
Qed.

Lemma keeps_splitContainer (minRoomSize : Z) (st : BSPNode * list BSP.Ref) (c : BSP.Ref) :
  keeps (Dungeon.splitContainer minRoomSize st c).
Proof.
  unfold Dungeon.splitContainer. destruct st as [root containers].
  destruct (BSP.nodeAt root c); [|apply keeps_ret].
  apply keeps_bind; [apply keeps_split|]. intros r. destruct (fst r); apply keeps_ret.
Qed.

Lemma splitContainer_treeOk (lo minRoomSize : Z) (st : BSPNode * list BSP.Ref)
    (c : BSP.Ref) (w : World) :
  fair w -> (1 <= lo <= minRoomSize)%Z -> treeOk lo false st.1 ->
  treeOk lo false (Dungeon.splitContainer minRoomSize st c w).1.1 /\
  rectOf (Dungeon.splitContainer minRoomSize st c w).1.1 = rectOf st.1.
Proof.
  intros Hw Hlo Hst. unfold Dungeon.splitContainer. destruct st as [root containers].
  cbn [fst] in *. destruct (BSP.nodeAt root c) as [node|] eqn:Hat; [|auto].
  unfold bind. pose proof (split_treeOk lo minRoomSize node w Hw Hlo
                             (nodeAt_treeOk _ _ _ _ _ Hst Hat)) as [Hok Hrect].
  destruct (BSP.split node minRoomSize w) as [[ok node'] w'].
  cbn [fst snd] in *. destruct ok; cbn [ret fst snd]; [|auto].
  apply (replaceAt_treeOk lo false c root node node'); assumption.
Qed.

Lemma forEach_split_treeOk (lo minRoomSize : Z) (cs : list BSP.Ref)
    (st : BSPNode * list BSP.Ref) (w : World) :
  fair w -> (1 <= lo <= minRoomSize)%Z -> treeOk lo false st.1 ->
  treeOk lo false (forEachM (Dungeon.splitContainer minRoomSize) st cs w).1.1 /\
  rectOf (forEachM (Dungeon.splitContainer minRoomSize) st cs w).1.1 = rectOf st.1.
Proof.
  intros Hw Hlo. revert st w Hw. induction cs as [|c cs IH]; intros st w Hw Hst;
    cbn [forEachM]; [auto|].
  unfold bind.
  pose proof (splitContainer_treeOk lo minRoomSize st c w Hw Hlo Hst) as [Hok Hrect].
  pose proof (keeps_fair _ w (keeps_splitContainer minRoomSize st c) Hw) as Hw'.
  destruct (Dungeon.splitContainer minRoomSize st c w) as [st' w'].
  cbn [fst snd] in *. destruct (IH st' w' Hw' Hok) as [Hok' Hrect'].
  split; [exact Hok' | congruence].
Qed.

Lemma keeps_splitRounds (n : nat) (minRoomSize : Z) (st : BSPNode * list BSP.Ref) :
  keeps (Dungeon.splitRounds n minRoomSize st).
Proof.
  revert st. induction n as [|n IH]; intros st; cbn [Dungeon.splitRounds].
  - apply keeps_ret.
  - apply keeps_bind; [|intros st'; apply IH].
    apply keeps_forEachM. intros s a. apply keeps_splitContainer.
Qed.

Lemma splitRounds_treeOk (lo minRoomSize : Z) (n : nat)
    (st : BSPNode * list BSP.Ref) (w : World) :
  fair w -> (1 <= lo <= minRoomSize)%Z -> treeOk lo false st.1 ->
  treeOk lo false (Dungeon.splitRounds n minRoomSize st w).1.1 /\
  rectOf (Dungeon.splitRounds n minRoomSize st w).1.1 = rectOf st.1.
Proof.
  intros Hw Hlo. revert st w Hw. induction n as [|n IH]; intros st w Hw Hst;
    cbn [Dungeon.splitRounds]; [auto|].
  unfold bind.
  pose proof (forEach_split_treeOk lo minRoomSize st.2 st w Hw Hlo Hst) as [Hok Hrect].
  assert (Hw' : fair (forEachM (Dungeon.splitContainer minRoomSize) st st.2 w).2).
  { apply keeps_fair; [|exact Hw]. apply keeps_forEachM.
    intros s a. apply keeps_splitContainer. }
  destruct (forEachM _ st st.2 w) as [st' w'].
  cbn [fst snd] in *. destruct (IH st' w' Hw' Hok) as [Hok' Hrect'].
  split; [exact Hok' | congruence].
Qed.

Lemma keeps_createRoom (n : BSPNode) (minRoomSize maxRoomSize : Z) :
  keeps (BSP.createRoom n minRoomSize maxRoomSize).
Proof.
  induction n as [x y w h room | x y w h room l IHl r IHr]; cbn [BSP.createRoom].
  - keeps_tac.
  - apply keeps_bind; [exact IHl|]. intros l'.
    apply keeps_bind; [exact IHr|]. intros r'. apply keeps_ret.
Qed.

(** The room that [createRoom] makes in a leaf. *)
Lemma room_in_leaf (lo minRoomSize maxRoomSize x y w h : Z) (r1 r2 r3 r4 : Q) :
  (1 <= lo)%Z -> (1 <= minRoomSize)%Z -> (1 <= maxRoomSize)%Z ->
  (lo <= w)%Z -> (lo <= h)%Z ->
  (0 <= r1 < 1)%Q -> (0 <= r2 < 1)%Q -> (0 <= r3 < 1)%Q -> (0 <= r4 < 1)%Q ->
  let roomWidth :=
    Z.min (JS.floor (r1 * inject_Z (maxRoomSize - minRoomSize)) + minRoomSize) (w - 2) in
  let roomHeight :=
    Z.min (JS.floor (r2 * inject_Z (maxRoomSize - minRoomSize)) + minRoomSize) (h - 2) in
  let roomX := (x + JS.floor (r3 * inject_Z (w - roomWidth - 1)) + 1)%Z in
  let roomY := (y + JS.floor (r4 * inject_Z (h - roomHeight - 1)) + 1)%Z in
  let rm := Room.create roomX roomY roomWidth roomHeight in
  roomIn (x, y, w, h) rm /\
  ((3 <= lo)%Z -> (1 <= Room.width rm)%Z /\ (1 <= Room.height rm)%Z).
Proof.
  intros Hlo Hmin Hmax Hw Hh [H1a H1b] [H2a H2b] [H3a H3b] [H4a H4b].
  intros roomWidth roomHeight roomX roomY rm.
  pose proof (floor_random r1 (maxRoomSize - minRoomSize) H1a H1b) as F1.
  pose proof (floor_random r2 (maxRoomSize - minRoomSize) H2a H2b) as F2.
  pose proof (floor_random r3 (w - roomWidth - 1) H3a H3b) as F3.
  pose proof (floor_random r4 (h - roomHeight - 1) H4a H4b) as F4.
  fold roomWidth in F3. fold roomHeight in F4.
  assert (Hrw : (-1 <= roomWidth <= w - 2)%Z) by (unfold roomWidth; lia).
  assert (Hrh : (-1 <= roomHeight <= h - 2)%Z) by (unfold roomHeight; lia).
  assert (Hrx : (x + 1 <= roomX <= x + w - roomWidth - 1)%Z) by (unfold roomX; lia).
  assert (Hry : (y + 1 <= roomY <= y + h - roomHeight - 1)%Z) by (unfold roomY; lia).
  assert (Hcx : Room.centerX rm = (roomX + roomWidth / 2)%Z) by apply floor_half.
  assert (Hcy : Room.centerY rm = (roomY + roomHeight / 2)%Z) by apply floor_half.
  pose proof (Z.div_mod roomWidth 2 ltac:(lia)) as Dw.
  pose proof (Z.mod_pos_bound roomWidth 2 ltac:(lia)) as Mw.
  pose proof (Z.div_mod roomHeight 2 ltac:(lia)) as Dh.
  pose proof (Z.mod_pos_bound roomHeight 2 ltac:(lia)) as Mh.
  split.
  - unfold roomIn, inRect, roomRect. rewrite Hcx, Hcy.
    change (Room.x rm) with roomX. change (Room.y rm) with roomY.
    change (Room.width rm) with roomWidth. change (Room.height rm) with roomHeight.
    cbn [fst snd]. repeat split; try lia.
    all: intros; lia.
  - intros H3. change (Room.width rm) with roomWidth.
    change (Room.height rm) with roomHeight.
    unfold roomWidth, roomHeight. lia.
Qed.

(** [createRoom] gives every leaf a room inside of it, and changes nothing
    else. *)
Lemma createRoom_treeOk (lo minRoomSize maxRoomSize : Z) (n : BSPNode) (w : World) :
  fair w -> (1 <= lo)%Z -> (1 <= minRoomSize)%Z -> (1 <= maxRoomSize)%Z ->
  treeOk lo false n ->
  treeOk lo true (BSP.createRoom n minRoomSize maxRoomSize w).1 /\
  rectOf (BSP.createRoom n minRoomSize maxRoomSize w).1 = rectOf n.
Proof.
  intros Hw Hlo Hmin Hmax. revert w Hw.
  induction n as [x y wd h room | x y wd h room l IHl r IHr]; intros w Hw Hn;
    cbn [BSP.createRoom].
  - destruct Hn as (Hwd & Hh & _).
    unfold bind, Math_random, ret. cbn [fst snd dice rolls treeOk rectOf].
    split; [|reflexivity]. split; [exact Hwd|]. split; [exact Hh|].
    eexists. split; [reflexivity|].
    apply (room_in_leaf lo); auto; apply Hw.
  - destruct Hn as (Hroom & Hl & Hr & s & Hs & Hcut). unfold bind.
    destruct (IHl w Hw Hl) as [Hl' Hrl].
    pose proof (keeps_fair _ w (keeps_createRoom l minRoomSize maxRoomSize) Hw) as Hw1.
    destruct (BSP.createRoom l minRoomSize maxRoomSize w) as [l' w1]. cbn [fst snd] in *.
    destruct (IHr w1 Hw1 Hr) as [Hr' Hrr].
    destruct (BSP.createRoom r minRoomSize maxRoomSize w1) as [r' w2]. cbn [fst snd] in *.
    unfold ret. cbn [fst snd treeOk rectOf]. split; [|reflexivity].
    rewrite Hrl, Hrr. eauto 10.
Qed.

(** The rooms of a tree whose leaves have their rooms. *)
Lemma getAllRooms_nonempty (lo : Z) (n : BSPNode) :
  treeOk lo true n -> BSP.getAllRooms n <> [].
Proof.
  induction n as [x y w h room | x y w h room l IHl r IHr]; cbn [treeOk BSP.getAllRooms].
  - intros (_ & _ & rm & -> & _). discriminate.
  - intros (-> & Hl & _). cbn. intros H. apply app_eq_nil in H as [H _]. exact (IHl Hl H).
Qed.

Lemma keeps_getRoom (n : BSPNode) : keeps (BSP.getRoom n).
Proof.
  induction n as [x y w h room | x y w h room l IHl r IHr]; cbn [BSP.getRoom].
  - apply keeps_ret.
  - destruct room; [apply keeps_ret|].
    apply keeps_bind; [exact IHl|]. intros a.
    apply keeps_bind; [exact IHr|]. intros b.
    destruct a, b; keeps_tac.
Qed.

(** [getRoom] answers one of the rooms of the subtree; for a leaf, its
    room. *)
Lemma getRoom_some (lo : Z) (n : BSPNode) (w : World) :
  treeOk lo true n ->
  exists rm, (BSP.getRoom n w).1 = Some rm /\ rm ∈ BSP.getAllRooms n.
Proof.
  revert w. induction n as [x y wd h room | x y wd h room l IHl r IHr]; intros w;
    cbn [treeOk BSP.getRoom BSP.getAllRooms].
  - intros (_ & _ & rm & -> & _). exists rm. split; [reflexivity | left].
  - intros (-> & Hl & Hr & _). unfold bind. cbn [option_list app].
    destruct (IHl w Hl) as (a & Ha & Hain).
    destruct (BSP.getRoom l w) as [oa w1]. cbn [fst] in Ha. subst oa.
    destruct (IHr w1 Hr) as (b & Hb & Hbin).
    destruct (BSP.getRoom r w1) as [ob w2]. cbn [fst] in Hb. subst ob.
    unfold Math_random, ret. cbn [fst snd].
    change (option_list None ++ ?k) with k.
    destruct (JS.ltb _ _); [exists a | exists b]; (split; [reflexivity|]);
      apply elem_of_app; [left | right]; assumption.
Qed.

(** ** Writing into the grid *)

Lemma painted_nothing (size v : Z) (g : list Z) : painted size v (fun _ => False) g g.
Proof. split; [reflexivity|]. intros p _. tauto. Qed.

Lemma painted_ext (size v : Z) (P Q : Z * Z -> Prop) (g g' : list Z) :
  (forall p, P p <-> Q p) -> painted size v P g g' -> painted size v Q g g'.
Proof.
  intros HPQ [Hlen H]. split; [exact Hlen|]. intros p Hp.
  destruct (H p Hp) as (H1 & H2 & H3). rewrite <- HPQ. auto.
Qed.

Lemma painted_then (size v : Z) (P Q : Z * Z -> Prop) (g g' g'' : list Z) :
  painted size v P g g' -> painted size v Q g' g'' ->
  painted size v (fun p => P p \/ Q p) g g''.
Proof.
  intros [Hlen1 H1] [Hlen2 H2]. split; [congruence|]. intros p Hp.
  destruct (H1 p Hp) as (A1 & A2 & A3). destruct (H2 p Hp) as (B1 & B2 & B3).
  repeat split.
  - intros [HP | HQ]; [|auto]. destruct B3 as [B3 | B3]; [exact B3|].
    rewrite B3. auto.
  - intros Hno. rewrite B2, A2; tauto.
  - destruct B3 as [B3 | B3]; [auto|]. rewrite B3. exact A3.
Qed.

Lemma index_inj (size x y x' y' : Z) :
  (0 <= x < size)%Z -> (0 <= x' < size)%Z ->
  (y * size + x = y' * size + x')%Z -> x = x' /\ y = y'.
Proof. intros Hx Hx' H. assert (y = y') by nia. subst. lia. Qed.

Lemma inGrid_true (size : Z) (p : Z * Z) :
  inGrid size p = true <-> (0 <= p.1 < size)%Z /\ (0 <= p.2 < size)%Z.
Proof. unfold inGrid. rewrite !andb_true_iff, !Z.leb_le, !Z.ltb_lt. lia. Qed.

(** One guarded write. *)
Lemma put_painted (size x y v : Z) (g : list Z) :
  gridOk size g ->
  painted size v (fun p => p = (x, y)) g (Dungeon.put size x y v g) /\
  gridOk size (Dungeon.put size x y v g).
Proof.
  intros Hg. unfold Dungeon.put.
  change ((0 <=? x) && (x <? size) && (0 <=? y) && (y <? size))%Z with (inGrid size (x, y)).
  destruct (inGrid size (x, y)) eqn:Hin.
  - apply inGrid_true in Hin. cbn [fst snd] in Hin.
    assert (Hi : (0 <= y * size + x < size * size)%Z) by nia.
    unfold mapSet. destruct (y * size + x <? 0)%Z eqn:E; [apply Z.ltb_lt in E; lia|].
    split; [|unfold gridOk; rewrite length_insert; exact Hg].
    split; [apply length_insert|]. intros p Hp. unfold codeAt. rewrite Hp.
    pose proof Hp as Hp'. apply inGrid_true in Hp'.
    assert (Hj : (0 <= p.2 * size + p.1 < size * size)%Z) by nia.
    unfold mapAt. destruct (p.2 * size + p.1 <? 0)%Z eqn:E'; [apply Z.ltb_lt in E'; lia|].
    destruct (decide (p = (x, y))) as [-> | Hne].
    + cbn [fst snd]. rewrite list_lookup_insert_eq by (unfold gridOk in Hg; lia).
      split; [auto|]. split; [intros H; exfalso; apply H; reflexivity | left; reflexivity].
    + assert (Hidx : Z.to_nat (y * size + x) <> Z.to_nat (p.2 * size + p.1)).
      { intros Heq. apply Hne. apply Z2Nat.inj in Heq; try lia.
        destruct p as [px py]. cbn [fst snd] in *.
        destruct (index_inj size x y px py) as [-> ->]; auto; lia. }
      rewrite list_lookup_insert_ne by exact Hidx. tauto.
  - split; [|exact Hg]. split; [reflexivity|]. intros p Hp. repeat split; auto.
    intros ->. congruence.
Qed.

(** A loop of writes. *)
Lemma forRange_painted (size v : Z) (Pv : Z -> Z * Z -> Prop)
    (body : Z -> list Z -> list Z) (n : nat) (a : Z) (g : list Z) :
  (forall k g0, gridOk size g0 ->
     painted size v (Pv k) g0 (body k g0) /\ gridOk size (body k g0)) ->
  gridOk size g ->
  painted size v (fun p => exists k, (a <= k < a + Z.of_nat n)%Z /\ Pv k p) g
          (forRange n a body g) /\
  gridOk size (forRange n a body g).
Proof.
  intros Hbody. revert a g. induction n as [|n IH]; intros a g Hg; cbn [forRange].
  - split; [|exact Hg]. eapply painted_ext; [|apply painted_nothing].
    intros p. split; [tauto|]. intros (k & Hk & _). lia.
  - destruct (Hbody a g Hg) as [Hp1 Hg1].
    destruct (IH (a + 1)%Z (body a g) Hg1) as [Hp2 Hg2].
    split; [|exact Hg2].
    eapply painted_ext; [|exact (painted_then _ _ _ _ _ _ _ Hp1 Hp2)].
    intros p. split.
    + intros [H | (k & Hk & H)]; [exists a | exists k]; split; auto; lia.
    + intros (k & Hk & H). destruct (Z.eq_dec k a) as [-> | Hne]; [left; exact H|].
      right. exists k. split; [lia | exact H].
Qed.

Lemma forFromTo_painted (size v : Z) (Pv : Z -> Z * Z -> Prop)
    (body : Z -> list Z -> list Z) (a b : Z) (g : list Z) :
  (forall k g0, gridOk size g0 ->
     painted size v (Pv k) g0 (body k g0) /\ gridOk size (body k g0)) ->
  gridOk size g ->
  painted size v (fun p => exists k, (a <= k < b)%Z /\ Pv k p) g
          (forFromTo a b body g) /\
  gridOk size (forFromTo a b body g).
Proof.
  intros Hbody Hg. unfold forFromTo.
  destruct (forRange_painted size v Pv body (Z.to_nat (b - a)) a g Hbody Hg) as [Hp Hg'].
  split; [|exact Hg']. eapply painted_ext; [|exact Hp].
  intros p. split; intros (k & Hk & H); exists k; (split; [lia | exact H]).
Qed.

Lemma tunnelH_painted (size x1 x2 y : Z) (g : list Z) :
  gridOk size g ->
  painted size 0 (fun p => p.2 = y /\ between x1 x2 p.1) g
          (Dungeon.createHorizontalTunnel x1 x2 y g size) /\
  gridOk size (Dungeon.createHorizontalTunnel x1 x2 y g size).
Proof.
  intros Hg. unfold Dungeon.createHorizontalTunnel.
  destruct (forFromTo_painted size 0 (fun k p => p = (k, y))
              (fun x m => Dungeon.put size x y 0 m)
              (Z.min x1 x2) (Z.max x1 x2 + 1) g) as [Hp Hg'];
    [intros k g0; apply put_painted | exact Hg |].
  split; [|exact Hg']. eapply painted_ext; [|exact Hp].
  intros [px py]. unfold between. cbn [fst snd]. split.
  - intros (k & Hk & [= -> ->]). lia.
  - intros [-> Hb]. exists px. split; [lia | reflexivity].
Qed.

Lemma tunnelV_painted (size y1 y2 x : Z) (g : list Z) :
  gridOk size g ->
  painted size 0 (fun p => p.1 = x /\ between y1 y2 p.2) g
          (Dungeon.createVerticalTunnel y1 y2 x g size) /\
  gridOk size (Dungeon.createVerticalTunnel y1 y2 x g size).
Proof.
  intros Hg. unfold Dungeon.createVerticalTunnel.
  destruct (forFromTo_painted size 0 (fun k p => p = (x, k))
              (fun y m => Dungeon.put size x y 0 m)
              (Z.min y1 y2) (Z.max y1 y2 + 1) g) as [Hp Hg'];
    [intros k g0; apply put_painted | exact Hg |].
  split; [|exact Hg']. eapply painted_ext; [|exact Hp].
  intros [px py]. unfold between. cbn [fst snd]. split.
  - intros (k & Hk & [= -> ->]). lia.
  - intros [-> Hb]. exists py. split; [lia | reflexivity].
Qed.

(** [createCorridor] carves an L from the centre of the first room to the
    centre of the second. *)
Lemma corridor_painted (size : Z) (a b : Room.t) (g : list Z) (w : World) :
  gridOk size g ->
  painted size 0
    (corridorTiles (JS.ltb (1 # 2) (dice w (rolls w)))
                   (Room.centerX a) (Room.centerY a) (Room.centerX b) (Room.centerY b))
    g (Dungeon.createCorridor a b g size w).1 /\
  gridOk size (Dungeon.createCorridor a b g size w).1.
Proof.
  intros Hg. unfold Dungeon.createCorridor, bind, Math_random, ret, corridorTiles.
  cbn [fst snd]. destruct (JS.ltb (1 # 2) (dice w (rolls w))); cbn [fst].
  - destruct (tunnelH_painted size (Room.centerX a) (Room.centerX b) (Room.centerY a) g Hg)
      as [Hp1 Hg1].
    destruct (tunnelV_painted size (Room.centerY a) (Room.centerY b) (Room.centerX b) _ Hg1)
      as [Hp2 Hg2].
    split; [|exact Hg2]. exact (painted_then _ _ _ _ _ _ _ Hp1 Hp2).
  - destruct (tunnelV_painted size (Room.centerY a) (Room.centerY b) (Room.centerX a) g Hg)
      as [Hp1 Hg1].
    destruct (tunnelH_painted size (Room.centerX a) (Room.centerX b) (Room.centerY b) _ Hg1)
      as [Hp2 Hg2].
    split; [|exact Hg2]. exact (painted_then _ _ _ _ _ _ _ Hp1 Hp2).
Qed.

Lemma carveRoom_painted (size : Z) (rm : Room.t) (g : list Z) :
  gridOk size g ->
  painted size 0 (inRect (roomRect rm)) g (Dungeon.carveRoom size g rm) /\
  gridOk size (Dungeon.carveRoom size g rm).
Proof.
  intros Hg. unfold Dungeon.carveRoom.
  destruct (forFromTo_painted size 0
              (fun kx p => exists ky, (Room.y rm <= ky < Room.y rm + Room.height rm)%Z
                                      /\ p = (kx, ky))
              (fun x m => forFromTo (Room.y rm) (Room.y rm + Room.height rm)
                            (fun y m' => Dungeon.put size x y 0 m') m)
              (Room.x rm) (Room.x rm + Room.width rm) g) as [Hp Hg'];
    [|exact Hg|].
  - intros kx g0 Hg0.
    apply (forFromTo_painted size 0 (fun ky p => p = (kx, ky))); [|exact Hg0].
    intros ky g1. apply put_painted.
  - split; [|exact Hg']. eapply painted_ext; [|exact Hp].
    intros [px py]. unfold inRect, roomRect. cbn [fst snd]. split.
    + intros (kx & Hkx & ky & Hky & [= -> ->]). lia.
    + intros [Hx Hy]. exists px. split; [lia|]. exists py. split; [lia | reflexivity].
Qed.

Lemma carveRooms_painted (size : Z) (rooms : list Room.t) (g : list Z) :
  gridOk size g ->
  painted size 0 (fun p => exists rm, rm ∈ rooms /\ inRect (roomRect rm) p) g
          (foldl (Dungeon.carveRoom size) g rooms) /\
  gridOk size (foldl (Dungeon.carveRoom size) g rooms).
Proof.
  revert g. induction rooms as [|rm rooms IH]; intros g Hg; cbn [foldl].
  - split; [|exact Hg]. eapply painted_ext; [|apply painted_nothing].
    intros p. split; [tauto|]. intros (rm & Hrm & _). inversion Hrm.
  - destruct (carveRoom_painted size rm g Hg) as [Hp1 Hg1].
    destruct (IH _ Hg1) as [Hp2 Hg2]. split; [|exact Hg2].
    eapply painted_ext; [|exact (painted_then _ _ _ _ _ _ _ Hp1 Hp2)].
    intros p. split.
    + intros [H | (rm' & Hin & H)]; [exists rm | exists rm']; split; auto; [left | right; exact Hin].
    + intros (rm' & Hin & H). apply elem_of_cons in Hin as [-> | Hin]; [left; exact H|].
      right. exists rm'. auto.
Qed.

(** ** Reachability *)

Section Linked.
Variable size : Z.

Lemma linked_passable (g : list Z) (p q : Z * Z) :
  linked g size p q -> passable g size p = true /\ passable g size q = true.
Proof. induction 1 as [p Hp | p q r Hpq [IH1 IH2] Hadj Hr]; auto. Qed.

Lemma linked_trans (g : list Z) (p q r : Z * Z) :
  linked g size p q -> linked g size q r -> linked g size p r.
Proof.
  intros Hpq Hqr. revert p Hpq.
  induction Hqr as [q Hq | q r s Hqr IH Hadj Hs]; intros p Hpq; [exact Hpq|].
  apply (linked_step g size p r s); [apply IH; exact Hpq | exact Hadj | exact Hs].
Qed.

Lemma adjacent4_sym (a b : Z * Z) : adjacent4 a b -> adjacent4 b a.
Proof. unfold adjacent4. lia. Qed.

Lemma linked_sym (g : list Z) (p q : Z * Z) :
  linked g size p q -> linked g size q p.
Proof.
  induction 1 as [p Hp | p q r Hpq IH Hadj Hr]; [constructor; exact Hp|].
  apply (linked_trans g r q p); [|exact IH].
  apply (linked_step g size r r q); [constructor; exact Hr | apply adjacent4_sym; exact Hadj|].
  apply (linked_passable g p q Hpq).
Qed.

(** More floor, more reach. *)
Lemma linked_mono (g g' : list Z) (p q : Z * Z) :
  (forall t, passable g size t = true -> passable g' size t = true) ->
  linked g size p q -> linked g' size p q.
Proof.
  intros Hsub. induction 1 as [p Hp | p q r Hpq IH Hadj Hr].
  - constructor. auto.
  - apply (linked_step g' size p q r); [exact IH | exact Hadj | auto].
Qed.

(** A straight run of passable tiles joins its ends. *)
Lemma linked_run (g : list Z) (dx dy : Z) (n : nat) (x y : Z) :
  (Z.abs dx + Z.abs dy = 1)%Z ->
  (forall k, (0 <= k <= Z.of_nat n)%Z -> passable g size (x + k * dx, y + k * dy)%Z = true) ->
  linked g size (x, y) (x + Z.of_nat n * dx, y + Z.of_nat n * dy)%Z.
Proof.
  intros Hd. induction n as [|n IH]; intros Hall.
  - replace (x + Z.of_nat 0 * dx)%Z with x by lia.
    replace (y + Z.of_nat 0 * dy)%Z with y by lia.
    constructor. specialize (Hall 0%Z ltac:(lia)).
    replace (x + 0 * dx)%Z with x in Hall by lia.
    replace (y + 0 * dy)%Z with y in Hall by lia. exact Hall.
  - eapply linked_step.
    + apply IH. intros k Hk. apply Hall. lia.
    + unfold adjacent4. cbn [fst snd]. lia.
    + apply Hall. lia.
Qed.

Lemma linked_row (g : list Z) (y x1 x2 : Z) :
  (forall x, between x1 x2 x -> passable g size (x, y) = true) ->
  linked g size (x1, y) (x2, y).
Proof.
  intros Hall. unfold between in Hall.
  destruct (Z_le_gt_dec x1 x2) as [Hle | Hgt].
  - pose proof (linked_run g 1 0 (Z.to_nat (x2 - x1)) x1 y ltac:(lia)) as H.
    replace (x1 + Z.of_nat (Z.to_nat (x2 - x1)) * 1)%Z with x2 in H by lia.
    replace (y + Z.of_nat (Z.to_nat (x2 - x1)) * 0)%Z with y in H by lia.
    apply H. intros k Hk. replace (y + k * 0)%Z with y by lia. apply Hall. lia.
  - pose proof (linked_run g (-1) 0 (Z.to_nat (x1 - x2)) x1 y ltac:(lia)) as H.
    replace (x1 + Z.of_nat (Z.to_nat (x1 - x2)) * -1)%Z with x2 in H by lia.
    replace (y + Z.of_nat (Z.to_nat (x1 - x2)) * 0)%Z with y in H by lia.
    apply H. intros k Hk. replace (y + k * 0)%Z with y by lia. apply Hall. lia.
Qed.

Lemma linked_column (g : list Z) (x y1 y2 : Z) :
  (forall y, between y1 y2 y -> passable g size (x, y) = true) ->
  linked g size (x, y1) (x, y2).
Proof.
  intros Hall. unfold between in Hall.
  destruct (Z_le_gt_dec y1 y2) as [Hle | Hgt].
  - pose proof (linked_run g 0 1 (Z.to_nat (y2 - y1)) x y1 ltac:(lia)) as H.
    replace (y1 + Z.of_nat (Z.to_nat (y2 - y1)) * 1)%Z with y2 in H by lia.
    replace (x + Z.of_nat (Z.to_nat (y2 - y1)) * 0)%Z with x in H by lia.
    apply H. intros k Hk. replace (x + k * 0)%Z with x by lia. apply Hall. lia.
  - pose proof (linked_run g 0 (-1) (Z.to_nat (y1 - y2)) x y1 ltac:(lia)) as H.
    replace (y1 + Z.of_nat (Z.to_nat (y1 - y2)) * -1)%Z with y2 in H by lia.
    replace (x + Z.of_nat (Z.to_nat (y1 - y2)) * 0)%Z with x in H by lia.
    apply H. intros k Hk. replace (x + k * 0)%Z with x by lia. apply Hall. lia.
Qed.

(** The tiles of a passable rectangle reach one another. *)
Lemma linked_rect (g : list Z) (r : Z * Z * Z * Z) (p q : Z * Z) :
  (forall t, inRect r t -> passable g size t = true) ->
  inRect r p -> inRect r q -> linked g size p q.
Proof.
  destruct r as [[[x y] w] h]. destruct p as [px py]. destruct q as [qx qy].
  unfold inRect. cbn [fst snd]. intros Hall Hp Hq.
  apply (linked_trans g (px, py) (qx, py) (qx, qy)).
  - apply linked_row. unfold between. intros t Ht. apply Hall. cbn [fst snd]. lia.
  - apply linked_column. unfold between. intros t Ht. apply Hall. cbn [fst snd]. lia.
Qed.

(** The tiles of a passable corridor all reach its first end, and the first
    end reaches the second. *)
Lemma linked_corridor (g : list Z) (hf : bool) (x1 y1 x2 y2 : Z) (p : Z * Z) :
  (forall t, corridorTiles hf x1 y1 x2 y2 t -> passable g size t = true) ->
  corridorTiles hf x1 y1 x2 y2 p -> linked g size (x1, y1) p.
Proof.
  intros Hall Hp. destruct p as [px py]. unfold corridorTiles, between in *.
  destruct hf; cbn [fst snd] in *.
  - destruct Hp as [[-> Hb] | [-> Hb]].
    + apply linked_row. unfold between. intros t Ht. apply Hall. cbn [fst snd]. lia.
    + apply (linked_trans g _ (x2, y1)).
      * apply linked_row. unfold between. intros t Ht. apply Hall. cbn [fst snd]. lia.
      * apply linked_column. unfold between. intros t Ht. apply Hall. cbn [fst snd]. lia.
  - destruct Hp as [[-> Hb] | [-> Hb]].
    + apply linked_column. unfold between. intros t Ht. apply Hall. cbn [fst snd]. lia.
    + apply (linked_trans g _ (x1, y2)).
      * apply linked_column. unfold between. intros t Ht. apply Hall. cbn [fst snd]. lia.
      * apply linked_row. unfold between. intros t Ht. apply Hall. cbn [fst snd]. lia.
Qed.

Lemma corridor_ends (hf : bool) (x1 y1 x2 y2 : Z) :
  corridorTiles hf x1 y1 x2 y2 (x1, y1) /\ corridorTiles hf x1 y1 x2 y2 (x2, y2).
Proof. unfold corridorTiles, between. destruct hf; cbn [fst snd]; lia. Qed.

(** A corridor between two tiles of a rectangle stays in the rectangle. *)
Lemma corridor_inRect (hf : bool) (x1 y1 x2 y2 : Z) (r : Z * Z * Z * Z) (p : Z * Z) :
  inRect r (x1, y1) -> inRect r (x2, y2) ->
  corridorTiles hf x1 y1 x2 y2 p -> inRect r p.
Proof.
  destruct r as [[[x y] w] h]. unfold inRect, corridorTiles, between.
  destruct hf; cbn [fst snd]; lia.
Qed.

(** What painting with floor does to the passable tiles. *)
Lemma painted_passable (P : Z * Z -> Prop) (g g' : list Z) :
  painted size 0 P g g' ->
  (forall t, passable g size t = true -> passable g' size t = true) /\
  (forall t, inGrid size t = true -> P t -> passable g' size t = true) /\
  (forall t, ~ P t -> passable g' size t = passable g size t).
Proof.
  intros [_ H].
  assert (Hout : forall t, inGrid size t = false ->
            forall g0, passable g0 size t = false).
  { intros t Ht g0. unfold passable, codeAt. rewrite Ht. reflexivity. }
  repeat split.
  - intros t Ht. destruct (inGrid size t) eqn:Hin; [|rewrite Hout in Ht; congruence].
    destruct (H t Hin) as (_ & _ & [H3 | H3]); unfold passable in *; rewrite H3; auto.
  - intros t Hin HP. destruct (H t Hin) as (H1 & _). unfold passable. rewrite (H1 HP). reflexivity.
  - intros t HP. destruct (inGrid size t) eqn:Hin; [|rewrite !Hout by exact Hin; reflexivity].
    destruct (H t Hin) as (_ & H2 & _). unfold passable. rewrite (H2 HP). reflexivity.
Qed.

Lemma corridorTiles_dec (hf : bool) (x1 y1 x2 y2 : Z) (p : Z * Z) :
  corridorTiles hf x1 y1 x2 y2 p \/ ~ corridorTiles hf x1 y1 x2 y2 p.
Proof. unfold corridorTiles, between. destruct hf; lia. Qed.

End Linked.

(** ** Corridors *)

(** The rooms of a subtree, and their centres, lie in its rectangle. *)
Lemma rooms_in_tree (lo : Z) (n : BSPNode) (rm : Room.t) :
  treeOk lo true n -> rm ∈ BSP.getAllRooms n -> roomIn (rectOf n) rm.
Proof.
  induction n as [x y w h room | x y w h room l IHl r IHr];
    cbn [treeOk BSP.getAllRooms rectOf].
  - intros (_ & _ & rm' & -> & Hin & _) Hrm. cbn in Hrm.
    apply list_elem_of_singleton in Hrm as ->. exact Hin.
  - intros (-> & Hl & Hr & s & Hs & Hcut) Hrm.
    change (option_list None ++ ?k) with k in Hrm.
    assert (Hsub : forall c, roomIn (rectOf c) rm ->
              (forall p, inRect (rectOf c) p -> inRect (x, y, w, h) p) ->
              roomIn (x, y, w, h) rm).
    { intros c (H1 & H2 & H3) Hc. split; [apply Hc, H1 | split; [|exact H3]].
      intros p Hp. apply Hc, H2, Hp. }
    apply elem_of_app in Hrm as [Hrm | Hrm].
    + apply (Hsub l (IHl Hl Hrm)). intros p.
      destruct Hcut as [(-> & _ & ?) | (-> & _ & ?)]; unfold inRect; lia.
    + apply (Hsub r (IHr Hr Hrm)). intros p.
      destruct Hcut as [(_ & -> & ?) | (_ & -> & ?)]; unfold inRect; lia.
Qed.

Lemma leaf_rooms (lo x y w h : Z) (room : option Room.t) (rm : Room.t) :
  treeOk lo true (Leaf x y w h room) -> rm ∈ BSP.getAllRooms (Leaf x y w h room) ->
  room = Some rm.
Proof.
  cbn [treeOk BSP.getAllRooms]. intros (_ & _ & rm' & -> & _) Hrm. cbn in Hrm.
  apply list_elem_of_singleton in Hrm as ->. reflexivity.
Qed.

Section Connect.
Variables (size lo : Z).

(** A node whose rooms were carved and nothing else: its passable tiles
    reach one another exactly when the node is a leaf. *)
Lemma leaf_connected (x y w h : Z) (room : option Room.t) (g : list Z) :
  treeOk lo true (Leaf x y w h room) -> gridOk size g ->
  roomsOnly size (Leaf x y w h room) g ->
  connected size (Leaf x y w h room) g g.
Proof.
  intros Hn Hg Hrooms.
  pose proof Hn as (_ & _ & rm & -> & Hin & _).
  assert (Hown : forall p, inRect (x, y, w, h) p -> passable g size p = true ->
            inRect (roomRect rm) p).
  { intros p Hp Hpass. apply (Hrooms p Hp) in Hpass as (rm' & Hrm' & Hr).
    cbn in Hrm'. apply list_elem_of_singleton in Hrm' as ->. exact Hr. }
  assert (Hfloor : forall t, inRect (roomRect rm) t -> passable g size t = true).
  { intros t Ht. destruct Hin as (_ & Hsub & _).
    apply (Hrooms t (Hsub t Ht)). exists rm. split; [left | exact Ht]. }
  constructor; auto.
  - intros p q Hp Hq Hpp Hpq.
    apply (linked_rect size g (roomRect rm)); auto.
  - intros p Hp Hpass rm' Hrm'. cbn in Hrm'. apply list_elem_of_singleton in Hrm' as ->.
    apply Hfloor. destruct Hin as (_ & _ & Hc).
    pose proof (Hown p Hp Hpass) as Hr. unfold inRect, roomRect in Hr.
    apply Hc; lia.
  - discriminate.
Qed.

(** [connectRooms] joins all the passable tiles of a subtree, inside its
    rectangle. *)
Lemma connectRooms_connected (n : BSPNode) (g : list Z) (w : World) :
  treeOk lo true n ->
  (forall p, inRect (rectOf n) p -> inGrid size p = true) ->
  gridOk size g -> roomsOnly size n g ->
  connected size n g (Dungeon.connectRooms n g size w).1.
Proof.
  revert g w. induction n as [x y wd h room | x y wd h room l IHl r IHr];
    intros g w Hn Hbox Hg Hrooms.
  - cbn [Dungeon.connectRooms ret fst]. apply leaf_connected; assumption.
  - pose proof Hn as (-> & Hl & Hr & s & Hs & Hcut).
    cbn [rectOf] in Hbox.
    assert (Hgeo : (forall p, inRect (rectOf l) p -> inRect (x, y, wd, h) p) /\
                   (forall p, inRect (rectOf r) p -> inRect (x, y, wd, h) p) /\
                   (forall p, inRect (rectOf l) p -> inRect (rectOf r) p -> False) /\
                   (forall p, inRect (x, y, wd, h) p ->
                              inRect (rectOf l) p \/ inRect (rectOf r) p)).
    { destruct Hcut as [(-> & -> & ?) | (-> & -> & ?)]; unfold inRect;
        repeat split; intros; lia. }
    destruct Hgeo as (Hlsub & Hrsub & Hdisj & Hcover).
    assert (Hroomsplit : forall rm, rm ∈ BSP.getAllRooms (Branch x y wd h None l r) <->
              rm ∈ BSP.getAllRooms l \/ rm ∈ BSP.getAllRooms r).
    { intros rm. cbn [BSP.getAllRooms].
      change (option_list None ++ ?k) with k. apply elem_of_app. }
    (* the left subtree *)
    assert (Hrl : roomsOnly size l g).
    { intros p Hp. rewrite (Hrooms p (Hlsub p Hp)). split.
      - intros (rm & Hrm & Hin). apply Hroomsplit in Hrm as [Hrm | Hrm]; [eauto|].
        exfalso. apply (Hdisj p Hp).
        destruct (rooms_in_tree lo r rm Hr Hrm) as (_ & Hsub & _). auto.
      - intros (rm & Hrm & Hin). exists rm. split; [apply Hroomsplit; auto | exact Hin]. }
    cbn [Dungeon.connectRooms]. unfold bind.
    pose proof (IHl g w Hl (fun p Hp => Hbox p (Hlsub p Hp)) Hg Hrl) as Cl.
    destruct (Dungeon.connectRooms l g size w) as [g1 w1]. cbn [fst] in Cl.
    (* the right subtree *)
    assert (Hrr : roomsOnly size r g1).
    { intros p Hp.
      rewrite (con_frame _ _ _ _ Cl p (fun H => Hdisj p H Hp)).
      rewrite (Hrooms p (Hrsub p Hp)). split.
      - intros (rm & Hrm & Hin). apply Hroomsplit in Hrm as [Hrm | Hrm]; [|eauto].
        exfalso. apply (Hdisj p); [|exact Hp].
        destruct (rooms_in_tree lo l rm Hl Hrm) as (_ & Hsub & _). auto.
      - intros (rm & Hrm & Hin). exists rm. split; [apply Hroomsplit; auto | exact Hin]. }
    pose proof (IHr g1 w1 Hr (fun p Hp => Hbox p (Hrsub p Hp))
                    (con_grid _ _ _ _ Cl) Hrr) as Cr.
    destruct (Dungeon.connectRooms r g1 size w1) as [g2 w2]. cbn [fst] in Cr.
    (* the corridor *)
    destruct (getRoom_some lo l w2 Hl) as (a & Ha & Hain).
    destruct (BSP.getRoom l w2) as [oa w3]. cbn [fst] in Ha. subst oa.
    destruct (getRoom_some lo r w3 Hr) as (b & Hb & Hbin).
    destruct (BSP.getRoom r w3) as [ob w4]. cbn [fst] in Hb. subst ob.
    destruct (corridor_painted size a b g2 w4 (con_grid _ _ _ _ Cr)) as [Hpaint Hg3].
    set (hf := JS.ltb (1 # 2) (dice w4 (rolls w4))) in Hpaint.
    set (g3 := (Dungeon.createCorridor a b g2 size w4).1) in *.
    set (P := corridorTiles hf (Room.centerX a) (Room.centerY a)
                (Room.centerX b) (Room.centerY b)) in *.
    destruct (painted_passable size P g2 g3 Hpaint) as (Hmore3 & Hnew3 & Hkeep3).
    destruct (rooms_in_tree lo l a Hl Hain) as (Hacl & _).
    destruct (rooms_in_tree lo r b Hr Hbin) as (Hbcr & _).
    assert (HPbox : forall t, P t -> inRect (x, y, wd, h) t).
    { intros t Ht. apply (corridor_inRect hf _ _ _ _ _ t (Hlsub _ Hacl) (Hrsub _ Hbcr) Ht). }
    assert (HPpass : forall t, P t -> passable g3 size t = true).
    { intros t Ht. apply Hnew3; [apply Hbox, HPbox; exact Ht | exact Ht]. }
    destruct (corridor_ends hf (Room.centerX a) (Room.centerY a)
                (Room.centerX b) (Room.centerY b)) as [HPa HPb].
    fold P in HPa, HPb.
    assert (Hmore : forall t, passable g size t = true -> passable g3 size t = true).
    { intros t Ht. apply Hmore3, (con_more _ _ _ _ Cr), (con_more _ _ _ _ Cl), Ht. }
    assert (Hmono1 : forall p q, linked g1 size p q -> linked g3 size p q).
    { intros p q. apply linked_mono. intros t Ht.
      apply Hmore3, (con_more _ _ _ _ Cr), Ht. }
    assert (Hmono2 : forall p q, linked g2 size p q -> linked g3 size p q).
    { intros p q. apply linked_mono. exact Hmore3. }
    assert (Hab : linked g3 size (centreTile a) (centreTile b)).
    { apply (linked_corridor size g3 hf _ _ (Room.centerX b) (Room.centerY b));
        [exact HPpass | exact HPb]. }
    assert (Hreach : forall p, inRect (x, y, wd, h) p -> passable g3 size p = true ->
              linked g3 size (centreTile a) p).
    { intros p Hp Hpass.
      destruct (corridorTiles_dec hf (Room.centerX a) (Room.centerY a)
                  (Room.centerX b) (Room.centerY b) p) as [HP | HnP].
      { apply (linked_corridor size g3 hf _ _ (Room.centerX b) (Room.centerY b));
        [exact HPpass | exact HP]. }
      fold P in HnP. rewrite (Hkeep3 p HnP) in Hpass.
      destruct (Hcover p Hp) as [Hpl | Hpr].
      - rewrite (con_frame _ _ _ _ Cr p (fun H => Hdisj p Hpl H)) in Hpass.
        apply Hmono1. apply (con_linked _ _ _ _ Cl); auto.
        apply (con_some _ _ _ _ Cl p Hpl Hpass a Hain).
      - apply (linked_trans size g3 _ (centreTile b)); [exact Hab|].
        apply Hmono2. apply (con_linked _ _ _ _ Cr); auto.
        apply (con_some _ _ _ _ Cr p Hpr Hpass b Hbin). }
    assert (Hcentres : forall rm, rm ∈ BSP.getAllRooms (Branch x y wd h None l r) ->
              passable g3 size (centreTile rm) = true).
    { intros rm Hrm. apply Hroomsplit in Hrm as [Hrm | Hrm].
      - destruct l as [lx ly lw lh lroom | lx ly lw lh lroom ll lr].
        + pose proof (leaf_rooms _ _ _ _ _ _ _ Hl Hrm) as E1.
          pose proof (leaf_rooms _ _ _ _ _ _ _ Hl Hain) as E2.
          assert (rm = a) by congruence. subst rm. apply HPpass. exact HPa.
        + apply Hmore3, (con_more _ _ _ _ Cr).
          apply (con_branch _ _ _ _ Cl); [reflexivity | exact Hrm].
      - destruct r as [rx ry rw rh rroom | rx ry rw rh rroom rl rr].
        + pose proof (leaf_rooms _ _ _ _ _ _ _ Hr Hrm) as E1.
          pose proof (leaf_rooms _ _ _ _ _ _ _ Hr Hbin) as E2.
          assert (rm = b) by congruence. subst rm. apply HPpass. exact HPb.
        + apply Hmore3. apply (con_branch _ _ _ _ Cr); [reflexivity | exact Hrm]. }
    constructor.
    + exact Hg3.
    + exact Hmore.
    + intros t Ht. cbn [rectOf] in Ht.
      rewrite (Hkeep3 t (fun H => Ht (HPbox t H))).
      rewrite (con_frame _ _ _ _ Cr t (fun H => Ht (Hrsub t H))).
      apply (con_frame _ _ _ _ Cl t (fun H => Ht (Hlsub t H))).
    + intros p q Hp Hq Hpp Hpq.
      apply (linked_trans size g3 p (centreTile a) q).
      * apply linked_sym. apply Hreach; assumption.
      * apply Hreach; assumption.
    + intros p _ _ rm Hrm. apply Hcentres. exact Hrm.
    + intros _ rm Hrm. apply Hcentres. exact Hrm.
Qed.

End Connect.

(** ** The whole generator *)

Lemma lookup_repeat (v : Z) (n i : nat) : (i < n)%nat -> repeat v n !! i = Some v.
Proof.
  revert i. induction n as [|n IH]; intros [|i] Hi; cbn; try lia; [reflexivity|].
  apply IH. lia.
Qed.

(** The fresh grid is all wall. *)
Lemma codeAt_walls (size : Z) (p : Z * Z) :
  inGrid size p = true ->
  codeAt (repeat 1%Z (Z.to_nat (size * size))) size p = Some 1%Z.
Proof.
  intros Hp. unfold codeAt, mapAt. rewrite Hp. apply inGrid_true in Hp.
  destruct (Z.ltb_spec (p.2 * size + p.1) 0) as [Hneg | _]; [nia|].
  apply lookup_repeat. nia.
Qed.

Lemma gridOk_walls (size : Z) : gridOk size (repeat 1%Z (Z.to_nat (size * size))).
Proof. unfold gridOk. apply repeat_length. Qed.

(** Corridor carving writes floor, and nothing else. *)
Lemma connectRooms_painted (size : Z) (n : BSPNode) (g : list Z) (w : World) :
  gridOk size g ->
  (exists P, painted size 0 P g (Dungeon.connectRooms n g size w).1) /\
  gridOk size (Dungeon.connectRooms n g size w).1.
Proof.
  revert g w. induction n as [x y wd h room | x y wd h room l IHl r IHr]; intros g w Hg.
  - cbn [Dungeon.connectRooms ret fst]. split; [|exact Hg].
    exists (fun _ => False). apply painted_nothing.
  - cbn [Dungeon.connectRooms]. unfold bind.
    destruct (IHl g w Hg) as [[P1 H1] Hg1].
    destruct (Dungeon.connectRooms l g size w) as [g1 w1]. cbn [fst] in H1, Hg1.
    destruct (IHr g1 w1 Hg1) as [[P2 H2] Hg2].
    destruct (Dungeon.connectRooms r g1 size w1) as [g2 w2]. cbn [fst] in H2, Hg2.
    destruct (BSP.getRoom l w2) as [[a|] w3];
      destruct (BSP.getRoom r w3) as [[b|] w4]; cbn [ret fst];
      try (split; [|exact Hg2]; exists (fun p => P1 p \/ P2 p);
           apply (painted_then size 0 P1 P2 g g1 g2 H1 H2)).
    destruct (corridor_painted size a b g2 w4 Hg2) as [H3 Hg3].
    split; [|exact Hg3]. eexists.
    apply (painted_then size 0 _ _ g g2 _ (painted_then size 0 P1 P2 g g1 g2 H1 H2) H3).
Qed.

Lemma room_tiles_dec (rooms : list Room.t) (p : Z * Z) :
  (exists rm, rm ∈ rooms /\ inRect (roomRect rm) p) \/
  ~ (exists rm, rm ∈ rooms /\ inRect (roomRect rm) p).
Proof.
  induction rooms as [|rm rooms IH].
  - right. intros (rm & Hrm & _). inversion Hrm.
  - assert (Hd : inRect (roomRect rm) p \/ ~ inRect (roomRect rm) p)
      by (unfold inRect, roomRect; lia).
    destruct Hd as [Hd | Hd]; [left; exists rm; split; [left | exact Hd]|].
    destruct IH as [(rm' & Hrm' & Hin) | IH].
    + left. exists rm'. split; [right; exact Hrm' | exact Hin].
    + right. intros (rm' & Hrm' & Hin). apply elem_of_cons in Hrm' as [-> | Hrm'].
      * exact (Hd Hin).
      * apply IH. eauto.
Qed.

(** With leaves at least three tiles wide and high, every room has its
    centre among its tiles. *)
Lemma centre_in_room (lo : Z) (n : BSPNode) (rm : Room.t) :
  (3 <= lo)%Z -> treeOk lo true n -> rm ∈ BSP.getAllRooms n ->
  inRect (roomRect rm) (centreTile rm).
Proof.
  intros Hlo. induction n as [x y w h room | x y w h room l IHl r IHr];
    cbn [treeOk BSP.getAllRooms].
  - intros (_ & _ & rm' & -> & (_ & _ & Hc) & Hdim) Hrm. cbn in Hrm.
    apply list_elem_of_singleton in Hrm as ->. apply Hc; apply Hdim, Hlo.
  - intros (-> & Hl & Hr & _) Hrm. change (option_list None ++ ?k) with k in Hrm.
    apply elem_of_app in Hrm as [Hrm | Hrm]; auto.
Qed.

(** The first and the last element of a list that is not empty. *)
Lemma first_and_last {A : Type} (l : list A) :
  l <> [] -> exists a b, l !! 0%nat = Some a /\ l !! (length l - 1)%nat = Some b.
Proof.
  intros Hl. destruct l as [|a l]; [congruence|]. exists a.
  destruct (lookup_lt_is_Some_2 (a :: l) (length (a :: l) - 1)) as [b Hb];
    [cbn [length]; lia|].
  exists b. split; [reflexivity | exact Hb].
Qed.

(** A run of [generateDungeon], step by step: the tree with its rooms, the
    grid before the portal is written, the first and the last room. *)
Lemma generateDungeon_run (lo size minRoomSize maxRoomSize recursionDepth : Z) (w : World) :
  fair w -> (1 <= lo <= minRoomSize)%Z -> (lo <= size)%Z -> (1 <= maxRoomSize)%Z ->
  exists (root : BSPNode) (g1 g2 : list Z) (startRoom exitRoom : Room.t),
    (Dungeon.generateDungeon size minRoomSize maxRoomSize recursionDepth w).1 =
      Some (Dungeon.mk
              (Dungeon.put size (Room.centerX exitRoom) (Room.centerY exitRoom) 9 g2)
              size (BSP.getAllRooms root) (centreTile startRoom) (centreTile exitRoom)) /\
    treeOk lo true root /\ rectOf root = (0, 0, size, size)%Z /\
    BSP.getAllRooms root !! 0%nat = Some startRoom /\
    BSP.getAllRooms root !! (length (BSP.getAllRooms root) - 1)%nat = Some exitRoom /\
    (forall p, inGrid size p = true ->
               codeAt g2 size p = Some 0%Z \/ codeAt g2 size p = Some 1%Z) /\
    connected size root g1 g2.
Proof.
  intros Hw Hlo Hsize Hmax. unfold Dungeon.generateDungeon, bind.
  set (st0 := (Leaf 0 0 size size None, [[]]) : BSPNode * list BSP.Ref).
  assert (H0 : treeOk lo false st0.1) by (cbn; repeat split; lia).
  destruct (splitRounds_treeOk lo minRoomSize (Z.to_nat recursionDepth) st0 w Hw Hlo H0)
    as [Ht1 Hr1].
  pose proof (keeps_fair _ w (keeps_splitRounds (Z.to_nat recursionDepth) minRoomSize st0) Hw)
    as Hw1.
  destruct (Dungeon.splitRounds (Z.to_nat recursionDepth) minRoomSize st0 w) as [st w1].
  cbn [fst snd] in Ht1, Hr1, Hw1 |- *.
  destruct (createRoom_treeOk lo minRoomSize maxRoomSize st.1 w1 Hw1) as [Ht2 Hr2];
    [lia | lia | lia | exact Ht1 |].
  destruct (BSP.createRoom st.1 minRoomSize maxRoomSize w1) as [root w2].
  cbn [fst snd] in Ht2, Hr2 |- *.
  rewrite Hr1 in Hr2. cbn [st0 fst rectOf] in Hr2.
  set (rooms := BSP.getAllRooms root).
  set (g0 := repeat 1%Z (Z.to_nat (size * size))).
  destruct (carveRooms_painted size rooms g0 (gridOk_walls size)) as [Hcarve Hg1].
  set (g1 := foldl (Dungeon.carveRoom size) g0 rooms) in *.
  assert (Hbox : forall p, inRect (rectOf root) p -> inGrid size p = true).
  { intros p. rewrite Hr2. unfold inRect. intros Hp. apply inGrid_true. lia. }
  assert (Hrooms : roomsOnly size root g1).
  { intros p Hp. pose proof (Hbox p Hp) as Hin.
    destruct (Hcarve) as [_ Hc]. destruct (Hc p Hin) as (Hyes & Hno & _).
    split.
    - intros Hpass. destruct (room_tiles_dec rooms p) as [HP | HP]; [exact HP|].
      exfalso. unfold passable in Hpass. rewrite (Hno HP) in Hpass.
      unfold g0 in Hpass. rewrite (codeAt_walls size p Hin) in Hpass. discriminate.
    - intros HP. unfold passable. rewrite (Hyes HP). reflexivity. }
  pose proof (connectRooms_connected size lo root g1 w2 Ht2 Hbox Hg1 Hrooms) as Hcon.
  destruct (connectRooms_painted size root g1 w2 Hg1) as [[P Hpaint] Hg2].
  destruct (Dungeon.connectRooms root g1 size w2) as [g2 w3]. cbn [fst snd] in *.
  destruct (first_and_last rooms (getAllRooms_nonempty lo root Ht2))
    as (startRoom & exitRoom & Hfirst & Hlast).
  exists root, g1, g2, startRoom, exitRoom.
  rewrite Hfirst, Hlast. cbn [ret fst snd].
  split; [reflexivity|]. split; [exact Ht2|]. split; [exact Hr2|].
  split; [exact Hfirst|]. split; [exact Hlast|]. split; [|exact Hcon].
  intros p Hin.
  destruct Hpaint as [_ Hp2]. destruct (Hp2 p Hin) as (_ & _ & [H2 | H2]); [left; exact H2|].
  rewrite H2. destruct Hcarve as [_ Hp1].
  destruct (Hp1 p Hin) as (_ & _ & [H1 | H1]); [left; exact H1|].
  right. rewrite H1. apply codeAt_walls. exact Hin.
Qed.

(** The elements of the array are the tiles of the grid. *)
Lemma codeAt_tileOf (size : Z) (g : list Z) (i : nat) :
  (1 <= size)%Z -> gridOk size g -> (i < length g)%nat ->
  inGrid size (tileOf size i) = true /\
  ((tileOf size i).2 * size + (tileOf size i).1 = Z.of_nat i)%Z /\
  codeAt g size (tileOf size i) = g !! i.
Proof.
  intros Hsize Hg Hi. unfold gridOk in Hg.
  pose proof (Z.mod_pos_bound (Z.of_nat i) size ltac:(lia)) as Hm.
  pose proof (Z.div_mod (Z.of_nat i) size ltac:(lia)) as Hd.
  assert (Hq : (0 <= Z.of_nat i / size < size)%Z).
  { split; [apply Z.div_pos; lia|]. apply Z.div_lt_upper_bound; nia. }
  assert (Hin : inGrid size (tileOf size i) = true).
  { apply inGrid_true. unfold tileOf. cbn [fst snd]. lia. }
  assert (Hidx : ((tileOf size i).2 * size + (tileOf size i).1 = Z.of_nat i)%Z).
  { unfold tileOf. cbn [fst snd]. lia. }
  split; [exact Hin|]. split; [exact Hidx|].
  unfold codeAt, mapAt. rewrite Hin, Hidx.
  destruct (Z.ltb_spec (Z.of_nat i) 0) as [Hneg | _]; [lia|].
  rewrite Nat2Z.id. reflexivity.
Qed.

Lemma codeAt_lookup (size : Z) (g : list Z) (p : Z * Z) (v : Z) :
  codeAt g size p = Some v -> g !! Z.to_nat (p.2 * size + p.1) = Some v.
Proof.
  unfold codeAt, mapAt. destruct (inGrid size p); [|discriminate].
  destruct (Z.ltb_spec (p.2 * size + p.1) 0); [discriminate | auto].
Qed.

(** What the write of the portal does to the grid. *)
Lemma portal_written (size : Z) (e : Z * Z) (g : list Z) :
  gridOk size g -> inGrid size e = true ->
  (forall p, inGrid size p = true ->
             codeAt g size p = Some 0%Z \/ codeAt g size p = Some 1%Z) ->
  let g' := Dungeon.put size e.1 e.2 9 g in
  gridOk size g' /\
  codeAt g' size e = Some 9%Z /\
  (forall p, p <> e -> codeAt g' size p = codeAt g size p) /\
  (forall p, passable g size p = true -> passable g' size p = true) /\
  passable g' size e = true /\
  (forall p, codeAt g' size p = Some 0%Z -> passable g size p = true).
Proof.
  intros Hg He Hcodes g'.
  destruct (put_painted size e.1 e.2 9 g Hg) as [[_ Hput] Hg']. fold g' in Hput, Hg'.
  assert (Hexit : codeAt g' size e = Some 9%Z).
  { destruct (Hput e He) as (Hyes & _). apply Hyes. destruct e; reflexivity. }
  assert (Hother : forall p, p <> e -> codeAt g' size p = codeAt g size p).
  { intros p Hp. destruct (inGrid size p) eqn:Hin.
    - destruct (Hput p Hin) as (_ & Hno & _).
      apply Hno. intros ->. apply Hp. destruct e; reflexivity.
    - unfold codeAt. rewrite Hin. reflexivity. }
  assert (Hdec : forall p : Z * Z, p = e \/ p <> e).
  { intros [px py]. destruct e as [ex ey].
    destruct (Z.eq_dec px ex) as [-> | ?]; [|right; congruence].
    destruct (Z.eq_dec py ey) as [-> | ?]; [left; reflexivity | right; congruence]. }
  assert (Hpe : passable g' size e = true) by (unfold passable; rewrite Hexit; reflexivity).
  repeat split; try assumption.
  - intros p Hp. destruct (Hdec p) as [-> | Hne]; [exact Hpe|].
    unfold passable. rewrite (Hother p Hne). exact Hp.
  - intros p Hp. destruct (Hdec p) as [-> | Hne]; [congruence|].
    unfold passable. rewrite <- (Hother p Hne), Hp. reflexivity.
Qed.

(** C3.  For positive [size], [minRoomSize] and [maxRoomSize], and a random
    source that answers in [0, 1), [generateDungeon] returns a dungeon; its
    list of rooms is not empty; every tile whose code in the final grid is
    floor (0) is reached from the player start by 4-connected moves through
    tiles of code floor (0) or portal (9); and so is the exit. *)
Theorem dungeon_floor_reachable
    (size minRoomSize maxRoomSize recursionDepth : Z) (w : World) :
  fair w -> (1 <= size)%Z -> (1 <= minRoomSize)%Z -> (1 <= maxRoomSize)%Z ->
  exists d : Dungeon.t,
    (Dungeon.generateDungeon size minRoomSize maxRoomSize recursionDepth w).1 = Some d /\
    Dungeon.rooms d <> [] /\
    (forall p, codeAt (Dungeon.mapData d) (Dungeon.size d) p = Some 0%Z ->
       linked (Dungeon.mapData d) (Dungeon.size d) (Dungeon.playerStart d) p) /\
    linked (Dungeon.mapData d) (Dungeon.size d) (Dungeon.playerStart d) (Dungeon.exit d).
Proof.
  intros Hw Hsize Hmin Hmax.
  destruct (generateDungeon_run 1 size minRoomSize maxRoomSize recursionDepth w Hw)
    as (root & g1 & g2 & startRoom & exitRoom & Hrun & Ht & Hrect & Hfirst & Hlast
        & Hcodes & Hcon); [lia | lia | lia |].
  eexists. split; [exact Hrun|]. cbn [Dungeon.rooms Dungeon.mapData Dungeon.size
                                       Dungeon.playerStart Dungeon.exit].
  pose proof (list_elem_of_lookup_2 _ _ _ Hfirst) as Hsin.
  pose proof (list_elem_of_lookup_2 _ _ _ Hlast) as Hein.
  assert (Hbox : forall p, inRect (rectOf root) p <-> inGrid size p = true).
  { intros p. rewrite Hrect, inGrid_true. unfold inRect. lia. }
  destruct (rooms_in_tree 1 root startRoom Ht Hsin) as (Hsbox & _).
  destruct (rooms_in_tree 1 root exitRoom Ht Hein) as (Hebox & _).
  destruct (portal_written size (centreTile exitRoom) g2 (con_grid _ _ _ _ Hcon)
              (proj1 (Hbox _) Hebox) Hcodes)
    as (_ & _ & _ & Hmore & Hpe & Hfloor).
  cbn [centreTile fst snd] in Hmore, Hpe, Hfloor.
  set (final := Dungeon.put size (Room.centerX exitRoom) (Room.centerY exitRoom) 9 g2) in *.
  assert (Hreach : forall p, inGrid size p = true -> passable g2 size p = true ->
            linked final size (centreTile startRoom) p).
  { intros p Hin Hp. apply (linked_mono size g2 final _ _ Hmore).
    apply (con_linked _ _ _ _ Hcon); [exact Hsbox | apply Hbox, Hin | | exact Hp].
    apply (con_some _ _ _ _ Hcon p (proj2 (Hbox p) Hin) Hp startRoom Hsin). }
  split; [intros E; rewrite E in Hfirst; discriminate|]. split.
  - intros p Hp. apply Hreach; [|apply Hfloor, Hp].
    unfold codeAt in Hp. destruct (inGrid size p); [reflexivity | discriminate].
  - destruct (passable g2 size (centreTile exitRoom)) eqn:Hpass.
    + apply Hreach; [apply Hbox, Hebox | exact Hpass].
    + destruct root as [x y wd h room | x y wd h room l r].
      * pose proof (leaf_rooms _ _ _ _ _ _ _ Ht Hsin) as E1.
        pose proof (leaf_rooms _ _ _ _ _ _ _ Ht Hein) as E2.
        assert (startRoom = exitRoom) by congruence. subst startRoom.
        apply linked_here. exact Hpe.
      * rewrite (con_branch _ _ _ _ Hcon eq_refl exitRoom Hein) in Hpass. discriminate.
Qed.

Lemma dungeon_floor_reachable_witness :
  exists d : Dungeon.t,
    (Dungeon.generateDungeon 24 4 8 4 world0).1 = Some d /\
    Dungeon.rooms d <> [] /\
    (forall p, codeAt (Dungeon.mapData d) (Dungeon.size d) p = Some 0%Z ->
       linked (Dungeon.mapData d) (Dungeon.size d) (Dungeon.playerStart d) p) /\
    linked (Dungeon.mapData d) (Dungeon.size d) (Dungeon.playerStart d) (Dungeon.exit d).
Proof.
  apply (dungeon_floor_reachable 24 4 8 4 world0); [|lia|lia|lia].
  intros k. vm_compute. split; [discriminate | reflexivity].
Defined.

(** C4 does not hold as written.  With [size = 24] and [minRoomSize = 1],
    and a random source that answers 99/100 at its second reading, the first
    cut leaves a strip two tiles wide on the right; the room of that strip,
    the last of the list, has width 0, so that no tile lies within its
    rectangle, and the portal is written on tile (23, 1). *)
Lemma portal_outside_exit_room :
  exists (d : Dungeon.t) (exitRoom : Room.t),
    (Dungeon.generateDungeon 24 1 8 4 lopsided).1 = Some d /\
    Dungeon.rooms d !! (length (Dungeon.rooms d) - 1)%nat = Some exitRoom /\
    Dungeon.exit d = (23, 1)%Z /\
    codeAt (Dungeon.mapData d) (Dungeon.size d) (23, 1)%Z = Some 9%Z /\
    Room.width exitRoom = 0%Z /\
    ~ inRect (roomRect exitRoom) (23, 1)%Z.
Proof.
  destruct (Dungeon.generateDungeon 24 1 8 4 lopsided).1 as [d|] eqn:E;
    vm_compute in E; [|discriminate].
  injection E as <-. eexists; eexists. split; [reflexivity|].
  split; [vm_compute; reflexivity|]. split; [reflexivity|].
  split; [vm_compute; reflexivity|]. split; [reflexivity|].
  unfold inRect, roomRect. cbn. lia.
Qed.

(** C4, amended.  For positive [size], [minRoomSize] and [maxRoomSize], and a
    random source that answers in [0, 1), [generateDungeon] returns a
    dungeon whose exit is the centre of the last room of the list; exactly
    one element of the grid is the portal code 9, the one of the exit tile;
    every other element is wall (1) or floor (0), which is all that the
    carving of rooms and corridors writes; and the exit tile lies within the
    rectangle of the last room when [size] and [minRoomSize] are at least 3. *)
Theorem dungeon_one_portal
    (size minRoomSize maxRoomSize recursionDepth : Z) (w : World) :
  fair w -> (1 <= size)%Z -> (1 <= minRoomSize)%Z -> (1 <= maxRoomSize)%Z ->
  exists (d : Dungeon.t) (exitRoom : Room.t),
    (Dungeon.generateDungeon size minRoomSize maxRoomSize recursionDepth w).1 = Some d /\
    Dungeon.rooms d !! (length (Dungeon.rooms d) - 1)%nat = Some exitRoom /\
    Dungeon.exit d = centreTile exitRoom /\
    inGrid size (Dungeon.exit d) = true /\
    (forall i : nat, Dungeon.mapData d !! i = Some 9%Z <->
                     Z.of_nat i = ((Dungeon.exit d).2 * size + (Dungeon.exit d).1)%Z) /\
    (forall (i : nat) (v : Z), Dungeon.mapData d !! i = Some v ->
                               v = 0%Z \/ v = 1%Z \/ v = 9%Z) /\
    ((3 <= size)%Z -> (3 <= minRoomSize)%Z ->
     inRect (roomRect exitRoom) (Dungeon.exit d)).
Proof.
  intros Hw Hsize Hmin Hmax.
  set (lo := Z.min 3 (Z.min size minRoomSize)).
  assert (Hlo : (1 <= lo <= minRoomSize)%Z /\ (lo <= size)%Z /\
                ((3 <= size)%Z -> (3 <= minRoomSize)%Z -> (3 <= lo)%Z))
    by (unfold lo; lia).
  clearbody lo. destruct Hlo as (Hlo1 & Hlo2 & Hlo3).
  destruct (generateDungeon_run lo size minRoomSize maxRoomSize recursionDepth w Hw)
    as (root & g1 & g2 & startRoom & exitRoom & Hrun & Ht & Hrect & Hfirst & Hlast
        & Hcodes & Hcon); [lia | lia | lia |].
  eexists. exists exitRoom. split; [exact Hrun|].
  cbn [Dungeon.rooms Dungeon.mapData Dungeon.size Dungeon.exit].
  pose proof (list_elem_of_lookup_2 _ _ _ Hlast) as Hein.
  destruct (rooms_in_tree lo root exitRoom Ht Hein) as (Hebox & _).
  assert (Hegrid : inGrid size (centreTile exitRoom) = true).
  { rewrite Hrect in Hebox. apply inGrid_true. unfold inRect in Hebox.
    unfold centreTile. cbn [fst snd] in *. lia. }
  destruct (portal_written size (centreTile exitRoom) g2 (con_grid _ _ _ _ Hcon)
              Hegrid Hcodes)
    as (Hgf & Hexit & Hother & _).
  cbn [centreTile fst snd] in Hgf, Hexit, Hother.
  set (final := Dungeon.put size (Room.centerX exitRoom) (Room.centerY exitRoom) 9 g2) in *.
  assert (Hdec : forall p : Z * Z, p = centreTile exitRoom \/ p <> centreTile exitRoom).
  { intros [px py]. unfold centreTile.
    destruct (Z.eq_dec px (Room.centerX exitRoom)) as [-> | ?]; [|right; congruence].
    destruct (Z.eq_dec py (Room.centerY exitRoom)) as [-> | ?];
      [left; reflexivity | right; congruence]. }
  assert (Helem : forall (i : nat) (v : Z), final !! i = Some v ->
            (tileOf size i = centreTile exitRoom /\ v = 9%Z /\
             Z.of_nat i = (Room.centerY exitRoom * size + Room.centerX exitRoom)%Z) \/
            (tileOf size i <> centreTile exitRoom /\ (v = 0%Z \/ v = 1%Z))).
  { intros i v Hi.
    destruct (codeAt_tileOf size final i Hsize Hgf (lookup_lt_Some _ _ _ Hi))
      as (Hin & Hidx & Hcode).
    rewrite Hi in Hcode.
    destruct (Hdec (tileOf size i)) as [E | Hne].
    - left. rewrite E in Hcode, Hidx.
      rewrite Hexit in Hcode. cbn [centreTile fst snd] in Hidx.
      split; [exact E|]. split; [congruence | lia].
    - right. split; [exact Hne|]. rewrite (Hother _ Hne) in Hcode.
      destruct (Hcodes _ Hin) as [H0 | H1]; [left | right]; congruence. }
  split; [exact Hlast|]. split; [reflexivity|]. split; [exact Hegrid|].
  cbn [centreTile fst snd]. split; [|split].
  - intros i. split.
    + intros Hi. destruct (Helem i 9%Z Hi) as [(_ & _ & E) | (_ & [? | ?])];
        [exact E | discriminate | discriminate].
    + intros Hi. apply codeAt_lookup in Hexit. unfold centreTile in Hexit.
      cbn [fst snd] in Hexit. rewrite <- Hi, Nat2Z.id in Hexit. exact Hexit.
  - intros i v Hi. destruct (Helem i v Hi) as [(_ & -> & _) | (_ & [-> | ->])]; auto.
  - intros H3 H3'. apply (centre_in_room lo root exitRoom); [auto | exact Ht | exact Hein].
Qed.

Lemma dungeon_one_portal_witness :
  exists (d : Dungeon.t) (exitRoom : Room.t),
    (Dungeon.generateDungeon 24 4 8 4 world0).1 = Some d /\
    Dungeon.rooms d !! (length (Dungeon.rooms d) - 1)%nat = Some exitRoom /\
    Dungeon.exit d = centreTile exitRoom /\
    inGrid 24 (Dungeon.exit d) = true /\
    (forall i : nat, Dungeon.mapData d !! i = Some 9%Z <->
                     Z.of_nat i = ((Dungeon.exit d).2 * 24 + (Dungeon.exit d).1)%Z) /\
    (forall (i : nat) (v : Z), Dungeon.mapData d !! i = Some v ->
                               v = 0%Z \/ v = 1%Z \/ v = 9%Z) /\
    inRect (roomRect exitRoom) (Dungeon.exit d).
Proof.
  destruct (dungeon_one_portal 24 4 8 4 world0) as (d & exitRoom & H1 & H2 & H3 & H4 & H5 & H6 & H7);
    [intros k; vm_compute; split; [discriminate | reflexivity] | lia | lia | lia |].
  exists d, exitRoom.
  split; [exact H1|]. split; [exact H2|]. split; [exact H3|]. split; [exact H4|].
  split; [exact H5|]. split; [exact H6|]. apply H7; lia.
Defined.

(* ===================================================================== *)
(** * Further properties of the dungeon generator *)
(* ===================================================================== *)

(** ** One split *)

(** X1.  [split] refuses a node that has children.  For a leaf it draws the
    direction of the cut first: horizontal when [Math.random() > 0.5],
    vertical otherwise.  It cuts exactly when the side along that direction
    (the height for a horizontal cut, the width for a vertical one) is more
    than twice [minRoomSize]; a refused node stays as it is, after one draw.
    A cut takes a second draw for its position [s]: the two halves tile the
    rectangle along the drawn direction, the first [s] wide (or high) with
    [s] at least [minRoomSize], the second more than [minRoomSize]. *)
Theorem split_halves (n : BSPNode) (minRoomSize : Z) (w : World) :
  fair w ->
  let r := BSP.split n minRoomSize w in
  match n with
  | Branch _ _ _ _ _ _ _ => r = ((false, n), w)
  | Leaf x y wd h room =>
      let horizontal := JS.ltb (1 # 2) (dice w (rolls w)) in
      let side := if horizontal then h else wd in
      let s := (JS.floor (dice w (S (rolls w)) * inject_Z (side - 2 * minRoomSize))
                + minRoomSize)%Z in
      (r.1.1 = true <-> (2 * minRoomSize < side)%Z) /\
      (r.1.1 = false -> r.1.2 = n /\ rolls r.2 = S (rolls w)) /\
      (r.1.1 = true ->
       (minRoomSize <= s)%Z /\ (minRoomSize < side - s)%Z /\
       rolls r.2 = S (S (rolls w)) /\
       r.1.2 = if horizontal
               then Branch x y wd h room (Leaf x y wd s None)
                           (Leaf x (y + s) wd (h - s) None)
               else Branch x y wd h room (Leaf x y s h None)
                           (Leaf (x + s) y (wd - s) h None))
  end.
Proof.
  intros Hw r. subst r. destruct n as [x y wd h room | x y wd h room l r]; [|reflexivity].
  unfold BSP.split, bind, Math_random, ret. cbn [fst snd dice rolls].
  set (r1 := dice w (rolls w)). set (r2 := dice w (S (rolls w))).
  destruct (Hw (S (rolls w))) as [H0 H1]. fold r2 in H0, H1.
  destruct (JS.ltb (1 # 2) r1); cbv beta iota zeta; cbn [fst snd].
  - replace (h - 2 * minRoomSize)%Z with (h - minRoomSize - minRoomSize)%Z by lia.
    destruct (Z.leb_spec (h - minRoomSize) minRoomSize) as [Hle | Hgt];
      cbn [fst snd rolls].
    + split; [split; [discriminate | lia]|]. split; [auto | discriminate].
    + pose proof (floor_random r2 (h - minRoomSize - minRoomSize) H0 H1) as Hf.
      split; [split; [lia | reflexivity]|]. split; [discriminate|].
      intros _. split; [lia|]. split; [lia|]. split; reflexivity.
  - replace (wd - 2 * minRoomSize)%Z with (wd - minRoomSize - minRoomSize)%Z by lia.
    destruct (Z.leb_spec (wd - minRoomSize) minRoomSize) as [Hle | Hgt];
      cbn [fst snd rolls].
    + split; [split; [discriminate | lia]|]. split; [auto | discriminate].
    + pose proof (floor_random r2 (wd - minRoomSize - minRoomSize) H0 H1) as Hf.
      split; [split; [lia | reflexivity]|]. split; [discriminate|].
      intros _. split; [lia|]. split; [lia|]. split; reflexivity.
Qed.

Lemma split_halves_witness :
  let r := BSP.split (Leaf 0 0 24 30 None) 4 lopsided in
  (r.1.1 = true <-> (2 * 4 < 24)%Z) /\
  (r.1.1 = false -> r.1.2 = Leaf 0 0 24 30 None /\ rolls r.2 = S (rolls lopsided)) /\
  (r.1.1 = true ->
   (4 <= 19)%Z /\ (4 < 24 - 19)%Z /\ rolls r.2 = S (S (rolls lopsided)) /\
   r.1.2 = Branch 0 0 24 30 None (Leaf 0 0 19 30 None) (Leaf 19 0 5 30 None)).
Proof.
  assert (Hfair : fair lopsided).
  { intros k. unfold lopsided. cbn [dice]. destruct (k =? 1)%nat;
      split; first [discriminate | reflexivity]. }
  exact (split_halves (Leaf 0 0 24 30 None) 4 lopsided Hfair).
Defined.

(** ** The number of rooms *)

Lemma grown_refl (t : BSPNode) : grown t t.
Proof. induction t as [x y w h room | x y w h room l IHl r IHr]; cbn; auto. Qed.

Lemma grown_height (t0 t : BSPNode) :
  grown t0 t -> (treeHeight t <= S (treeHeight t0))%nat.
Proof.
  revert t. induction t0 as [x y w h room | x y w h room l0 IHl r0 IHr]; intros t.
  - destruct t as [? ? ? ? ? | ? ? ? ? ? l r]; cbn; [lia|].
    destruct l, r; cbn; try contradiction. lia.
  - destruct t as [? ? ? ? ? | ? ? ? ? ? l r]; cbn; [contradiction|].
    intros [Hl Hr]. specialize (IHl l Hl). specialize (IHr r Hr). lia.
Qed.

Lemma leafCount_height (t : BSPNode) : (leafCount t <= 2 ^ treeHeight t)%nat.
Proof.
  induction t as [x y w h room | x y w h room l IHl r IHr]; cbn [leafCount treeHeight].
  - cbn. lia.
  - pose proof (Nat.pow_le_mono_r 2 (treeHeight l) (Nat.max (treeHeight l) (treeHeight r))
                  ltac:(lia) ltac:(lia)) as Hl.
    pose proof (Nat.pow_le_mono_r 2 (treeHeight r) (Nat.max (treeHeight l) (treeHeight r))
                  ltac:(lia) ltac:(lia)) as Hr.
    rewrite Nat.pow_succ_r'. lia.
Qed.

(** What [split] makes of a node: the node itself, or a leaf turned into a
    node with two leaves. *)
Lemma split_shape (n : BSPNode) (minRoomSize : Z) (w : World) :
  (BSP.split n minRoomSize w).1.1 = true ->
  exists x y wd h room x1 y1 w1 h1 x2 y2 w2 h2,
    n = Leaf x y wd h room /\
    (BSP.split n minRoomSize w).1.2 =
      Branch x y wd h room (Leaf x1 y1 w1 h1 None) (Leaf x2 y2 w2 h2 None).
Proof.
  destruct n as [x y wd h room | x y wd h room l r]; [|discriminate].
  unfold BSP.split, bind, Math_random, ret. cbn [fst snd].
  destruct (JS.ltb _ _); cbv beta iota zeta;
    (destruct (_ <=? _)%Z; cbn [fst snd]; [discriminate|]);
    intros _; repeat eexists.
Qed.

(** A leaf that existed when the round began is split at most once in it. *)
Lemma grown_replace (c : BSP.Ref) (t0 t n0 node node' : BSPNode)
    (minRoomSize : Z) (w : World) :
  grown t0 t -> BSP.nodeAt t0 c = Some n0 -> BSP.nodeAt t c = Some node ->
  BSP.split node minRoomSize w = ((true, node'), (BSP.split node minRoomSize w).2) ->
  grown t0 (BSP.replaceAt t c node').
Proof.
  revert t0 t. induction c as [|b c IH]; intros t0 t Hg H0 Ht Hs.
  - cbn in Ht. injection Ht as ->. cbn [BSP.replaceAt].
    destruct (split_shape node minRoomSize w) as
      (x & y & wd & h & room & x1 & y1 & w1 & h1 & x2 & y2 & w2 & h2 & -> & E).
    { rewrite Hs. reflexivity. }
    rewrite Hs in E. cbn [fst snd] in E. subst node'.
    destruct t0; cbn in Hg |- *; [exact I | contradiction].
  - destruct t0 as [? ? ? ? ? | ? ? ? ? ? l0 r0]; [discriminate|].
    destruct t as [? ? ? ? ? | ? ? ? ? ? l r]; [contradiction|].
    destruct Hg as [Hl Hr]. cbn [BSP.nodeAt] in H0, Ht. cbn [BSP.replaceAt].
    destruct b; cbn [grown]; split; eauto.
Qed.

(** Replacing a leaf keeps every reference of the tree alive. *)
Lemma validRef_replace (c p : BSP.Ref) (t node' : BSPNode)
    (x y w h : Z) (room : option Room.t) :
  BSP.nodeAt t c = Some (Leaf x y w h room) -> validRef t p ->
  validRef (BSP.replaceAt t c node') p.
Proof.
  unfold validRef. revert t p. induction c as [|b c IH]; intros t p Hc Hp.
  - cbn in Hc. injection Hc as ->.
    destruct p as [|b' p]; [cbn; eauto | destruct Hp; discriminate].
  - destruct t as [? ? ? ? ? | ? ? ? ? ? l r]; [discriminate|].
    destruct p as [|b' p]; [cbn; eauto|].
    cbn [BSP.nodeAt BSP.replaceAt] in *.
    destruct b, b'; cbn [BSP.nodeAt]; auto.
Qed.

(** The children of a node that was just split can be referred to. *)
Lemma validRef_child (c : BSP.Ref) (t l r : BSPNode) (x y w h : Z)
    (room : option Room.t) (b : bool) :
  validRef t c ->
  validRef (BSP.replaceAt t c (Branch x y w h room l r)) (c ++ [b]).
Proof.
  unfold validRef. revert t. induction c as [|b' c IH]; intros t Hc.
  - cbn. destruct b; eauto.
  - destruct t as [? ? ? ? ? | ? ? ? ? ? l0 r0]; [destruct Hc; discriminate|].
    cbn [BSP.nodeAt BSP.replaceAt app] in *. destruct b'; cbn [BSP.nodeAt]; auto.
Qed.

Lemma removeFirst_elem (c p : BSP.Ref) (cs : list BSP.Ref) :
  p ∈ BSP.removeFirst c cs -> p ∈ cs.
Proof.
  induction cs as [|d cs IH]; cbn [BSP.removeFirst]; [auto|].
  destruct (bool_decide (c = d)).
  - intros H. right. exact H.
  - intros H. apply elem_of_cons in H as [-> | H]; [left | right; auto].
Qed.

(** One container of a round: the tree stays within one split of the tree
    [t0] that the round began with, and the array [containers] holds
    references to nodes of the tree. *)
Lemma splitContainer_grown (minRoomSize : Z) (t0 : BSPNode)
    (st : BSPNode * list BSP.Ref) (c : BSP.Ref) (w : World) :
  validRef t0 c -> grown t0 st.1 -> Forall (validRef st.1) st.2 ->
  let st' := (Dungeon.splitContainer minRoomSize st c w).1 in
  grown t0 st'.1 /\ Forall (validRef st'.1) st'.2.
Proof.
  intros [n0 H0] Hg Hv. destruct st as [t cs]. cbn [fst snd] in *.
  unfold Dungeon.splitContainer.
  destruct (BSP.nodeAt t c) as [node|] eqn:Ht; [|cbn; auto].
  unfold bind. destruct (BSP.split node minRoomSize w) as [[ok node'] w'] eqn:Hs.
  cbn [fst snd]. destruct ok; cbn [ret fst snd]; [|auto].
  destruct (split_shape node minRoomSize w) as
    (x & y & wd & h & room & x1 & y1 & w1 & h1 & x2 & y2 & w2 & h2 & -> & E).
  { rewrite Hs. reflexivity. }
  rewrite Hs in E. cbn [fst snd] in E. subst node'. split.
  - apply (grown_replace c t0 t n0 (Leaf x y wd h room) _ minRoomSize w Hg H0 Ht).
    rewrite Hs. reflexivity.
  - apply Forall_forall. intros p Hp. apply removeFirst_elem in Hp.
    apply elem_of_app in Hp as [Hp | Hp].
    + apply (validRef_replace c p t _ x y wd h room Ht).
      rewrite Forall_forall in Hv. apply Hv, Hp.
    + assert (Hc : validRef t c) by (unfold validRef; rewrite Ht; eauto).
      apply elem_of_cons in Hp as [-> | Hp]; [apply validRef_child, Hc|].
      apply list_elem_of_singleton in Hp as ->. apply validRef_child, Hc.
Qed.

Lemma forEach_split_grown (minRoomSize : Z) (t0 : BSPNode) (cs : list BSP.Ref)
    (st : BSPNode * list BSP.Ref) (w : World) :
  Forall (validRef t0) cs -> grown t0 st.1 -> Forall (validRef st.1) st.2 ->
  let st' := (forEachM (Dungeon.splitContainer minRoomSize) st cs w).1 in
  grown t0 st'.1 /\ Forall (validRef st'.1) st'.2.
Proof.
  revert st w. induction cs as [|c cs IH]; intros st w Hcs Hg Hv; cbn [forEachM].
  - cbn. auto.
  - apply Forall_cons in Hcs as [Hc Hcs]. unfold bind.
    destruct (splitContainer_grown minRoomSize t0 st c w Hc Hg Hv) as [Hg' Hv'].
    destruct (Dungeon.splitContainer minRoomSize st c w) as [st1 w1].
    cbn [fst snd] in Hg', Hv'. apply IH; assumption.
Qed.

(** After [n] rounds the tree is at most [n] levels higher. *)
Lemma splitRounds_height (n : nat) (minRoomSize : Z) (st : BSPNode * list BSP.Ref)
    (w : World) :
  Forall (validRef st.1) st.2 ->
  (treeHeight (Dungeon.splitRounds n minRoomSize st w).1.1 <= treeHeight st.1 + n)%nat.
Proof.
  revert st w. induction n as [|n IH]; intros st w Hv; cbn [Dungeon.splitRounds].
  - cbn. lia.
  - unfold bind.
    destruct (forEach_split_grown minRoomSize st.1 st.2 st w Hv (grown_refl _) Hv)
      as [Hg Hv'].
    destruct (forEachM (Dungeon.splitContainer minRoomSize) st st.2 w) as [st1 w1].
    cbn [fst snd] in Hg, Hv'. specialize (IH st1 w1 Hv').
    apply grown_height in Hg. lia.
Qed.

(** [createRoom] keeps the shape of the tree. *)
Lemma createRoom_shape (n : BSPNode) (minRoomSize maxRoomSize : Z) (w : World) :
  treeHeight (BSP.createRoom n minRoomSize maxRoomSize w).1 = treeHeight n /\
  leafCount (BSP.createRoom n minRoomSize maxRoomSize w).1 = leafCount n.
Proof.
  revert w. induction n as [x y wd h room | x y wd h room l IHl r IHr]; intros w.
  - cbn. auto.
  - cbn [BSP.createRoom]. unfold bind.
    destruct (IHl w) as [H1 H2].
    destruct (BSP.createRoom l minRoomSize maxRoomSize w) as [l' w1].
    destruct (IHr w1) as [H3 H4].
    destruct (BSP.createRoom r minRoomSize maxRoomSize w1) as [r' w2].
    cbn [ret fst snd treeHeight leafCount] in *. auto.
Qed.

(** Every leaf has one room, and no other node has one. *)
Lemma rooms_leafCount (lo : Z) (n : BSPNode) :
  treeOk lo true n -> length (BSP.getAllRooms n) = leafCount n.
Proof.
  induction n as [x y wd h room | x y wd h room l IHl r IHr]; cbn [treeOk].
  - intros (_ & _ & rm & -> & _). reflexivity.
  - intros (-> & Hl & Hr & _). cbn [BSP.getAllRooms leafCount].
    change (option_list None ++ ?k) with k. rewrite length_app. auto.
Qed.

(** [generateDungeon], step by step. *)
Lemma generateDungeon_unfold (size minRoomSize maxRoomSize recursionDepth : Z) (w : World) :
  let sr := Dungeon.splitRounds (Z.to_nat recursionDepth) minRoomSize
              (Leaf 0 0 size size None, [[]]) w in
  let cr := BSP.createRoom sr.1.1 minRoomSize maxRoomSize sr.2 in
  let rooms := BSP.getAllRooms cr.1 in
  let g1 := foldl (Dungeon.carveRoom size) (repeat 1%Z (Z.to_nat (size * size))) rooms in
  let co := Dungeon.connectRooms cr.1 g1 size cr.2 in
  (Dungeon.generateDungeon size minRoomSize maxRoomSize recursionDepth w).1 =
  (match rooms !! 0%nat, rooms !! (length rooms - 1)%nat with
   | Some startRoom, Some exitRoom =>
       Some (Dungeon.mk
               (Dungeon.put size (Room.centerX exitRoom) (Room.centerY exitRoom) 9 co.1)
               size rooms (centreTile startRoom) (centreTile exitRoom))
   | _, _ => None
   end).
Proof.
  intros sr cr rooms g1 co. subst co g1 rooms cr sr.
  unfold Dungeon.generateDungeon, bind.
  destruct (Dungeon.splitRounds _ _ _ _) as [st w1]. cbn [fst snd].
  destruct (BSP.createRoom _ _ _ _) as [root w2]. cbn [fst snd].
  destruct (Dungeon.connectRooms _ _ _ _) as [g2 w3]. cbn [fst snd].
  destruct (BSP.getAllRooms root !! 0%nat);
    destruct (BSP.getAllRooms root !! (length (BSP.getAllRooms root) - 1)%nat);
    reflexivity.
Qed.

(** The tree that [generateDungeon] builds. *)
Lemma generateDungeon_tree (lo size minRoomSize maxRoomSize recursionDepth : Z) (w : World) :
  fair w -> (1 <= lo <= minRoomSize)%Z -> (lo <= size)%Z -> (1 <= maxRoomSize)%Z ->
  let sr := Dungeon.splitRounds (Z.to_nat recursionDepth) minRoomSize
              (Leaf 0 0 size size None, [[]]) w in
  let cr := BSP.createRoom sr.1.1 minRoomSize maxRoomSize sr.2 in
  treeOk lo false sr.1.1 /\ fair sr.2 /\
  treeOk lo true cr.1 /\ rectOf cr.1 = (0, 0, size, size)%Z /\ fair cr.2 /\
  (treeHeight cr.1 <= Z.to_nat recursionDepth)%nat.
Proof.
  intros Hw Hlo Hsize Hmax sr cr.
  set (st0 := (Leaf 0 0 size size None, [[]]) : BSPNode * list BSP.Ref) in *.
  assert (H0 : treeOk lo false st0.1) by (cbn; repeat split; lia).
  destruct (splitRounds_treeOk lo minRoomSize (Z.to_nat recursionDepth) st0 w Hw Hlo H0)
    as [Ht1 Hr1].
  pose proof (keeps_fair _ w (keeps_splitRounds (Z.to_nat recursionDepth) minRoomSize st0) Hw)
    as Hw1.
  assert (Hv : Forall (validRef st0.1) st0.2).
  { constructor; [unfold validRef; cbn; eauto | constructor]. }
  pose proof (splitRounds_height (Z.to_nat recursionDepth) minRoomSize st0 w Hv) as Hh.
  fold sr in Ht1, Hr1, Hw1, Hh.
  destruct (createRoom_treeOk lo minRoomSize maxRoomSize sr.1.1 sr.2 Hw1) as [Ht2 Hr2];
    [lia | lia | lia | exact Ht1 |].
  pose proof (keeps_fair _ sr.2 (keeps_createRoom sr.1.1 minRoomSize maxRoomSize) Hw1) as Hw2.
  destruct (createRoom_shape sr.1.1 minRoomSize maxRoomSize sr.2) as [Hsh _].
  fold cr in Ht2, Hr2, Hw2, Hsh.
  split; [exact Ht1|]. split; [exact Hw1|]. split; [exact Ht2|].
  split; [rewrite Hr2, Hr1; reflexivity|]. split; [exact Hw2|].
  rewrite Hsh. cbn in Hh. exact Hh.
Qed.

(** X2.  For positive parameters [generateDungeon] returns a dungeon with at
    least one room and at most [2 ^ recursionDepth] rooms: a round of the
    splitting loop splits a leaf at most once, and every leaf gets one
    room. *)
Theorem rooms_count_bounds
    (size minRoomSize maxRoomSize recursionDepth : Z) (w : World) :
  fair w -> (1 <= size)%Z -> (1 <= minRoomSize)%Z -> (1 <= maxRoomSize)%Z ->
  exists d : Dungeon.t,
    (Dungeon.generateDungeon size minRoomSize maxRoomSize recursionDepth w).1 = Some d /\
    (1 <= length (Dungeon.rooms d) <= 2 ^ Z.to_nat recursionDepth)%nat.
Proof.
  intros Hw Hsize Hmin Hmax.
  destruct (generateDungeon_tree 1 size minRoomSize maxRoomSize recursionDepth w Hw)
    as (_ & _ & Ht & _ & _ & Hh); [lia | lia | lia |].
  pose proof (generateDungeon_unfold size minRoomSize maxRoomSize recursionDepth w) as E.
  cbv zeta in E, Ht, Hh.
  set (root := (BSP.createRoom _ _ _ _).1) in *.
  destruct (first_and_last (BSP.getAllRooms root) (getAllRooms_nonempty 1 root Ht))
    as (startRoom & exitRoom & Hfirst & Hlast).
  rewrite Hfirst, Hlast in E. eexists. split; [exact E|]. cbn [Dungeon.rooms].
  clear E. clearbody root. rewrite (rooms_leafCount 1 root Ht).
  pose proof (leafCount_height root) as Hle.
  pose proof (Nat.pow_le_mono_r 2 (treeHeight root) (Z.to_nat recursionDepth)
                ltac:(lia) Hh) as Hp.
  assert (Hpos : (1 <= leafCount root)%nat).
  { clear. induction root as [? ? ? ? ? | ? ? ? ? ? l IHl r IHr]; cbn [leafCount]; lia. }
  lia.
Qed.

Lemma rooms_count_bounds_witness :
  exists d : Dungeon.t,
    (Dungeon.generateDungeon 24 4 8 4 world0).1 = Some d /\
    (1 <= length (Dungeon.rooms d) <= 2 ^ Z.to_nat 4)%nat.
Proof.
  apply (rooms_count_bounds 24 4 8 4 world0); [|lia|lia|lia].
  intros k. vm_compute. split; [discriminate | reflexivity].
Defined.

(** ** Rooms and walls *)

(** Two different rooms of a tree have no tile in common. *)
Lemma rooms_disjoint (lo : Z) (n : BSPNode) (i j : nat) (rm rm' : Room.t) (p : Z * Z) :
  treeOk lo true n ->
  BSP.getAllRooms n !! i = Some rm -> BSP.getAllRooms n !! j = Some rm' -> i <> j ->
  inRect (roomRect rm) p -> inRect (roomRect rm') p -> False.
Proof.
  revert i j. induction n as [x y w h room | x y w h room l IHl r IHr]; intros i j Hn.
  - destruct Hn as (_ & _ & rm0 & -> & _). cbn [BSP.getAllRooms option_list].
    intros Hi Hj Hne. apply lookup_lt_Some in Hi, Hj. cbn in Hi, Hj. lia.
  - pose proof Hn as (-> & Hl & Hr & s & Hs & Hcut). cbn [BSP.getAllRooms].
    change (option_list None ++ ?k) with k.
    assert (Hdisj : forall q, inRect (rectOf l) q -> inRect (rectOf r) q -> False).
    { destruct Hcut as [(-> & -> & ?) | (-> & -> & ?)]; unfold inRect; intros; lia. }
    intros Hi Hj Hne Hp Hp'.
    apply lookup_app_Some in Hi as [Hi | [Hli Hi]];
      apply lookup_app_Some in Hj as [Hj | [Hlj Hj]].
    + exact (IHl i j Hl Hi Hj Hne Hp Hp').
    + apply (Hdisj p).
      * apply (rooms_in_tree lo l rm Hl (list_elem_of_lookup_2 _ _ _ Hi)), Hp.
      * apply (rooms_in_tree lo r rm' Hr (list_elem_of_lookup_2 _ _ _ Hj)), Hp'.
    + apply (Hdisj p).
      * apply (rooms_in_tree lo l rm' Hl (list_elem_of_lookup_2 _ _ _ Hj)), Hp'.
      * apply (rooms_in_tree lo r rm Hr (list_elem_of_lookup_2 _ _ _ Hi)), Hp.
    + apply (IHr _ _ Hr Hi Hj); [lia | exact Hp | exact Hp'].
Qed.

(** The room of a leaf at least three tiles wide and high keeps a margin of
    one tile to every side of the leaf, and so does its centre. *)
Lemma room_in_leaf_inset (minRoomSize maxRoomSize x y w h : Z) (r1 r2 r3 r4 : Q) :
  (1 <= minRoomSize)%Z -> (1 <= maxRoomSize)%Z -> (3 <= w)%Z -> (3 <= h)%Z ->
  (0 <= r1 < 1)%Q -> (0 <= r2 < 1)%Q -> (0 <= r3 < 1)%Q -> (0 <= r4 < 1)%Q ->
  let roomWidth :=
    Z.min (JS.floor (r1 * inject_Z (maxRoomSize - minRoomSize)) + minRoomSize) (w - 2) in
  let roomHeight :=
    Z.min (JS.floor (r2 * inject_Z (maxRoomSize - minRoomSize)) + minRoomSize) (h - 2) in
  let roomX := (x + JS.floor (r3 * inject_Z (w - roomWidth - 1)) + 1)%Z in
  let roomY := (y + JS.floor (r4 * inject_Z (h - roomHeight - 1)) + 1)%Z in
  roomIn (inset (x, y, w, h)) (Room.create roomX roomY roomWidth roomHeight).
Proof.
  intros Hmin Hmax Hw Hh [H1a H1b] [H2a H2b] [H3a H3b] [H4a H4b].
  intros roomWidth roomHeight roomX roomY. set (rm := Room.create _ _ _ _).
  pose proof (floor_random r1 (maxRoomSize - minRoomSize) H1a H1b) as F1.
  pose proof (floor_random r2 (maxRoomSize - minRoomSize) H2a H2b) as F2.
  pose proof (floor_random r3 (w - roomWidth - 1) H3a H3b) as F3.
  pose proof (floor_random r4 (h - roomHeight - 1) H4a H4b) as F4.
  fold roomWidth in F3. fold roomHeight in F4.
  assert (Hrw : (1 <= roomWidth <= w - 2)%Z) by (unfold roomWidth; lia).
  assert (Hrh : (1 <= roomHeight <= h - 2)%Z) by (unfold roomHeight; lia).
  assert (Hrx : (x + 1 <= roomX <= x + w - roomWidth - 1)%Z) by (unfold roomX; lia).
  assert (Hry : (y + 1 <= roomY <= y + h - roomHeight - 1)%Z) by (unfold roomY; lia).
  assert (Hcx : Room.centerX rm = (roomX + roomWidth / 2)%Z) by apply floor_half.
  assert (Hcy : Room.centerY rm = (roomY + roomHeight / 2)%Z) by apply floor_half.
  pose proof (Z.div_mod roomWidth 2 ltac:(lia)) as Dw.
  pose proof (Z.mod_pos_bound roomWidth 2 ltac:(lia)) as Mw.
  pose proof (Z.div_mod roomHeight 2 ltac:(lia)) as Dh.
  pose proof (Z.mod_pos_bound roomHeight 2 ltac:(lia)) as Mh.
  unfold roomIn, inRect, roomRect, inset. rewrite Hcx, Hcy.
  change (Room.x rm) with roomX. change (Room.y rm) with roomY.
  change (Room.width rm) with roomWidth. change (Room.height rm) with roomHeight.
  cbn [fst snd]. repeat split; try lia.
  all: intros; lia.
Qed.

Lemma createRoom_inset (minRoomSize maxRoomSize : Z) (n : BSPNode) (w : World) :
  fair w -> (1 <= minRoomSize)%Z -> (1 <= maxRoomSize)%Z -> treeOk 3 false n ->
  insetRooms (BSP.createRoom n minRoomSize maxRoomSize w).1.
Proof.
  intros Hw Hmin Hmax. revert w Hw.
  induction n as [x y wd h room | x y wd h room l IHl r IHr]; intros w Hw Hn;
    cbn [BSP.createRoom].
  - destruct Hn as (Hwd & Hh & _).
    unfold bind, Math_random, ret. cbn [fst snd dice rolls insetRooms].
    intros rm E. injection E as <-.
    apply room_in_leaf_inset; auto; apply Hw.
  - destruct Hn as (Hroom & Hl & Hr & _). unfold bind.
    pose proof (IHl w Hw Hl) as Hl'.
    pose proof (keeps_fair _ w (keeps_createRoom l minRoomSize maxRoomSize) Hw) as Hw1.
    destruct (BSP.createRoom l minRoomSize maxRoomSize w) as [l' w1]. cbn [fst snd] in *.
    pose proof (IHr w1 Hw1 Hr) as Hr'.
    destruct (BSP.createRoom r minRoomSize maxRoomSize w1) as [r' w2]. cbn [fst snd] in *.
    unfold ret. cbn [fst snd insetRooms]. auto.
Qed.

(** The margin of the leaves is a margin of the whole tree. *)
Lemma rooms_inset (lo : Z) (n : BSPNode) (rm : Room.t) :
  treeOk lo true n -> insetRooms n -> rm ∈ BSP.getAllRooms n ->
  roomIn (inset (rectOf n)) rm.
Proof.
  induction n as [x y w h room | x y w h room l IHl r IHr];
    cbn [treeOk BSP.getAllRooms rectOf insetRooms].
  - intros (_ & _ & rm' & -> & _) Hin Hrm. cbn in Hrm.
    apply list_elem_of_singleton in Hrm as ->. apply Hin. reflexivity.
  - intros (-> & Hl & Hr & s & Hs & Hcut) [Hil Hir] Hrm.
    change (option_list None ++ ?k) with k in Hrm.
    assert (Hsub : forall c, roomIn (inset (rectOf c)) rm ->
              (forall p, inRect (inset (rectOf c)) p -> inRect (inset (x, y, w, h)) p) ->
              roomIn (inset (x, y, w, h)) rm).
    { intros c (H1 & H2 & H3) Hc. split; [apply Hc, H1 | split; [|exact H3]].
      intros p Hp. apply Hc, H2, Hp. }
    apply elem_of_app in Hrm as [Hrm | Hrm].
    + apply (Hsub l (IHl Hl Hil Hrm)). intros p.
      destruct Hcut as [(-> & _ & ?) | (-> & _ & ?)]; unfold inRect, inset; lia.
    + apply (Hsub r (IHr Hr Hir Hrm)). intros p.
      destruct Hcut as [(_ & -> & ?) | (_ & -> & ?)]; unfold inRect, inset; lia.
Qed.

(** What [getRoom] returns, if anything, is a room of the tree. *)
Lemma getRoom_elem (n : BSPNode) (w : World) (rm : Room.t) :
  (BSP.getRoom n w).1 = Some rm -> rm ∈ BSP.getAllRooms n.
Proof.
  revert w rm. induction n as [x y wd h room | x y wd h room l IHl r IHr]; intros w rm.
  - cbn. intros ->. left.
  - cbn [BSP.getRoom BSP.getAllRooms]. destruct room as [room|].
    + cbn. intros E. injection E as ->. left.
    + change (option_list None ++ ?k) with k. unfold bind.
      specialize (IHl w). destruct (BSP.getRoom l w) as [a w1]. cbn [fst] in IHl.
      specialize (IHr w1). destruct (BSP.getRoom r w1) as [b w2]. cbn [fst] in IHr.
      destruct a as [a|]; [destruct b as [b|]|]; cbn [ret fst snd Math_random].
      * destruct (JS.ltb _ _); intros E; injection E as <-; apply elem_of_app; auto.
      * intros E. injection E as <-. apply elem_of_app; auto.
      * intros E. apply elem_of_app. auto.
Qed.

(** Corridors stay inside every rectangle that holds the centres of the
    rooms. *)
Lemma connectRooms_within (B : Z * Z * Z * Z) (size : Z) (n : BSPNode)
    (g : list Z) (w : World) :
  gridOk size g ->
  (forall rm, rm ∈ BSP.getAllRooms n -> inRect B (centreTile rm)) ->
  exists P, painted size 0 P g (Dungeon.connectRooms n g size w).1 /\
            forall p, P p -> inRect B p.
Proof.
  revert g w. induction n as [x y wd h room | x y wd h room l IHl r IHr];
    intros g w Hg Hc.
  - cbn [Dungeon.connectRooms ret fst]. exists (fun _ => False).
    split; [apply painted_nothing | contradiction].
  - assert (Hcl : forall rm, rm ∈ BSP.getAllRooms l -> inRect B (centreTile rm)).
    { intros rm Hrm. apply Hc. cbn [BSP.getAllRooms].
      apply elem_of_app. right. apply elem_of_app. auto. }
    assert (Hcr : forall rm, rm ∈ BSP.getAllRooms r -> inRect B (centreTile rm)).
    { intros rm Hrm. apply Hc. cbn [BSP.getAllRooms].
      apply elem_of_app. right. apply elem_of_app. auto. }
    cbn [Dungeon.connectRooms]. unfold bind.
    destruct (IHl g w Hg Hcl) as (P1 & H1 & Hb1).
    destruct (connectRooms_painted size l g w Hg) as [_ Hg1].
    destruct (Dungeon.connectRooms l g size w) as [g1 w1]. cbn [fst] in H1, Hg1.
    destruct (IHr g1 w1 Hg1 Hcr) as (P2 & H2 & Hb2).
    destruct (connectRooms_painted size r g1 w1 Hg1) as [_ Hg2].
    destruct (Dungeon.connectRooms r g1 size w1) as [g2 w2]. cbn [fst] in H2, Hg2.
    pose proof (getRoom_elem l w2) as Ha.
    destruct (BSP.getRoom l w2) as [oa w3]. cbn [fst] in Ha.
    pose proof (getRoom_elem r w3) as Hb.
    destruct (BSP.getRoom r w3) as [ob w4]. cbn [fst] in Hb.
    pose proof (painted_then size 0 P1 P2 g g1 g2 H1 H2) as H12.
    assert (Hb12 : forall p, P1 p \/ P2 p -> inRect B p) by (intros p [?|?]; auto).
    destruct oa as [a|]; [destruct ob as [b|]|]; cbn [ret fst];
      try (exists (fun p => P1 p \/ P2 p); split; [exact H12 | exact Hb12]).
    destruct (corridor_painted size a b g2 w4 Hg2) as [H3 _].
    eexists. split; [apply (painted_then size 0 _ _ g g2 _ H12 H3)|].
    intros p [Hp | Hp]; [auto|].
    apply (corridor_inRect _ _ _ _ _ B p (Hcl a (Ha a eq_refl)) (Hcr b (Hb b eq_refl)) Hp).
Qed.

(** The grids that [generateDungeon] goes through: all wall, with the rooms
    carved, with the corridors carved. *)
Lemma generateDungeon_grids (lo size minRoomSize maxRoomSize recursionDepth : Z) (w : World) :
  fair w -> (1 <= lo <= minRoomSize)%Z -> (lo <= size)%Z -> (1 <= maxRoomSize)%Z ->
  let sr := Dungeon.splitRounds (Z.to_nat recursionDepth) minRoomSize
              (Leaf 0 0 size size None, [[]]) w in
  let cr := BSP.createRoom sr.1.1 minRoomSize maxRoomSize sr.2 in
  let rooms := BSP.getAllRooms cr.1 in
  let g0 := repeat 1%Z (Z.to_nat (size * size)) in
  let g1 := foldl (Dungeon.carveRoom size) g0 rooms in
  let co := Dungeon.connectRooms cr.1 g1 size cr.2 in
  painted size 0 (roomTiles rooms) g0 g1 /\ gridOk size g1 /\
  roomsOnly size cr.1 g1 /\ connected size cr.1 g1 co.1 /\
  (forall p, inGrid size p = true ->
             codeAt co.1 size p = Some 0%Z \/ codeAt co.1 size p = Some 1%Z) /\
  exists startRoom exitRoom,
    rooms !! 0%nat = Some startRoom /\
    rooms !! (length rooms - 1)%nat = Some exitRoom /\
    (Dungeon.generateDungeon size minRoomSize maxRoomSize recursionDepth w).1 =
      Some (Dungeon.mk
              (Dungeon.put size (Room.centerX exitRoom) (Room.centerY exitRoom) 9 co.1)
              size rooms (centreTile startRoom) (centreTile exitRoom)).
Proof.
  intros Hw Hlo Hsize Hmax.
  pose proof (generateDungeon_unfold size minRoomSize maxRoomSize recursionDepth w) as E.
  destruct (generateDungeon_tree lo size minRoomSize maxRoomSize recursionDepth w
              Hw Hlo Hsize Hmax) as (_ & _ & Ht & Hr & _ & _).
  cbv zeta in E, Ht, Hr. intros sr cr rooms g0 g1 co.
  fold sr in E, Ht, Hr. fold cr in E, Ht, Hr. fold rooms in E. fold g0 in E.
  fold g1 in E. fold co in E.
  destruct (carveRooms_painted size rooms g0 (gridOk_walls size)) as [Hcarve Hg1].
  fold g1 in Hcarve, Hg1.
  assert (Hbox : forall p, inRect (rectOf cr.1) p -> inGrid size p = true).
  { intros p. rewrite Hr. unfold inRect. intros Hp. apply inGrid_true. lia. }
  assert (Hrooms : roomsOnly size cr.1 g1).
  { intros p Hp. pose proof (Hbox p Hp) as Hin.
    destruct (Hcarve) as [_ Hc]. destruct (Hc p Hin) as (Hyes & Hno & _).
    split.
    - intros Hpass. destruct (room_tiles_dec rooms p) as [HP | HP]; [exact HP|].
      exfalso. unfold passable in Hpass. rewrite (Hno HP) in Hpass.
      unfold g0 in Hpass. rewrite (codeAt_walls size p Hin) in Hpass. discriminate.
    - intros HP. unfold passable. rewrite (Hyes HP). reflexivity. }
  pose proof (connectRooms_connected size lo cr.1 g1 cr.2 Ht Hbox Hg1 Hrooms) as Hcon.
  destruct (connectRooms_painted size cr.1 g1 cr.2 Hg1) as [[P Hpaint] Hg2].
  fold co in Hcon, Hpaint, Hg2.
  destruct (first_and_last rooms (getAllRooms_nonempty lo cr.1 Ht))
    as (startRoom & exitRoom & Hfirst & Hlast).
  rewrite Hfirst, Hlast in E.
  split; [exact Hcarve|]. split; [exact Hg1|]. split; [exact Hrooms|].
  split; [exact Hcon|]. split; [|exists startRoom, exitRoom; auto].
  intros p Hin.
  destruct Hpaint as [_ Hp2]. destruct (Hp2 p Hin) as (_ & _ & [H2 | H2]); [left; exact H2|].
  rewrite H2. destruct Hcarve as [_ Hp1].
  destruct (Hp1 p Hin) as (_ & _ & [H1 | H1]); [left; exact H1|].
  right. rewrite H1. apply codeAt_walls. exact Hin.
Qed.

(** X3.  The rooms of a generated dungeon lie inside the grid, one tile or
    more away from its border, and no two of them overlap: two rooms at
    different places of the list have no tile in common. *)
Theorem rooms_apart (size minRoomSize maxRoomSize recursionDepth : Z) (w : World) :
  fair w -> (1 <= size)%Z -> (1 <= minRoomSize)%Z -> (1 <= maxRoomSize)%Z ->
  exists d : Dungeon.t,
    (Dungeon.generateDungeon size minRoomSize maxRoomSize recursionDepth w).1 = Some d /\
    (forall rm p, rm ∈ Dungeon.rooms d -> inRect (roomRect rm) p ->
       (1 <= p.1 < size - 1)%Z /\ (1 <= p.2 < size - 1)%Z) /\
    (forall i j rm rm' p,
       Dungeon.rooms d !! i = Some rm -> Dungeon.rooms d !! j = Some rm' -> i <> j ->
       inRect (roomRect rm) p -> ~ inRect (roomRect rm') p).
Proof.
  intros Hw Hsize Hmin Hmax.
  destruct (generateDungeon_tree 1 size minRoomSize maxRoomSize recursionDepth w Hw)
    as (Ht0 & Hw1 & Ht & Hr & _ & _); [lia | lia | lia |].
  destruct (generateDungeon_grids 1 size minRoomSize maxRoomSize recursionDepth w Hw)
    as (_ & _ & _ & _ & _ & startRoom & exitRoom & _ & _ & E); [lia | lia | lia |].
  cbv zeta in Ht0, Hw1, Ht, Hr, E.
  set (sr := Dungeon.splitRounds _ _ _ _) in *.
  set (root := (BSP.createRoom _ _ _ _).1) in *.
  eexists. split; [exact E|]. cbn [Dungeon.rooms]. split.
  - intros rm p Hrm Hp.
    assert (Hin : forall n m, treeOk 1 false n ->
              rm ∈ BSP.getAllRooms (BSP.createRoom n minRoomSize maxRoomSize m).1 ->
              fair m -> inRect (inset (rectOf n)) p).
    { clear - Hp Hmin Hmax. induction n as [x y wd h room | x y wd h room l IHl r IHr];
        intros m Hn Hrm Hm.
      - destruct Hn as (Hwd & Hh & _).
        cbn [BSP.createRoom] in Hrm. unfold bind, Math_random, ret in Hrm.
        cbn [fst snd dice rolls BSP.getAllRooms option_list] in Hrm.
        apply list_elem_of_singleton in Hrm. subst rm.
        unfold inRect, roomRect, inset, rectOf in *.
        cbn [Room.create Room.x Room.y Room.width Room.height fst snd] in Hp.
        destruct (Hm (S (S (rolls m)))) as [H3a H3b].
        destruct (Hm (S (S (S (rolls m))))) as [H4a H4b].
        set (rw := Z.min _ (wd - 2)) in *. set (rh := Z.min _ (h - 2)) in *.
        pose proof (floor_random _ (wd - rw - 1) H3a H3b) as F3.
        pose proof (floor_random _ (h - rh - 1) H4a H4b) as F4.
        assert (rw <= wd - 2)%Z by (unfold rw; lia).
        assert (rh <= h - 2)%Z by (unfold rh; lia).
        lia.
      - destruct Hn as (-> & Hl & Hr & s & Hs & Hcut).
        cbn [BSP.createRoom] in Hrm. unfold bind in Hrm.
        pose proof (keeps_fair _ m (keeps_createRoom l minRoomSize maxRoomSize) Hm) as Hm1.
        specialize (IHl m Hl). destruct (BSP.createRoom l minRoomSize maxRoomSize m) as [l' m1].
        specialize (IHr m1 Hr). destruct (BSP.createRoom r minRoomSize maxRoomSize m1) as [r' m2].
        cbn [ret fst snd BSP.getAllRooms] in Hrm, IHl, IHr, Hm1.
        change (option_list None ++ ?k) with k in Hrm. cbn [rectOf].
        apply elem_of_app in Hrm as [Hrm | Hrm].
        + specialize (IHl Hrm Hm).
          destruct Hcut as [(E1 & _ & ?) | (E1 & _ & ?)]; rewrite E1 in IHl;
            unfold inRect, inset in *; lia.
        + specialize (IHr Hrm Hm1).
          destruct Hcut as [(_ & E1 & ?) | (_ & E1 & ?)]; rewrite E1 in IHr;
            unfold inRect, inset in *; lia. }
    specialize (Hin sr.1.1 sr.2 Ht0 Hrm Hw1).
    assert (Hr0 : rectOf sr.1.1 = (0, 0, size, size)%Z).
    { destruct (createRoom_treeOk 1 minRoomSize maxRoomSize sr.1.1 sr.2 Hw1) as [_ Hr2];
        [lia | lia | lia | exact Ht0 |].
      fold root in Hr2. rewrite <- Hr2. exact Hr. }
    rewrite Hr0 in Hin. unfold inRect, inset in Hin. lia.
  - intros i j rm rm' p Hi Hj Hne Hp Hp'.
    exact (rooms_disjoint 1 root i j rm rm' p Ht Hi Hj Hne Hp Hp').
Qed.

Lemma rooms_apart_witness :
  exists d : Dungeon.t,
    (Dungeon.generateDungeon 24 4 8 4 world0).1 = Some d /\
    (forall rm p, rm ∈ Dungeon.rooms d -> inRect (roomRect rm) p ->
       (1 <= p.1 < 24 - 1)%Z /\ (1 <= p.2 < 24 - 1)%Z) /\
    (forall i j rm rm' p,
       Dungeon.rooms d !! i = Some rm -> Dungeon.rooms d !! j = Some rm' -> i <> j ->
       inRect (roomRect rm) p -> ~ inRect (roomRect rm') p).
Proof.
  apply (rooms_apart 24 4 8 4 world0); [|lia|lia|lia].
  intros k. vm_compute. split; [discriminate | reflexivity].
Defined.

(** X4.  A dungeon generated with [size] and [minRoomSize] at least 3 is
    enclosed by walls: every tile of the outermost ring of the grid has the
    wall code 1, so that neither rooms nor corridors nor the portal touch the
    border. *)
Theorem dungeon_enclosed (size minRoomSize maxRoomSize recursionDepth : Z) (w : World) :
  fair w -> (3 <= size)%Z -> (3 <= minRoomSize)%Z -> (1 <= maxRoomSize)%Z ->
  exists d : Dungeon.t,
    (Dungeon.generateDungeon size minRoomSize maxRoomSize recursionDepth w).1 = Some d /\
    forall p, inGrid size p = true ->
      (p.1 = 0 \/ p.1 = size - 1 \/ p.2 = 0 \/ p.2 = size - 1)%Z ->
      codeAt (Dungeon.mapData d) size p = Some 1%Z.
Proof.
  intros Hw Hsize Hmin Hmax.
  destruct (generateDungeon_tree 3 size minRoomSize maxRoomSize recursionDepth w Hw)
    as (Ht0 & Hw1 & Ht & Hr & _ & _); [lia | lia | lia |].
  destruct (generateDungeon_grids 3 size minRoomSize maxRoomSize recursionDepth w Hw)
    as (Hcarve & Hg1 & _ & Hcon & Hcodes & startRoom & exitRoom & _ & Hlast & E);
    [lia | lia | lia |].
  cbv zeta in Ht0, Hw1, Ht, Hr, E, Hcarve, Hg1, Hcon, Hcodes, Hlast.
  set (sr := Dungeon.splitRounds _ _ _ _) in *.
  pose proof (createRoom_inset minRoomSize maxRoomSize sr.1.1 sr.2 Hw1
                ltac:(lia) Hmax Ht0) as Hinset.
  set (cr := BSP.createRoom _ _ _ _) in *.
  set (rooms := BSP.getAllRooms cr.1) in *.
  set (g0 := repeat 1%Z _) in *. set (g1 := foldl _ g0 rooms) in *.
  set (B := inset (0, 0, size, size)%Z).
  assert (Hrooms : forall rm, rm ∈ rooms -> roomIn B rm).
  { intros rm Hrm. unfold B. rewrite <- Hr. apply (rooms_inset 3); assumption. }
  destruct (connectRooms_within B size cr.1 g1 cr.2 Hg1) as (P & Hpaint & HP).
  { intros rm Hrm. destruct (Hrooms rm Hrm) as (H & _). exact H. }
  set (g2 := (Dungeon.connectRooms cr.1 g1 size cr.2).1) in *.
  pose proof (list_elem_of_lookup_2 _ _ _ Hlast) as Hein.
  destruct (Hrooms exitRoom Hein) as (HeB & _).
  assert (Hegrid : inGrid size (centreTile exitRoom) = true).
  { apply inGrid_true. unfold B, inset, inRect, centreTile in *. cbn [fst snd] in *. lia. }
  destruct (portal_written size (centreTile exitRoom) g2 (con_grid _ _ _ _ Hcon)
              Hegrid Hcodes) as (_ & _ & Hother & _).
  cbn [centreTile fst snd] in Hother.
  eexists. split; [exact E|]. cbn [Dungeon.mapData].
  intros p Hin Hborder.
  assert (HnB : ~ inRect B p) by (unfold B, inset, inRect; lia).
  rewrite Hother by (intros ->; exact (HnB HeB)).
  destruct Hpaint as [_ Hp2]. destruct (Hp2 p Hin) as (_ & Hno2 & _).
  rewrite Hno2 by (intros H; exact (HnB (HP p H))).
  destruct Hcarve as [_ Hp1]. destruct (Hp1 p Hin) as (_ & Hno1 & _).
  rewrite Hno1.
  - apply codeAt_walls. exact Hin.
  - intros (rm & Hrm & Hp). destruct (Hrooms rm Hrm) as (_ & Hsub & _).
    exact (HnB (Hsub p Hp)).
Qed.

Lemma dungeon_enclosed_witness :
  exists d : Dungeon.t,
    (Dungeon.generateDungeon 24 4 8 4 world0).1 = Some d /\
    forall p, inGrid 24 p = true ->
      (p.1 = 0 \/ p.1 = 24 - 1 \/ p.2 = 0 \/ p.2 = 24 - 1)%Z ->
      codeAt (Dungeon.mapData d) 24 p = Some 1%Z.
Proof.
  apply (dungeon_enclosed 24 4 8 4 world0); [|lia|lia|lia].
  intros k. vm_compute. split; [discriminate | reflexivity].
Defined.

(** ** Spawn positions *)

Lemma keeps_spawnPosition (availableRooms : list Room.t) :
  keeps (Dungeon.spawnPosition availableRooms).
Proof. unfold Dungeon.spawnPosition. keeps_tac. Qed.

(** The rooms between the first and the last. *)
Lemma middle_rooms (rooms : list Room.t) (i : nat) (rm : Room.t) :
  take (length rooms - 2) (drop 1 rooms) !! i = Some rm ->
  (1 <= S i < length rooms - 1)%nat /\ rooms !! S i = Some rm.
Proof.
  intros H. apply lookup_take_Some in H as [H Hi]. rewrite lookup_drop in H.
  split; [lia | exact H].
Qed.

Lemma middle_rooms_length (rooms : list Room.t) :
  length (take (length rooms - 2) (drop 1 rooms)) = (length rooms - 2)%nat.
Proof. rewrite length_take, length_drop. lia. Qed.

(** One position: a tile of one of the rooms offered. *)
Lemma spawnPosition_spec (availableRooms : list Room.t) (w : World) :
  fair w -> availableRooms <> [] ->
  exists i rm p,
    (Dungeon.spawnPosition availableRooms w).1 = Some p /\
    availableRooms !! i = Some rm /\
    ((1 <= Room.width rm)%Z -> (1 <= Room.height rm)%Z -> inRect (roomRect rm) p).
Proof.
  intros Hw Hne. unfold Dungeon.spawnPosition, bind, Math_random. cbn [fst snd dice rolls].
  destruct (Hw (rolls w)) as [H1a H1b].
  destruct (Hw (S (rolls w))) as [H2a H2b].
  destruct (Hw (S (S (rolls w)))) as [H3a H3b].
  pose proof (floor_random _ (Z.of_nat (length availableRooms)) H1a H1b) as F1.
  assert (Hlen : (1 <= length availableRooms)%nat).
  { destruct availableRooms; [congruence | cbn; lia]. }
  set (index := JS.floor _) in *.
  unfold elemAt. destruct (Z.ltb_spec index 0) as [Hneg | _]; [lia|].
  destruct (lookup_lt_is_Some_2 availableRooms (Z.to_nat index) ltac:(lia)) as [rm Hrm].
  rewrite Hrm. unfold ret. cbn [fst snd dice rolls]. exists (Z.to_nat index), rm. eexists.
  split; [reflexivity|]. split; [exact Hrm|]. intros Hwd Hh.
  pose proof (floor_random _ (Room.width rm) H2a H2b) as F2.
  pose proof (floor_random _ (Room.height rm) H3a H3b) as F3.
  unfold inRect, roomRect. cbn [fst snd]. lia.
Qed.

Lemma spawnLoop_spec (n : nat) (availableRooms : list Room.t) (acc : list (Z * Z))
    (w : World) :
  fair w -> availableRooms <> [] ->
  exists l,
    (Dungeon.spawnLoop n availableRooms acc w).1 = Some (acc ++ l) /\
    length l = n /\
    forall p, p ∈ l -> exists i rm, availableRooms !! i = Some rm /\
      ((1 <= Room.width rm)%Z -> (1 <= Room.height rm)%Z -> inRect (roomRect rm) p).
Proof.
  intros Hw Hne. revert acc w Hw. induction n as [|n IH]; intros acc w Hw.
  - exists []. cbn. rewrite app_nil_r. split; [reflexivity|]. split; [reflexivity|].
    intros p Hp. inversion Hp.
  - cbn [Dungeon.spawnLoop]. unfold bind.
    destruct (spawnPosition_spec availableRooms w Hw Hne) as (i & rm & p & E & Hrm & Hp).
    pose proof (keeps_fair _ w (keeps_spawnPosition availableRooms) Hw) as Hw1.
    destruct (Dungeon.spawnPosition availableRooms w) as [o w1]. cbn [fst snd] in E, Hw1.
    subst o. destruct (IH (acc ++ [p]) w1 Hw1) as (l & El & Hlen & Hall).
    exists (p :: l). rewrite El, <- app_assoc. split; [reflexivity|].
    split; [cbn; lia|]. intros q Hq. apply elem_of_cons in Hq as [-> | Hq]; eauto.
Qed.

(** X5.  [getEnemySpawnPositions] returns no position, and draws no random
    number, when the list has fewer than three rooms.  Otherwise it returns
    [count] positions; each one is made from a room that is neither the first
    nor the last of the list, and is a tile of that room when the room has
    tiles. *)
Theorem spawn_positions_in_middle_rooms (rooms : list Room.t)
    (playerStart exit : Z * Z) (count : Z) (w : World) :
  fair w ->
  let r := Dungeon.getEnemySpawnPositions rooms playerStart exit count w in
  ((length rooms <= 2)%nat -> r = (Some [], w)) /\
  ((3 <= length rooms)%nat ->
   exists l, r.1 = Some l /\ length l = Z.to_nat count /\
             forall p, p ∈ l -> spawnedIn rooms p).
Proof.
  intros Hw r. subst r. unfold Dungeon.getEnemySpawnPositions.
  rewrite middle_rooms_length. split.
  - intros Hle. replace (length rooms - 2)%nat with 0%nat by lia. reflexivity.
  - intros Hge. destruct (Nat.eqb_spec (length rooms - 2) 0) as [E | _]; [lia|].
    set (availableRooms := take (length rooms - 2) (drop 1 rooms)).
    assert (Hne : availableRooms <> []).
    { intros E. apply (f_equal length) in E. unfold availableRooms in E.
      rewrite middle_rooms_length in E. cbn in E. lia. }
    destruct (spawnLoop_spec (Z.to_nat count) availableRooms [] w Hw Hne)
      as (l & El & Hlen & Hall).
    exists l. split; [exact El|]. split; [exact Hlen|].
    intros p Hp. destruct (Hall p Hp) as (i & rm & Hrm & Hin).
    apply middle_rooms in Hrm as [Hi Hrm]. exists (S i), rm. auto.
Qed.

Lemma spawn_positions_in_middle_rooms_witness :
  let rooms := [Room.create 1 1 4 4; Room.create 8 1 4 4; Room.create 8 8 4 4] in
  let r := Dungeon.getEnemySpawnPositions rooms (3, 3)%Z (10, 10)%Z 2 world0 in
  ((length rooms <= 2)%nat -> r = (Some [], world0)) /\
  ((3 <= length rooms)%nat ->
   exists l, r.1 = Some l /\ length l = Z.to_nat 2 /\
             forall p, p ∈ l -> spawnedIn rooms p).
Proof.
  apply (spawn_positions_in_middle_rooms
           [Room.create 1 1 4 4; Room.create 8 1 4 4; Room.create 8 8 4 4]
           (3, 3)%Z (10, 10)%Z 2 world0).
  intros k. vm_compute. split; [discriminate | reflexivity].
Defined.

(** With leaves at least three tiles wide and high, every room has tiles. *)
Lemma room_dims (lo : Z) (n : BSPNode) (rm : Room.t) :
  (3 <= lo)%Z -> treeOk lo true n -> rm ∈ BSP.getAllRooms n ->
  (1 <= Room.width rm)%Z /\ (1 <= Room.height rm)%Z.
Proof.
  intros Hlo. induction n as [x y w h room | x y w h room l IHl r IHr];
    cbn [treeOk BSP.getAllRooms].
  - intros (_ & _ & rm' & -> & _ & Hdim) Hrm. cbn in Hrm.
    apply list_elem_of_singleton in Hrm as ->. apply Hdim, Hlo.
  - intros (-> & Hl & Hr & _) Hrm. change (option_list None ++ ?k) with k in Hrm.
    apply elem_of_app in Hrm as [Hrm | Hrm]; auto.
Qed.

(** The positions that [getEnemySpawnPositions] returns, whatever the number
    of rooms. *)
Lemma spawn_positions_spec_aux (rooms : list Room.t) (playerStart exit : Z * Z)
    (count : Z) (w : World) :
  fair w ->
  exists l, (Dungeon.getEnemySpawnPositions rooms playerStart exit count w).1 = Some l /\
            forall p, p ∈ l -> spawnedIn rooms p.
Proof.
  intros Hw. unfold Dungeon.getEnemySpawnPositions.
  rewrite middle_rooms_length.
  destruct (Nat.eqb_spec (length rooms - 2) 0) as [E | Hne0].
  - exists []. split; [reflexivity|]. intros p Hp. inversion Hp.
  - set (availableRooms := take (length rooms - 2) (drop 1 rooms)).
    assert (Hne : availableRooms <> []).
    { intros E. apply (f_equal length) in E. unfold availableRooms in E.
      rewrite middle_rooms_length in E. cbn in E. lia. }
    destruct (spawnLoop_spec (Z.to_nat count) availableRooms [] w Hw Hne)
      as (l & El & Hlen & Hall).
    exists l. split; [exact El|].
    intros p Hp. destruct (Hall p Hp) as (i & rm & Hrm & Hin).
    apply middle_rooms in Hrm as [Hi Hrm]. exists (S i), rm. auto.
Qed.

(** The tiles of the rooms between the first and the last one of a generated
    dungeon: floor that the player can reach, away from the start and the
    exit. *)
Lemma middle_rooms_floor
    (size minRoomSize maxRoomSize recursionDepth : Z) (w : World) :
  fair w -> (3 <= size)%Z -> (3 <= minRoomSize)%Z -> (1 <= maxRoomSize)%Z ->
  exists d : Dungeon.t,
    (Dungeon.generateDungeon size minRoomSize maxRoomSize recursionDepth w).1 = Some d /\
    forall p, spawnedIn (Dungeon.rooms d) p ->
      codeAt (Dungeon.mapData d) (Dungeon.size d) p = Some 0%Z /\
      linked (Dungeon.mapData d) (Dungeon.size d) (Dungeon.playerStart d) p /\
      p <> Dungeon.playerStart d /\ p <> Dungeon.exit d.
Proof.
  intros Hw Hsize Hmin Hmax.
  destruct (generateDungeon_tree 3 size minRoomSize maxRoomSize recursionDepth w Hw)
    as (_ & _ & Ht & Hr & _ & _); [lia | lia | lia |].
  destruct (generateDungeon_grids 3 size minRoomSize maxRoomSize recursionDepth w Hw)
    as (_ & _ & Hrooms & Hcon & Hcodes & startRoom & exitRoom & Hfirst & Hlast & E);
    [lia | lia | lia |].
  cbv zeta in Ht, Hr, Hrooms, Hcon, Hcodes, Hfirst, Hlast, E.
  set (root := (BSP.createRoom _ _ _ _).1) in *.
  set (rooms := BSP.getAllRooms root) in *.
  set (g1 := foldl _ _ rooms) in *.
  set (g2 := (Dungeon.connectRooms root g1 size _).1) in *.
  pose proof (list_elem_of_lookup_2 _ _ _ Hfirst) as Hsin.
  pose proof (list_elem_of_lookup_2 _ _ _ Hlast) as Hein.
  assert (Hbox : forall p, inRect (rectOf root) p <-> inGrid size p = true).
  { intros p. rewrite Hr, inGrid_true. unfold inRect. lia. }
  destruct (rooms_in_tree 3 root startRoom Ht Hsin) as (Hsbox & _).
  destruct (rooms_in_tree 3 root exitRoom Ht Hein) as (Hebox & _).
  destruct (portal_written size (centreTile exitRoom) g2 (con_grid _ _ _ _ Hcon)
              (proj1 (Hbox _) Hebox) Hcodes)
    as (_ & _ & Hother & Hmore & _ & _).
  cbn [centreTile fst snd] in Hother, Hmore.
  eexists. split; [exact E|].
  cbn [Dungeon.rooms Dungeon.mapData Dungeon.size Dungeon.playerStart Dungeon.exit].
  intros p (i & rm & Hi & Hrm & Hin).
  pose proof (list_elem_of_lookup_2 _ _ _ Hrm) as Hrmin.
  destruct (room_dims 3 root rm ltac:(lia) Ht Hrmin) as [Hwd Hh].
  specialize (Hin Hwd Hh).
  destruct (rooms_in_tree 3 root rm Ht Hrmin) as (_ & Hsub & _).
  assert (Hp1 : passable g1 size p = true).
  { apply (Hrooms p (Hsub p Hin)). exists rm. auto. }
  pose proof (con_more _ _ _ _ Hcon p Hp1) as Hp2.
  assert (Hne : p <> centreTile exitRoom).
  { intros ->. apply (rooms_disjoint 3 root i (length rooms - 1) rm exitRoom
                        (centreTile exitRoom) Ht Hrm Hlast ltac:(lia) Hin).
    apply (centre_in_room 3 root); [lia | exact Ht | exact Hein]. }
  assert (Hns : p <> centreTile startRoom).
  { intros ->. apply (rooms_disjoint 3 root i 0 rm startRoom
                        (centreTile startRoom) Ht Hrm Hfirst ltac:(lia) Hin).
    apply (centre_in_room 3 root); [lia | exact Ht | exact Hsin]. }
  split; [|split; [|split; [exact Hns | exact Hne]]].
  - rewrite (Hother p Hne).
    destruct (Hcodes p (proj1 (Hbox p) (Hsub p Hin))) as [H0 | H1]; [exact H0|].
    unfold passable in Hp2. rewrite H1 in Hp2. discriminate.
  - apply (linked_mono size g2 _ _ _ Hmore).
    apply (con_linked _ _ _ _ Hcon); [exact Hsbox | exact (Hsub p Hin) | | exact Hp2].
    apply (con_some _ _ _ _ Hcon p (Hsub p Hin) Hp2 startRoom Hsin).
Qed.

(** X6.  In a dungeon generated with [size] and [minRoomSize] at least 3,
    every position that [getEnemySpawnPositions] returns for its rooms is a
    floor tile (code 0) of the final grid that can be reached from the player
    start, and is neither the player start nor the exit. *)
Theorem spawn_positions_on_floor
    (size minRoomSize maxRoomSize recursionDepth count : Z) (w w' : World) :
  fair w -> fair w' -> (3 <= size)%Z -> (3 <= minRoomSize)%Z -> (1 <= maxRoomSize)%Z ->
  exists (d : Dungeon.t) (l : list (Z * Z)),
    (Dungeon.generateDungeon size minRoomSize maxRoomSize recursionDepth w).1 = Some d /\
    (Dungeon.getEnemySpawnPositions (Dungeon.rooms d) (Dungeon.playerStart d)
                                    (Dungeon.exit d) count w').1 = Some l /\
    forall p, p ∈ l ->
      codeAt (Dungeon.mapData d) (Dungeon.size d) p = Some 0%Z /\
      linked (Dungeon.mapData d) (Dungeon.size d) (Dungeon.playerStart d) p /\
      p <> Dungeon.playerStart d /\ p <> Dungeon.exit d.
Proof.
  intros Hw Hw' Hsize Hmin Hmax.
  destruct (middle_rooms_floor size minRoomSize maxRoomSize recursionDepth w
              Hw Hsize Hmin Hmax) as (d & Ed & Hfloor).
  destruct (spawn_positions_spec_aux (Dungeon.rooms d) (Dungeon.playerStart d)
              (Dungeon.exit d) count w' Hw') as (l & El & Hall).
  exists d, l. split; [exact Ed|]. split; [exact El|].
  intros p Hp. apply Hfloor, Hall, Hp.
Qed.

Lemma spawn_positions_on_floor_witness :
  exists (d : Dungeon.t) (l : list (Z * Z)),
    (Dungeon.generateDungeon 24 4 8 4 world0).1 = Some d /\
    (Dungeon.getEnemySpawnPositions (Dungeon.rooms d) (Dungeon.playerStart d)
                                    (Dungeon.exit d) 5 lopsided).1 = Some l /\
    forall p, p ∈ l ->
      codeAt (Dungeon.mapData d) (Dungeon.size d) p = Some 0%Z /\
      linked (Dungeon.mapData d) (Dungeon.size d) (Dungeon.playerStart d) p /\
      p <> Dungeon.playerStart d /\ p <> Dungeon.exit d.
Proof.
  apply (spawn_positions_on_floor 24 4 8 4 5 world0 lopsided); [| |lia|lia|lia].
  - intros k. vm_compute. split; [discriminate | reflexivity].
  - intros k. unfold lopsided. cbn [dice]. destruct (k =? 1)%nat.
    + split; [discriminate | reflexivity].
    + split; [discriminate | reflexivity].
Defined.

(** X7.  [getNPCSpawnPosition] answers (12, 12) for an empty list, and the
    centre of the room in the middle of the list otherwise.  In a generated
    dungeon that centre is a tile of floor or portal that can be reached from
    the player start. *)
Theorem npc_spawn_reachable
    (size minRoomSize maxRoomSize recursionDepth : Z) (w : World) :
  fair w -> (1 <= size)%Z -> (1 <= minRoomSize)%Z -> (1 <= maxRoomSize)%Z ->
  Dungeon.getNPCSpawnPosition [] = (12, 12)%Z /\
  exists (d : Dungeon.t) (middleRoom : Room.t),
    (Dungeon.generateDungeon size minRoomSize maxRoomSize recursionDepth w).1 = Some d /\
    Dungeon.rooms d !! (length (Dungeon.rooms d) / 2)%nat = Some middleRoom /\
    Dungeon.getNPCSpawnPosition (Dungeon.rooms d) = centreTile middleRoom /\
    linked (Dungeon.mapData d) (Dungeon.size d) (Dungeon.playerStart d)
           (Dungeon.getNPCSpawnPosition (Dungeon.rooms d)).
Proof.
  intros Hw Hsize Hmin Hmax. split; [reflexivity|].
  destruct (generateDungeon_tree 1 size minRoomSize maxRoomSize recursionDepth w Hw)
    as (_ & _ & Ht & Hr & _ & _); [lia | lia | lia |].
  destruct (generateDungeon_grids 1 size minRoomSize maxRoomSize recursionDepth w Hw)
    as (_ & _ & _ & Hcon & Hcodes & startRoom & exitRoom & Hfirst & Hlast & E);
    [lia | lia | lia |].
  cbv zeta in Ht, Hr, Hcon, Hcodes, Hfirst, Hlast, E.
  set (root := (BSP.createRoom _ _ _ _).1) in *.
  set (rooms := BSP.getAllRooms root) in *.
  set (g1 := foldl _ _ rooms) in *.
  set (g2 := (Dungeon.connectRooms root g1 size _).1) in *.
  pose proof (list_elem_of_lookup_2 _ _ _ Hfirst) as Hsin.
  pose proof (list_elem_of_lookup_2 _ _ _ Hlast) as Hein.
  assert (Hlen : (1 <= length rooms)%nat).
  { apply lookup_lt_Some in Hfirst. lia. }
  destruct (lookup_lt_is_Some_2 rooms (length rooms / 2)) as [rm Hrm].
  { apply Nat.div_lt; lia. }
  pose proof (list_elem_of_lookup_2 _ _ _ Hrm) as Hrmin.
  assert (Hnpc : Dungeon.getNPCSpawnPosition rooms = centreTile rm).
  { unfold Dungeon.getNPCSpawnPosition.
    destruct (Nat.eqb_spec (length rooms) 0) as [E0 | _]; [lia|].
    rewrite Hrm. reflexivity. }
  assert (Hbox : forall p, inRect (rectOf root) p <-> inGrid size p = true).
  { intros p. rewrite Hr, inGrid_true. unfold inRect. lia. }
  destruct (rooms_in_tree 1 root startRoom Ht Hsin) as (Hsbox & _).
  destruct (rooms_in_tree 1 root exitRoom Ht Hein) as (Hebox & _).
  destruct (rooms_in_tree 1 root rm Ht Hrmin) as (Hmbox & _).
  destruct (portal_written size (centreTile exitRoom) g2 (con_grid _ _ _ _ Hcon)
              (proj1 (Hbox _) Hebox) Hcodes)
    as (_ & _ & _ & Hmore & Hpe & _).
  cbn [centreTile fst snd] in Hmore, Hpe.
  eexists. exists rm. split; [exact E|].
  cbn [Dungeon.rooms Dungeon.mapData Dungeon.size Dungeon.playerStart].
  split; [exact Hrm|]. split; [exact Hnpc|]. rewrite Hnpc.
  destruct root as [x y wd h room | x y wd h room l r].
  - pose proof (leaf_rooms _ _ _ _ _ _ _ Ht Hsin) as E1.
    pose proof (leaf_rooms _ _ _ _ _ _ _ Ht Hein) as E2.
    pose proof (leaf_rooms _ _ _ _ _ _ _ Ht Hrmin) as E3.
    assert (startRoom = exitRoom) by congruence.
    assert (rm = exitRoom) by congruence. subst startRoom rm.
    apply linked_here. exact Hpe.
  - apply (linked_mono size g2 _ _ _ Hmore).
    apply (con_linked _ _ _ _ Hcon); [exact Hsbox | exact Hmbox | |].
    + apply (con_branch _ _ _ _ Hcon eq_refl startRoom Hsin).
    + apply (con_branch _ _ _ _ Hcon eq_refl rm Hrmin).
Qed.

Lemma npc_spawn_reachable_witness :
  Dungeon.getNPCSpawnPosition [] = (12, 12)%Z /\
  exists (d : Dungeon.t) (middleRoom : Room.t),
    (Dungeon.generateDungeon 24 4 8 4 world0).1 = Some d /\
    Dungeon.rooms d !! (length (Dungeon.rooms d) / 2)%nat = Some middleRoom /\
    Dungeon.getNPCSpawnPosition (Dungeon.rooms d) = centreTile middleRoom /\
    linked (Dungeon.mapData d) (Dungeon.size d) (Dungeon.playerStart d)
           (Dungeon.getNPCSpawnPosition (Dungeon.rooms d)).
Proof.
  apply (npc_spawn_reachable 24 4 8 4 world0); [|lia|lia|lia].
  intros k. vm_compute. split; [discriminate | reflexivity].
Defined.

(* ===================================================================== *)
(** * Further properties of the combat resolver *)
(* ===================================================================== *)

(** What [raycastShoot] knows of its result when the loop is over. *)
Lemma raycastShoot_aim (playerX playerY dirX dirY maxDistance : Q)
    (grid : option (list Z)) (mapSize : Z) (enemies : list Enemy.t) :
  let r := Combat.raycastShoot playerX playerY dirX dirY enemies maxDistance
                               grid mapSize in
  aimInvariant playerX playerY dirX dirY maxDistance grid mapSize enemies
               (Combat.enemy r, Combat.distance r) /\
  Combat.hit r = bool_decide (Combat.enemy r <> None).
Proof.
  intros r. subst r. unfold Combat.raycastShoot, Combat.indexed.
  pose proof (aimInv_fold playerX playerY dirX dirY maxDistance grid mapSize
                enemies [] (None, maxDistance)) as H.
  simpl in H. specialize (H (Qle_refl _)).
  destruct (foldl _ _ _) as [ce cd]. cbn [Combat.enemy Combat.distance Combat.hit].
  split; [|reflexivity]. apply H. split; [reflexivity|].
  intros j e Hj. rewrite lookup_nil in Hj. discriminate.
Qed.

(** X8.  A shot that hits changes one enemy and nothing else: the enemy hit
    was alive, it takes the damage of the weapon ([takeDamage]), it dies
    exactly when its health was at most that damage, [kills] goes up by one
    exactly when it dies, and every other enemy of the array is as it was. *)
Theorem shot_hits_one_enemy (m : CombatManager.t) (px py dx dy : Q)
    (enemies : list Enemy.t) (grid : option (list Z)) (mapSize : Z) (w : World)
    (i : nat) (died : bool) (dmg dist : Q) :
  let r := CombatManager.shoot m px py dx dy enemies grid mapSize w in
  r.1.1.1 = CombatManager.Hit i died dmg dist ->
  exists target,
    enemies !! i = Some target /\ Enemy.isAlive target = true /\
    dmg = Combat.damage (Combat.WEAPONS (CombatManager.weapon m)) /\
    dist = distTo px py target /\
    (dist < Combat.range (Combat.WEAPONS (CombatManager.weapon m)))%Q /\
    r.1.2 = <[i := (Enemy.takeDamage target dmg).2]> enemies /\
    died = (Enemy.takeDamage target dmg).1 /\
    (died = true <-> (Enemy.health target <= dmg)%Q) /\
    CombatManager.kills r.1.1.2
      = (CombatManager.kills m + (if died then 1 else 0))%Z /\
    forall j, j <> i -> r.1.2 !! j = enemies !! j.
Proof.
  intros r. subst r. unfold CombatManager.shoot, bind, Date_now, ret. cbn [fst snd].
  destruct (_ <? _)%Z; [discriminate|].
  destruct (raycastShoot_aim px py dx dy
              (Combat.range (Combat.WEAPONS (CombatManager.weapon m)))
              grid mapSize enemies) as [Hinv _].
  cbv zeta in Hinv. unfold aimInvariant in Hinv. cbn [fst snd] in Hinv.
  destruct (Combat.enemy _) as [k|]; [|discriminate].
  destruct Hinv as (target & Hk & Hs & Hd & Hlt & _).
  rewrite Hk. unfold Combat.damageEnemy.
  assert (Halive : Enemy.isAlive target = true).
  { unfold inSights in Hs. destruct (Enemy.isAlive target); [reflexivity|].
    cbn in Hs. discriminate. }
  rewrite Halive. cbn [negb].
  destruct (Enemy.takeDamage target _) as [died' target'] eqn:Etd. cbn [fst snd].
  intros E. injection E as <- <- <- <-.
  exists target. rewrite Etd. cbn [fst snd].
  split; [exact Hk|]. split; [exact Halive|]. split; [reflexivity|].
  split; [exact Hd|]. split; [rewrite Hd; exact Hlt|]. split; [reflexivity|].
  split; [reflexivity|]. split; [|split].
  - revert Etd. unfold Enemy.takeDamage, Enemy.isAlive in *.
    destruct (bool_decide (Enemy.state target = DEAD)); [discriminate|].
    cbn [Enemy.health Enemy.set_health]. unfold JS.leb.
    destruct (Qle_bool _ 0) eqn:Hle.
    + intros E. injection E as <- _. split; [intros _|reflexivity].
      apply Qle_bool_iff in Hle. lra.
    + destruct (bool_decide _); intros E; injection E as <- _;
        (split; [discriminate|]); intros Hh; exfalso;
        assert (Hle' : Qle_bool (Enemy.health target
                  - Combat.damage (Combat.WEAPONS (CombatManager.weapon m))) 0 = true)
          by (apply Qle_bool_iff; lra); congruence.
  - cbn [CombatManager.kills]. destruct died'; lia.
  - intros j Hj. apply list_lookup_insert_ne. congruence.
Qed.

Lemma shot_hits_one_enemy_witness :
  let target := enemyAt (5 # 2) (3 # 2) IDLE in
  let r := CombatManager.shoot (CombatManager.create Combat.pistol)
             (3 # 2) (3 # 2) 1 0 [target] (Some arena) 5 world0 in
  exists target',
    [target] !! 0%nat = Some target' /\ Enemy.isAlive target' = true /\
    25%Q = Combat.damage (Combat.WEAPONS Combat.pistol) /\
    distTo (3 # 2) (3 # 2) target = distTo (3 # 2) (3 # 2) target' /\
    (distTo (3 # 2) (3 # 2) target < Combat.range (Combat.WEAPONS Combat.pistol))%Q /\
    r.1.2 = <[0%nat := (Enemy.takeDamage target' 25).2]> [target] /\
    false = (Enemy.takeDamage target' 25).1 /\
    (false = true <-> (Enemy.health target' <= 25)%Q) /\
    CombatManager.kills r.1.1.2 = (0 + 0)%Z /\
    forall j, j <> 0%nat -> r.1.2 !! j = [target] !! j.
Proof.
  apply (shot_hits_one_enemy (CombatManager.create Combat.pistol)
           (3 # 2) (3 # 2) 1 0 [enemyAt (5 # 2) (3 # 2) IDLE] (Some arena) 5 world0
           0%nat false 25 (distTo (3 # 2) (3 # 2) (enemyAt (5 # 2) (3 # 2) IDLE))).
  vm_compute. reflexivity.
Defined.

(** X9.  The three readings of the cooldown agree: at one and the same
    reading of the clock, [canShoot()] answers [true] exactly when [shoot]
    fires, and exactly when [getCooldownProgress()] has reached 1, which it
    never exceeds. *)
Theorem cooldown_readings_agree (m : CombatManager.t) (px py dx dy : Q)
    (enemies : list Enemy.t) (grid : option (list Z)) (mapSize : Z) (w : World) :
  ((CombatManager.canShoot m w).1 = true <->
   CombatManager.fired (CombatManager.shoot m px py dx dy enemies grid mapSize w).1.1.1
     = true) /\
  ((CombatManager.canShoot m w).1 = true <->
   (CombatManager.getCooldownProgress m w).1 == 1) /\
  ((CombatManager.getCooldownProgress m w).1 <= 1)%Q.
Proof.
  unfold CombatManager.canShoot, CombatManager.getCooldownProgress,
    CombatManager.shoot, bind, Date_now, ret. cbn [fst snd].
  set (now := clock w (ticks w)).
  set (fr := Combat.fireRate (Combat.WEAPONS (CombatManager.weapon m))).
  assert (Hfr : (0 < fr)%Z) by (unfold fr; destruct (CombatManager.weapon m); reflexivity).
  set (elapsed := (now - CombatManager.lastShotTime m)%Z).
  assert (Hdiv : (1 <= inject_Z elapsed / inject_Z fr)%Q <-> (fr <= elapsed)%Z).
  { assert (Hq : (0 < inject_Z fr)%Q) by (change 0%Q with (inject_Z 0); rewrite <- Zlt_Qlt; exact Hfr).
    rewrite <- (Qmult_le_r 1 (inject_Z elapsed / inject_Z fr) (inject_Z fr) Hq).
    assert (E : (inject_Z elapsed / inject_Z fr * inject_Z fr == inject_Z elapsed)%Q).
    { field. intros H. rewrite H in Hq. exact (Qlt_irrefl _ Hq). }
    rewrite E, Qmult_1_l, <- Zle_Qle. reflexivity. }
  split; [|split].
  - destruct (Z.leb_spec fr elapsed) as [Hge | Hlt].
    + destruct (Z.ltb_spec elapsed fr) as [Hlt | _]; [lia|].
      split; [intros _|reflexivity].
      destruct (Combat.enemy _) as [i|]; [destruct (enemies !! i) as [target|]|];
        try destruct (Combat.damageEnemy _ _) as [died target']; reflexivity.
    + destruct (Z.ltb_spec elapsed fr) as [_ | Hge]; [|lia].
      cbn. split; discriminate.
  - destruct (Z.leb_spec fr elapsed) as [Hge | Hlt].
    + split; [intros _|reflexivity]. apply Q.min_l. apply Hdiv. exact Hge.
    + split; [discriminate|]. intros E. exfalso.
      assert (Hle : (1 <= inject_Z elapsed / inject_Z fr)%Q).
      { rewrite <- E at 1. apply Q.le_min_r. }
      apply Hdiv in Hle. lia.
  - apply Q.le_min_l.
Qed.

(** ** The crosshair and the shot *)

Section Ranges.
Variables (playerX playerY dirX dirY lo hi : Q).
Variables (grid : option (list Z)) (mapSize : Z).
Hypothesis Hrange : (lo <= hi)%Q.

Lemma inSights_wider (e : Enemy.t) :
  inSights playerX playerY dirX dirY lo grid mapSize e = true ->
  inSights playerX playerY dirX dirY hi grid mapSize e = true.
Proof using Hrange.
  unfold inSights, JS.leb. cbv zeta.
  set (d := distTo playerX playerY e).
  destruct (Enemy.isAlive e); [|discriminate].
  destruct (Qle_bool d lo) eqn:E; [|discriminate].
  apply Qle_bool_iff in E.
  assert (E' : Qle_bool d hi = true) by (apply Qle_bool_iff; lra).
  rewrite E'. exact id.
Qed.

Lemma inSights_narrower (e : Enemy.t) :
  inSights playerX playerY dirX dirY hi grid mapSize e = true ->
  (distTo playerX playerY e <= lo)%Q ->
  inSights playerX playerY dirX dirY lo grid mapSize e = true.
Proof using Type.
  unfold inSights, JS.leb. cbv zeta.
  set (d := distTo playerX playerY e).
  destruct (Enemy.isAlive e); [|discriminate].
  destruct (Qle_bool d hi); [|discriminate].
  intros H Hd. apply Qle_bool_iff in Hd. rewrite Hd. exact H.
Qed.

Lemma aimsAlike_step (accLo accHi : option nat * Q) (i : nat) (e : Enemy.t) :
  aimsAlike lo hi accLo accHi ->
  aimsAlike lo hi
    (Combat.aimAt playerX playerY dirX dirY lo grid mapSize accLo (i, e))
    (Combat.aimAt playerX playerY dirX dirY hi grid mapSize accHi (i, e)).
Proof using Hrange.
  intros Hrel.
  pose proof (inSights_wider e) as Hw. pose proof (inSights_narrower e) as Hn.
  destruct (aimAt_cases playerX playerY dirX dirY lo grid mapSize accLo i e)
    as [[-> A] | (-> & As & Ad)];
    destruct (aimAt_cases playerX playerY dirX dirY hi grid mapSize accHi i e)
      as [[-> B] | (-> & Bs & Bd)];
    destruct accLo as [[k|] cd], accHi as [[k'|] cd'];
    unfold aimsAlike in *; cbn [fst snd] in *;
    repeat match goal with
           | H : _ /\ _ |- _ => destruct H
           | H : (_, _) = (_, _) |- _ => injection H as ? ?
           end; subst;
    try discriminate;
    destruct (Qlt_le_dec lo (distTo playerX playerY e)) as [Hgt | Hle];
    try (specialize (Hw As));
    try (specialize (Hn Bs Hle));
    repeat match goal with
           | H : _ \/ _ |- _ => destruct H
           end;
    first [ solve [split; [reflexivity | first [reflexivity | lra]]]
          | solve [exfalso; first [congruence | lra]] ].
Qed.

Lemma aimsAlike_fold (items : list (nat * Enemy.t)) (accLo accHi : option nat * Q) :
  aimsAlike lo hi accLo accHi ->
  aimsAlike lo hi
    (foldl (Combat.aimAt playerX playerY dirX dirY lo grid mapSize) accLo items)
    (foldl (Combat.aimAt playerX playerY dirX dirY hi grid mapSize) accHi items).
Proof using Hrange.
  revert accLo accHi. induction items as [|[i e] items IH]; intros accLo accHi H.
  - exact H.
  - cbn [foldl]. apply IH, aimsAlike_step, H.
Qed.

(** An enemy that [raycastShoot] finds within a range is the enemy that it
    finds within any wider range. *)
Lemma raycastShoot_wider (enemies : list Enemy.t) :
  let c := Combat.raycastShoot playerX playerY dirX dirY enemies lo grid mapSize in
  let r := Combat.raycastShoot playerX playerY dirX dirY enemies hi grid mapSize in
  Combat.hit c = true -> r = c.
Proof using Hrange.
  intros c r. subst c r. unfold Combat.raycastShoot.
  pose proof (aimsAlike_fold (Combat.indexed enemies) (None, lo) (None, hi)) as H.
  specialize (H ltac:(cbn; auto)).
  destruct (foldl _ (None, lo) _) as [ce cd].
  destruct (foldl _ (None, hi) _) as [ce' cd'].
  cbn [Combat.hit]. intros Hhit. apply bool_decide_eq_true in Hhit.
  destruct ce as [k|]; [|congruence].
  unfold aimsAlike in H. cbn [fst snd] in H. destruct H as [E _].
  injection E as -> ->. reflexivity.
Qed.

End Ranges.

(** X10.  The crosshair tells the truth for the pistol and the rifle, whose
    ranges are not below the 15 tiles of [getCrosshairState]: when the
    crosshair shows an enemy, a shot fired from the same position in the same
    direction hits that very enemy, at the distance the crosshair state
    holds. *)
Theorem crosshair_predicts_shot (m : CombatManager.t) (px py dx dy : Q)
    (enemies : list Enemy.t) (grid : option (list Z)) (mapSize : Z) (w : World) :
  let c := Combat.getCrosshairState px py dx dy enemies grid mapSize in
  let r := CombatManager.shoot m px py dx dy enemies grid mapSize w in
  CombatManager.weapon m <> Combat.shotgun ->
  Combat.hit c = true ->
  CombatManager.fired r.1.1.1 = true ->
  exists i died,
    Combat.enemy c = Some i /\
    r.1.1.1 = CombatManager.Hit i died
                (Combat.damage (Combat.WEAPONS (CombatManager.weapon m)))
                (Combat.distance c).
Proof.
  intros c r Hweapon Hhit. subst c r. unfold Combat.getCrosshairState in *.
  assert (Hrange : (15 <= Combat.range (Combat.WEAPONS (CombatManager.weapon m)))%Q).
  { destruct (CombatManager.weapon m); [discriminate | congruence | discriminate]. }
  pose proof (raycastShoot_wider px py dx dy 15 _ grid mapSize Hrange enemies Hhit) as E.
  cbv zeta in E.
  destruct (raycastShoot_aim px py dx dy 15 grid mapSize enemies) as [Hinv Hh].
  cbv zeta in Hinv, Hh. rewrite Hhit in Hh. symmetry in Hh.
  apply bool_decide_eq_true in Hh. unfold aimInvariant in Hinv. cbn [fst snd] in Hinv.
  unfold CombatManager.shoot, bind, Date_now, ret. cbn [fst snd].
  destruct (_ <? _)%Z; [discriminate|]. intros _. rewrite E.
  destruct (Combat.enemy _) as [i|]; [|congruence].
  destruct Hinv as (target & Hi & _). rewrite Hi.
  destruct (Combat.damageEnemy _ _) as [died target']. cbn [fst snd].
  exists i, died. split; reflexivity.
Qed.

Lemma crosshair_predicts_shot_witness :
  let enemies := [enemyAt (5 # 2) (3 # 2) IDLE] in
  let c := Combat.getCrosshairState (3 # 2) (3 # 2) 1 0 enemies (Some arena) 5 in
  let r := CombatManager.shoot (CombatManager.create Combat.rifle)
             (3 # 2) (3 # 2) 1 0 enemies (Some arena) 5 world0 in
  exists i died,
    Combat.enemy c = Some i /\
    r.1.1.1 = CombatManager.Hit i died
                (Combat.damage (Combat.WEAPONS Combat.rifle)) (Combat.distance c).
Proof.
  apply (crosshair_predicts_shot (CombatManager.create Combat.rifle)
           (3 # 2) (3 # 2) 1 0 [enemyAt (5 # 2) (3 # 2) IDLE] (Some arena) 5 world0).
  - discriminate.
  - vm_compute. reflexivity.
  - vm_compute. reflexivity.
Defined.

(* ===================================================================== *)
(** * Further properties of the enemies *)
(* ===================================================================== *)

(** ** Moving about *)

Lemma sameSelf_refl (e : Enemy.t) : sameSelf e e.
Proof. unfold sameSelf. repeat split. Qed.

Lemma sameSelf_trans (a b c : Enemy.t) : sameSelf a b -> sameSelf b c -> sameSelf a c.
Proof.
  unfold sameSelf.
  intros (A1 & A2 & A3 & A4 & A5 & A6 & A7 & A8 & A9 & A10 & A11)
         (B1 & B2 & B3 & B4 & B5 & B6 & B7 & B8 & B9 & B10 & B11).
  repeat split; congruence.
Qed.

Lemma updateDirection_self (e : Enemy.t) (dx dy : Q) :
  sameSelf e (Enemy.updateDirection e dx dy) /\
  Enemy.x (Enemy.updateDirection e dx dy) = Enemy.x e /\
  Enemy.y (Enemy.updateDirection e dx dy) = Enemy.y e.
Proof.
  unfold Enemy.updateDirection, sameSelf.
  destruct (JS.ltb (JS.abs dy) (JS.abs dx)); repeat split.
Qed.

(** A step to a position that [isValidPosition] accepts. *)
Lemma moved_to (e e1 : Enemy.t) (nx ny dx dy : Q) (grid : list Z) (mapSize : Z) :
  sameSelf e e1 -> Enemy.isValidPosition nx ny grid mapSize = true ->
  sameSelf e (Enemy.updateDirection (Enemy.set_pos e1 nx ny) dx dy) /\
  stayedOrValid grid mapSize e (Enemy.updateDirection (Enemy.set_pos e1 nx ny) dx dy).
Proof.
  intros H1 Hv.
  destruct (updateDirection_self (Enemy.set_pos e1 nx ny) dx dy) as (Hs & Hx & Hy).
  split.
  - apply (sameSelf_trans _ _ _ H1). eapply sameSelf_trans; [|exact Hs].
    unfold sameSelf; repeat split.
  - right. rewrite Hx, Hy. exact Hv.
Qed.

(** No step at all. *)
Lemma stayed (e e1 : Enemy.t) (grid : list Z) (mapSize : Z) :
  sameSelf e e1 -> Enemy.x e1 = Enemy.x e -> Enemy.y e1 = Enemy.y e ->
  sameSelf e e1 /\ stayedOrValid grid mapSize e e1.
Proof. intros H Hx Hy. split; [exact H | left; auto]. Qed.

Lemma patrol_moves (e : Enemy.t) (grid : list Z) (mapSize : Z) (dt : Q) (w : World) :
  sameSelf e (Enemy.patrol e grid mapSize dt w).1 /\
  stayedOrValid grid mapSize e (Enemy.patrol e grid mapSize dt w).1.
Proof.
  unfold Enemy.patrol, bind, ret, Math_random.
  destruct (JS.leb _ _); cbn [fst snd];
    destruct (Enemy.isValidPosition _ _ _ _) eqn:Hv; cbn [fst snd].
  - apply moved_to; [unfold sameSelf; repeat split | exact Hv].
  - apply stayed; [unfold sameSelf; repeat split | reflexivity | reflexivity].
  - apply moved_to; [unfold sameSelf; repeat split | exact Hv].
  - apply stayed; [unfold sameSelf; repeat split | reflexivity | reflexivity].
Qed.

Lemma chaseLoop_moves (fuel : nat) (e : Enemy.t) (playerX playerY : Q)
    (grid : list Z) (mapSize : Z) (dt : Q) (w : World) :
  sameSelf e (Enemy.chaseLoop fuel e playerX playerY grid mapSize dt w).1 /\
  stayedOrValid grid mapSize e (Enemy.chaseLoop fuel e playerX playerY grid mapSize dt w).1.
Proof.
  revert e w. induction fuel as [|fuel IH]; intros e w; cbn [Enemy.chaseLoop];
    set (e1 := if _ : bool then _ else _);
    (assert (H1 : sameSelf e e1 /\ Enemy.x e1 = Enemy.x e /\ Enemy.y e1 = Enemy.y e)
      by (subst e1; destruct (_ || _); unfold sameSelf; repeat split));
    destruct H1 as (H1 & Hx & Hy);
    (destruct (Enemy.path e1) as [|target rest]; [apply stayed; assumption|]);
    destruct (JS.ltb _ _).
  - destruct rest; (apply stayed; [|exact Hx | exact Hy]);
      apply (sameSelf_trans _ _ _ H1); unfold sameSelf; repeat split.
  - unfold bind, ret, Math_random. cbn [fst snd].
    destruct (Enemy.isValidPosition _ _ _ _) eqn:Hv; cbn [fst snd];
      [apply moved_to; assumption | apply stayed; assumption].
  - destruct rest as [|next rest].
    + apply stayed; [|exact Hx | exact Hy].
      apply (sameSelf_trans _ _ _ H1). unfold sameSelf; repeat split.
    + destruct (IH (Enemy.set_path e1 (next :: rest) (Enemy.pathUpdateTimer e1)) w)
        as [Hs Hm].
      split.
      * apply (sameSelf_trans _ _ _ H1). eapply sameSelf_trans; [|exact Hs].
        unfold sameSelf; repeat split.
      * unfold stayedOrValid in *. cbn [Enemy.x Enemy.y Enemy.set_path] in Hm.
        rewrite <- Hx, <- Hy. exact Hm.
  - unfold bind, ret, Math_random. cbn [fst snd].
    destruct (Enemy.isValidPosition _ _ _ _) eqn:Hv; cbn [fst snd];
      [apply moved_to; assumption | apply stayed; assumption].
Qed.

(** X12.  An enemy never walks into a wall or off the grid: after [update] it
    is where it was, or on a position that [isValidPosition] accepts (a floor
    tile inside the grid).  So an enemy that stands on floor stands on floor
    after every update. *)
Theorem enemy_stays_on_floor (e : Enemy.t) (playerX playerY : Q)
    (grid : list Z) (mapSize : Z) (dt : Q) (w : World) :
  let e' := (Enemy.update e playerX playerY grid mapSize dt w).1 in
  stayedOrValid grid mapSize e e' /\
  (Enemy.isValidPosition (Enemy.x e) (Enemy.y e) grid mapSize = true ->
   Enemy.isValidPosition (Enemy.x e') (Enemy.y e') grid mapSize = true).
Proof.
  intros e'.
  assert (H : stayedOrValid grid mapSize e e').
  { subst e'. unfold Enemy.update.
    destruct (bool_decide _); [left; split; reflexivity|].
    destruct (Enemy.state e).
    - destruct (_ && _); [left; split; reflexivity | apply patrol_moves].
    - destruct (JS.ltb _ _); [left; split; reflexivity|].
      destruct (JS.ltb _ _); [left; split; reflexivity|].
      destruct (Enemy.hasLineOfSight _ _ _ _ _); [apply chaseLoop_moves|].
      left; split; reflexivity.
    - destruct (JS.ltb _ _); [left; split; reflexivity|].
      unfold bind, ret. rewrite tryAttack_run. cbn [fst snd].
      destruct (facePlayer_keeps e playerX playerY) as (_ & _ & _ & _ & _ & _ & Hx & Hy).
      left. destruct (JS.leb _ _); cbn [fst snd Enemy.x Enemy.y Enemy.set_lastAttackTime];
        auto.
    - left; split; reflexivity. }
  split; [exact H|]. intros Hv. destruct H as [[-> ->] | H]; assumption.
Qed.

(** ** The state machine *)

(** X13.  [update] moves the state of an enemy along the arrows
    idle <-> chase <-> attack only, and leaves a dead enemy dead: an idle
    enemy never attacks without having chased first.  A tick in which the
    state changes changes nothing else of the enemy, and reads neither the
    clock nor the random source. *)
Theorem update_follows_arrows (e : Enemy.t) (playerX playerY : Q)
    (grid : list Z) (mapSize : Z) (dt : Q) (w : World) :
  let r := Enemy.update e playerX playerY grid mapSize dt w in
  mayFollow (Enemy.state e) (Enemy.state r.1) = true /\
  (Enemy.state r.1 <> Enemy.state e ->
   r = (Enemy.set_state e (Enemy.state r.1), w)).
Proof.
  intros r. subst r. unfold Enemy.update.
  destruct (Enemy.state e) eqn:Hst.
  - rewrite bool_decide_eq_false_2 by discriminate.
    destruct (_ && _).
    + cbn. split; [reflexivity | reflexivity].
    + destruct (patrol_moves e grid mapSize dt w) as [(_ & _ & _ & _ & _ & _ & _ & _ & _ & Hs & _) _].
      rewrite Hs, Hst. split; [reflexivity | congruence].
  - rewrite bool_decide_eq_false_2 by discriminate.
    destruct (JS.ltb _ _); [cbn; split; reflexivity|].
    destruct (JS.ltb _ _); [cbn; split; reflexivity|].
    destruct (Enemy.hasLineOfSight _ _ _ _ _).
    + destruct (chaseLoop_moves (length (Enemy.path e)) e playerX playerY grid mapSize dt w)
        as [(_ & _ & _ & _ & _ & _ & _ & _ & _ & Hs & _) _].
      unfold Enemy.chasePlayer. rewrite Hs, Hst. split; [reflexivity | congruence].
    + cbn. rewrite Hst. split; [reflexivity | congruence].
  - rewrite bool_decide_eq_false_2 by discriminate.
    destruct (JS.ltb _ _); [cbn; split; reflexivity|].
    unfold bind, ret. rewrite tryAttack_run. cbn [fst snd].
    destruct (facePlayer_keeps e playerX playerY) as (_ & _ & _ & Hs & _).
    destruct (JS.leb _ _); cbn [fst snd Enemy.state Enemy.set_lastAttackTime];
      rewrite Hs, Hst; (split; [reflexivity | congruence]).
  - rewrite bool_decide_eq_true_2 by reflexivity. cbn. rewrite Hst.
    split; [reflexivity | congruence].
Qed.

(** X14.  An enemy attacks at most once per cooldown: a [tryAttack] that
    finds the cooldown elapsed returns the enemy's damage and records the
    time; a second [tryAttack] less than [attackCooldown] ms after it returns
    0 and leaves the enemy as it is. *)
Theorem enemy_attack_cooldown (e : Enemy.t) (w : World) :
  let t1 := clock w (ticks w) in
  let t2 := clock w (S (ticks w)) in
  let r1 := Enemy.tryAttack e w in
  let r2 := Enemy.tryAttack r1.1.2 r1.2 in
  (Enemy.attackCooldown e <= inject_Z (t1 - Enemy.lastAttackTime e))%Q ->
  r1.1.1 = Enemy.damage e /\ Enemy.lastAttackTime r1.1.2 = t1 /\
  ((inject_Z (t2 - t1) < Enemy.attackCooldown e)%Q ->
   r2.1.1 = 0%Q /\ r2.1.2 = r1.1.2) /\
  ((Enemy.attackCooldown e <= inject_Z (t2 - t1))%Q ->
   r2.1.1 = Enemy.damage e /\ Enemy.lastAttackTime r2.1.2 = t2).
Proof.
  intros t1 t2 r1 r2 Hready. subst r1 r2. rewrite !tryAttack_run.
  fold t1. unfold JS.leb.
  assert (E1 : Qle_bool (Enemy.attackCooldown e) (inject_Z (t1 - Enemy.lastAttackTime e)) = true)
    by (apply Qle_bool_iff; exact Hready).
  rewrite E1. cbn [fst snd afterClock clock ticks Enemy.attackCooldown
                   Enemy.lastAttackTime Enemy.set_lastAttackTime Enemy.damage].
  fold t1 t2. split; [reflexivity|]. split; [reflexivity|]. split.
  - intros Hsoon.
    destruct (Qle_bool (Enemy.attackCooldown e) (inject_Z (t2 - t1))) eqn:E2.
    + apply Qle_bool_iff in E2. lra.
    + split; reflexivity.
  - intros Hlate.
    assert (E2 : Qle_bool (Enemy.attackCooldown e) (inject_Z (t2 - t1)) = true)
      by (apply Qle_bool_iff; exact Hlate).
    rewrite E2. split; reflexivity.
Qed.

Lemma enemy_attack_cooldown_witness :
  let e := enemyAt (5 # 2) (3 # 2) ATTACK in
  let r1 := Enemy.tryAttack e world0 in
  let r2 := Enemy.tryAttack r1.1.2 r1.2 in
  r1.1.1 = Enemy.damage e /\ Enemy.lastAttackTime r1.1.2 = 10000%Z /\
  ((inject_Z (10100 - 10000) < Enemy.attackCooldown e)%Q ->
   r2.1.1 = 0%Q /\ r2.1.2 = r1.1.2) /\
  ((Enemy.attackCooldown e <= inject_Z (10100 - 10000))%Q ->
   r2.1.1 = Enemy.damage e /\ Enemy.lastAttackTime r2.1.2 = 10100%Z).
Proof.
  apply (enemy_attack_cooldown (enemyAt (5 # 2) (3 # 2) ATTACK) world0).
  vm_compute. discriminate.
Defined.

(** ** The manager *)

Lemma keeps_date : keeps Date_now.
Proof. intros w. split; reflexivity. Qed.

Lemma keeps_tryAttack (e : Enemy.t) : keeps (Enemy.tryAttack e).
Proof.
  unfold Enemy.tryAttack. apply keeps_bind; [apply keeps_date|].
  intros now. destruct (JS.leb _ _); apply keeps_ret.
Qed.

Lemma keeps_patrol (e : Enemy.t) (grid : list Z) (mapSize : Z) (dt : Q) :
  keeps (Enemy.patrol e grid mapSize dt).
Proof. unfold Enemy.patrol. keeps_tac. Qed.

Lemma keeps_chaseLoop (fuel : nat) (e : Enemy.t) (playerX playerY : Q)
    (grid : list Z) (mapSize : Z) (dt : Q) :
  keeps (Enemy.chaseLoop fuel e playerX playerY grid mapSize dt).
Proof.
  revert e. induction fuel as [|fuel IH]; intros e; cbn [Enemy.chaseLoop];
    set (e1 := if _ : bool then _ else _);
    (destruct (Enemy.path e1) as [|target rest]; [apply keeps_ret|]);
    destruct (JS.ltb _ _).
  - destruct rest; apply keeps_ret.
  - keeps_tac.
  - destruct rest; [apply keeps_ret | apply IH].
  - keeps_tac.
Qed.

Lemma keeps_update (e : Enemy.t) (playerX playerY : Q) (grid : list Z)
    (mapSize : Z) (dt : Q) :
  keeps (Enemy.update e playerX playerY grid mapSize dt).
Proof.
  unfold Enemy.update. destruct (bool_decide _); [apply keeps_ret|].
  destruct (Enemy.state e).
  - destruct (_ && _); [apply keeps_ret | apply keeps_patrol].
  - destruct (JS.ltb _ _); [apply keeps_ret|].
    destruct (JS.ltb _ _); [apply keeps_ret|].
    destruct (Enemy.hasLineOfSight _ _ _ _ _); [apply keeps_chaseLoop | apply keeps_ret].
  - destruct (JS.ltb _ _); [apply keeps_ret|].
    apply keeps_bind; [apply keeps_tryAttack | intros r; apply keeps_ret].
  - apply keeps_ret.
Qed.

Lemma sameSelf_sameEnemy (e e' : Enemy.t) :
  sameSelf e e' -> Enemy.state e <> DEAD -> sameEnemy e e'.
Proof.
  unfold sameSelf, sameEnemy.
  intros (A1 & A2 & A3 & A4 & A5 & A6 & A7 & A8 & A9 & A10 & A11) Hst.
  repeat split; try assumption; [contradiction | congruence].
Qed.

Lemma sameEnemy_trans (a b c : Enemy.t) :
  sameEnemy a b -> sameEnemy b c -> sameEnemy a c.
Proof.
  unfold sameEnemy.
  intros (A1 & A2 & A3 & A4 & A5 & A6 & A7 & A8 & A9 & A10 & A11)
         (B1 & B2 & B3 & B4 & B5 & B6 & B7 & B8 & B9 & B10 & B11).
  repeat split; try congruence.
  - intros H. pose proof (A10 H). subst b. apply B10. exact H.
  - intros H. apply A11, B11, H.
Qed.

(** [tryAttack] writes [lastAttackTime] at most, and answers the damage of
    the enemy or 0. *)
Lemma tryAttack_spec (e : Enemy.t) (w : World) :
  ((Enemy.tryAttack e w).1.1 = Enemy.damage e \/ (Enemy.tryAttack e w).1.1 = 0%Q) /\
  ((Enemy.tryAttack e w).1.2 = e \/
   (Enemy.tryAttack e w).1.2 = Enemy.set_lastAttackTime e (clock w (ticks w))).
Proof.
  rewrite tryAttack_run. destruct (JS.leb _ _); cbn [fst snd]; auto.
Qed.

Lemma update_sameEnemy (e : Enemy.t) (playerX playerY : Q) (grid : list Z)
    (mapSize : Z) (dt : Q) (w : World) :
  sameEnemy e (Enemy.update e playerX playerY grid mapSize dt w).1.
Proof.
  unfold Enemy.update. destruct (Enemy.state e) eqn:Hst.
  - rewrite bool_decide_eq_false_2 by discriminate.
    destruct (_ && _).
    + unfold sameEnemy. cbn. rewrite Hst. repeat split; discriminate.
    + apply sameSelf_sameEnemy; [apply patrol_moves | congruence].
  - rewrite bool_decide_eq_false_2 by discriminate.
    destruct (JS.ltb _ _); [unfold sameEnemy; cbn; rewrite Hst; repeat split; discriminate|].
    destruct (JS.ltb _ _); [unfold sameEnemy; cbn; rewrite Hst; repeat split; discriminate|].
    destruct (Enemy.hasLineOfSight _ _ _ _ _).
    + apply sameSelf_sameEnemy; [apply chaseLoop_moves | congruence].
    + unfold sameEnemy. cbn. rewrite Hst. repeat split; discriminate.
  - rewrite bool_decide_eq_false_2 by discriminate.
    destruct (JS.ltb _ _); [unfold sameEnemy; cbn; rewrite Hst; repeat split; discriminate|].
    unfold bind. rewrite tryAttack_run. unfold ret. cbn [fst snd].
    destruct (updateDirection_self e (playerX - Enemy.x e) (playerY - Enemy.y e))
      as ((A1 & A2 & A3 & A4 & A5 & A6 & A7 & A8 & A9 & A10 & A11) & _).
    fold (Enemy.facePlayer e playerX playerY) in *.
    destruct (JS.leb _ _); cbn [fst snd];
      unfold sameEnemy; cbn [Enemy.id Enemy.type Enemy.maxHealth Enemy.health
        Enemy.damage Enemy.speed Enemy.detectionRange Enemy.attackRange
        Enemy.attackCooldown Enemy.state Enemy.set_lastAttackTime];
      rewrite ?A10, ?Hst; repeat split; try assumption; discriminate.
  - rewrite bool_decide_eq_true_2 by reflexivity. cbn.
    unfold sameEnemy. repeat split. auto.
Qed.

(** One enemy of the array, as [update] visits it. *)
Lemma updateOne_spec (playerX playerY : Q) (grid : list Z) (mapSize : Z) (dt : Q)
    (total : Q) (seen : list Enemy.t) (enemy : Enemy.t) (w : World) :
  let r := EnemyManager.updateOne playerX playerY grid mapSize dt (total, seen) enemy w in
  exists e' dmg,
    r.1 = (dmg, seen ++ [e']) /\ sameEnemy enemy e' /\
    (dmg = total \/ dmg = (total + Enemy.damage enemy)%Q \/ dmg = (total + 0)%Q) /\
    clock r.2 = clock w.
Proof.
  intros r. subst r. unfold EnemyManager.updateOne.
  destruct (Enemy.isAlive enemy) eqn:Halive.
  - unfold bind.
    pose proof (update_sameEnemy enemy playerX playerY grid mapSize dt w) as Hs.
    destruct (keeps_update enemy playerX playerY grid mapSize dt w) as [_ Hc].
    destruct (Enemy.update enemy playerX playerY grid mapSize dt w) as [e1 w1].
    cbn [fst snd] in Hs, Hc.
    destruct (bool_decide (Enemy.state e1 = ATTACK)) eqn:Hatt.
    + apply bool_decide_eq_true in Hatt.
      destruct (keeps_tryAttack e1 w1) as [_ Hc2].
      destruct (tryAttack_spec e1 w1) as [Hd He].
      destruct (Enemy.tryAttack e1 w1) as [[dmg e2] w2]. unfold ret. cbn [fst snd] in *.
      exists e2, (total + dmg)%Q. split; [reflexivity|]. split; [|split; [|congruence]].
      * apply (sameEnemy_trans _ _ _ Hs).
        destruct He as [-> | ->]; unfold sameEnemy; cbn; rewrite ?Hatt;
          repeat split; try discriminate; auto.
      * destruct Hs as (_ & _ & _ & _ & Hdm & _).
        destruct Hd as [-> | ->]; [right; left; congruence | right; right; reflexivity].
    + unfold ret. cbn [fst snd]. exists e1, total.
      split; [reflexivity|]. split; [exact Hs|]. split; [auto | exact Hc].
  - unfold ret. cbn [fst snd]. exists enemy, total. split; [reflexivity|].
    split; [|split; [auto | reflexivity]].
    unfold sameEnemy. repeat split. auto.
Qed.

(** X15.  [EnemyManager.update] never adds, removes, reorders, renames,
    heals or harms an enemy, and never kills one: the array afterwards holds
    the same enemies in the same order, each with its [id], [type], [health],
    [maxHealth] and other numbers; an enemy that was dead is not touched at
    all, and [nextId] stays. *)
Theorem manager_update_keeps_roster (m : EnemyManager.t) (playerX playerY : Q)
    (grid : list Z) (mapSize : Z) (dt : Q) (w : World) :
  let r := EnemyManager.update m playerX playerY grid mapSize dt w in
  EnemyManager.nextId r.1.2 = EnemyManager.nextId m /\
  Forall2 sameEnemy (EnemyManager.enemies m) (EnemyManager.enemies r.1.2).
Proof.
  intros r. subst r. unfold EnemyManager.update, bind, ret.
  assert (H : forall l total seen w0,
            exists out,
              (forEachM (EnemyManager.updateOne playerX playerY grid mapSize dt)
                        (total, seen) l w0).1.2 = seen ++ out /\
              Forall2 sameEnemy l out).
  { induction l as [|e l IH]; intros total seen w0.
    - exists []. cbn. rewrite app_nil_r. split; [reflexivity | constructor].
    - cbn [forEachM]. unfold bind.
      destruct (updateOne_spec playerX playerY grid mapSize dt total seen e w0)
        as (e' & dmg & E & Hs & _).
      destruct (EnemyManager.updateOne _ _ _ _ _ _ e w0) as [acc w1].
      cbn [fst snd] in E. subst acc.
      destruct (IH dmg (seen ++ [e']) w1) as (out & Eout & Hout).
      exists (e' :: out). rewrite Eout, <- app_assoc. split; [reflexivity|].
      constructor; assumption. }
  destruct (H (EnemyManager.enemies m) 0%Q [] w) as (out & E & Hout).
  destruct (forEachM _ _ _ _) as [[total seen] w1]. cbn [fst snd] in *.
  subst seen. split; [reflexivity | exact Hout].
Qed.





(* ===================================================================== *)
(** * Further properties of the frame controller *)
(* ===================================================================== *)

Section FrameLoop.
Variable sc : Frame.Scene.

Lemma stepTo_stays (px py tx ty : Q) :
  walkable sc px py = true ->
  walkable sc (Frame.stepTo sc px py tx ty).1 (Frame.stepTo sc px py tx ty).2 = true.
Proof.
  intros H. rewrite stepTo_walkable.
  destruct (walkable sc tx ty) eqn:Hw; cbn [fst snd]; assumption.
Qed.

Lemma moveForward_walkable (keys : Frame.Keys) (dt dx dy : Q) (pos : Q * Q) :
  walkable sc pos.1 pos.2 = true ->
  walkable sc (Frame.moveForward sc keys dt dx dy pos).1
              (Frame.moveForward sc keys dt dx dy pos).2 = true.
Proof.
  destruct pos as [px py]. unfold Frame.moveForward. cbn [fst snd]. intros H.
  destruct (negb _); [|exact H].
  apply stepTo_stays, H.
Qed.

Lemma moveStrafe_walkable (keys : Frame.Keys) (dt dx dy : Q) (pos : Q * Q) :
  walkable sc pos.1 pos.2 = true ->
  walkable sc (Frame.moveStrafe sc keys dt dx dy pos).1
              (Frame.moveStrafe sc keys dt dx dy pos).2 = true.
Proof.
  destruct pos as [px py]. unfold Frame.moveStrafe. cbn [fst snd]. intros H.
  destruct (negb _); [|exact H].
  apply stepTo_stays, H.
Qed.

(** Where a frame leaves the player: where the two translations led, or, in
    a paused frame, where the player was. *)
Lemma animate_position (keys : Frame.Keys) (now : Q) (st : Frame.State) (w : World) :
  let st' := (Frame.animate sc keys now st w).1 in
  (Frame.x (Frame.player st'), Frame.y (Frame.player st'))
    = (Frame.x (Frame.player st), Frame.y (Frame.player st)) \/
  exists dt dx dy,
    (Frame.x (Frame.player st'), Frame.y (Frame.player st'))
    = Frame.moveStrafe sc keys dt dx dy
        (Frame.moveForward sc keys dt dx dy
           (Frame.x (Frame.player st), Frame.y (Frame.player st))).
Proof.
  unfold Frame.animate. destruct (Frame.gamePaused st); [left; reflexivity|].
  right. eexists _, _, _.
  destruct (Frame.moveStrafe _ _ _ _ _ _) as [px py] eqn:Epos.
  destruct (_ && negb (Frame.levelComplete sc)).
  - unfold bind, Date_now, ret. cbn [fst Frame.player Frame.x Frame.y]. symmetry. exact Epos.
  - unfold bind. destruct (EnemyManager.update _ _ _ _ _ _ _) as [[dmg em1] w1].
    destruct (_ && negb (Frame.gameOver sc)).
    + unfold Date_now, ret. cbn [fst Frame.player].
      destruct (JS.ltb 0 dmg); cbn [Frame.x Frame.y]; symmetry; exact Epos.
    + destruct (Frame.minimap sc), (Frame.onPlayerMove sc);
        unfold Date_now, Math_random, ret; cbn [fst snd];
        destruct (Frame.applyShake _ _) as [sh2 w2]; cbn [fst Frame.player];
        destruct (JS.ltb 0 dmg); cbn [Frame.x Frame.y]; symmetry; exact Epos.
Qed.

(** X17.  The player never ends up in a wall.  Standing on a tile of code 0
    or 9 when the loop starts, the player stands on such a tile after any
    sequence of frames and shop events, whatever keys are held and however
    long the frames take. *)
Theorem player_never_in_wall (st : Frame.State) (evs : list Frame.Event) (w : World)
    (Hstart : walkable sc (Frame.x (Frame.player st)) (Frame.y (Frame.player st)) = true) :
  let st' := (Frame.run sc st evs w).1 in
  walkable sc (Frame.x (Frame.player st')) (Frame.y (Frame.player st')) = true.
Proof.
  cbn zeta. revert st w Hstart. unfold Frame.run.
  induction evs as [|ev evs IH]; intros st w Hstart; [exact Hstart|].
  cbn [forEachM]. unfold bind.
  destruct ev as [keys now | |]; cbn [Frame.handle].
  - destruct (Frame.scheduled st); [|apply IH; exact Hstart].
    pose proof (animate_position keys now st w) as H. cbn zeta in H.
    destruct (Frame.animate sc keys now st w) as [st1 w1]. cbn [fst] in H.
    apply IH. destruct H as [H | (dt & dx & dy & H)].
    + injection H as -> ->. exact Hstart.
    + pose proof (moveStrafe_walkable keys dt dx dy _
                    (moveForward_walkable keys dt dx dy
                       (Frame.x (Frame.player st), Frame.y (Frame.player st)) Hstart)) as Hw.
      rewrite <- H in Hw. exact Hw.
  - apply IH. exact Hstart.
  - apply IH. exact Hstart.
Qed.

(** X18.  The frame in which the enemies bring the health of the player from
    above 0 to 0 ends the game, the closure holding [gameOver = false]: the
    health is exactly 0, the game-over statistics are set (without a
    [healthRemaining]), the game is paused and nothing is saved to the
    database; whatever events follow, no call of [animate] runs again. *)
Theorem game_over_stops_the_loop (keys : Frame.Keys) (now : Q)
    (st : Frame.State) (w : World)
    (Hover : Frame.gameOver sc = false)
    (Hsched : Frame.scheduled st = true)
    (Hpaused : Frame.gamePaused st = false)
    (Halive : (0 < Frame.health (Frame.player st))%Q) :
  let r := Frame.handle sc st (Frame.AnimationFrame keys now) w in
  (Frame.health (Frame.player r.1) <= 0)%Q ->
  Frame.health (Frame.player r.1) == 0 /\
  Frame.gameOverSet r.1 = true /\
  (exists t : Z,
     Frame.gameOverStats r.1
     = Some (Frame.mkLevelStats (CombatManager.kills (Frame.combatManager st))
                                (Frame.playerGold sc)
                                (inject_Z (t - Frame.startTime st) / 1000)
                                None
                                (Frame.inventoryLength sc))) /\
  Frame.gamePaused r.1 = true /\
  Frame.saved r.1 = Frame.saved st /\
  Frame.completionStats r.1 = Frame.completionStats st /\
  forall evs w', exists b, Frame.run sc r.1 evs w' = (Frame.setPaused r.1 b, w').
Proof.
  intros r. subst r. cbn [Frame.handle]. rewrite Hsched.
  unfold Frame.animate. rewrite Hpaused, Hover.
  destruct (Frame.moveStrafe _ _ _ _ _ _) as [px py].
  destruct (_ && negb (Frame.levelComplete sc)).
  - unfold bind, Date_now, ret. cbn [fst Frame.player Frame.health]. intros H. lra.
  - unfold bind. destruct (EnemyManager.update _ _ _ _ _ _ _) as [[dmg em1] w1].
    cbn [negb]. rewrite andb_true_r.
    destruct (JS.ltb 0 dmg) eqn:Hdmg; cbn [andb].
    + cbn [Frame.health].
      destruct (JS.leb (Qmax 0 (Frame.health (Frame.player st) - dmg)) 0) eqn:Hdead.
      * intros _. unfold Date_now, ret. cbn [fst snd Frame.player Frame.health
          Frame.gameOverSet Frame.gameOverStats Frame.gamePaused Frame.saved
          Frame.completionStats].
        split.
        { apply Qle_bool_iff in Hdead. pose proof (Q.le_max_l 0 (Frame.health (Frame.player st) - dmg)).
          lra. }
        split; [reflexivity|]. split; [eexists; reflexivity|].
        split; [reflexivity|]. split; [reflexivity|]. split; [reflexivity|].
        intros evs w'. apply run_unscheduled. reflexivity.
      * intros H. exfalso. revert H.
        destruct (Frame.minimap sc), (Frame.onPlayerMove sc);
          unfold Date_now, Math_random, ret; cbn [fst snd];
          destruct (Frame.applyShake _ _) as [sh2 w2];
          cbn [fst Frame.player Frame.health]; intros H;
          apply Qle_bool_iff in H; unfold JS.leb in Hdead; congruence.
    + intros H. exfalso. revert H.
      destruct (Frame.minimap sc), (Frame.onPlayerMove sc);
        unfold Date_now, Math_random, ret; cbn [fst snd];
        destruct (Frame.applyShake _ _) as [sh2 w2];
        cbn [fst Frame.player Frame.health]; intros H; lra.
Qed.

End FrameLoop.

Lemma player_never_in_wall_witness :
  let st' := (Frame.run alleyScene (frameState (3 # 2) (3 # 2))
                [Frame.AnimationFrame onlyForward 16; Frame.ShopOpened;
                 Frame.AnimationFrame onlyForward 32; Frame.ShopClosed;
                 Frame.AnimationFrame onlyForward 48] world0).1 in
  walkable alleyScene (Frame.x (Frame.player st')) (Frame.y (Frame.player st')) = true.
Proof.
  apply (player_never_in_wall alleyScene (frameState (3 # 2) (3 # 2))).
  vm_compute. reflexivity.
Defined.

Lemma game_over_stops_the_loop_witness :
  let r := Frame.handle duelScene duelState (Frame.AnimationFrame noKeys 16) world0 in
  Frame.health (Frame.player r.1) == 0 /\
  Frame.gameOverSet r.1 = true /\
  (exists t : Z,
     Frame.gameOverStats r.1
     = Some (Frame.mkLevelStats (CombatManager.kills (Frame.combatManager duelState))
                                (Frame.playerGold duelScene)
                                (inject_Z (t - Frame.startTime duelState) / 1000)
                                None
                                (Frame.inventoryLength duelScene))) /\
  Frame.gamePaused r.1 = true /\
  Frame.saved r.1 = Frame.saved duelState /\
  Frame.completionStats r.1 = Frame.completionStats duelState /\
  forall evs w', exists b, Frame.run duelScene r.1 evs w' = (Frame.setPaused r.1 b, w').
Proof.
  apply (game_over_stops_the_loop duelScene noKeys 16 duelState world0).
  - reflexivity.
  - reflexivity.
  - reflexivity.
  - vm_compute. reflexivity.
  - vm_compute. discriminate.
Defined.

(* ===================================================================== *)
(** * Spawning the enemies *)
(* ===================================================================== *)

(** [v || d || d] is [v || d], for a [d] that is not 0. *)
Lemma or_else_twice (v d : Q) :
  Qeq_bool d 0 = false -> JS.or_else (JS.or_else v d) d = JS.or_else v d.
Proof.
  intros Hd. unfold JS.or_else. destruct (Qeq_bool v 0) eqn:Hv.
  - rewrite Hd. reflexivity.
  - rewrite Hv. reflexivity.
Qed.

Lemma or_else_opt_twice (v : option Q) (d : Q) :
  Qeq_bool d 0 = false -> JS.or_else (JS.or_else_opt v d) d = JS.or_else_opt v d.
Proof.
  intros Hd. destruct v as [q|]; cbn [JS.or_else_opt].
  - apply or_else_twice, Hd.
  - unfold JS.or_else. rewrite Hd. reflexivity.
Qed.

Lemma keeps_create (i : Z) (ex ey : Q) (ty : string) (stats : Stats) :
  keeps (Enemy.create i ex ey ty stats).
Proof. unfold Enemy.create. keeps_tac. Qed.

(** The loop of [spawnEnemies] over a list of enemy types that is not empty. *)
Lemma spawnEach_spec (enemyTypes : list EnemyType) (spawnPositions : list (Z * Z)) :
  enemyTypes <> [] ->
  forall (index : nat) (m : EnemyManager.t) (w : World),
  exists es,
    (EnemyManager.spawnEach enemyTypes index spawnPositions m w).1
    = EnemyManager.Returned
        (EnemyManager.mk (EnemyManager.enemies m ++ es)
                         (EnemyManager.nextId m + Z.of_nat (length spawnPositions))) /\
    length es = length spawnPositions /\
    forall (i : nat) pos, spawnPositions !! i = Some pos ->
      exists e ty, es !! i = Some e /\
                   enemyTypes !! ((index + i) mod length enemyTypes)%nat = Some ty /\
                   spawnedAs (EnemyManager.nextId m + Z.of_nat i) pos ty e.
Proof.
  intros Hne.
  assert (Hlen : (length enemyTypes =? 0)%nat = false).
  { apply Nat.eqb_neq. destruct enemyTypes; [congruence | cbn; lia]. }
  induction spawnPositions as [|pos rest IH]; intros index m w.
  - exists []. cbn [EnemyManager.spawnEach length]. unfold ret. cbn [fst].
    rewrite app_nil_r, Z.add_0_r. destruct m. split; [reflexivity|].
    split; [reflexivity|]. intros i pos Hi. rewrite lookup_nil in Hi. discriminate.
  - cbn [EnemyManager.spawnEach]. rewrite Hlen.
    destruct (lookup_lt_is_Some_2 enemyTypes (index mod length enemyTypes)%nat)
      as [ty Hty].
    { apply Nat.mod_upper_bound. apply Nat.eqb_neq in Hlen. exact Hlen. }
    rewrite Hty. unfold bind.
    set (stats := mkStats _ _ _ _ _ _).
    assert (He : spawnedAs (EnemyManager.nextId m) pos ty
                   (Enemy.create (EnemyManager.nextId m) (inject_Z pos.1 + (1 # 2))
                                 (inject_Z pos.2 + (1 # 2)) (et_id ty) stats w).1).
    { unfold Enemy.create, bind, Math_random, ret, spawnedAs, stats.
      cbn [fst snd Enemy.id Enemy.x Enemy.y Enemy.type Enemy.state Enemy.health
           Enemy.maxHealth Enemy.damage Enemy.speed st_health st_damage st_speed].
      rewrite !or_else_opt_twice by reflexivity.
      repeat split. destruct (et_speed ty) as [v|]; cbn [JS.or_else_opt];
        first [reflexivity | apply or_else_twice; reflexivity]. }
    destruct (Enemy.create _ _ _ _ stats w) as [e w1]. cbn [fst] in He.
    destruct (IH (S index) (EnemyManager.mk (EnemyManager.enemies m ++ [e])
                                            (EnemyManager.nextId m + 1)) w1)
      as (es & E & Hes & Hall).
    exists (e :: es). rewrite E. cbn [EnemyManager.enemies EnemyManager.nextId length].
    split; [|split; [cbn [length]; congruence|]].
    + rewrite <- app_assoc. cbn [app]. do 2 f_equal. lia.
    + intros [|i] p Hi.
      * cbn in Hi. injection Hi as <-. exists e, ty.
        rewrite Nat.add_0_r, Z.add_0_r. auto.
      * cbn [lookup list_lookup] in Hi. destruct (Hall i p Hi) as (e' & ty' & He' & Hty' & Hs).
        exists e', ty'. split; [exact He'|]. split.
        -- rewrite <- Hty'. f_equal. f_equal. lia.
        -- replace (EnemyManager.nextId m + Z.of_nat (S i))%Z
             with (EnemyManager.nextId m + 1 + Z.of_nat i)%Z by lia.
           exact Hs.
Qed.

(** X19.  [spawnEnemies] replaces the enemies of the manager by one enemy for
    each spawn position, in the order of the positions: the [i]-th one has the
    id [nextId + i] (ids are never reused, [nextId] moves on by their number),
    stands at the centre of the tile of the [i]-th position, is idle and at
    full health, and has the entry [i % enemyTypes.length] of the enemy types.
    With no enemy type and a position to fill, the call throws instead,
    leaving the manager empty and one id used. *)
Theorem spawnEnemies_roster (m : EnemyManager.t) (spawnPositions : list (Z * Z))
    (enemyTypes : list EnemyType) (w : World) :
  let r := EnemyManager.spawnEnemies m spawnPositions enemyTypes w in
  (enemyTypes = [] /\ spawnPositions <> [] /\
   r.1 = EnemyManager.Threw (EnemyManager.mk [] (EnemyManager.nextId m + 1))) \/
  ((enemyTypes <> [] \/ spawnPositions = []) /\
   exists es,
     r.1 = EnemyManager.Returned
             (EnemyManager.mk es
                (EnemyManager.nextId m + Z.of_nat (length spawnPositions))) /\
     length es = length spawnPositions /\
     forall (i : nat) pos, spawnPositions !! i = Some pos ->
       exists e ty, es !! i = Some e /\
                    enemyTypes !! (i mod length enemyTypes)%nat = Some ty /\
                    spawnedAs (EnemyManager.nextId m + Z.of_nat i) pos ty e).
Proof.
  intros r. subst r. unfold EnemyManager.spawnEnemies.
  destruct enemyTypes as [|ty0 types].
  - destruct spawnPositions as [|pos rest].
    + right. split; [right; reflexivity|]. exists [].
      cbn. rewrite Z.add_0_r. split; [reflexivity|]. split; [reflexivity|].
      intros i pos Hi. rewrite lookup_nil in Hi. discriminate.
    + left. split; [reflexivity|]. split; [discriminate|]. reflexivity.
  - right. split; [left; discriminate|].
    destruct (spawnEach_spec (ty0 :: types) spawnPositions ltac:(discriminate) 0%nat
                (EnemyManager.mk [] (EnemyManager.nextId m)) w) as (es & E & Hlen & Hall).
    exists es. split; [exact E|]. split; [exact Hlen|]. exact Hall.
Qed.

Lemma floor_centre (a : Z) : JS.floor (inject_Z a + (1 # 2)) = a.
Proof.
  unfold JS.floor, Qfloor, Qplus, inject_Z. cbn [Qnum Qden Pos.mul].
  rewrite Z.mul_1_l. change (Z.pos (1 * 2)) with 2%Z.
  symmetry. apply (Z.div_unique _ _ _ 1); lia.
Qed.

(** X20.  From the generator to the enemies.  In a dungeon generated with
    [size] and [minRoomSize] at least 3, the enemies that [spawnEnemies]
    makes at the positions of [getEnemySpawnPositions], for enemy types that
    are not empty, are as many as the positions, and each of them is alive
    and stands where an enemy may stand ([isValidPosition]): on a floor tile
    that the player can reach from the start, which is neither the start
    tile nor the exit. *)
Theorem spawned_enemies_stand_on_floor
    (size minRoomSize maxRoomSize recursionDepth count : Z)
    (m : EnemyManager.t) (enemyTypes : list EnemyType) (w w' w'' : World) :
  fair w -> fair w' -> (3 <= size)%Z -> (3 <= minRoomSize)%Z -> (1 <= maxRoomSize)%Z ->
  enemyTypes <> [] ->
  exists (d : Dungeon.t) (l : list (Z * Z)) (m' : EnemyManager.t),
    (Dungeon.generateDungeon size minRoomSize maxRoomSize recursionDepth w).1 = Some d /\
    (Dungeon.getEnemySpawnPositions (Dungeon.rooms d) (Dungeon.playerStart d)
                                    (Dungeon.exit d) count w').1 = Some l /\
    (EnemyManager.spawnEnemies m l enemyTypes w'').1 = EnemyManager.Returned m' /\
    length (EnemyManager.enemies m') = length l /\
    forall e, e ∈ EnemyManager.enemies m' ->
      let tile := (JS.floor (Enemy.x e), JS.floor (Enemy.y e)) in
      Enemy.isAlive e = true /\
      Enemy.isValidPosition (Enemy.x e) (Enemy.y e)
                            (Dungeon.mapData d) (Dungeon.size d) = true /\
      linked (Dungeon.mapData d) (Dungeon.size d) (Dungeon.playerStart d) tile /\
      tile <> Dungeon.playerStart d /\ tile <> Dungeon.exit d.
Proof.
  intros Hw Hw' Hsize Hmin Hmax Hne.
  destruct (middle_rooms_floor size minRoomSize maxRoomSize recursionDepth w
              Hw Hsize Hmin Hmax) as (d & Ed & Hfloor).
  destruct (spawn_positions_spec_aux (Dungeon.rooms d) (Dungeon.playerStart d)
              (Dungeon.exit d) count w' Hw') as (l & El & Hspawned).
  assert (Hall : forall p, p ∈ l ->
            codeAt (Dungeon.mapData d) (Dungeon.size d) p = Some 0%Z /\
            linked (Dungeon.mapData d) (Dungeon.size d) (Dungeon.playerStart d) p /\
            p <> Dungeon.playerStart d /\ p <> Dungeon.exit d)
    by (intros p Hp; apply Hfloor, Hspawned, Hp).
  unfold EnemyManager.spawnEnemies.
  destruct (spawnEach_spec enemyTypes l Hne 0%nat
              (EnemyManager.mk [] (EnemyManager.nextId m)) w'') as (es & E & Hlen & Hes).
  cbn [EnemyManager.enemies EnemyManager.nextId app] in E.
  exists d, l. eexists. split; [exact Ed|]. split; [exact El|]. split; [exact E|].
  cbn [EnemyManager.enemies]. split; [exact Hlen|].
  intros e He. cbv zeta.
  apply list_elem_of_lookup_1 in He as [i Hi].
  destruct (lookup_lt_is_Some_2 l i) as [pos Hpos].
  { rewrite <- Hlen. apply lookup_lt_is_Some_1. eauto. }
  destruct (Hes i pos Hpos) as (e' & ty & He' & _ & Hs).
  rewrite Hi in He'. injection He' as <-.
  destruct Hs as (_ & Hx & Hy & _ & Hst & _).
  rewrite Hx, Hy, !floor_centre.
  destruct (Hall pos (list_elem_of_lookup_2 _ _ _ Hpos)) as (Hcode & Hlink & Hns & Hnx).
  destruct pos as [a b]. cbn [fst snd] in *.
  split; [unfold Enemy.isAlive; rewrite Hst; reflexivity|].
  split; [|split; [exact Hlink | split; [exact Hns | exact Hnx]]].
  unfold Enemy.isValidPosition. rewrite !floor_centre.
  unfold codeAt in Hcode. destruct (inGrid (Dungeon.size d) (a, b)) eqn:Hg; [|discriminate].
  cbn [fst snd] in Hcode.
  apply inGrid_true in Hg. cbn [fst snd] in Hg.
  replace ((a <? 0) || (a >=? Dungeon.size d) || (b <? 0) || (b >=? Dungeon.size d))%Z
    with false by (symmetry; repeat (apply orb_false_intro); lia).
  unfold tileIs. rewrite Hcode. reflexivity.
Qed.

Lemma spawned_enemies_stand_on_floor_witness :
  exists (d : Dungeon.t) (l : list (Z * Z)) (m' : EnemyManager.t),
    (Dungeon.generateDungeon 24 4 8 4 world0).1 = Some d /\
    (Dungeon.getEnemySpawnPositions (Dungeon.rooms d) (Dungeon.playerStart d)
                                    (Dungeon.exit d) 5 lopsided).1 = Some l /\
    (EnemyManager.spawnEnemies EnemyManager.create l
       [mkEnemyType "grunt" (Some 60%Q) None (Some (1 # 20)) None None None] world0).1
    = EnemyManager.Returned m' /\
    length (EnemyManager.enemies m') = length l /\
    forall e, e ∈ EnemyManager.enemies m' ->
      let tile := (JS.floor (Enemy.x e), JS.floor (Enemy.y e)) in
      Enemy.isAlive e = true /\
      Enemy.isValidPosition (Enemy.x e) (Enemy.y e)
                            (Dungeon.mapData d) (Dungeon.size d) = true /\
      linked (Dungeon.mapData d) (Dungeon.size d) (Dungeon.playerStart d) tile /\
      tile <> Dungeon.playerStart d /\ tile <> Dungeon.exit d.
Proof.
  apply (spawned_enemies_stand_on_floor 24 4 8 4 5 EnemyManager.create
           [mkEnemyType "grunt" (Some 60%Q) None (Some (1 # 20)) None None None]
           world0 lopsided world0); [| |lia|lia|lia|discriminate].
  - intros k. vm_compute. split; [discriminate | reflexivity].
  - intros k. unfold lopsided. cbn [dice]. destruct (k =? 1)%nat.
    + split; [discriminate | reflexivity].
    + split; [discriminate | reflexivity].
Defined.

(* ===================================================================== *)
(** * The queries of the enemy manager *)
(* ===================================================================== *)

(** X21.  The three views that the manager gives of its dead agree.
    [allEnemiesDead()] holds exactly when [getAliveEnemies()] is empty, so it
    holds of a manager without enemies; [removeDeadEnemies()] leaves exactly
    the enemies of [getAliveEnemies()], in their order, all of them alive;
    doing it twice is doing it once; and after it [allEnemiesDead()] holds
    exactly when no enemy is left. *)
Theorem dead_enemies_queries_agree (m : EnemyManager.t) :
  (EnemyManager.allEnemiesDead m = true <-> EnemyManager.getAliveEnemies m = []) /\
  EnemyManager.allEnemiesDead EnemyManager.create = true /\
  EnemyManager.getAllEnemies (EnemyManager.removeDeadEnemies m)
    = EnemyManager.getAliveEnemies m /\
  Forall (fun e => Enemy.state e <> DEAD)
         (EnemyManager.getAllEnemies (EnemyManager.removeDeadEnemies m)) /\
  EnemyManager.removeDeadEnemies (EnemyManager.removeDeadEnemies m)
    = EnemyManager.removeDeadEnemies m /\
  (EnemyManager.allEnemiesDead (EnemyManager.removeDeadEnemies m) = true <->
   EnemyManager.getAllEnemies (EnemyManager.removeDeadEnemies m) = []).
Proof.
  unfold EnemyManager.allEnemiesDead, EnemyManager.getAliveEnemies,
    EnemyManager.removeDeadEnemies, EnemyManager.getAllEnemies.
  cbn [EnemyManager.enemies EnemyManager.nextId].
  assert (Hall : forall l : list Enemy.t,
            forallb (fun e => negb (Enemy.isAlive e)) l = true
            <-> List.filter Enemy.isAlive l = []).
  { induction l as [|e l IH]; [cbn; tauto|].
    cbn [forallb List.filter]. destruct (Enemy.isAlive e); cbn [negb andb].
    - split; discriminate.
    - exact IH. }
  assert (Hidem : forall l : list Enemy.t,
            List.filter Enemy.isAlive (List.filter Enemy.isAlive l)
            = List.filter Enemy.isAlive l).
  { induction l as [|e l IH]; [reflexivity|].
    cbn [List.filter]. destruct (Enemy.isAlive e) eqn:He; [|exact IH].
    cbn [List.filter]. rewrite He, IH. reflexivity. }
  split; [apply Hall|]. split; [reflexivity|]. split; [reflexivity|].
  split; [|split].
  - apply Forall_forall. intros e He.
    first [apply list_elem_of_In in He | apply elem_of_list_In in He].
    apply filter_In in He as [_ He].
    unfold Enemy.isAlive in He. apply negb_true_iff, bool_decide_eq_false in He. exact He.
  - rewrite Hidem. reflexivity.
  - rewrite Hall, Hidem. tauto.
Qed.

(* ===================================================================== *)
(** * The shot of the player *)
(* ===================================================================== *)

(** The places of the live enemies: as many as [getAliveEnemies] returns,
    each the place of the enemy that stands there in the array returned. *)
Lemma aliveRefs_lookup (es : list Enemy.t) (i j r : nat) :
  Frame.aliveRefs i es !! j = Some r ->
  (i <= r)%nat /\
  exists e, es !! (r - i)%nat = Some e /\ List.filter Enemy.isAlive es !! j = Some e /\
            Enemy.isAlive e = true.
Proof.
  revert i j. induction es as [|e es IH]; intros i j; cbn [Frame.aliveRefs List.filter].
  - rewrite lookup_nil. discriminate.
  - destruct (Enemy.isAlive e) eqn:He.
    + destruct j as [|j]; cbn [lookup list_lookup].
      * intros H. injection H as <-. split; [lia|]. exists e.
        rewrite Nat.sub_diag. auto.
      * intros H. destruct (IH (S i) j H) as (Hle & e' & H1 & H2 & H3).
        split; [lia|]. exists e'. replace (r - i)%nat with (S (r - S i)) by lia.
        auto.
    + intros H. destruct (IH (S i) j H) as (Hle & e' & H1 & H2 & H3).
      split; [lia|]. exists e'. replace (r - i)%nat with (S (r - S i)) by lia.
      auto.
Qed.

Lemma aliveRefs_length (es : list Enemy.t) (i : nat) :
  length (Frame.aliveRefs i es) = length (List.filter Enemy.isAlive es).
Proof.
  revert i. induction es as [|e es IH]; intros i; cbn [Frame.aliveRefs List.filter];
    [reflexivity|].
  destruct (Enemy.isAlive e); cbn [length]; rewrite IH; reflexivity.
Qed.

Lemma aliveRefs_increasing (es : list Enemy.t) (i j j' r r' : nat) :
  Frame.aliveRefs i es !! j = Some r -> Frame.aliveRefs i es !! j' = Some r' ->
  (j < j')%nat -> (r < r')%nat.
Proof.
  revert i j j'. induction es as [|e es IH]; intros i j j'; cbn [Frame.aliveRefs].
  - rewrite lookup_nil. discriminate.
  - destruct (Enemy.isAlive e); [|apply IH].
    destruct j as [|j], j' as [|j']; cbn [lookup list_lookup]; try lia.
    + intros H H' _. injection H as <-.
      destruct (aliveRefs_lookup es (S i) j' r' H') as [Hle _]. lia.
    + intros H H' Hlt. apply (IH (S i) j j' H H'). lia.
Qed.

Lemma aliveRefs_NoDup (es : list Enemy.t) (i : nat) : NoDup (Frame.aliveRefs i es).
Proof.
  apply NoDup_alt. intros j j' r H H'.
  destruct (Nat.lt_trichotomy j j') as [Hlt | [-> | Hlt]]; [|reflexivity|].
  - pose proof (aliveRefs_increasing es i j j' r r H H' Hlt). lia.
  - pose proof (aliveRefs_increasing es i j' j r r H' H Hlt). lia.
Qed.

Lemma writeBack_cons (r : nat) (refs : list nat) (o : Enemy.t) (objs es : list Enemy.t) :
  Frame.writeBack (r :: refs) (o :: objs) es = Frame.writeBack refs objs (<[r := o]> es).
Proof. reflexivity. Qed.

Lemma writeBack_length (refs : list nat) (objs es : list Enemy.t) :
  length (Frame.writeBack refs objs es) = length es.
Proof.
  revert objs es. induction refs as [|r refs IH]; intros objs es; [reflexivity|].
  destruct objs as [|o objs]; [reflexivity|].
  rewrite writeBack_cons, IH. apply length_insert.
Qed.

Lemma writeBack_other (refs : list nat) (objs es : list Enemy.t) (k : nat) :
  k ∉ refs -> Frame.writeBack refs objs es !! k = es !! k.
Proof.
  revert objs es. induction refs as [|r refs IH]; intros objs es Hk; [reflexivity|].
  destruct objs as [|o objs]; [reflexivity|].
  rewrite writeBack_cons, IH by (intros H; apply Hk; right; exact H).
  apply list_lookup_insert_ne. intros ->. apply Hk. left.
Qed.

Lemma writeBack_at (refs : list nat) (objs es : list Enemy.t) (j r : nat) (o : Enemy.t) :
  NoDup refs -> refs !! j = Some r -> objs !! j = Some o -> (r < length es)%nat ->
  Frame.writeBack refs objs es !! r = Some o.
Proof.
  revert objs es j. induction refs as [|r0 refs IH]; intros objs es j Hnd Hr Ho Hlt.
  - rewrite lookup_nil in Hr. discriminate.
  - destruct objs as [|o0 objs]; [rewrite lookup_nil in Ho; discriminate|].
    rewrite writeBack_cons. apply NoDup_cons in Hnd as [Hnotin Hnd].
    destruct j as [|j]; cbn [lookup list_lookup] in Hr, Ho.
    + injection Hr as ->. injection Ho as ->.
      rewrite writeBack_other by exact Hnotin.
      apply list_lookup_insert_eq. exact Hlt.
    + apply (IH objs _ j Hnd Hr Ho). rewrite length_insert. exact Hlt.
Qed.

(** Writing the array of the live enemies back after one of them has been
    replaced replaces that enemy in the array of the manager. *)
Lemma writeBack_insert (es : list Enemy.t) (j : nat) (t' : Enemy.t) :
  (j < length (List.filter Enemy.isAlive es))%nat ->
  exists k t, Frame.aliveRefs 0 es !! j = Some k /\ es !! k = Some t /\
              List.filter Enemy.isAlive es !! j = Some t /\
              Frame.writeBack (Frame.aliveRefs 0 es)
                              (<[j := t']> (List.filter Enemy.isAlive es)) es
              = <[k := t']> es.
Proof.
  intros Hj.
  destruct (lookup_lt_is_Some_2 (Frame.aliveRefs 0 es) j) as [k Hk];
    [rewrite aliveRefs_length; exact Hj|].
  destruct (aliveRefs_lookup es 0 j k Hk) as (_ & t & Ht & Hjt & _).
  rewrite Nat.sub_0_r in Ht.
  exists k, t. split; [exact Hk|]. split; [exact Ht|]. split; [exact Hjt|].
  apply list_eq. intros n.
  destruct (decide (n ∈ Frame.aliveRefs 0 es)) as [Hin | Hnotin].
  - apply list_elem_of_lookup_1 in Hin as [j' Hj'].
    destruct (aliveRefs_lookup es 0 j' n Hj') as (_ & e & He & Hje & _).
    rewrite Nat.sub_0_r in He.
    assert (Hn : (n < length es)%nat) by (apply lookup_lt_is_Some_1; eauto).
    destruct (decide (j' = j)) as [-> | Hne].
    + assert (n = k) as -> by congruence.
      rewrite (writeBack_at _ _ es j k t' (aliveRefs_NoDup es 0) Hk).
      * symmetry. apply list_lookup_insert_eq. exact Hn.
      * apply list_lookup_insert_eq. exact Hj.
      * exact Hn.
    + rewrite (writeBack_at _ _ es j' n e (aliveRefs_NoDup es 0) Hj').
      * rewrite list_lookup_insert_ne; [symmetry; exact He|].
        intros ->. apply Hne.
        apply (NoDup_lookup _ _ _ _ (aliveRefs_NoDup es 0) Hj' Hk).
      * rewrite list_lookup_insert_ne by congruence. exact Hje.
      * exact Hn.
  - rewrite writeBack_other by exact Hnotin.
    rewrite list_lookup_insert_ne; [reflexivity|].
    intros ->. apply Hnotin. apply (list_elem_of_lookup_2 _ j). exact Hk.
Qed.

(** Writing the array of the live enemies back as it is changes nothing. *)
Lemma writeBack_same (es : list Enemy.t) :
  Frame.writeBack (Frame.aliveRefs 0 es) (List.filter Enemy.isAlive es) es = es.
Proof.
  apply list_eq. intros n.
  destruct (decide (n ∈ Frame.aliveRefs 0 es)) as [Hin | Hnotin].
  - apply list_elem_of_lookup_1 in Hin as [j' Hj'].
    destruct (aliveRefs_lookup es 0 j' n Hj') as (_ & e & He & Hje & _).
    rewrite Nat.sub_0_r in He.
    rewrite (writeBack_at _ _ es j' n e (aliveRefs_NoDup es 0) Hj' Hje);
      [symmetry; exact He|].
    apply lookup_lt_is_Some_1. eauto.
  - apply writeBack_other. exact Hnotin.
Qed.

(** The live enemies of an array in which a live enemy has been replaced. *)
Lemma alive_after_insert (es : list Enemy.t) (k : nat) (t t' : Enemy.t) :
  es !! k = Some t -> Enemy.isAlive t = true ->
  (length (List.filter Enemy.isAlive (<[k := t']> es))
   + (if Enemy.isAlive t' then 0 else 1))%nat
  = length (List.filter Enemy.isAlive es).
Proof.
  revert k. induction es as [|e es IH]; intros k Hk Ht.
  - rewrite lookup_nil in Hk. discriminate.
  - destruct k as [|k]; cbn [lookup list_lookup] in Hk.
    + injection Hk as ->. simpl. rewrite Ht.
      destruct (Enemy.isAlive t'); simpl; lia.
    + simpl. specialize (IH k Hk Ht).
      destruct (Enemy.isAlive t'), (Enemy.isAlive e); simpl in *; lia.
Qed.

(** Whether an enemy that was alive is alive after [takeDamage]. *)
Lemma takeDamage_alive (t : Enemy.t) (dmg : Q) :
  Enemy.isAlive t = true ->
  Enemy.isAlive (Enemy.takeDamage t dmg).2 = negb (Enemy.takeDamage t dmg).1.
Proof.
  unfold Enemy.isAlive, Enemy.takeDamage. intros Ht.
  destruct (bool_decide (Enemy.state t = DEAD)) eqn:Hd; [discriminate|].
  apply bool_decide_eq_false in Hd.
  destruct (JS.leb _ 0); [reflexivity|].
  cbn [Enemy.state Enemy.set_health].
  destruct (bool_decide (Enemy.state t = IDLE)); cbn [fst snd Enemy.state Enemy.set_state Enemy.set_health].
  - reflexivity.
  - rewrite bool_decide_eq_false_2 by exact Hd. reflexivity.
Qed.

(** The three ways in which [shoot] ends. *)
Lemma shoot_cases (m : CombatManager.t) (px py dx dy : Q) (enemies : list Enemy.t)
    (grid : option (list Z)) (mapSize : Z) (w : World) :
  let r := CombatManager.shoot m px py dx dy enemies grid mapSize w in
  r.2 = afterClock w /\
  ((r.1.1.1 = CombatManager.OnCooldown /\ r.1.1.2 = m /\ r.1.2 = enemies) \/
   (r.1.1.1 = CombatManager.Miss /\
    CombatManager.kills r.1.1.2 = CombatManager.kills m /\ r.1.2 = enemies) \/
   (exists i target dmg dist,
      let hit := Combat.damageEnemy target dmg in
      r.1.1.1 = CombatManager.Hit i hit.1 dmg dist /\
      enemies !! i = Some target /\
      CombatManager.kills r.1.1.2
        = (CombatManager.kills m + (if hit.1 then 1 else 0))%Z /\
      r.1.2 = <[i := hit.2]> enemies)).
Proof.
  intros r. subst r. unfold CombatManager.shoot, bind, Date_now, ret. cbn [fst snd].
  destruct (_ <? _)%Z; [split; [reflexivity | left; auto]|].
  destruct (Combat.enemy _) as [i|]; [|split; [reflexivity | right; left; auto]].
  destruct (enemies !! i) as [target|] eqn:Hi; [|split; [reflexivity | right; left; auto]].
  destruct (Combat.damageEnemy target _) as [died target'] eqn:Ed. cbn [fst snd].
  split; [reflexivity|]. right. right. eexists i, target, _, _. cbv zeta.
  rewrite Ed. cbn [fst snd CombatManager.kills].
  split; [reflexivity|]. split; [exact Hi|].
  split; [destruct died; lia | reflexivity].
Qed.

(** X22.  A shot of the player (click or space bar, pointer locked) and the
    gold.  The shot leaves the player where it is and the array of enemies
    at its length.  Either nothing dies: [kills], the gold and the number of
    live enemies stay; or one enemy dies: [kills] goes up by one, one enemy
    fewer is alive, and the gold goes up by a whole amount of at least 10
    and at most 29. *)
Theorem kill_pays_gold (sc : Frame.Scene) (st : Frame.State) (gold : Q) (w : World) :
  fair w ->
  let r := Frame.onShoot sc st gold w in
  let before := EnemyManager.getAliveEnemies (Frame.enemyManager st) in
  let after := EnemyManager.getAliveEnemies (Frame.enemyManager r.1.1) in
  let kills0 := CombatManager.kills (Frame.combatManager st) in
  let kills1 := CombatManager.kills (Frame.combatManager r.1.1) in
  Frame.player r.1.1 = Frame.player st /\
  length (EnemyManager.enemies (Frame.enemyManager r.1.1))
    = length (EnemyManager.enemies (Frame.enemyManager st)) /\
  ((kills1 = kills0 /\ r.1.2 = gold /\ length after = length before) \/
   (kills1 = (kills0 + 1)%Z /\ S (length after) = length before /\
    exists goldDrop : Z, (10 <= goldDrop <= 29)%Z /\
                         r.1.2 = (gold + inject_Z goldDrop)%Q)).
Proof.
  intros Hw r before after kills0 kills1.
  subst r before after kills0 kills1.
  unfold Frame.onShoot, bind, EnemyManager.getAliveEnemies.
  set (es := EnemyManager.enemies (Frame.enemyManager st)).
  set (p := Frame.player st).
  pose proof (shoot_cases (Frame.combatManager st) (Frame.x p) (Frame.y p)
                (Frame.dirX p) (Frame.dirY p) (List.filter Enemy.isAlive es)
                (Some (Frame.mapData sc)) (Frame.mapSize sc) w) as H.
  cbv zeta in H.
  destruct (CombatManager.shoot _ _ _ _ _ _ _ _ w) as [[[result cm1] enemies1] w1].
  cbn [fst snd] in H. destruct H as [Hw1 H].
  destruct H as [(-> & -> & ->) | [(-> & Hk & ->) | (i & target & dmg & dist & -> & Hi & Hk & ->)]].
  - unfold ret. cbn [fst snd Frame.player Frame.enemyManager Frame.combatManager
                     EnemyManager.enemies].
    rewrite writeBack_same.
    split; [reflexivity|]. split; [reflexivity|]. left.
    split; [reflexivity | split; reflexivity].
  - unfold ret. cbn [fst snd Frame.player Frame.enemyManager Frame.combatManager
                     EnemyManager.enemies].
    rewrite writeBack_same.
    split; [reflexivity|]. split; [reflexivity|]. left.
    split; [exact Hk | split; reflexivity].
  - destruct (writeBack_insert es i (Combat.damageEnemy target dmg).2)
      as (k & t & Hrefs & Hes & Halive & Hwb).
    { apply lookup_lt_is_Some_1. eauto. }
    assert (t = target) as -> by congruence.
    assert (Ht : Enemy.isAlive target = true).
    { destruct (aliveRefs_lookup es 0 i k Hrefs) as (_ & e & He & _ & Ha).
      rewrite Nat.sub_0_r in He. congruence. }
    pose proof (alive_after_insert es k target (Combat.damageEnemy target dmg).2 Hes Ht)
      as Hcount.
    revert Hk Hcount Hwb. unfold Combat.damageEnemy. rewrite Ht. cbn [negb].
    rewrite (takeDamage_alive target dmg Ht).
    destruct (Enemy.takeDamage target dmg) as [died target'] eqn:Etd. cbn [fst snd].
    intros Hk Hcount Hwb.
    destruct died; cbn [negb] in Hcount.
    + unfold Math_random, ret.
      cbn [fst snd Frame.player Frame.enemyManager Frame.combatManager
           EnemyManager.enemies].
      rewrite Hwb, length_insert.
      split; [reflexivity|]. split; [reflexivity|]. right.
      split; [exact Hk|]. split; [lia|].
      eexists. split; [|reflexivity].
      subst w1. cbn [afterClock dice rolls].
      destruct (Hw (rolls w)) as [H0 H1].
      pose proof (floor_random (dice w (rolls w)) 20 H0 H1) as Hf.
      change (inject_Z 20) with 20%Q in Hf. lia.
    + unfold ret.
      cbn [fst snd Frame.player Frame.enemyManager Frame.combatManager
           EnemyManager.enemies].
      rewrite Hwb, length_insert.
      split; [reflexivity|]. split; [reflexivity|]. left.
      split; [lia|]. split; [reflexivity | lia].
Qed.

Lemma kill_pays_gold_witness :
  let st := Frame.mkState (Frame.mkPlayer (3 # 2) (3 # 2) 1 0 0 (66 # 100) 100 100)
              0 (Frame.mkShake 0 0 0 0) false
              (EnemyManager.mk [enemyAt (5 # 2) (3 # 2) DEAD;
                                Enemy.set_health (enemyAt (5 # 2) (3 # 2) CHASE) 20] 2)
              (CombatManager.create Combat.pistol)
              4000 0 false None false None [] true in
  let r := Frame.onShoot duelScene st 100 world0 in
  let before := EnemyManager.getAliveEnemies (Frame.enemyManager st) in
  let after := EnemyManager.getAliveEnemies (Frame.enemyManager r.1.1) in
  let kills0 := CombatManager.kills (Frame.combatManager st) in
  let kills1 := CombatManager.kills (Frame.combatManager r.1.1) in
  Frame.player r.1.1 = Frame.player st /\
  length (EnemyManager.enemies (Frame.enemyManager r.1.1))
    = length (EnemyManager.enemies (Frame.enemyManager st)) /\
  ((kills1 = kills0 /\ r.1.2 = 100%Q /\ length after = length before) \/
   (kills1 = (kills0 + 1)%Z /\ S (length after) = length before /\
    exists goldDrop : Z, (10 <= goldDrop <= 29)%Z /\
                         r.1.2 = (100 + inject_Z goldDrop)%Q)).
Proof.
  apply (kill_pays_gold duelScene
           (Frame.mkState (Frame.mkPlayer (3 # 2) (3 # 2) 1 0 0 (66 # 100) 100 100)
              0 (Frame.mkShake 0 0 0 0) false
              (EnemyManager.mk [enemyAt (5 # 2) (3 # 2) DEAD;
                                Enemy.set_health (enemyAt (5 # 2) (3 # 2) CHASE) 20] 2)
              (CombatManager.create Combat.pistol)
              4000 0 false None false None [] true) 100 world0).
  intros k. vm_compute. split; [discriminate | reflexivity].
Defined.
